(** * mcp-arena: rule interpreter, perception and tick engine

    A shallow embedding of [apps/functions/src/battleEngine.ts] and
    [apps/functions/src/parser.ts].

    Number model.  A JavaScript [number] that the engine keeps in a robot
    (position, heading, energy) is a real number: IEEE-754 rounding of the
    individual operations is abstracted, [Number(v.toFixed(d))] is rounding
    half away from zero to [d] decimals, [Math.*] are the functions of the
    real-number library.  Counters of ticks are integers ([Z]).  The values
    met by the rule interpreter are [JsValue]s: a number, [null], or
    [undefined] (a key absent from the sensor table); [Number.isFinite] of
    an arithmetic result is the test that its magnitude does not exceed
    [Number.MAX_VALUE].  The parser reads a number of the script as the
    rational that its digits denote. *)

From Stdlib Require Import Reals Zfloor Lra Lia ZArith QArith Qreals.
From Stdlib Require Import List Sorted String Ascii Bool.
Import ListNotations.

Set Warnings "-register-all".
Open Scope R_scope.

(** ** JavaScript arithmetic *)

Definition Rleb (a b : R) : bool := if Rle_dec a b then true else false.
Definition Rltb (a b : R) : bool := if Rlt_dec a b then true else false.

(** [Number(v.toFixed(digits))] *)
Definition toFixed (digits : nat) (v : R) : R :=
  let scale := 10 ^ digits in
  if Rltb v 0
  then - (IZR (Zfloor (- v * scale + / 2)) / scale)
  else IZR (Zfloor (v * scale + / 2)) / scale.

(** Truncation toward zero, and the remainder operator [a % n]. *)
Definition Ztrunc (v : R) : Z := if Rltb v 0 then Zceil v else Zfloor v.
Definition jsRem (a n : R) : R := a - n * IZR (Ztrunc (a / n)).

Definition hypot (a b : R) : R := sqrt (a * a + b * b).

(** [Math.atan2(y, x)] *)
Definition atan2 (y x : R) : R :=
  if Rltb 0 x then atan (y / x)
  else if Rltb x 0 then (if Rleb 0 y then atan (y / x) + PI else atan (y / x) - PI)
  else if Rltb 0 y then PI / 2
  else if Rltb y 0 then - (PI / 2)
  else 0.

(** [Number.MAX_VALUE] and [Number.isFinite] on the result of an operation. *)
Definition MAX_VALUE : R := (2 - / 2 ^ 52) * 2 ^ 1023.
Definition isFinite (v : R) : bool := Rleb (Rabs v) MAX_VALUE.

(** ** parser.ts: the typed program *)

Inductive ControlField := THROTTLE | STRAFE | TURN.
Inductive ComparisonOperator := OpGt | OpGe | OpLt | OpLe | OpEq | OpNe.
Inductive BoostDirection := LEFT | RIGHT.

Inductive SensorVariable :=
  | ARENA_SIZE | SENSOR_SHOT_RANGE | SENSOR_SHOT_HIT_RADIUS
  | SELF_X | SELF_Y | SELF_HEADING | SELF_ENERGY | BOOST_COOLDOWN
  | TICKS_SINCE_ENEMY_SEEN
  | ENEMY_X | ENEMY_Y | ENEMY_HEADING | ENEMY_DX | ENEMY_DY | ENEMY_DISTANCE
  | ENEMY_FORWARD_DISTANCE | ENEMY_LATERAL_OFFSET
  | PREV_ENEMY_X | PREV_ENEMY_Y | PREV_ENEMY_HEADING
  | PREV_ENEMY_DX | PREV_ENEMY_DY | PREV_ENEMY_DISTANCE
  | ENEMY_DX_DELTA | ENEMY_DY_DELTA | ENEMY_DISTANCE_DELTA
  | WALL_AHEAD_DISTANCE | WALL_LEFT_DISTANCE | WALL_RIGHT_DISTANCE
  | WALL_BACK_DISTANCE | WALL_NEAREST_DISTANCE.

Inductive RuleCommand :=
  | SET_CONTROL (field : ControlField) (value : R)
  | FIRE (enabled : bool)
  | BOOST (direction : BoostDirection).

Inductive ExpressionFunctionName :=
  | ABS | MIN | MAX | CLAMP | ATAN2 | ANGLE_DIFF | NORMALIZE_ANGLE.
Inductive ExpressionBinaryOperator := BinAdd | BinSub | BinMul | BinDiv.
Inductive ExpressionUnaryOperator := UnPlus | UnMinus.

Inductive NumericExpression :=
  | NUMBER_LITERAL (value : R)
  | SENSOR (variable : SensorVariable)
  | UNARY (operator : ExpressionUnaryOperator) (operand : NumericExpression)
  | BINARY (operator : ExpressionBinaryOperator) (left right : NumericExpression)
  | FUNCTION (name : ExpressionFunctionName) (args : list NumericExpression).

Inductive LogicalOperator := AND | OR.

Inductive RuleCondition :=
  | VISIBILITY (visible : bool)
  | COMPARE (left : NumericExpression) (operator : ComparisonOperator)
            (right : NumericExpression)
  | LOGICAL (operator : LogicalOperator) (left right : RuleCondition)
  | NOT (operand : RuleCondition).

Record ScriptAction := {
  line : nat;
  condition : option RuleCondition;
  command : RuleCommand
}.

(** ** battleEngine.ts: constants *)

Definition TARGET_FPS : R := 60.
Definition VISION_RADIUS : R := 8.
Definition SHOT_RANGE : R := 5.
Definition VISION_HALF_ANGLE_RAD : R := PI / 3.
Definition ROBOT_COLLISION_RADIUS : R := 34 / 100.
Definition SHOT_HIT_RADIUS : R := 36 / 100.
Definition TICK_DURATION_MS : R := 1000 / TARGET_FPS.
Definition FIRE_MOVEMENT_MULTIPLIER : R := / 2.
Definition FIRE_TURN_MULTIPLIER : R := / 2.
Definition FIRE_COOLDOWN_TICKS : Z := 1.
Definition FIRE_ENERGY_COST : R := 6.
Definition PROJECTILE_TICKS_PER_TILE : R := 2.
Definition SIDE_BOOST_FORCE_SEQUENCE : list Z := [5; 4; 3; 2; 1]%Z.
Definition SIDE_BOOST_BURST_TICKS : Z := Z.of_nat (List.length SIDE_BOOST_FORCE_SEQUENCE).
Definition SIDE_BOOST_ENERGY_MAX : R := 100.
Definition SIDE_BOOST_ENERGY_COST : R := 35.
Definition SIDE_BOOST_ENERGY_REGEN_PER_SECOND : R := 15.
Definition SIDE_BOOST_COOLDOWN_TICKS : Z := 10.
Definition EPSILON : R := / 1000000.
Definition MEMORY_UNSEEN_TICKS_INITIAL : Z := 9999.

Definition TICKS_PER_TILE_FORWARD : R := 8.
Definition TICKS_PER_TILE_STRAFE : R := 12.
Definition TICKS_PER_TILE_BACKWARD : R := 16.

Definition SPEED_PER_SECOND_FORWARD : R :=
  1 / ((TICKS_PER_TILE_FORWARD * TICK_DURATION_MS) / 1000).
Definition SPEED_PER_SECOND_STRAFE : R :=
  1 / ((TICKS_PER_TILE_STRAFE * TICK_DURATION_MS) / 1000).
Definition SPEED_PER_SECOND_BACKWARD : R :=
  1 / ((TICKS_PER_TILE_BACKWARD * TICK_DURATION_MS) / 1000).
Definition PROJECTILE_SPEED_TILES_PER_SECOND : R :=
  1 / ((PROJECTILE_TICKS_PER_TILE * TICK_DURATION_MS) / 1000).

Definition TURN_RATE_DEG_PER_SECOND : R := 360.
Definition TURN_RATE_RAD_PER_SECOND : R := (TURN_RATE_DEG_PER_SECOND * PI) / 180.

(** ** battleEngine.ts: data *)

Inductive Direction := DirN | DirE | DirS | DirW.
Inductive DistanceBand := near | mid | far.
Inductive Bearing := FRONT | FRONT_LEFT | FRONT_RIGHT.
Inductive ArenaWallSide := NORTH | EAST | SOUTH | WEST.
Inductive RelativeWallDirection := AHEAD | WALL_LEFT | WALL_RIGHT | BACK.

Record Position := { x : R; y : R }.
Record Vector := { dx : R; dy : R }.

Record LocalCoordinates := { forward : R; lateral : R }.

(** A projectile trace of the tick log. *)
Record Projectile := {
  from : Position;
  to : Position;
  trace_direction : Direction;
  range : R;
  hit : bool;
  targetRobotId : option string
}.

Record EnemyPerception := {
  enemy_id : string;
  enemy_robotName : string;
  enemy_dx : R;
  enemy_dy : R;
  enemy_distance : R;
  enemy_distanceBand : DistanceBand;
  enemy_bearing : Bearing;
  enemy_headingDeg : R;
  enemy_headingDirection : Direction;
  enemy_absolutePosition : Position
}.

Record WallRayHit := {
  point : Position;
  side : ArenaWallSide;
  distance : R
}.

Record WallPerception := {
  wall_arenaSize : R;
  aheadDistance : R;
  leftDistance : R;
  rightDistance : R;
  backDistance : R;
  nearestDistance : R;
  nearestDirection : RelativeWallDirection;
  sightArc_center : WallRayHit;
  sightArc_leftEdge : WallRayHit;
  sightArc_rightEdge : WallRayHit
}.

Record Perception := {
  perception_range : R;
  enemyVisible : bool;
  enemy : option EnemyPerception;
  wall : WallPerception
}.

Record RobotSnapshot := {
  snap_id : string;
  snap_robotName : string;
  snap_x : R;
  snap_y : R;
  snap_direction : Direction;
  snap_angleDeg : R;
  snap_alive : bool;
  snap_energy : R;
  snap_boostCooldownTicks : Z
}.

Record BattleSnapshot := {
  robotA : RobotSnapshot;
  robotB : RobotSnapshot
}.

Record BattleRobotInput := {
  input_id : string;
  input_robotName : string;
  parsedProgram : list ScriptAction
}.

Record ControlState := {
  throttle : R;
  strafe : R;
  turn : R;
  fire : bool;
  boost : option BoostDirection
}.

Record ControlDecision := {
  totalRules : nat;
  controls : ControlState;
  matchedRuleLines : list nat
}.

(** What a lookup in the sensor table, or the evaluation of an expression,
    yields at run time. *)
Inductive JsValue :=
  | JNumber (v : R)
  | JNull
  | JUndefined.

Record SensorContext := {
  sensor_enemyVisible : bool;
  values : SensorVariable -> JsValue
}.

Record EnemyMemoryState := {
  prevEnemyX : option R;
  prevEnemyY : option R;
  prevEnemyHeading : option R;
  prevEnemyDx : option R;
  prevEnemyDy : option R;
  prevEnemyDistance : option R;
  ticksSinceEnemySeen : Z
}.

Record RobotState := {
  id : string;
  robotName : string;
  robot_x : R;
  robot_y : R;
  direction : Direction;
  headingRad : R;
  alive : bool;
  fireCooldownTicks : Z;
  energy : R;
  boostCooldownTicks : Z;
  boostBurstTicksRemaining : Z;
  boostDirectionLocked : option BoostDirection;
  enemyMemory : EnemyMemoryState;
  program : list ScriptAction
}.

Record Trail := { trail_from : Position; trail_to : Position }.

Record MovementOutcome := {
  attempted : bool;
  move_dx : R;
  move_dy : R;
  move_distance : R;
  blockedByRobot : bool;
  hitBoundary : bool;
  speedMultiplier : R;
  boostRequested : bool;
  boostUsed : bool;
  boostDirection : option BoostDirection;
  boostDistance : R;
  boostForceLevel : Z;
  move_boostBurstTicksRemaining : Z;
  move_energyBefore : R;
  move_energyAfter : R;
  boostCooldownRemaining : Z;
  boostTrail : option Trail
}.

Record RotationOutcome := { deltaDeg : R }.

Record FireOutcome := {
  triggerHeld : bool;
  shotFired : bool;
  cooldownRemaining : Z;
  blockedByEnergy : bool;
  fire_energyBefore : R;
  fire_energyAfter : R;
  fire_hit : bool;
  fire_projectile : option Projectile
}.

Record InFlightProjectile := {
  shooterRobotId : string;
  inflight_targetRobotId : string;
  position : Position;
  inflight_direction : Vector;
  directionCardinal : Direction;
  traveledDistance : R;
  maxRange : R
}.

(** A JavaScript object used as [Record<string, T>]: a later write to a key
    replaces the earlier one. *)
Definition JsRecord (T : Type) : Type := string -> option T.
Definition emptyRecord {T} : JsRecord T := fun _ => None.
Definition setKey {T} (key : string) (value : T) (r : JsRecord T) : JsRecord T :=
  fun k => if String.eqb k key then Some value else r k.
Definition hasKey {T} (key : string) (r : JsRecord T) : bool :=
  match r key with Some _ => true | None => false end.

(** ** battleEngine.ts: geometry *)

Definition DIRECTION_ANGLE_DEG (d : Direction) : R :=
  match d with DirE => 0 | DirS => 90 | DirW => 180 | DirN => 270 end.

Definition normalizeAngleRad (angle : R) : R :=
  let twoPi := PI * 2 in
  let normalized := jsRem angle twoPi in
  if Rltb normalized 0 then normalized + twoPi else normalized.

Definition normalizeHeadingDeg (value : R) : R :=
  let normalized := jsRem value 360 in
  if Rltb normalized 0 then normalized + 360 else normalized.

Definition directionFromHeading (headingRad : R) : Direction :=
  let deg := (normalizeAngleRad headingRad * 180) / PI in
  if Rleb 315 deg || Rltb deg 45 then DirE
  else if Rleb 45 deg && Rltb deg 135 then DirS
  else if Rleb 135 deg && Rltb deg 225 then DirW
  else DirN.

Definition headingByDirection (d : Direction) : R :=
  (DIRECTION_ANGLE_DEG d * PI) / 180.

Definition headingVector (headingRad : R) : Vector :=
  {| dx := cos headingRad; dy := sin headingRad |}.

Definition toLocalCoordinates (headingRad dx0 dy0 : R) : LocalCoordinates :=
  let fwd := headingVector headingRad in
  let right := {| dx := - dy fwd; dy := dx fwd |} in
  {| forward := dx0 * dx fwd + dy0 * dy fwd;
     lateral := dx0 * dx right + dy0 * dy right |}.

Definition distanceBand (d : R) : DistanceBand :=
  if Rleb d 2 then near else if Rleb d 4 then mid else far.

Definition bearingByLateral (lat : R) : Bearing :=
  if Rleb (Rabs lat) (75 / 100) then FRONT
  else if Rltb 0 lat then FRONT_RIGHT else FRONT_LEFT.

Definition clampToArena (p : Position) (arenaSize : R) : Position * bool :=
  let clampedX := Rmax 0 (Rmin (arenaSize - 1) (x p)) in
  let clampedY := Rmax 0 (Rmin (arenaSize - 1) (y p)) in
  ({| x := toFixed 4 clampedX; y := toFixed 4 clampedY |},
   Rltb EPSILON (Rabs (clampedX - x p)) || Rltb EPSILON (Rabs (clampedY - y p))).

(** [Array.prototype.sort] with the comparator [(l, r) => key l - key r]:
    a stable sort by increasing key. *)
Fixpoint insertByKey {T} (key : T -> R) (e : T) (l : list T) : list T :=
  match l with
  | [] => [e]
  | c :: rest => if Rleb (key e) (key c) then e :: c :: rest
                 else c :: insertByKey key e rest
  end.
Definition sortByKey {T} (key : T -> R) (l : list T) : list T :=
  fold_right (insertByKey key) [] l.

Definition buildWallRayHit (origin : Position) (dir : Vector) (arenaSize : R)
  : WallRayHit :=
  let maxCoord := arenaSize - 1 in
  let inside (v : R) := Rleb (- EPSILON) v && Rleb v (maxCoord + EPSILON) in
  let clampCoord (v : R) := toFixed 4 (Rmax 0 (Rmin maxCoord v)) in
  let tWest := (0 - x origin) / dx dir in
  let tEast := (maxCoord - x origin) / dx dir in
  let tNorth := (0 - y origin) / dy dir in
  let tSouth := (maxCoord - y origin) / dy dir in
  let west :=
    if Rltb EPSILON (Rabs (dx dir)) && Rltb EPSILON tWest
       && inside (y origin + tWest * dy dir)
    then [ {| point := {| x := 0; y := clampCoord (y origin + tWest * dy dir) |};
              side := WEST; distance := tWest |} ]
    else [] in
  let east :=
    if Rltb EPSILON (Rabs (dx dir)) && Rltb EPSILON tEast
       && inside (y origin + tEast * dy dir)
    then [ {| point := {| x := maxCoord; y := clampCoord (y origin + tEast * dy dir) |};
              side := EAST; distance := tEast |} ]
    else [] in
  let north :=
    if Rltb EPSILON (Rabs (dy dir)) && Rltb EPSILON tNorth
       && inside (x origin + tNorth * dx dir)
    then [ {| point := {| x := clampCoord (x origin + tNorth * dx dir); y := 0 |};
              side := NORTH; distance := tNorth |} ]
    else [] in
  let south :=
    if Rltb EPSILON (Rabs (dy dir)) && Rltb EPSILON tSouth
       && inside (x origin + tSouth * dx dir)
    then [ {| point := {| x := clampCoord (x origin + tSouth * dx dir); y := maxCoord |};
              side := SOUTH; distance := tSouth |} ]
    else [] in
  let candidates := west ++ east ++ north ++ south in
  match sortByKey distance candidates with
  | [] => {| point := {| x := toFixed 4 (x origin); y := toFixed 4 (y origin) |};
             side := NORTH; distance := 0 |}
  | nearest :: _ => {| point := point nearest; side := side nearest;
                       distance := toFixed 4 (distance nearest) |}
  end.

Definition buildWallPerception (actor : RobotState) (arenaSize : R) : WallPerception :=
  let origin := {| x := robot_x actor; y := robot_y actor |} in
  let fwd := headingVector (headingRad actor) in
  let right := {| dx := - dy fwd; dy := dx fwd |} in
  let left := {| dx := - dx right; dy := - dy right |} in
  let back := {| dx := - dx fwd; dy := - dy fwd |} in
  let aheadHit := buildWallRayHit origin fwd arenaSize in
  let leftHit := buildWallRayHit origin left arenaSize in
  let rightHit := buildWallRayHit origin right arenaSize in
  let backHit := buildWallRayHit origin back arenaSize in
  let leftEdgeDir := headingVector (headingRad actor - VISION_HALF_ANGLE_RAD) in
  let rightEdgeDir := headingVector (headingRad actor + VISION_HALF_ANGLE_RAD) in
  let leftEdgeHit := buildWallRayHit origin leftEdgeDir arenaSize in
  let rightEdgeHit := buildWallRayHit origin rightEdgeDir arenaSize in
  let wallDistances :=
    [ (AHEAD, distance aheadHit); (WALL_LEFT, distance leftHit);
      (WALL_RIGHT, distance rightHit); (BACK, distance backHit) ] in
  let nearestEntry := hd (AHEAD, distance aheadHit) (sortByKey snd wallDistances) in
  {| wall_arenaSize := arenaSize;
     aheadDistance := distance aheadHit;
     leftDistance := distance leftHit;
     rightDistance := distance rightHit;
     backDistance := distance backHit;
     nearestDistance := toFixed 4 (snd nearestEntry);
     nearestDirection := fst nearestEntry;
     sightArc_center := aheadHit;
     sightArc_leftEdge := leftEdgeHit;
     sightArc_rightEdge := rightEdgeHit |}.

Definition buildPerception (actor opponent : RobotState) (arenaSize : R) : Perception :=
  let base := {| perception_range := VISION_RADIUS; enemyVisible := false;
                 enemy := None; wall := buildWallPerception actor arenaSize |} in
  if negb (alive actor) then base
  else if negb (alive opponent) then base
  else
    let dx0 := robot_x opponent - robot_x actor in
    let dy0 := robot_y opponent - robot_y actor in
    let dist := sqrt (dx0 * dx0 + dy0 * dy0) in
    if Rltb VISION_RADIUS dist then base
    else
      let loc := toLocalCoordinates (headingRad actor) dx0 dy0 in
      if Rleb (forward loc) 0 then base
      else
        let viewAngle := atan2 (Rabs (lateral loc)) (Rmax (/ 10000) (forward loc)) in
        if Rltb VISION_HALF_ANGLE_RAD viewAngle then base
        else
          let opponentHeadingDeg :=
            normalizeHeadingDeg ((headingRad opponent * 180) / PI) in
          {| perception_range := VISION_RADIUS;
             enemyVisible := true;
             wall := wall base;
             enemy := Some
               {| enemy_id := id opponent;
                  enemy_robotName := robotName opponent;
                  enemy_dx := toFixed 4 dx0;
                  enemy_dy := toFixed 4 dy0;
                  enemy_distance := toFixed 2 dist;
                  enemy_distanceBand := distanceBand dist;
                  enemy_bearing := bearingByLateral (lateral loc);
                  enemy_headingDeg := toFixed 2 opponentHeadingDeg;
                  enemy_headingDirection := directionFromHeading (headingRad opponent);
                  enemy_absolutePosition :=
                    {| x := toFixed 4 (robot_x opponent);
                       y := toFixed 4 (robot_y opponent) |} |} |}.

Definition snapshotRobot (robot : RobotState) : RobotSnapshot :=
  let headingDeg := (normalizeAngleRad (headingRad robot) * 180) / PI in
  {| snap_id := id robot;
     snap_robotName := robotName robot;
     snap_x := toFixed 4 (robot_x robot);
     snap_y := toFixed 4 (robot_y robot);
     snap_direction := directionFromHeading (headingRad robot);
     snap_angleDeg := toFixed 2 headingDeg;
     snap_alive := alive robot;
     snap_energy := toFixed 2 (energy robot);
     snap_boostCooldownTicks := boostCooldownTicks robot |}.

Definition snapshotBattle (a b : RobotState) : BattleSnapshot :=
  {| robotA := snapshotRobot a; robotB := snapshotRobot b |}.

(** ** battleEngine.ts: sensors and enemy memory *)

Definition compareNumbers (l : R) (operator : ComparisonOperator) (r : R) : bool :=
  match operator with
  | OpGt => Rltb r l
  | OpGe => Rleb r l
  | OpLt => Rltb l r
  | OpLe => Rleb l r
  | OpNe => Rltb EPSILON (Rabs (l - r))
  | OpEq => Rleb (Rabs (l - r)) EPSILON
  end.

Definition nullable (v : option R) : JsValue :=
  match v with Some n => JNumber n | None => JNull end.

(** [perception.enemyVisible && perception.enemy ? perception.enemy : null] *)
Definition currentEnemyOf (perception : Perception) : option EnemyPerception :=
  if enemyVisible perception then enemy perception else None.

Definition buildSensorContext (actor opponent : RobotState) (perception : Perception)
    (arenaSize : R) : SensorContext :=
  let selfHeadingDeg := normalizeHeadingDeg ((headingRad actor * 180) / PI) in
  let memory := enemyMemory actor in
  let currentEnemy := currentEnemyOf perception in
  let delta (current : EnemyPerception -> R) (prev : option R) : JsValue :=
    match currentEnemy, prev with
    | Some e, Some p => JNumber (toFixed 4 (current e - p))
    | _, _ => JNull
    end in
  let whenVisible (f : EnemyPerception -> R) : JsValue :=
    match currentEnemy with Some e => JNumber (f e) | None => JNull end in
  {| sensor_enemyVisible := enemyVisible perception;
     values := fun variable =>
       match variable with
       | ARENA_SIZE => JNumber arenaSize
       | SELF_X => JNumber (toFixed 4 (robot_x actor))
       | SELF_Y => JNumber (toFixed 4 (robot_y actor))
       | SELF_HEADING => JNumber (toFixed 2 selfHeadingDeg)
       | SELF_ENERGY => JNumber (toFixed 2 (energy actor))
       | BOOST_COOLDOWN => JNumber (IZR (boostCooldownTicks actor))
       | TICKS_SINCE_ENEMY_SEEN =>
           match currentEnemy with
           | Some _ => JNumber 0
           | None => JNumber (IZR (ticksSinceEnemySeen memory))
           end
       | ENEMY_X => whenVisible (fun _ => toFixed 4 (robot_x opponent))
       | ENEMY_Y => whenVisible (fun _ => toFixed 4 (robot_y opponent))
       | ENEMY_HEADING => whenVisible enemy_headingDeg
       | ENEMY_DX => whenVisible enemy_dx
       | ENEMY_DY => whenVisible enemy_dy
       | ENEMY_DISTANCE => whenVisible enemy_distance
       | PREV_ENEMY_X => nullable (prevEnemyX memory)
       | PREV_ENEMY_Y => nullable (prevEnemyY memory)
       | PREV_ENEMY_HEADING => nullable (prevEnemyHeading memory)
       | PREV_ENEMY_DX => nullable (prevEnemyDx memory)
       | PREV_ENEMY_DY => nullable (prevEnemyDy memory)
       | PREV_ENEMY_DISTANCE => nullable (prevEnemyDistance memory)
       | ENEMY_DX_DELTA => delta enemy_dx (prevEnemyDx memory)
       | ENEMY_DY_DELTA => delta enemy_dy (prevEnemyDy memory)
       | ENEMY_DISTANCE_DELTA => delta enemy_distance (prevEnemyDistance memory)
       | WALL_AHEAD_DISTANCE => JNumber (aheadDistance (wall perception))
       | WALL_LEFT_DISTANCE => JNumber (leftDistance (wall perception))
       | WALL_RIGHT_DISTANCE => JNumber (rightDistance (wall perception))
       | WALL_BACK_DISTANCE => JNumber (backDistance (wall perception))
       | WALL_NEAREST_DISTANCE => JNumber (nearestDistance (wall perception))
       (* keys the engine's table does not define *)
       | SENSOR_SHOT_RANGE | SENSOR_SHOT_HIT_RADIUS
       | ENEMY_FORWARD_DISTANCE | ENEMY_LATERAL_OFFSET => JUndefined
       end |}.

Definition setEnemyMemory (m : EnemyMemoryState) (r : RobotState) : RobotState :=
  {| id := id r; robotName := robotName r; robot_x := robot_x r; robot_y := robot_y r;
     direction := direction r; headingRad := headingRad r; alive := alive r;
     fireCooldownTicks := fireCooldownTicks r; energy := energy r;
     boostCooldownTicks := boostCooldownTicks r;
     boostBurstTicksRemaining := boostBurstTicksRemaining r;
     boostDirectionLocked := boostDirectionLocked r;
     enemyMemory := m; program := program r |}.

Definition updateEnemyMemory (actor opponent : RobotState) (perception : Perception)
  : RobotState :=
  match currentEnemyOf perception with
  | None =>
      let m := enemyMemory actor in
      setEnemyMemory
        {| prevEnemyX := prevEnemyX m; prevEnemyY := prevEnemyY m;
           prevEnemyHeading := prevEnemyHeading m;
           prevEnemyDx := prevEnemyDx m; prevEnemyDy := prevEnemyDy m;
           prevEnemyDistance := prevEnemyDistance m;
           ticksSinceEnemySeen :=
             Z.min MEMORY_UNSEEN_TICKS_INITIAL (ticksSinceEnemySeen m + 1) |}
        actor
  | Some e =>
      setEnemyMemory
        {| prevEnemyX := Some (toFixed 4 (robot_x opponent));
           prevEnemyY := Some (toFixed 4 (robot_y opponent));
           prevEnemyHeading := Some (enemy_headingDeg e);
           prevEnemyDx := Some (enemy_dx e);
           prevEnemyDy := Some (enemy_dy e);
           prevEnemyDistance := Some (enemy_distance e);
           ticksSinceEnemySeen := 0 |}
        actor
  end.

(** ** battleEngine.ts: the rule interpreter *)

Definition shortestAngleDiffDeg (targetDeg currentDeg : R) : R :=
  let diff := normalizeHeadingDeg targetDeg - normalizeHeadingDeg currentDeg in
  if Rltb 180 diff then diff - 360
  else if Rleb diff (- 180) then diff + 360
  else diff.

Definition finiteOrNull (v : R) : JsValue :=
  if isFinite v then JNumber v else JNull.

(** [resolvedArgs[i]] as an operand of [Math.*]: a missing or [undefined]
    entry is [NaN], here [None]. *)
Definition argNumber (resolvedArgs : list JsValue) (i : nat) : option R :=
  match nth i resolvedArgs JUndefined with
  | JNumber v => Some v
  | _ => None
  end.

Definition lift1 (f : R -> R) (a : option R) : option R :=
  match a with Some v => Some (f v) | None => None end.
Definition lift2 (f : R -> R -> R) (a b : option R) : option R :=
  match a, b with Some v, Some w => Some (f v w) | _, _ => None end.

Definition applyFunction (name : ExpressionFunctionName) (resolvedArgs : list JsValue)
  : option R :=
  let arg := argNumber resolvedArgs in
  match name with
  | ABS => lift1 Rabs (arg 0%nat)
  | MIN => lift2 Rmin (arg 0%nat) (arg 1%nat)
  | MAX => lift2 Rmax (arg 0%nat) (arg 1%nat)
  | CLAMP => lift2 Rmin (lift2 Rmax (arg 0%nat) (arg 1%nat)) (arg 2%nat)
  | ATAN2 =>
      lift2 (fun a b => normalizeHeadingDeg ((atan2 a b * 180) / PI))
            (arg 0%nat) (arg 1%nat)
  | ANGLE_DIFF => lift2 shortestAngleDiffDeg (arg 0%nat) (arg 1%nat)
  | NORMALIZE_ANGLE => lift1 normalizeHeadingDeg (arg 0%nat)
  end.

Fixpoint evaluateNumericExpression (expression : NumericExpression)
    (sensors : SensorContext) : JsValue :=
  match expression with
  | NUMBER_LITERAL value => JNumber value
  | SENSOR variable => values sensors variable
  | UNARY operator operand =>
      match evaluateNumericExpression operand sensors with
      | JNull => JNull
      | JNumber v =>
          finiteOrNull (match operator with UnMinus => - v | UnPlus => v end)
      | JUndefined => JNull   (* not finite *)
      end
  | BINARY operator l r =>
      match evaluateNumericExpression l sensors with
      | JNull => JNull
      | lv =>
          match evaluateNumericExpression r sensors with
          | JNull => JNull
          | rv =>
              match lv, rv with
              | JNumber a, JNumber b =>
                  match operator with
                  | BinAdd => finiteOrNull (a + b)
                  | BinSub => finiteOrNull (a - b)
                  | BinMul => finiteOrNull (a * b)
                  | BinDiv =>
                      if Rleb (Rabs b) EPSILON then JNull
                      else finiteOrNull (a / b)
                  end
              | _, _ => JNull   (* an [undefined] operand: NaN, not finite *)
              end
          end
      end
  | FUNCTION name args =>
      let fix resolve (l : list NumericExpression) : option (list JsValue) :=
        match l with
        | [] => Some []
        | arg :: rest =>
            match evaluateNumericExpression arg sensors with
            | JNull => None
            | v => match resolve rest with
                   | Some vs => Some (v :: vs)
                   | None => None
                   end
            end
        end in
      match resolve args with
      | None => JNull
      | Some resolvedArgs =>
          match applyFunction name resolvedArgs with
          | Some result => finiteOrNull result
          | None => JNull
          end
      end
  end.

Fixpoint matchCondition (c : RuleCondition) (sensors : SensorContext) : bool :=
  match c with
  | VISIBILITY visible =>
      if visible then sensor_enemyVisible sensors
      else negb (sensor_enemyVisible sensors)
  | NOT operand => negb (matchCondition operand sensors)
  | LOGICAL AND l r => matchCondition l sensors && matchCondition r sensors
  | LOGICAL OR l r => matchCondition l sensors || matchCondition r sensors
  | COMPARE l operator r =>
      match evaluateNumericExpression l sensors with
      | JNull => false
      | leftValue =>
          match evaluateNumericExpression r sensors with
          | JNull => false
          | rightValue =>
              match leftValue, rightValue with
              | JNumber a, JNumber b => compareNumbers a operator b
              | _, _ => false   (* a comparison with [undefined] *)
              end
          end
      end
  end.

Definition conditionMatched (c : option RuleCondition) (sensors : SensorContext) : bool :=
  match c with
  | None => true
  | Some node => matchCondition node sensors
  end.

Definition neutralControls : ControlState :=
  {| throttle := 0; strafe := 0; turn := 0; fire := false; boost := None |}.

Definition applyRuleCommand (c : ControlState) (cmd : RuleCommand) : ControlState :=
  match cmd with
  | SET_CONTROL THROTTLE value =>
      {| throttle := value; strafe := strafe c; turn := turn c;
         fire := fire c; boost := boost c |}
  | SET_CONTROL STRAFE value =>
      {| throttle := throttle c; strafe := value; turn := turn c;
         fire := fire c; boost := boost c |}
  | SET_CONTROL TURN value =>
      {| throttle := throttle c; strafe := strafe c; turn := value;
         fire := fire c; boost := boost c |}
  | FIRE enabled =>
      {| throttle := throttle c; strafe := strafe c; turn := turn c;
         fire := enabled; boost := boost c |}
  | BOOST d =>
      {| throttle := throttle c; strafe := strafe c; turn := turn c;
         fire := fire c; boost := Some d |}
  end.

Definition resolveControls (prog : list ScriptAction) (sensors : SensorContext)
  : ControlDecision :=
  let step (acc : ControlState * list nat) (rule : ScriptAction) :=
    if conditionMatched (condition rule) sensors
    then (applyRuleCommand (fst acc) (command rule), snd acc ++ [line rule])
    else acc in
  let final := fold_left step prog (neutralControls, []) in
  {| totalRules := List.length prog;
     controls := fst final;
     matchedRuleLines := snd final |}.

(** ** battleEngine.ts: assignments to the fields of a robot *)

Definition setX (v : R) (r : RobotState) : RobotState :=
  {| id := id r; robotName := robotName r; robot_x := v; robot_y := robot_y r;
     direction := direction r; headingRad := headingRad r; alive := alive r;
     fireCooldownTicks := fireCooldownTicks r; energy := energy r;
     boostCooldownTicks := boostCooldownTicks r;
     boostBurstTicksRemaining := boostBurstTicksRemaining r;
     boostDirectionLocked := boostDirectionLocked r; enemyMemory := enemyMemory r;
     program := program r |}.
Definition setY (v : R) (r : RobotState) : RobotState :=
  {| id := id r; robotName := robotName r; robot_x := robot_x r; robot_y := v;
     direction := direction r; headingRad := headingRad r; alive := alive r;
     fireCooldownTicks := fireCooldownTicks r; energy := energy r;
     boostCooldownTicks := boostCooldownTicks r;
     boostBurstTicksRemaining := boostBurstTicksRemaining r;
     boostDirectionLocked := boostDirectionLocked r; enemyMemory := enemyMemory r;
     program := program r |}.
Definition setDirection (v : Direction) (r : RobotState) : RobotState :=
  {| id := id r; robotName := robotName r; robot_x := robot_x r; robot_y := robot_y r;
     direction := v; headingRad := headingRad r; alive := alive r;
     fireCooldownTicks := fireCooldownTicks r; energy := energy r;
     boostCooldownTicks := boostCooldownTicks r;
     boostBurstTicksRemaining := boostBurstTicksRemaining r;
     boostDirectionLocked := boostDirectionLocked r; enemyMemory := enemyMemory r;
     program := program r |}.
Definition setHeadingRad (v : R) (r : RobotState) : RobotState :=
  {| id := id r; robotName := robotName r; robot_x := robot_x r; robot_y := robot_y r;
     direction := direction r; headingRad := v; alive := alive r;
     fireCooldownTicks := fireCooldownTicks r; energy := energy r;
     boostCooldownTicks := boostCooldownTicks r;
     boostBurstTicksRemaining := boostBurstTicksRemaining r;
     boostDirectionLocked := boostDirectionLocked r; enemyMemory := enemyMemory r;
     program := program r |}.
Definition setAlive (v : bool) (r : RobotState) : RobotState :=
  {| id := id r; robotName := robotName r; robot_x := robot_x r; robot_y := robot_y r;
     direction := direction r; headingRad := headingRad r; alive := v;
     fireCooldownTicks := fireCooldownTicks r; energy := energy r;
     boostCooldownTicks := boostCooldownTicks r;
     boostBurstTicksRemaining := boostBurstTicksRemaining r;
     boostDirectionLocked := boostDirectionLocked r; enemyMemory := enemyMemory r;
     program := program r |}.
Definition setFireCooldownTicks (v : Z) (r : RobotState) : RobotState :=
  {| id := id r; robotName := robotName r; robot_x := robot_x r; robot_y := robot_y r;
     direction := direction r; headingRad := headingRad r; alive := alive r;
     fireCooldownTicks := v; energy := energy r;
     boostCooldownTicks := boostCooldownTicks r;
     boostBurstTicksRemaining := boostBurstTicksRemaining r;
     boostDirectionLocked := boostDirectionLocked r; enemyMemory := enemyMemory r;
     program := program r |}.
Definition setEnergy (v : R) (r : RobotState) : RobotState :=
  {| id := id r; robotName := robotName r; robot_x := robot_x r; robot_y := robot_y r;
     direction := direction r; headingRad := headingRad r; alive := alive r;
     fireCooldownTicks := fireCooldownTicks r; energy := v;
     boostCooldownTicks := boostCooldownTicks r;
     boostBurstTicksRemaining := boostBurstTicksRemaining r;
     boostDirectionLocked := boostDirectionLocked r; enemyMemory := enemyMemory r;
     program := program r |}.
Definition setBoostCooldownTicks (v : Z) (r : RobotState) : RobotState :=
  {| id := id r; robotName := robotName r; robot_x := robot_x r; robot_y := robot_y r;
     direction := direction r; headingRad := headingRad r; alive := alive r;
     fireCooldownTicks := fireCooldownTicks r; energy := energy r;
     boostCooldownTicks := v; boostBurstTicksRemaining := boostBurstTicksRemaining r;
     boostDirectionLocked := boostDirectionLocked r; enemyMemory := enemyMemory r;
     program := program r |}.
Definition setBoostBurstTicksRemaining (v : Z) (r : RobotState) : RobotState :=
  {| id := id r; robotName := robotName r; robot_x := robot_x r; robot_y := robot_y r;
     direction := direction r; headingRad := headingRad r; alive := alive r;
     fireCooldownTicks := fireCooldownTicks r; energy := energy r;
     boostCooldownTicks := boostCooldownTicks r; boostBurstTicksRemaining := v;
     boostDirectionLocked := boostDirectionLocked r; enemyMemory := enemyMemory r;
     program := program r |}.
Definition setBoostDirectionLocked (v : option BoostDirection) (r : RobotState)
  : RobotState :=
  {| id := id r; robotName := robotName r; robot_x := robot_x r; robot_y := robot_y r;
     direction := direction r; headingRad := headingRad r; alive := alive r;
     fireCooldownTicks := fireCooldownTicks r; energy := energy r;
     boostCooldownTicks := boostCooldownTicks r;
     boostBurstTicksRemaining := boostBurstTicksRemaining r; boostDirectionLocked := v;
     enemyMemory := enemyMemory r; program := program r |}.

(** ** battleEngine.ts: rotation, movement and side boost *)

Definition computeRotation (actor : RobotState) (c : ControlState)
  : RobotState * RotationOutcome :=
  let turnMultiplier := if fire c then FIRE_TURN_MULTIPLIER else 1 in
  let deltaRad :=
    turn c * TURN_RATE_RAD_PER_SECOND * turnMultiplier * (TICK_DURATION_MS / 1000) in
  (setHeadingRad (normalizeAngleRad (headingRad actor + deltaRad)) actor,
   {| deltaDeg := toFixed 2 ((deltaRad * 180) / PI) |}).

Record PlannedDelta := {
  plan_delta : Position;
  plan_attempted : bool;
  plan_speedMultiplier : R
}.

Definition plannedDelta (actor : RobotState) (c : ControlState) : PlannedDelta :=
  if negb (alive actor) then
    {| plan_delta := {| x := 0; y := 0 |};
       plan_attempted := false;
       plan_speedMultiplier := if fire c then FIRE_MOVEMENT_MULTIPLIER else 1 |}
  else
    let speedMult := if fire c then FIRE_MOVEMENT_MULTIPLIER else 1 in
    let forwardSpeed :=
      if Rleb 0 (throttle c) then SPEED_PER_SECOND_FORWARD
      else SPEED_PER_SECOND_BACKWARD in
    let localForwardVelocity := throttle c * forwardSpeed * speedMult in
    let localStrafeVelocity := strafe c * SPEED_PER_SECOND_STRAFE * speedMult in
    let dt := TICK_DURATION_MS / 1000 in
    let fwd := headingVector (headingRad actor) in
    let right := {| dx := - dy fwd; dy := dx fwd |} in
    let deltaX := dx fwd * localForwardVelocity * dt + dx right * localStrafeVelocity * dt in
    let deltaY := dy fwd * localForwardVelocity * dt + dy right * localStrafeVelocity * dt in
    {| plan_delta := {| x := toFixed 4 deltaX; y := toFixed 4 deltaY |};
       plan_attempted := Rltb EPSILON (hypot deltaX deltaY);
       plan_speedMultiplier := speedMult |}.

Definition tickSideBoostState (actor : RobotState) : RobotState :=
  if negb (alive actor) then actor
  else
    let actor1 := setBoostCooldownTicks (Z.max 0 (boostCooldownTicks actor - 1)) actor in
    let regen := SIDE_BOOST_ENERGY_REGEN_PER_SECOND * (TICK_DURATION_MS / 1000) in
    setEnergy (Rmin SIDE_BOOST_ENERGY_MAX (toFixed 4 (energy actor1 + regen))) actor1.

Record BoostResolution := {
  boost_requested : bool;
  boost_used : bool;
  boost_direction : option BoostDirection;
  boost_delta : Position;
  boost_distance : R;
  boost_forceLevel : Z;
  boost_burstTicksRemaining : Z;
  boost_energyBefore : R;
  boost_energyAfter : R;
  boost_cooldownRemaining : Z;
  boost_trail : option Trail
}.

(** The ignition test of [resolveSideBoost]. *)
Definition boostIgnites (actor : RobotState) (c : ControlState) : bool :=
  match boost c with
  | None => false
  | Some _ =>
      (boostBurstTicksRemaining actor <=? 0)%Z
      && (boostCooldownTicks actor =? 0)%Z
      && Rleb SIDE_BOOST_ENERGY_COST (energy actor)
  end.

(** The assignments of [resolveSideBoost] under that test. *)
Definition igniteSideBoost (actor : RobotState) (c : ControlState) : RobotState :=
  if boostIgnites actor c then
    setBoostDirectionLocked (boost c)
      (setBoostBurstTicksRemaining SIDE_BOOST_BURST_TICKS
         (setBoostCooldownTicks SIDE_BOOST_COOLDOWN_TICKS
            (setEnergy (Rmax 0 (toFixed 4 (energy actor - SIDE_BOOST_ENERGY_COST)))
               actor)))
  else actor.

(** [SIDE_BOOST_FORCE_SEQUENCE[sequenceIndex] ?? remaining] *)
Definition boostForce (remaining : Z) : Z :=
  let sequenceIndex := (SIDE_BOOST_BURST_TICKS - remaining)%Z in
  if (sequenceIndex <? 0)%Z then remaining
  else nth (Z.to_nat sequenceIndex) SIDE_BOOST_FORCE_SEQUENCE remaining.

Definition resolveSideBoost (actor : RobotState) (c : ControlState) (start : Position)
    (arenaSize : R) : RobotState * BoostResolution :=
  let requestedDirection := boost c in
  let requested := match requestedDirection with Some _ => true | None => false end in
  let energyBefore := toFixed 2 (energy actor) in
  let idle (r : RobotState) :=
    {| boost_requested := requested; boost_used := false;
       boost_direction := requestedDirection;
       boost_delta := {| x := 0; y := 0 |}; boost_distance := 0;
       boost_forceLevel := 0%Z;
       boost_burstTicksRemaining := boostBurstTicksRemaining r;
       boost_energyBefore := energyBefore;
       boost_energyAfter := toFixed 2 (energy r);
       boost_cooldownRemaining := boostCooldownTicks r;
       boost_trail := None |} in
  if negb (alive actor) then (actor, idle actor)
  else
    let actor1 := igniteSideBoost actor c in
    let actor2 :=
      match boostDirectionLocked actor1 with
      | None =>
          if (0 <? boostBurstTicksRemaining actor1)%Z
          then setBoostBurstTicksRemaining 0 actor1 else actor1
      | Some _ => actor1
      end in
    let activeDirection :=
      if (0 <? boostBurstTicksRemaining actor2)%Z
      then boostDirectionLocked actor2 else None in
    match activeDirection with
    | None => (actor2, idle actor2)
    | Some active =>
        let forceLevel := boostForce (boostBurstTicksRemaining actor2) in
        let boostDistanceTiles := IZR forceLevel / TICKS_PER_TILE_STRAFE in
        let fwd := headingVector (headingRad actor2) in
        let right := {| dx := - dy fwd; dy := dx fwd |} in
        let sideSign := match active with RIGHT => 1 | LEFT => - 1 end in
        let deltaX := dx right * sideSign * boostDistanceTiles in
        let deltaY := dy right * sideSign * boostDistanceTiles in
        let boostDelta := {| x := toFixed 4 deltaX; y := toFixed 4 deltaY |} in
        let remaining := Z.max 0 (boostBurstTicksRemaining actor2 - 1) in
        let actor3 := setBoostBurstTicksRemaining remaining actor2 in
        let actor4 :=
          if (remaining =? 0)%Z then setBoostDirectionLocked None actor3 else actor3 in
        let trailTo :=
          fst (clampToArena {| x := toFixed 4 (x start + x boostDelta);
                               y := toFixed 4 (y start + y boostDelta) |} arenaSize) in
        (actor4,
         {| boost_requested := requested; boost_used := true;
            boost_direction := Some active;
            boost_delta := boostDelta;
            boost_distance := toFixed 4 (hypot (x boostDelta) (y boostDelta));
            boost_forceLevel := forceLevel;
            boost_burstTicksRemaining := boostBurstTicksRemaining actor4;
            boost_energyBefore := energyBefore;
            boost_energyAfter := toFixed 2 (energy actor4);
            boost_cooldownRemaining := boostCooldownTicks actor4;
            boost_trail := Some {| trail_from := start; trail_to := trailTo |} |})
    end.

Definition applyMovement (a b : RobotState) (controlA controlB : ControlState)
    (arenaSize : R) : RobotState * RobotState * JsRecord MovementOutcome :=
  let startA := {| x := robot_x a; y := robot_y a |} in
  let startB := {| x := robot_x b; y := robot_y b |} in
  let planA := plannedDelta a controlA in
  let planB := plannedDelta b controlB in
  let '(a1, boostA) := resolveSideBoost a controlA startA arenaSize in
  let '(b1, boostB) := resolveSideBoost b controlB startB arenaSize in
  let combinedDeltaA :=
    {| x := toFixed 4 (x (plan_delta planA) + x (boost_delta boostA));
       y := toFixed 4 (y (plan_delta planA) + y (boost_delta boostA)) |} in
  let combinedDeltaB :=
    {| x := toFixed 4 (x (plan_delta planB) + x (boost_delta boostB));
       y := toFixed 4 (y (plan_delta planB) + y (boost_delta boostB)) |} in
  let attemptedA := plan_attempted planA || boost_used boostA in
  let attemptedB := plan_attempted planB || boost_used boostB in
  let proposalA :=
    clampToArena {| x := x startA + x combinedDeltaA;
                    y := y startA + y combinedDeltaA |} arenaSize in
  let proposalB :=
    clampToArena {| x := x startB + x combinedDeltaB;
                    y := y startB + y combinedDeltaB |} arenaSize in
  let collide :=
    alive a1 && alive b1
    && Rleb (hypot (x (fst proposalA) - x (fst proposalB))
                   (y (fst proposalA) - y (fst proposalB)))
            (ROBOT_COLLISION_RADIUS * 2) in
  let blockedA := collide && attemptedA in
  let blockedB := collide && attemptedB in
  let finalA := if blockedA then startA else fst proposalA in
  let finalB := if blockedB then startB else fst proposalB in
  let a2 := setY (toFixed 4 (y finalA)) (setX (toFixed 4 (x finalA)) a1) in
  let b2 := setY (toFixed 4 (y finalB)) (setX (toFixed 4 (x finalB)) b1) in
  let outcome (r : RobotState) (start : Position) (att blocked : bool)
      (proposal : Position * bool) (plan : PlannedDelta) (bst : BoostResolution) :=
    {| attempted := att;
       move_dx := toFixed 4 (robot_x r - x start);
       move_dy := toFixed 4 (robot_y r - y start);
       move_distance := toFixed 4 (hypot (robot_x r - x start) (robot_y r - y start));
       blockedByRobot := blocked;
       hitBoundary := snd proposal;
       speedMultiplier := plan_speedMultiplier plan;
       boostRequested := boost_requested bst;
       boostUsed := boost_used bst;
       boostDirection := boost_direction bst;
       boostDistance := boost_distance bst;
       boostForceLevel := boost_forceLevel bst;
       move_boostBurstTicksRemaining := boost_burstTicksRemaining bst;
       move_energyBefore := boost_energyBefore bst;
       move_energyAfter := boost_energyAfter bst;
       boostCooldownRemaining := boost_cooldownRemaining bst;
       boostTrail := boost_trail bst |} in
  (a2, b2,
   setKey (id b2) (outcome b2 startB attemptedB blockedB proposalB planB boostB)
     (setKey (id a2) (outcome a2 startA attemptedA blockedA proposalA planA boostA)
        emptyRecord)).

(** ** battleEngine.ts: firing and projectiles *)

Definition tickCooldown (actor : RobotState) : RobotState :=
  setFireCooldownTicks (Z.max 0 (fireCooldownTicks actor - 1)) actor.

Record FireResolution := {
  outcomes : JsRecord FireOutcome;
  spawnedProjectiles : list InFlightProjectile
}.

(** [outcomes[key]] is an object that the caller mutates in place. *)
Definition updateKey {T} (key : string) (f : T -> T) (r : JsRecord T) : JsRecord T :=
  match r key with
  | Some v => setKey key (f v) r
  | None => r
  end.

Definition initialFireOutcome (robot : RobotState) (c : ControlState) : FireOutcome :=
  {| triggerHeld := fire c; shotFired := false;
     cooldownRemaining := fireCooldownTicks robot;
     blockedByEnergy := false;
     fire_energyBefore := toFixed 2 (energy robot);
     fire_energyAfter := toFixed 2 (energy robot);
     fire_hit := false; fire_projectile := None |}.

(** One iteration of [attempts.forEach] in [resolveFiring]. *)
Definition fireAttempt (shooter : RobotState) (targetId : string) (c : ControlState)
    (acc : FireResolution) : RobotState * FireResolution :=
  if negb (alive shooter) || negb (fire c) then (shooter, acc)
  else if (0 <? fireCooldownTicks shooter)%Z then
    (shooter,
     {| outcomes :=
          updateKey (id shooter)
            (fun o =>
               {| triggerHeld := triggerHeld o; shotFired := shotFired o;
                  cooldownRemaining := fireCooldownTicks shooter;
                  blockedByEnergy := blockedByEnergy o;
                  fire_energyBefore := fire_energyBefore o;
                  fire_energyAfter := fire_energyAfter o;
                  fire_hit := fire_hit o; fire_projectile := fire_projectile o |})
            (outcomes acc);
        spawnedProjectiles := spawnedProjectiles acc |})
  else
    let energyBeforeShot := toFixed 2 (energy shooter) in
    if Rltb (energy shooter) FIRE_ENERGY_COST then
      (shooter,
       {| outcomes :=
            updateKey (id shooter)
              (fun o =>
                 {| triggerHeld := triggerHeld o; shotFired := shotFired o;
                    cooldownRemaining := cooldownRemaining o;
                    blockedByEnergy := true;
                    fire_energyBefore := energyBeforeShot;
                    fire_energyAfter := energyBeforeShot;
                    fire_hit := fire_hit o; fire_projectile := fire_projectile o |})
              (outcomes acc);
          spawnedProjectiles := spawnedProjectiles acc |})
    else
      let shooter1 :=
        setFireCooldownTicks FIRE_COOLDOWN_TICKS
          (setEnergy (Rmax 0 (toFixed 4 (energy shooter - FIRE_ENERGY_COST))) shooter) in
      (shooter1,
       {| outcomes :=
            updateKey (id shooter)
              (fun o =>
                 {| triggerHeld := triggerHeld o; shotFired := true;
                    cooldownRemaining := fireCooldownTicks shooter1;
                    blockedByEnergy := blockedByEnergy o;
                    fire_energyBefore := energyBeforeShot;
                    fire_energyAfter := toFixed 2 (energy shooter1);
                    fire_hit := fire_hit o; fire_projectile := fire_projectile o |})
              (outcomes acc);
          spawnedProjectiles :=
            spawnedProjectiles acc ++
            [ {| shooterRobotId := id shooter1;
                 inflight_targetRobotId := targetId;
                 position := {| x := toFixed 4 (robot_x shooter1);
                                y := toFixed 4 (robot_y shooter1) |};
                 inflight_direction := headingVector (headingRad shooter1);
                 directionCardinal := directionFromHeading (headingRad shooter1);
                 traveledDistance := 0;
                 maxRange := SHOT_RANGE |} ] |}).

(** The [outcomes] object and the empty list that [resolveFiring] starts from. *)
Definition initialFireResolution (a b : RobotState) (controlA controlB : ControlState)
  : FireResolution :=
  {| outcomes :=
       setKey (id b) (initialFireOutcome b controlB)
         (setKey (id a) (initialFireOutcome a controlA) emptyRecord);
     spawnedProjectiles := [] |}.

(** The test under which an iteration of [attempts.forEach] spawns a shot. *)
Definition shotAllowed (shooter : RobotState) (c : ControlState) : bool :=
  alive shooter && fire c
  && negb (0 <? fireCooldownTicks shooter)%Z
  && negb (Rltb (energy shooter) FIRE_ENERGY_COST).

(** The projectile pushed by [resolveFiring]. *)
Definition spawnedBy (shooter : RobotState) (targetId : string) : InFlightProjectile :=
  {| shooterRobotId := id shooter;
     inflight_targetRobotId := targetId;
     position := {| x := toFixed 4 (robot_x shooter);
                    y := toFixed 4 (robot_y shooter) |};
     inflight_direction := headingVector (headingRad shooter);
     directionCardinal := directionFromHeading (headingRad shooter);
     traveledDistance := 0;
     maxRange := SHOT_RANGE |}.

Definition resolveFiring (a b : RobotState) (controlA controlB : ControlState)
  : RobotState * RobotState * FireResolution :=
  let a1 := if alive a then tickCooldown a else a in
  let b1 := if alive b then tickCooldown b else b in
  let init := initialFireResolution a1 b1 controlA controlB in
  let '(a2, afterA) := fireAttempt a1 (id b1) controlA init in
  let '(b2, afterB) := fireAttempt b1 (id a2) controlB afterA in
  (a2, b2, afterB).

Definition pointToSegmentDistance (p start finish : Position) : R :=
  let segmentDx := x finish - x start in
  let segmentDy := y finish - y start in
  let lengthSquared := segmentDx * segmentDx + segmentDy * segmentDy in
  if Rleb lengthSquared EPSILON then hypot (x p - x start) (y p - y start)
  else
    let projection :=
      ((x p - x start) * segmentDx + (y p - y start) * segmentDy)
      / Rmax EPSILON lengthSquared in
    let clamped := Rmax 0 (Rmin 1 projection) in
    let closest := {| x := x start + segmentDx * clamped;
                      y := y start + segmentDy * clamped |} in
    hypot (x p - x closest) (y p - y closest).

Definition findRobotById (a b : RobotState) (robotId : string) : option RobotState :=
  if String.eqb (id a) robotId then Some a
  else if String.eqb (id b) robotId then Some b
  else None.

Record ProjectileAdvanceResult := {
  traces : list Projectile;
  traceByShooter : JsRecord Projectile;
  hitByShooter : JsRecord bool;
  pendingKills : list string;
  nextProjectiles : list InFlightProjectile
}.

(** [pendingKills.has(robotId)] *)
Definition setHas (members : list string) (robotId : string) : bool :=
  existsb (String.eqb robotId) members.

(** One iteration of [projectiles.forEach] in [advanceProjectiles]. *)
Definition advanceProjectile (a b : RobotState) (arenaSize : R)
    (acc : ProjectileAdvanceResult) (projectile : InFlightProjectile)
  : ProjectileAdvanceResult :=
  let maxStepDistance := PROJECTILE_SPEED_TILES_PER_SECOND * (TICK_DURATION_MS / 1000) in
  let remainingRange := maxRange projectile - traveledDistance projectile in
  if Rleb remainingRange EPSILON then acc
  else
    let start := position projectile in
    let wallHit := buildWallRayHit start (inflight_direction projectile) arenaSize in
    let stepDistance :=
      Rmin (Rmin maxStepDistance remainingRange) (Rmax 0 (distance wallHit)) in
    if Rleb stepDistance EPSILON then acc
    else
      let finish :=
        {| x := toFixed 4 (x start + dx (inflight_direction projectile) * stepDistance);
           y := toFixed 4 (y start + dy (inflight_direction projectile) * stepDistance) |} in
      let struck : option RobotState :=
        match findRobotById a b (inflight_targetRobotId projectile) with
        | Some target =>
            if alive target && negb (setHas (pendingKills acc) (id target))
               && Rleb (pointToSegmentDistance
                          {| x := toFixed 4 (robot_x target);
                             y := toFixed 4 (robot_y target) |} start finish)
                       SHOT_HIT_RADIUS
            then Some target else None
        | None => None
        end in
      let trace :=
        {| from := {| x := toFixed 4 (x start); y := toFixed 4 (y start) |};
           to := match struck with
                 | Some target => {| x := toFixed 4 (robot_x target);
                                     y := toFixed 4 (robot_y target) |}
                 | None => finish
                 end;
           trace_direction := directionCardinal projectile;
           range := maxRange projectile;
           hit := match struck with Some _ => true | None => false end;
           targetRobotId := match struck with
                            | Some target => Some (id target)
                            | None => None
                            end |} in
      let traceByShooter1 :=
        if hasKey (shooterRobotId projectile) (traceByShooter acc)
        then traceByShooter acc
        else setKey (shooterRobotId projectile) trace (traceByShooter acc) in
      match struck with
      | Some target =>
          {| traces := traces acc ++ [trace];
             traceByShooter := traceByShooter1;
             hitByShooter := setKey (shooterRobotId projectile) true (hitByShooter acc);
             pendingKills := pendingKills acc ++ [id target];
             nextProjectiles := nextProjectiles acc |}
      | None =>
          let traveled := traveledDistance projectile + stepDistance in
          let exhaustedByRange := Rleb (maxRange projectile - EPSILON) traveled in
          let exhaustedByWall := Rleb (distance wallHit) (stepDistance + EPSILON) in
          {| traces := traces acc ++ [trace];
             traceByShooter := traceByShooter1;
             hitByShooter := hitByShooter acc;
             pendingKills := pendingKills acc;
             nextProjectiles :=
               if exhaustedByRange || exhaustedByWall then nextProjectiles acc
               else nextProjectiles acc ++
                    [ {| shooterRobotId := shooterRobotId projectile;
                         inflight_targetRobotId := inflight_targetRobotId projectile;
                         position := finish;
                         inflight_direction := inflight_direction projectile;
                         directionCardinal := directionCardinal projectile;
                         traveledDistance := toFixed 4 traveled;
                         maxRange := maxRange projectile |} ] |}
      end.

Definition advanceProjectiles (projectiles : list InFlightProjectile)
    (a b : RobotState) (arenaSize : R) : ProjectileAdvanceResult :=
  fold_left (advanceProjectile a b arenaSize) projectiles
    {| traces := []; traceByShooter := emptyRecord; hitByShooter := emptyRecord;
       pendingKills := []; nextProjectiles := [] |}.

(** ** battleEngine.ts: the simulator driver *)

Inductive ActionEvent := CONTROL_TICK | EVENT_FIRE | SKIPPED.

Record TickActionResult := {
  event : ActionEvent;
  result_projectile : option Projectile;
  result_controls : ControlState;
  movement : MovementOutcome;
  rotation : RotationOutcome;
  firing : FireOutcome
}.

Record SimulationActionLog := {
  action_tick : Z;
  action_step : Z;
  robotId : string;
  action_robotName : string;
  action_totalRules : nat;
  action_matchedRuleLines : list nat;
  resolvedAction : ControlState;
  result : TickActionResult;
  perceptionBefore : option Perception;
  perceptionAfter : option Perception;
  action_position : RobotSnapshot;
  before : BattleSnapshot;
  after : BattleSnapshot
}.

Record TickLog := {
  tick : Z;
  startState : BattleSnapshot;
  startPerception : JsRecord Perception;
  actions : list SimulationActionLog;
  projectiles : list Projectile;
  endState : BattleSnapshot;
  endPerception : JsRecord Perception
}.

Definition buildRobotState (robotDoc : BattleRobotInput) (startX startY : R)
    (startDirection : Direction) : RobotState :=
  {| id := input_id robotDoc;
     robotName := input_robotName robotDoc;
     robot_x := startX;
     robot_y := startY;
     direction := startDirection;
     headingRad := headingByDirection startDirection;
     alive := true;
     fireCooldownTicks := 0;
     energy := SIDE_BOOST_ENERGY_MAX;
     boostCooldownTicks := 0;
     boostBurstTicksRemaining := 0;
     boostDirectionLocked := None;
     enemyMemory :=
       {| prevEnemyX := None; prevEnemyY := None; prevEnemyHeading := None;
          prevEnemyDx := None; prevEnemyDy := None; prevEnemyDistance := None;
          ticksSinceEnemySeen := MEMORY_UNSEEN_TICKS_INITIAL |};
     program := parsedProgram robotDoc |}.

Definition isInteger (v : R) : bool :=
  if Req_dec_T (IZR (Zfloor v)) v then true else false.

Definition resolveMaxTicks (maxTicks maxTurns : option R) : Z :=
  match maxTicks with
  | Some v => if isInteger v then Zfloor v
              else match maxTurns with
                   | Some w => if isInteger w then Zfloor w else 500%Z
                   | None => 500%Z
                   end
  | None => match maxTurns with
            | Some w => if isInteger w then Zfloor w else 500%Z
            | None => 500%Z
            end
  end.

Definition computeWinner (a b : RobotState) : option string :=
  if alive a && negb (alive b) then Some (id a)
  else if negb (alive a) && alive b then Some (id b)
  else None.

(** What the tick loop of [simulateBattle] carries from one tick to the next. *)
Record BattleState := {
  stateA : RobotState;
  stateB : RobotState;
  activeProjectiles : list InFlightProjectile;
  stepCounter : Z
}.

(** [updateEnemyMemory(actor, opponent, perceptions[actor.id])] *)
Definition rememberEnemy (actor opponent : RobotState) (perceptions : JsRecord Perception)
  : RobotState :=
  match perceptions (id actor) with
  | Some p => updateEnemyMemory actor opponent p
  | None => actor
  end.

Definition perceptionPair (a b : RobotState) (arenaSize : R) : JsRecord Perception :=
  setKey (id b) (buildPerception b a arenaSize)
    (setKey (id a) (buildPerception a b arenaSize) emptyRecord).

(** The sensors of [actor], read from [perceptions[actor.id]]. *)
Definition sensorsOf (actor opponent : RobotState) (perceptions : JsRecord Perception)
    (arenaSize : R) : SensorContext :=
  match perceptions (id actor) with
  | Some p => buildSensorContext actor opponent p arenaSize
  | None => buildSensorContext actor opponent (buildPerception actor opponent arenaSize)
              arenaSize
  end.

(** The trace and hit flag that the driver copies into a fire outcome. *)
Definition attachTrace (adv : ProjectileAdvanceResult) (rid : string)
    (fireOutcomes : JsRecord FireOutcome) : JsRecord FireOutcome :=
  let withTrace :=
    match traceByShooter adv rid with
    | Some trace =>
        updateKey rid
          (fun o =>
             {| triggerHeld := triggerHeld o; shotFired := shotFired o;
                cooldownRemaining := cooldownRemaining o;
                blockedByEnergy := blockedByEnergy o;
                fire_energyBefore := fire_energyBefore o;
                fire_energyAfter := fire_energyAfter o;
                fire_hit := fire_hit o; fire_projectile := Some trace |})
          fireOutcomes
    | None => fireOutcomes
    end in
  match hitByShooter adv rid with
  | Some true =>
      updateKey rid
        (fun o =>
           {| triggerHeld := triggerHeld o; shotFired := shotFired o;
              cooldownRemaining := cooldownRemaining o;
              blockedByEnergy := blockedByEnergy o;
              fire_energyBefore := fire_energyBefore o;
              fire_energyAfter := fire_energyAfter o;
              fire_hit := true; fire_projectile := fire_projectile o |})
        withTrace
  | _ => withTrace
  end.

(** The constants that the body of the [for] loop of [simulateBattle] binds
    before it applies the kills: the robots after each phase, the controls,
    the outcomes of the phases. *)
Record TickLocals := {
  regenA : RobotState;              (* [a] after [tickSideBoostState] *)
  regenB : RobotState;
  startPerc : JsRecord Perception;  (* [startPerception] *)
  aliveAtStart : JsRecord bool;
  decisionA : ControlDecision;
  decisionB : ControlDecision;
  controlA : ControlState;
  controlB : ControlState;
  rotatedA : RobotState;            (* [a] after [computeRotation] *)
  rotatedB : RobotState;
  rotationOutcomes : JsRecord RotationOutcome;
  movedA : RobotState;              (* [a] after [applyMovement] *)
  movedB : RobotState;
  movementOutcomes : JsRecord MovementOutcome;
  firedA : RobotState;              (* [a] after [resolveFiring] *)
  firedB : RobotState;
  fireResolution : FireResolution;
  projectileAdvance : ProjectileAdvanceResult
}.

Definition wasAlive (aliveAtStart : JsRecord bool) (r : RobotState) : bool :=
  match aliveAtStart (id r) with Some true => true | _ => false end.

Definition tickLocals (arenaSize : R) (st : BattleState) : TickLocals :=
  let a0 := tickSideBoostState (stateA st) in
  let b0 := tickSideBoostState (stateB st) in
  let startPerception := perceptionPair a0 b0 arenaSize in
  let aliveAtStart : JsRecord bool :=
    setKey (id b0) (alive b0) (setKey (id a0) (alive a0) emptyRecord) in
  let sensorA := sensorsOf a0 b0 startPerception arenaSize in
  let sensorB := sensorsOf b0 a0 startPerception arenaSize in
  let decisionA := resolveControls (program a0) sensorA in
  let decisionB := resolveControls (program b0) sensorB in
  let controlA := if wasAlive aliveAtStart a0 then controls decisionA else neutralControls in
  let controlB := if wasAlive aliveAtStart b0 then controls decisionB else neutralControls in
  let '(a1, rotA) :=
    if wasAlive aliveAtStart a0 then computeRotation a0 controlA
    else (a0, {| deltaDeg := 0 |}) in
  let '(b1, rotB) :=
    if wasAlive aliveAtStart b0 then computeRotation b0 controlB
    else (b0, {| deltaDeg := 0 |}) in
  let '(a2, b2, movementOutcomes) := applyMovement a1 b1 controlA controlB arenaSize in
  let '(a3, b3, fireResolution) := resolveFiring a2 b2 controlA controlB in
  let flying := activeProjectiles st ++ spawnedProjectiles fireResolution in
  {| regenA := a0; regenB := b0;
     startPerc := startPerception;
     aliveAtStart := aliveAtStart;
     decisionA := decisionA; decisionB := decisionB;
     controlA := controlA; controlB := controlB;
     rotatedA := a1; rotatedB := b1;
     rotationOutcomes := setKey (id b1) rotB (setKey (id a1) rotA emptyRecord);
     movedA := a2; movedB := b2;
     movementOutcomes := movementOutcomes;
     firedA := a3; firedB := b3;
     fireResolution := fireResolution;
     projectileAdvance := advanceProjectiles flying a3 b3 arenaSize |}.

(** [if (projectileAdvance.pendingKills.has(robot.id)) robot.alive = false] *)
Definition applyPendingKill (adv : ProjectileAdvanceResult) (robot : RobotState)
  : RobotState :=
  if setHas (pendingKills adv) (id robot) then setAlive false robot else robot.

(** [robot.direction = directionFromHeading(robot.headingRad)] *)
Definition refreshDirection (robot : RobotState) : RobotState :=
  setDirection (directionFromHeading (headingRad robot)) robot.

(** The robots as the end snapshot and the end perception of a tick see them. *)
Definition endA (arenaSize : R) (st : BattleState) : RobotState :=
  let L := tickLocals arenaSize st in
  refreshDirection (applyPendingKill (projectileAdvance L) (firedA L)).
Definition endB (arenaSize : R) (st : BattleState) : RobotState :=
  let L := tickLocals arenaSize st in
  refreshDirection (applyPendingKill (projectileAdvance L) (firedB L)).

(** The body of the [for] loop of [simulateBattle]: one tick. *)
Definition simulateTick (arenaSize : R) (tickNumber : Z) (st : BattleState)
  : BattleState * TickLog :=
  let L := tickLocals arenaSize st in
  let adv := projectileAdvance L in
  let a3 := firedA L in
  let b3 := firedB L in
  let a4 := applyPendingKill adv a3 in
  let b4 := applyPendingKill adv b3 in
  let fireOutcomes :=
    attachTrace adv (id b4) (attachTrace adv (id a4) (outcomes (fireResolution L))) in
  let a5 := refreshDirection a4 in
  let b5 := refreshDirection b4 in
  let startSnapshot := snapshotBattle (regenA L) (regenB L) in
  let endSnapshot := snapshotBattle a5 b5 in
  let endPerc := perceptionPair a5 b5 arenaSize in
  let a6 := rememberEnemy a5 b5 endPerc in
  let b6 := rememberEnemy b5 a6 endPerc in
  let logFor (actor : RobotState) (decision : ControlDecision) (c : ControlState)
      (stepNumber : Z) : list SimulationActionLog :=
    match movementOutcomes L (id actor), rotationOutcomes L (id actor),
          fireOutcomes (id actor) with
    | Some mv, Some rot, Some fo =>
        [ {| action_tick := tickNumber;
             action_step := stepNumber;
             robotId := id actor;
             action_robotName := robotName actor;
             action_totalRules := totalRules decision;
             action_matchedRuleLines := matchedRuleLines decision;
             resolvedAction := c;
             result :=
               {| event := if shotFired fo || fire_hit fo then EVENT_FIRE
                           else CONTROL_TICK;
                  result_projectile := fire_projectile fo;
                  result_controls := c;
                  movement := mv;
                  rotation := rot;
                  firing := fo |};
             perceptionBefore := startPerc L (id actor);
             perceptionAfter := endPerc (id actor);
             action_position := snapshotRobot actor;
             before := startSnapshot;
             after := endSnapshot |} ]
    | _, _, _ => []
    end in
  let stepA :=
    if wasAlive (aliveAtStart L) a6 then (stepCounter st + 1)%Z else stepCounter st in
  let stepB := if wasAlive (aliveAtStart L) b6 then (stepA + 1)%Z else stepA in
  let tickActions :=
    (if wasAlive (aliveAtStart L) a6 then logFor a6 (decisionA L) (controlA L) stepA
     else [])
    ++ (if wasAlive (aliveAtStart L) b6 then logFor b6 (decisionB L) (controlB L) stepB
        else []) in
  ({| stateA := a6; stateB := b6;
      activeProjectiles := nextProjectiles adv;
      stepCounter := stepB |},
   {| tick := tickNumber;
      startState := startSnapshot;
      startPerception := startPerc L;
      actions := tickActions;
      projectiles := traces adv;
      endState := endSnapshot;
      endPerception := endPerc |}).

Record SimulateBattleInput := {
  input_robotA : BattleRobotInput;
  input_robotB : BattleRobotInput;
  input_arenaSize : R;
  input_maxTicks : option R;
  input_maxTurns : option R
}.

Definition initialBattleState (input : SimulateBattleInput) : BattleState :=
  let a := buildRobotState (input_robotA input) 0 0 DirE in
  let b := buildRobotState (input_robotB input)
             (input_arenaSize input - 1) (input_arenaSize input - 1) DirW in
  let initialPerception := perceptionPair a b (input_arenaSize input) in
  let a1 := rememberEnemy a b initialPerception in
  let b1 := rememberEnemy b a1 initialPerception in
  {| stateA := a1; stateB := b1; activeProjectiles := []; stepCounter := 0 |}.

(** The [for] loop: [remaining] iterations are left, the next one is
    [tickNumber]; the loop stops after a tick that leaves a robot dead. *)
Fixpoint runTicks (arenaSize : R) (remaining : nat) (tickNumber : Z) (st : BattleState)
  : BattleState * list TickLog :=
  match remaining with
  | O => (st, [])
  | Datatypes.S remaining' =>
      let '(st1, tickLog) := simulateTick arenaSize tickNumber st in
      if negb (alive (stateA st1)) || negb (alive (stateB st1))
      then (st1, [tickLog])
      else
        let '(final, rest) := runTicks arenaSize remaining' (tickNumber + 1)%Z st1 in
        (final, tickLog :: rest)
  end.

Inductive BattleStatus := finished | draw.

Record BattleSimulation := {
  status : BattleStatus;
  winnerRobotId : option string;
  sim_maxTicks : Z;
  initialState : BattleSnapshot;
  initialPerception : JsRecord Perception;
  timeline : list SimulationActionLog;
  ticks : list TickLog;
  finalState : BattleSnapshot;
  finalPerception : JsRecord Perception
}.

(** [simulateBattle]; the replay frames, derived from [ticks], and the echo
    of the constants are left out of the result. *)
Definition simulateBattle (input : SimulateBattleInput) : BattleSimulation :=
  let tickLimit := resolveMaxTicks (input_maxTicks input) (input_maxTurns input) in
  let arenaSize := input_arenaSize input in
  let a := buildRobotState (input_robotA input) 0 0 DirE in
  let b := buildRobotState (input_robotB input) (arenaSize - 1) (arenaSize - 1) DirW in
  let '(final, tickLogs) :=
    runTicks arenaSize (Z.to_nat tickLimit) 1%Z (initialBattleState input) in
  let winner := computeWinner (stateA final) (stateB final) in
  {| status := match winner with Some _ => finished | None => draw end;
     winnerRobotId := winner;
     sim_maxTicks := tickLimit;
     initialState := snapshotBattle a b;
     initialPerception := perceptionPair a b arenaSize;
     timeline := List.concat (map actions tickLogs);
     ticks := tickLogs;
     finalState := snapshotBattle (stateA final) (stateB final);
     finalPerception := perceptionPair (stateA final) (stateB final) arenaSize |}.

(** The states at which a tick of [simulateBattle] starts: the state built
    before the loop, and the state left by a tick after which both robots
    are alive (otherwise the loop stops). *)
Inductive TickStart (input : SimulateBattleInput) : Z -> BattleState -> Prop :=
  | start_first : TickStart input 1 (initialBattleState input)
  | start_next t st :
      TickStart input t st ->
      alive (stateA (fst (simulateTick (input_arenaSize input) t st))) = true ->
      alive (stateB (fst (simulateTick (input_arenaSize input) t st))) = true ->
      TickStart input (t + 1) (fst (simulateTick (input_arenaSize input) t st)).

(** A value with at most [digits] decimals. *)
Definition onGrid (digits : nat) (v : R) : Prop :=
  exists k : Z, v = IZR k / 10 ^ digits.

(** [r'] is [r] up to the fields that the phases of a tick before the kills
    assign: position, heading, energy, cooldowns and boost state. *)
Definition sameRobot (r r' : RobotState) : Prop :=
  id r' = id r /\ alive r' = alive r /\ enemyMemory r' = enemyMemory r
  /\ program r' = program r.

(** The state invariant of the tick loop. *)
Record robotInvariant (r : RobotState) : Prop := {
  inv_energy_range : 0 <= energy r <= 100;
  inv_energy_grid : onGrid 4 (energy r);
  inv_fireCooldown : (0 <= fireCooldownTicks r <= 1)%Z;
  inv_unseen : (0 <= ticksSinceEnemySeen (enemyMemory r) <= 9999)%Z;
  inv_boostCooldown : (0 <= boostCooldownTicks r <= 10)%Z;
  inv_burst : (0 <= boostBurstTicksRemaining r <= 4)%Z
}.

Definition battleInvariant (st : BattleState) : Prop :=
  robotInvariant (stateA st) /\ robotInvariant (stateB st)
  /\ alive (stateA st) = true /\ alive (stateB st) = true.

(** ** Sample battles *)

(** The script [SET THROTTLE 0], parsed. *)
Definition idleProgram : list ScriptAction :=
  [ {| line := 1; condition := None; command := SET_CONTROL THROTTLE 0 |} ].

(** Two idle robots in the default arena of 10 tiles. *)
Definition idleBattle : SimulateBattleInput :=
  {| input_robotA := {| input_id := "A"; input_robotName := "Alpha";
                        parsedProgram := idleProgram |};
     input_robotB := {| input_id := "B"; input_robotName := "Beta";
                        parsedProgram := idleProgram |};
     input_arenaSize := 10;
     input_maxTicks := None;
     input_maxTurns := None |}.

(** ** Statements about the unseen-ticks counter *)

(** The counter of a robot after a tick ([after]) against the counter before
    it ([before]) and the end-of-tick perception stored under the robot's id:
    the counter is 0 exactly when the enemy is visible there, and otherwise
    it is the saturating successor of the earlier counter. *)
Definition counterTracksVisibility (before after : RobotState) (log : TickLog) : Prop :=
  exists p,
    endPerception log (id after) = Some p
    /\ (ticksSinceEnemySeen (enemyMemory after) = 0%Z <-> enemyVisible p = true)
    /\ (enemyVisible p = false ->
        ticksSinceEnemySeen (enemyMemory after) =
          Z.min MEMORY_UNSEEN_TICKS_INITIAL
            (ticksSinceEnemySeen (enemyMemory before) + 1)).

(** The same with the plain successor, as the specification words it. *)
Definition counterPlusOne (before after : RobotState) (log : TickLog) : Prop :=
  exists p,
    endPerception log (id after) = Some p
    /\ (ticksSinceEnemySeen (enemyMemory after) = 0%Z <-> enemyVisible p = true)
    /\ (enemyVisible p = false ->
        ticksSinceEnemySeen (enemyMemory after) =
          (ticksSinceEnemySeen (enemyMemory before) + 1)%Z).

(** ** Statements about the vision cone *)

(** The four conditions of the vision cone, on the offset of [opponent]
    from [actor] in the frame of [actor]'s heading. *)
Definition inVisionCone (actor opponent : RobotState) : Prop :=
  let dx0 := robot_x opponent - robot_x actor in
  let dy0 := robot_y opponent - robot_y actor in
  let loc := toLocalCoordinates (headingRad actor) dx0 dy0 in
  alive opponent = true
  /\ sqrt (dx0 * dx0 + dy0 * dy0) <= VISION_RADIUS
  /\ 0 < forward loc
  /\ Rabs (atan2 (Rabs (lateral loc)) (Rmax (/ 10000) (forward loc))) <= PI / 3.

(** The four conditions with the slack [margin] on each threshold: a
    distance of at most 8 + margin, a forward component above - margin and
    an angle of at most pi / 3 + margin.  A negative margin keeps the
    offset clear of the thresholds, a positive one lets it pass them. *)
Definition inVisionConeWithin (margin : R) (actor opponent : RobotState) : Prop :=
  let dx0 := robot_x opponent - robot_x actor in
  let dy0 := robot_y opponent - robot_y actor in
  let loc := toLocalCoordinates (headingRad actor) dx0 dy0 in
  alive opponent = true
  /\ sqrt (dx0 * dx0 + dy0 * dy0) <= VISION_RADIUS + margin
  /\ - margin < forward loc
  /\ Rabs (atan2 (Rabs (lateral loc)) (Rmax (/ 10000) (forward loc)))
     <= PI / 3 + margin.

(** A dead robot at the origin heading East, and a live one a tile ahead. *)
Definition deadWatcher : RobotState :=
  setAlive false
    (buildRobotState {| input_id := "A"; input_robotName := "Alpha";
                        parsedProgram := idleProgram |} 0 0 DirE).
Definition liveTarget : RobotState :=
  buildRobotState {| input_id := "B"; input_robotName := "Beta";
                     parsedProgram := idleProgram |} 1 0 DirW.

(** ** Statements about rule evaluation *)

(** The field that a command assigns, with the assigned value. *)
Definition throttleSetBy (cmd : RuleCommand) : option R :=
  match cmd with SET_CONTROL THROTTLE v => Some v | _ => None end.
Definition strafeSetBy (cmd : RuleCommand) : option R :=
  match cmd with SET_CONTROL STRAFE v => Some v | _ => None end.
Definition turnSetBy (cmd : RuleCommand) : option R :=
  match cmd with SET_CONTROL TURN v => Some v | _ => None end.
Definition fireSetBy (cmd : RuleCommand) : option bool :=
  match cmd with FIRE enabled => Some enabled | _ => None end.
Definition boostSetBy (cmd : RuleCommand) : option (option BoostDirection) :=
  match cmd with BOOST d => Some (Some d) | _ => None end.

(** The value set by the last rule of [prog], in source order, that matches
    and targets the field selected by [setBy]; [None] when no matched rule
    targets it. *)
Fixpoint lastSetting {T} (setBy : RuleCommand -> option T) (sensors : SensorContext)
    (prog : list ScriptAction) : option T :=
  match prog with
  | [] => None
  | rule :: rest =>
      match lastSetting setBy sensors rest with
      | Some v => Some v
      | None =>
          if conditionMatched (condition rule) sensors
          then setBy (command rule) else None
      end
  end.

Definition orNeutral {T} (setting : option T) (neutral : T) : T :=
  match setting with Some v => v | None => neutral end.

(** ** Statements about expressions *)

(** [EXPRESSION_FUNCTIONS] of parser.ts: the arity of each function. *)
Definition EXPRESSION_FUNCTIONS (name : ExpressionFunctionName) : nat :=
  match name with
  | ABS => 1 | MIN => 2 | MAX => 2 | CLAMP => 3
  | ATAN2 => 2 | ANGLE_DIFF => 2 | NORMALIZE_ANGLE => 1
  end%nat.

(** Every call in the expression has the number of arguments that the
    parser checks. *)
Fixpoint arityRespected (e : NumericExpression) : bool :=
  match e with
  | NUMBER_LITERAL _ | SENSOR _ => true
  | UNARY _ operand => arityRespected operand
  | BINARY _ l r => arityRespected l && arityRespected r
  | FUNCTION name args =>
      Nat.eqb (List.length args) (EXPRESSION_FUNCTIONS name)
      && (fix all (l : list NumericExpression) : bool :=
            match l with
            | [] => true
            | a :: rest => arityRespected a && all rest
            end) args
  end.

Inductive subexpression (sub : NumericExpression) : NumericExpression -> Prop :=
  | sub_self : subexpression sub sub
  | sub_unary operator operand :
      subexpression sub operand -> subexpression sub (UNARY operator operand)
  | sub_left operator l r :
      subexpression sub l -> subexpression sub (BINARY operator l r)
  | sub_right operator l r :
      subexpression sub r -> subexpression sub (BINARY operator l r)
  | sub_arg name args a :
      In a args -> subexpression sub a -> subexpression sub (FUNCTION name args).

(** Not a number: [null] or [undefined]. *)
Definition unavailable (v : JsValue) : Prop := v = JNull \/ v = JUndefined.

(** The values of the arguments of a call, when none is [null]. *)
Fixpoint resolveArgs (sensors : SensorContext) (l : list NumericExpression)
  : option (list JsValue) :=
  match l with
  | [] => Some []
  | arg :: rest =>
      match evaluateNumericExpression arg sensors with
      | JNull => None
      | v => match resolveArgs sensors rest with
             | Some vs => Some (v :: vs)
             | None => None
             end
      end
  end.

(** The operator at the root of [e], applied to the numbers that its
    operands evaluate to, divides by a divisor within [EPSILON] of zero or
    yields a result that is not finite. *)
Definition numericHazard (e : NumericExpression) (sensors : SensorContext) : Prop :=
  match e with
  | NUMBER_LITERAL _ | SENSOR _ => False
  | UNARY operator operand =>
      exists v, evaluateNumericExpression operand sensors = JNumber v
                /\ isFinite (match operator with UnMinus => - v | UnPlus => v end) = false
  | BINARY operator l r =>
      exists a b,
        evaluateNumericExpression l sensors = JNumber a
        /\ evaluateNumericExpression r sensors = JNumber b
        /\ match operator with
           | BinAdd => isFinite (a + b) = false
           | BinSub => isFinite (a - b) = false
           | BinMul => isFinite (a * b) = false
           | BinDiv => Rabs b <= EPSILON \/ isFinite (a / b) = false
           end
  | FUNCTION name args =>
      exists resolved,
        resolveArgs sensors args = Some resolved
        /\ match applyFunction name resolved with
           | Some v => isFinite v = false
           | None => True
           end
  end.

(** A sensor table in which only the arena size is available. *)
Definition blindSensors : SensorContext :=
  {| sensor_enemyVisible := false;
     values := fun variable =>
       match variable with ARENA_SIZE => JNumber 10 | _ => JNull end |}.

(** ** Statements about energy *)

(** The robot on which [resolveFiring] runs its spawn attempt: [moved] after
    the cooldown tick-down. *)
Definition atSpawnCheck (moved : RobotState) : RobotState :=
  if alive moved then tickCooldown moved else moved.

(** The energy of one robot through the phases of a tick: [before] the tick,
    after the regeneration ([regen]), the rotation ([rotated]), the movement
    and side boost ([moved]), the firing ([fired]) and at the end of the
    tick ([final]), under the controls [c] resolved for the tick. *)
Definition energyAccount (before regen rotated moved fired final : RobotState)
    (c : ControlState) : Prop :=
  let ignited := alive rotated && boostIgnites rotated c in
  let shot := shotAllowed (atSpawnCheck moved) c in
  (0 <= energy regen <= 100 /\ 0 <= energy moved <= 100
   /\ 0 <= energy fired <= 100 /\ 0 <= energy final <= 100)
  /\ energy before <= energy regen
  /\ energy rotated = energy regen
  /\ energy moved = (if ignited then energy rotated - 35 else energy rotated)
  /\ energy fired = (if shot then energy moved - 6 else energy moved)
  /\ energy final = energy fired
  /\ (energy final < energy before <-> ignited = true \/ shot = true).

(** ** Statements about firing *)

(** The projectiles that a spawn attempt adds to the list. *)
Definition shotsOf (shooter : RobotState) (targetId : string) (c : ControlState)
  : list InFlightProjectile :=
  if shotAllowed shooter c then [spawnedBy shooter targetId] else [].

(** The four cases of a spawn attempt for [shooter] (the robot after the
    cooldown tick-down) under the controls [c]: [fired] is the robot after
    the attempt, [outs] the fire outcomes of the tick. *)
Definition firingCase (shooter fired : RobotState) (targetId : string)
    (c : ControlState) (outs : JsRecord FireOutcome) : Prop :=
  if alive shooter && fire c then
    if (0 <? fireCooldownTicks shooter)%Z then
      (* cooldown-blocked *)
      fired = shooter /\ shotsOf shooter targetId c = []
    else if Rltb (energy shooter) FIRE_ENERGY_COST then
      (* no energy *)
      fired = shooter /\ shotsOf shooter targetId c = []
      /\ exists o, outs (id shooter) = Some o /\ blockedByEnergy o = true
    else
      (* a shot *)
      energy fired = energy shooter - 6
      /\ fireCooldownTicks fired = 1%Z
      /\ (exists o, outs (id shooter) = Some o /\ shotFired o = true)
      /\ exists shot,
           shotsOf shooter targetId c = [shot]
           /\ position shot = {| x := robot_x shooter; y := robot_y shooter |}
           /\ inflight_direction shot = headingVector (headingRad shooter)
           /\ dx (inflight_direction shot) * dx (inflight_direction shot)
              + dy (inflight_direction shot) * dy (inflight_direction shot) = 1
           /\ traveledDistance shot = 0
           /\ maxRange shot = 5
  else
    (* dead, or the trigger is not held *)
    fired = shooter /\ shotsOf shooter targetId c = [].

(** A flag that a spawn attempt never clears, once set in an outcome. *)
Definition stickyFlag (flag : FireOutcome -> bool) : Prop :=
  forall shooter tid c acc k,
    (exists o, outcomes acc k = Some o /\ flag o = true) ->
    exists o, outcomes (snd (fireAttempt shooter tid c acc)) k = Some o /\ flag o = true.

(** A robot that is alive at the spawn check has no cooldown left; when
    moreover its trigger is held and it has the energy of a shot, the firing
    phase, whose result is [res], has pushed its projectile on the list of
    the projectiles spawned in the tick, has debited the 6 energy from the
    robot [fired] that it leaves, has set its cooldown to 1 and has marked
    its outcome as a shot fired. *)
Definition alwaysReady (shooter fired : RobotState) (targetId : string)
    (c : ControlState) (res : FireResolution) : Prop :=
  alive shooter = true ->
  fireCooldownTicks shooter = 0%Z
  /\ (fire c = true -> FIRE_ENERGY_COST <= energy shooter ->
      In (spawnedBy shooter targetId) (spawnedProjectiles res)
      /\ energy fired = energy shooter - 6
      /\ fireCooldownTicks fired = 1%Z
      /\ exists o, outcomes res (id shooter) = Some o /\ shotFired o = true).

(** The script [FIRE ON], parsed, and a battle of two robots that run it. *)
Definition triggerProgram : list ScriptAction :=
  [ {| line := 1; condition := None; command := FIRE true |} ].

Definition triggerBattle : SimulateBattleInput :=
  {| input_robotA := {| input_id := "A"; input_robotName := "Alpha";
                        parsedProgram := triggerProgram |};
     input_robotB := {| input_id := "B"; input_robotName := "Beta";
                        parsedProgram := triggerProgram |};
     input_arenaSize := 10;
     input_maxTicks := None;
     input_maxTurns := None |}.

(** ** Statements about the side boost *)

(** The sign of the locked side on the axis "right of heading". *)
Definition sideSign (d : BoostDirection) : R :=
  match d with RIGHT => 1 | LEFT => - 1 end.

(** A displacement of [tiles] tiles toward the side [d] of the heading,
    with each component rounded to four decimals. *)
Definition lateralDelta (headingRad : R) (d : BoostDirection) (tiles : R) : Position :=
  {| x := toFixed 4 (- sin headingRad * sideSign d * tiles);
     y := toFixed 4 (cos headingRad * sideSign d * tiles) |}.

(** What [resolveSideBoost] does for a live robot [r] whose burst has
    [k] ticks remaining, locked on the side [d]: the force level is [k]
    (the entry [5 - k] of the sequence), the delta is [k / 12] tiles toward
    [d], the counter goes
    down by one and the lock is released with the last tick; the energy and
    the cooldown are left alone, whatever the controls request. *)
Definition burstTick (r : RobotState) (d : BoostDirection) (k : Z) (c : ControlState)
    (start : Position) (N : R) : Prop :=
  let r' := fst (resolveSideBoost r c start N) in
  let res := snd (resolveSideBoost r c start N) in
  boost_used res = true
  /\ boost_direction res = Some d
  /\ boost_forceLevel res = k
  /\ boost_delta res = lateralDelta (headingRad r) d (IZR k / 12)
  /\ boostBurstTicksRemaining r' = (k - 1)%Z
  /\ boostDirectionLocked r' = (if (k =? 1)%Z then None else Some d)
  /\ energy r' = energy r
  /\ boostCooldownTicks r' = boostCooldownTicks r.

(** The controls that the script [BOOST RIGHT] resolves to. *)
Definition boostRightControls : ControlState :=
  {| throttle := 0; strafe := 0; turn := 0; fire := false; boost := Some RIGHT |}.

(** ** Statements about projectile traces *)

(** The trace ends on the robot of [snapshot], its target, which the
    snapshot shows dead. *)
Definition hitsAndKills (trace : Projectile) (snapshot : RobotSnapshot) : Prop :=
  targetRobotId trace = Some (snap_id snapshot)
  /\ to trace = {| x := snap_x snapshot; y := snap_y snapshot |}
  /\ snap_alive snapshot = false.

(** While [advanceProjectiles] runs: every trace with a hit so far ends on
    the rounded position of one of the two robots, its target, whose id is
    among the pending kills. *)
Definition hitsRecorded (a b : RobotState) (acc : ProjectileAdvanceResult) : Prop :=
  forall trace, In trace (traces acc) -> hit trace = true ->
    exists target,
      (target = a \/ target = b)
      /\ targetRobotId trace = Some (id target)
      /\ to trace = {| x := toFixed 4 (robot_x target);
                       y := toFixed 4 (robot_y target) |}
      /\ setHas (pendingKills acc) (id target) = true.

(** A duel one tick after robot A, at the origin and heading East, fired at
    robot B, one tile ahead: the projectile has flown half a tile. *)
Definition duelShot : InFlightProjectile :=
  {| shooterRobotId := "A";
     inflight_targetRobotId := "B";
     position := {| x := / 2; y := 0 |};
     inflight_direction := {| dx := 1; dy := 0 |};
     directionCardinal := DirE;
     traveledDistance := / 2;
     maxRange := SHOT_RANGE |}.

Definition duelState : BattleState :=
  {| stateA := buildRobotState {| input_id := "A"; input_robotName := "Alpha";
                                  parsedProgram := idleProgram |} 0 0 DirE;
     stateB := buildRobotState {| input_id := "B"; input_robotName := "Beta";
                                  parsedProgram := idleProgram |} 1 0 DirW;
     activeProjectiles := [duelShot];
     stepCounter := 2 |}.

(** The trace of that projectile in the next tick. *)
Definition duelTrace : Projectile :=
  {| from := {| x := / 2; y := 0 |};
     to := {| x := 1; y := 0 |};
     trace_direction := DirE;
     range := SHOT_RANGE;
     hit := true;
     targetRobotId := Some "B"%string |}.

(** ** parser.ts: strings

    A script is a [string] of 8-bit characters.  Of the JavaScript string
    functions the parser uses, [trim] and [\s] take the white space among
    these characters, [toUpperCase] acts on the letters a-z (no other 8-bit
    character has an upper case among the characters that the keywords are
    made of, so that a text equals a keyword in upper case here exactly when
    it does in JavaScript), [\b] is the boundary next to a word character
    [A-Za-z0-9_].  Texts are lists of characters; a position in a text is
    the list of the characters from it on. *)

Definition chars (s : string) : list ascii := list_ascii_of_string s.
Definition text (l : list ascii) : string := string_of_list_ascii l.

Definition charIn (lo hi : nat) (c : ascii) : bool :=
  (lo <=? nat_of_ascii c)%nat && (nat_of_ascii c <=? hi)%nat.

Definition isWhiteSpace (c : ascii) : bool :=
  let n := nat_of_ascii c in
  charIn 9 13 c || Nat.eqb n 32 || Nat.eqb n 160.

Definition isDigit (c : ascii) : bool := charIn 48 57 c.
Definition isUpper (c : ascii) : bool := charIn 65 90 c.
Definition isLower (c : ascii) : bool := charIn 97 122 c.
Definition isUnderscore (c : ascii) : bool := Nat.eqb (nat_of_ascii c) 95.

(** [\w] *)
Definition isWordCharacter (c : ascii) : bool :=
  isUpper c || isLower c || isDigit c || isUnderscore c.

Definition upperChar (c : ascii) : ascii :=
  if isLower c then ascii_of_nat (nat_of_ascii c - 32) else c.

Definition toUpperCase (l : list ascii) : list ascii := map upperChar l.

Fixpoint trimStart (l : list ascii) : list ascii :=
  match l with
  | c :: rest => if isWhiteSpace c then trimStart rest else l
  | [] => []
  end.

Definition trimEnd (l : list ascii) : list ascii := rev (trimStart (rev l)).
Definition trim (l : list ascii) : list ascii := trimEnd (trimStart l).

Definition isEmpty (l : list ascii) : bool :=
  match l with [] => true | _ => false end.

Fixpoint listEqb (a b : list ascii) : bool :=
  match a, b with
  | [], [] => true
  | c :: a', d :: b' => Ascii.eqb c d && listEqb a' b'
  | _, _ => false
  end.

(** [s.startsWith(prefix)] *)
Fixpoint startsWith (l prefix : list ascii) : bool :=
  match prefix, l with
  | [], _ => true
  | p :: prefix', c :: l' => Ascii.eqb c p && startsWith l' prefix'
  | _ :: _, [] => false
  end.

(** [s.slice(start)] and [s.slice(start, stop)] for indices within [s]. *)
Definition sliceFrom (l : list ascii) (start : nat) : list ascii := skipn start l.
Definition slice (l : list ascii) (start stop : nat) : list ascii :=
  firstn (stop - start) (skipn start l).

(** [s.split(/\r?\n/)] *)
Fixpoint splitLines (l : list ascii) (current : list ascii) : list (list ascii) :=
  match l with
  | [] => [rev current]
  | c :: rest =>
      if Nat.eqb (nat_of_ascii c) 10 then rev current :: splitLines rest []
      else if Nat.eqb (nat_of_ascii c) 13 then
        match rest with
        | d :: rest' =>
            if Nat.eqb (nat_of_ascii d) 10 then rev current :: splitLines rest' []
            else splitLines rest (c :: current)
        | [] => splitLines rest (c :: current)
        end
      else splitLines rest (c :: current)
  end.

(** [s.split(/\s+/)]: the pieces between the runs of white space, the empty
    piece before a leading run and after a trailing run included. *)
Fixpoint splitWhiteSpace (l : list ascii) (current : list ascii) (inRun : bool)
  : list (list ascii) :=
  match l with
  | [] => [rev current]
  | c :: rest =>
      if isWhiteSpace c then
        if inRun then splitWhiteSpace rest current true
        else rev current :: splitWhiteSpace rest [] true
      else splitWhiteSpace rest (c :: current) false
  end.

Definition splitTokens (l : list ascii) : list (list ascii) :=
  splitWhiteSpace l [] false.

(** [.filter(Boolean)] on strings: the non-empty ones. *)
Definition nonEmptyTokens (tokens : list (list ascii)) : list (list ascii) :=
  filter (fun t => negb (isEmpty t)) tokens.

(** ** parser.ts: numbers *)

(** The longest prefix of [l] whose characters satisfy [p], and the rest. *)
Fixpoint span (p : ascii -> bool) (l : list ascii) : list ascii * list ascii :=
  match l with
  | c :: rest =>
      if p c then let '(taken, others) := span p rest in (c :: taken, others)
      else ([], l)
  | [] => ([], [])
  end.

Definition digitValue (c : ascii) : Z := Z.of_nat (nat_of_ascii c - 48).

(** The value of a run of decimal digits. *)
Definition digitsValue (digits : list ascii) : Z :=
  fold_left (fun acc c => (acc * 10 + digitValue c)%Z) digits 0%Z.

(** A numeric literal found at the head of a text: the digits before and
    after the point, the exponent, and what follows the literal. *)
Record NumberLexeme := {
  intDigits : list ascii;
  fracDigits : list ascii;
  exponent : Z;
  afterNumber : list ascii
}.

(** The exponent part ([e] or [E], a sign, digits), when it is there in full. *)
Definition scanExponent (l : list ascii) : Z * list ascii :=
  match l with
  | e :: rest =>
      if Nat.eqb (nat_of_ascii e) 101 || Nat.eqb (nat_of_ascii e) 69 then
        let '(negative, afterSign) :=
          match rest with
          | sign :: rest' =>
              if Nat.eqb (nat_of_ascii sign) 43 then (false, rest')
              else if Nat.eqb (nat_of_ascii sign) 45 then (true, rest')
              else (false, rest)
          | [] => (false, rest)
          end in
        let '(digits, others) := span isDigit afterSign in
        match digits with
        | [] => (0%Z, l)
        | _ => ((if negative then - digitsValue digits else digitsValue digits)%Z, others)
        end
      else (0%Z, l)
  | [] => (0%Z, l)
  end.

(** The number pattern of [tokenizeExpression]: digits with an optional
    point and fraction, or a point and digits, then an optional exponent.
    It is also the unsigned decimal literal that [parseFloat] reads. *)
Definition scanNumber (l : list ascii) : option NumberLexeme :=
  let '(whole, afterWhole) := span isDigit l in
  match whole with
  | _ :: _ =>
      match afterWhole with
      | dot :: afterDot =>
          if Nat.eqb (nat_of_ascii dot) 46 then
            let '(frac, afterFrac) := span isDigit afterDot in
            let '(e, others) := scanExponent afterFrac in
            Some {| intDigits := whole; fracDigits := frac; exponent := e;
                    afterNumber := others |}
          else
            let '(e, others) := scanExponent afterWhole in
            Some {| intDigits := whole; fracDigits := []; exponent := e;
                    afterNumber := others |}
      | [] => Some {| intDigits := whole; fracDigits := []; exponent := 0;
                      afterNumber := [] |}
      end
  | [] =>
      match l with
      | dot :: afterDot =>
          if Nat.eqb (nat_of_ascii dot) 46 then
            let '(frac, afterFrac) := span isDigit afterDot in
            match frac with
            | [] => None
            | _ =>
                let '(e, others) := scanExponent afterFrac in
                Some {| intDigits := []; fracDigits := frac; exponent := e;
                        afterNumber := others |}
            end
          else None
      | [] => None
      end
  end.

(** The rational that the literal denotes. *)
Definition lexemeValue (n : NumberLexeme) : Q :=
  (inject_Z (digitsValue (intDigits n ++ fracDigits n))
   * Qpower 10 (exponent n - Z.of_nat (List.length (fracDigits n))))%Q.

(** What [Number.parseFloat] returns. *)
Inductive FloatParse :=
  | FloatNaN
  | FloatInfinity
  | FloatValue (q : Q).

(** [Number.MAX_VALUE], as a rational. *)
Definition maxValueQ : Q := inject_Z ((2 ^ 53 - 1) * 2 ^ 971).

(** [Number.parseFloat(token)]: the optional sign and the longest decimal
    literal at the head of the token, whatever follows it. *)
Definition parseFloat (token : list ascii) : FloatParse :=
  let l := trimStart token in
  let '(negative, unsigned) :=
    match l with
    | sign :: rest =>
        if Nat.eqb (nat_of_ascii sign) 43 then (false, rest)
        else if Nat.eqb (nat_of_ascii sign) 45 then (true, rest)
        else (false, l)
    | [] => (false, l)
    end in
  if startsWith unsigned (chars "Infinity") then FloatInfinity
  else
    match scanNumber unsigned with
    | None => FloatNaN
    | Some n =>
        let q := lexemeValue n in
        if Qle_bool q maxValueQ
        then FloatValue (if negative then (- q)%Q else q)
        else FloatInfinity
    end.

(** ** parser.ts: diagnostics *)

(** The label that [parseNormalizedNumber] puts in its message. *)
Inductive NumberLabel :=
  | ControlValueLabel (field : ControlField)   (* <field> value *)
  | ExpressionNumberLabel.                     (* expression number *)

Inductive ConditionKeyword := KeywordAnd | KeywordOr | KeywordNot.

(** The errors that the parser throws, one constructor for each [throw] of
    parser.ts, with the values that its message interpolates. *)
Inductive ParseError :=
  | ScriptEmpty               (* script is empty *)
  | ScriptTooLong             (* script is too long; maximum 200 lines *)
  | NoExecutableCommands      (* script has no executable commands *)
  | NotFinite (label : NumberLabel)          (* <label> must be a finite number *)
  | ControlOutOfRange (field : ControlField) (* <field> value must be between -1 and 1 *)
  | SetShape                  (* SET must be written as SET THROTTLE|STRAFE|TURN <-1..1> *)
  | SetFieldUnknown           (* SET field must be THROTTLE, STRAFE, or TURN *)
  | FireShape                 (* FIRE must be FIRE or FIRE ON|OFF *)
  | FireModeUnknown           (* FIRE mode must be ON or OFF *)
  | BoostShape                (* BOOST must be written as BOOST LEFT|RIGHT *)
  | BoostDirectionUnknown     (* BOOST direction must be LEFT or RIGHT *)
  | CommandMissing            (* command is missing *)
  | UnsupportedCommand (token : list ascii)  (* unsupported command <token> *)
  | InvalidCharacter (c : ascii)             (* invalid character <c> in expression *)
  | ExpressionParseError      (* expression parse error near <text> *)
  | MissingSymbol (symbol : ascii)           (* missing <symbol> in expression <text> *)
  | UnknownFunction (name : list ascii)      (* unknown function <name> *)
  | WrongArity (name : ExpressionFunctionName) (expected got : nat)
                              (* <name> expects <expected> argument(s), got <got> *)
  | UnknownIdentifier (name : list ascii)    (* unknown identifier <name> *)
  | InvalidExpression         (* invalid expression near <text> *)
  | ExpressionEmpty           (* expression is empty *)
  | MismatchedParentheses     (* IF condition has mismatched parentheses *)
  | SeveralComparators        (* IF condition supports only one top-level comparator *)
  | InvalidCondition          (* invalid IF condition *)
  | ComparatorOperands        (* IF condition comparator requires both left and right expressions *)
  | OperandMissing (keyword : ConditionKeyword) (* <keyword> condition operand is missing *)
  | ConditionMissing          (* IF condition is missing *)
  | ThenMissing               (* IF statement must include THEN *)
  | ThenCommandMissing.       (* IF ... THEN command is missing *)

(** The thrown [Error]: the line that its message starts with (none for the
    three errors about the script as a whole) and what it says. *)
Record Diagnostic := {
  diag_line : option nat;
  diag_error : ParseError
}.

(** The result of a parsing function: the value it returns or the error it
    throws.  [Exhausted] is the result of a recursive function of this model
    whose bound on the depth of the recursion was too small. *)
Inductive Outcome (T : Type) :=
  | Parsed (value : T)
  | Failed (d : Diagnostic)
  | Exhausted.

Arguments Parsed {T} value.
Arguments Failed {T} d.
Arguments Exhausted {T}.

Definition bind {A B} (m : Outcome A) (k : A -> Outcome B) : Outcome B :=
  match m with
  | Parsed v => k v
  | Failed d => Failed d
  | Exhausted => Exhausted
  end.

Notation "'do' x <- m ; k" := (bind m (fun x => k))
  (at level 10, x binder, m at level 100, k at level 200).

Definition throw {T} (lineNumber : nat) (e : ParseError) : Outcome T :=
  Failed {| diag_line := Some lineNumber; diag_error := e |}.

(** ** parser.ts: commands *)

Definition MAX_SCRIPT_LINES : nat := 200.

Definition parseNormalizedNumber (token : list ascii) (lineNumber : nat)
    (label : NumberLabel) : Outcome Q :=
  match parseFloat token with
  | FloatValue value => Parsed value
  | _ => throw lineNumber (NotFinite label)
  end.

Definition parseControlValue (token : list ascii) (lineNumber : nat)
    (field : ControlField) : Outcome R :=
  do value <- parseNormalizedNumber token lineNumber (ControlValueLabel field);
  if negb (Qle_bool (- (1)) value) || negb (Qle_bool value 1)
  then throw lineNumber (ControlOutOfRange field)
  else Parsed (toFixed 4 (Q2R value)).

Definition keyword (s : string) (token : list ascii) : bool :=
  listEqb (toUpperCase token) (chars s).

Definition parseSetControl (tokens : list (list ascii)) (lineNumber : nat)
  : Outcome RuleCommand :=
  match tokens with
  | [_; fieldToken; valueToken] =>
      let field :=
        if keyword "THROTTLE" fieldToken then Some THROTTLE
        else if keyword "STRAFE" fieldToken then Some STRAFE
        else if keyword "TURN" fieldToken then Some TURN
        else None in
      match field with
      | None => throw lineNumber SetFieldUnknown
      | Some f =>
          do value <- parseControlValue valueToken lineNumber f;
          Parsed (SET_CONTROL f value)
      end
  | _ => throw lineNumber SetShape
  end.

Definition parseFire (tokens : list (list ascii)) (lineNumber : nat)
  : Outcome RuleCommand :=
  match tokens with
  | [_] => Parsed (FIRE true)
  | [_; mode] =>
      if keyword "ON" mode || keyword "1" mode || keyword "TRUE" mode
      then Parsed (FIRE true)
      else if keyword "OFF" mode || keyword "0" mode || keyword "FALSE" mode
      then Parsed (FIRE false)
      else throw lineNumber FireModeUnknown
  | _ => throw lineNumber FireShape
  end.

Definition parseBoost (tokens : list (list ascii)) (lineNumber : nat)
  : Outcome RuleCommand :=
  match tokens with
  | [_; directionToken] =>
      if keyword "LEFT" directionToken then Parsed (BOOST LEFT)
      else if keyword "RIGHT" directionToken then Parsed (BOOST RIGHT)
      else throw lineNumber BoostDirectionUnknown
  | _ => throw lineNumber BoostShape
  end.

Definition parseCommand (tokens : list (list ascii)) (lineNumber : nat)
  : Outcome RuleCommand :=
  match tokens with
  | [] => throw lineNumber CommandMissing
  | first :: _ =>
      if keyword "SET" first then parseSetControl tokens lineNumber
      else if keyword "FIRE" first || keyword "SHOOT" first
      then parseFire tokens lineNumber
      else if keyword "BOOST" first then parseBoost tokens lineNumber
      else throw lineNumber (UnsupportedCommand first)
  end.

(** ** parser.ts: expressions *)

Definition SENSOR_VARIABLES : list (string * SensorVariable) :=
  [ ("ARENA_SIZE", ARENA_SIZE); ("SHOT_RANGE", SENSOR_SHOT_RANGE);
    ("SHOT_HIT_RADIUS", SENSOR_SHOT_HIT_RADIUS);
    ("SELF_X", SELF_X); ("SELF_Y", SELF_Y); ("SELF_HEADING", SELF_HEADING);
    ("SELF_ENERGY", SELF_ENERGY); ("BOOST_COOLDOWN", BOOST_COOLDOWN);
    ("TICKS_SINCE_ENEMY_SEEN", TICKS_SINCE_ENEMY_SEEN);
    ("ENEMY_X", ENEMY_X); ("ENEMY_Y", ENEMY_Y); ("ENEMY_HEADING", ENEMY_HEADING);
    ("ENEMY_DX", ENEMY_DX); ("ENEMY_DY", ENEMY_DY); ("ENEMY_DISTANCE", ENEMY_DISTANCE);
    ("ENEMY_FORWARD_DISTANCE", ENEMY_FORWARD_DISTANCE);
    ("ENEMY_LATERAL_OFFSET", ENEMY_LATERAL_OFFSET);
    ("PREV_ENEMY_X", PREV_ENEMY_X); ("PREV_ENEMY_Y", PREV_ENEMY_Y);
    ("PREV_ENEMY_HEADING", PREV_ENEMY_HEADING);
    ("PREV_ENEMY_DX", PREV_ENEMY_DX); ("PREV_ENEMY_DY", PREV_ENEMY_DY);
    ("PREV_ENEMY_DISTANCE", PREV_ENEMY_DISTANCE);
    ("ENEMY_DX_DELTA", ENEMY_DX_DELTA); ("ENEMY_DY_DELTA", ENEMY_DY_DELTA);
    ("ENEMY_DISTANCE_DELTA", ENEMY_DISTANCE_DELTA);
    ("WALL_AHEAD_DISTANCE", WALL_AHEAD_DISTANCE);
    ("WALL_LEFT_DISTANCE", WALL_LEFT_DISTANCE);
    ("WALL_RIGHT_DISTANCE", WALL_RIGHT_DISTANCE);
    ("WALL_BACK_DISTANCE", WALL_BACK_DISTANCE);
    ("WALL_NEAREST_DISTANCE", WALL_NEAREST_DISTANCE) ]%string.

(** The keys of [EXPRESSION_FUNCTIONS]. *)
Definition EXPRESSION_FUNCTION_NAMES : list (string * ExpressionFunctionName) :=
  [ ("ABS", ABS); ("MIN", MIN); ("MAX", MAX); ("CLAMP", CLAMP); ("ATAN2", ATAN2);
    ("ANGLE_DIFF", ANGLE_DIFF); ("NORMALIZE_ANGLE", NORMALIZE_ANGLE) ]%string.

(** The entry of a table of names that [name] spells. *)
Fixpoint named {T} (table : list (string * T)) (name : list ascii) : option T :=
  match table with
  | [] => None
  | (key, value) :: rest =>
      if listEqb name (chars key) then Some value else named rest name
  end.

(** [isSensorVariable(value)], with the variable. *)
Definition sensorVariable (value : list ascii) : option SensorVariable :=
  named SENSOR_VARIABLES value.

(** A token of an expression; the [index] that the tokenizer records in it
    is not read by the parser and is left out. *)
Inductive ExpressionToken :=
  | TOKEN_NUMBER (value : list ascii)
  | TOKEN_IDENTIFIER (value : list ascii)
  | TOKEN_SYMBOL (value : ascii)
  | TOKEN_EOF.

Definition isSymbol (c : ascii) : bool :=
  existsb (Ascii.eqb c) (chars "()+-*/,").

Definition isIdentifierStart (c : ascii) : bool :=
  isUpper c || isLower c || isUnderscore c.

(** The token that starts at the head of [remaining], which is no white
    space, and its length; none at a character that starts no token. *)
Definition tokenAt (remaining : list ascii) : option (ExpressionToken * nat) :=
  match scanNumber remaining with
  | Some n =>
      let len := (List.length remaining - List.length (afterNumber n))%nat in
      Some (TOKEN_NUMBER (firstn len remaining), len)
  | None =>
      match remaining with
      | c :: _ =>
          if isIdentifierStart c then
            let name := fst (span isWordCharacter remaining) in
            Some (TOKEN_IDENTIFIER name, List.length name)
          else if isSymbol c then Some (TOKEN_SYMBOL c, 1%nat)
          else None
      | [] => None
      end
  end.

(** The loop of [tokenizeExpression] at the characters [remaining]; the
    first [skip] of them belong to the token pushed last. *)
Fixpoint tokenizeFrom (remaining : list ascii) (skip : nat) (lineNumber : nat)
  : Outcome (list ExpressionToken) :=
  match remaining with
  | [] => Parsed [TOKEN_EOF]
  | c :: rest =>
      match skip with
      | Datatypes.S skip' => tokenizeFrom rest skip' lineNumber
      | O =>
          if isWhiteSpace c then tokenizeFrom rest 0 lineNumber
          else
            match tokenAt remaining with
            | Some (token, len) =>
                do tokens <- tokenizeFrom rest (len - 1) lineNumber;
                Parsed (token :: tokens)
            | None => throw lineNumber (InvalidCharacter c)
            end
      end
  end.

Definition tokenizeExpression (expressionText : list ascii) (lineNumber : nat)
  : Outcome (list ExpressionToken) :=
  tokenizeFrom expressionText 0 lineNumber.

(** The methods of [ExpressionParser] take the tokens from the cursor on;
    the cursor never passes the [EOF] token that ends them. *)
Definition currentToken (tokens : list ExpressionToken) : ExpressionToken :=
  hd TOKEN_EOF tokens.

Definition consumeSymbol (symbol : string) (tokens : list ExpressionToken)
  : option (list ExpressionToken) :=
  match tokens with
  | TOKEN_SYMBOL value :: rest =>
      if listEqb [value] (chars symbol) then Some rest else None
  | _ => None
  end.

Definition peekSymbol (symbol : string) (tokens : list ExpressionToken) : bool :=
  match consumeSymbol symbol tokens with Some _ => true | None => false end.

Definition expectSymbol (symbol : ascii) (tokens : list ExpressionToken)
    (lineNumber : nat) : Outcome (list ExpressionToken) :=
  match consumeSymbol (String symbol EmptyString) tokens with
  | Some rest => Parsed rest
  | None => throw lineNumber (MissingSymbol symbol)
  end.

(** What a method returns, with the tokens from the cursor on. *)
Definition Parser (T : Type) : Type := Outcome (T * list ExpressionToken).

(** [parseAdditive] and the methods it calls.  [depth] bounds the depth of
    the calls; the loops of [parseAdditive], [parseMultiplicative] and
    [parseFunctionCall] are [additiveLoop], [multiplicativeLoop] and
    [parseArguments]. *)
Fixpoint parseAdditive (depth : nat) (lineNumber : nat)
    (tokens : list ExpressionToken) {struct depth} : Parser NumericExpression :=
  match depth with
  | O => Exhausted
  | Datatypes.S depth' =>
      do '(first, rest) <- parseMultiplicative depth' lineNumber tokens;
      additiveLoop depth' lineNumber first rest
  end
with additiveLoop (depth : nat) (lineNumber : nat) (left : NumericExpression)
    (tokens : list ExpressionToken) {struct depth} : Parser NumericExpression :=
  match depth with
  | O => Exhausted
  | Datatypes.S depth' =>
      match consumeSymbol "+" tokens with
      | Some rest =>
          do '(operand, rest') <- parseMultiplicative depth' lineNumber rest;
          additiveLoop depth' lineNumber (BINARY BinAdd left operand) rest'
      | None =>
          match consumeSymbol "-" tokens with
          | Some rest =>
              do '(operand, rest') <- parseMultiplicative depth' lineNumber rest;
              additiveLoop depth' lineNumber (BINARY BinSub left operand) rest'
          | None => Parsed (left, tokens)
          end
      end
  end
with parseMultiplicative (depth : nat) (lineNumber : nat)
    (tokens : list ExpressionToken) {struct depth} : Parser NumericExpression :=
  match depth with
  | O => Exhausted
  | Datatypes.S depth' =>
      do '(first, rest) <- parseUnary depth' lineNumber tokens;
      multiplicativeLoop depth' lineNumber first rest
  end
with multiplicativeLoop (depth : nat) (lineNumber : nat) (left : NumericExpression)
    (tokens : list ExpressionToken) {struct depth} : Parser NumericExpression :=
  match depth with
  | O => Exhausted
  | Datatypes.S depth' =>
      match consumeSymbol "*" tokens with
      | Some rest =>
          do '(operand, rest') <- parseUnary depth' lineNumber rest;
          multiplicativeLoop depth' lineNumber (BINARY BinMul left operand) rest'
      | None =>
          match consumeSymbol "/" tokens with
          | Some rest =>
              do '(operand, rest') <- parseUnary depth' lineNumber rest;
              multiplicativeLoop depth' lineNumber (BINARY BinDiv left operand) rest'
          | None => Parsed (left, tokens)
          end
      end
  end
with parseUnary (depth : nat) (lineNumber : nat)
    (tokens : list ExpressionToken) {struct depth} : Parser NumericExpression :=
  match depth with
  | O => Exhausted
  | Datatypes.S depth' =>
      match consumeSymbol "+" tokens with
      | Some rest =>
          do '(operand, rest') <- parseUnary depth' lineNumber rest;
          Parsed (UNARY UnPlus operand, rest')
      | None =>
          match consumeSymbol "-" tokens with
          | Some rest =>
              do '(operand, rest') <- parseUnary depth' lineNumber rest;
              Parsed (UNARY UnMinus operand, rest')
          | None => parsePrimary depth' lineNumber tokens
          end
      end
  end
with parsePrimary (depth : nat) (lineNumber : nat)
    (tokens : list ExpressionToken) {struct depth} : Parser NumericExpression :=
  match depth with
  | O => Exhausted
  | Datatypes.S depth' =>
      match tokens with
      | TOKEN_NUMBER value :: rest =>
          do number <- parseNormalizedNumber value lineNumber ExpressionNumberLabel;
          Parsed (NUMBER_LITERAL (Q2R number), rest)
      | TOKEN_IDENTIFIER value :: rest =>
          let normalized := toUpperCase value in
          match consumeSymbol "(" rest with
          | Some rest' => parseFunctionCall depth' lineNumber normalized rest'
          | None =>
              match sensorVariable normalized with
              | Some variable => Parsed (SENSOR variable, rest)
              | None =>
                  if listEqb normalized (chars "PI")
                  then Parsed (NUMBER_LITERAL PI, rest)
                  else if listEqb normalized (chars "TAU")
                  then Parsed (NUMBER_LITERAL (PI * 2), rest)
                  else throw lineNumber (UnknownIdentifier value)
              end
          end
      | _ =>
          match consumeSymbol "(" tokens with
          | Some rest =>
              do '(nested, rest') <- parseAdditive depth' lineNumber rest;
              do rest'' <- expectSymbol ")" rest' lineNumber;
              Parsed (nested, rest'')
          | None => throw lineNumber InvalidExpression
          end
      end
  end
with parseFunctionCall (depth : nat) (lineNumber : nat) (functionName : list ascii)
    (tokens : list ExpressionToken) {struct depth} : Parser NumericExpression :=
  match depth with
  | O => Exhausted
  | Datatypes.S depth' =>
      match named EXPRESSION_FUNCTION_NAMES functionName with
      | None => throw lineNumber (UnknownFunction functionName)
      | Some name =>
          do '(args, rest) <-
            (if peekSymbol ")" tokens then Parsed ([], tokens)
             else parseArguments depth' lineNumber tokens);
          do rest' <- expectSymbol ")" rest lineNumber;
          let expectedArity := EXPRESSION_FUNCTIONS name in
          if negb (Nat.eqb (List.length args) expectedArity)
          then throw lineNumber (WrongArity name expectedArity (List.length args))
          else Parsed (FUNCTION name args, rest')
      end
  end
with parseArguments (depth : nat) (lineNumber : nat)
    (tokens : list ExpressionToken) {struct depth}
  : Parser (list NumericExpression) :=
  match depth with
  | O => Exhausted
  | Datatypes.S depth' =>
      do '(arg, rest) <- parseAdditive depth' lineNumber tokens;
      match consumeSymbol "," rest with
      | Some rest' =>
          do '(more, rest'') <- parseArguments depth' lineNumber rest';
          Parsed (arg :: more, rest'')
      | None => Parsed ([arg], rest)
      end
  end.

(** Calls nest no deeper than this on the tokens of an expression. *)
Definition parseDepth (tokens : list ExpressionToken) : nat :=
  4 * List.length tokens + 4.

(** [new ExpressionParser(tokens, text, lineNumber).parse()] *)
Definition parseTokens (tokens : list ExpressionToken) (lineNumber : nat)
  : Outcome NumericExpression :=
  do '(expression, rest) <- parseAdditive (parseDepth tokens) lineNumber tokens;
  match currentToken rest with
  | TOKEN_EOF => Parsed expression
  | _ => throw lineNumber ExpressionParseError
  end.

Definition parseNumericExpression (expressionText : list ascii) (lineNumber : nat)
  : Outcome NumericExpression :=
  let trimmed := trim expressionText in
  if isEmpty trimmed then throw lineNumber ExpressionEmpty
  else
    do tokens <- tokenizeExpression trimmed lineNumber;
    parseTokens tokens lineNumber.

(** ** parser.ts: conditions *)

Definition isChar (s : string) (c : ascii) : bool := listEqb [c] (chars s).

(** [operators.find(candidate => text.startsWith(candidate, index))] at the
    characters from [index] on: the operator it stands for and the length
    of the candidate. *)
Definition operatorAt (from : list ascii) : option (ComparisonOperator * nat) :=
  if startsWith from (chars ">=") then Some (OpGe, 2%nat)
  else if startsWith from (chars "<=") then Some (OpLe, 2%nat)
  else if startsWith from (chars "==") then Some (OpEq, 2%nat)
  else if startsWith from (chars "!=") then Some (OpNe, 2%nat)
  else if startsWith from (chars ">") then Some (OpGt, 1%nat)
  else if startsWith from (chars "<") then Some (OpLt, 1%nat)
  else if startsWith from (chars "=") then Some (OpEq, 1%nat)
  else None.

(** [found] in [splitConditionComparison]. *)
Record FoundComparator := {
  found_index : nat;
  found_length : nat;
  found_operator : ComparisonOperator
}.

(** The loop of [splitConditionComparison] at the characters [from], which
    start at [index]; the first [skip] of them belong to the comparator
    found last. *)
Fixpoint findComparator (from : list ascii) (index depth skip : nat)
    (found : option FoundComparator) (lineNumber : nat)
  : Outcome (option FoundComparator) :=
  match from with
  | [] =>
      match depth with
      | O => Parsed found
      | _ => throw lineNumber MismatchedParentheses
      end
  | c :: rest =>
      match skip with
      | Datatypes.S skip' =>
          findComparator rest (Datatypes.S index) depth skip' found lineNumber
      | O =>
          if isChar "(" c then
            findComparator rest (Datatypes.S index) (Datatypes.S depth) 0 found lineNumber
          else if isChar ")" c then
            match depth with
            | O => throw lineNumber MismatchedParentheses
            | Datatypes.S depth' =>
                findComparator rest (Datatypes.S index) depth' 0 found lineNumber
            end
          else
            match depth with
            | Datatypes.S _ =>
                findComparator rest (Datatypes.S index) depth 0 found lineNumber
            | O =>
                match operatorAt from with
                | None => findComparator rest (Datatypes.S index) depth 0 found lineNumber
                | Some (operator, len) =>
                    match found with
                    | Some _ => throw lineNumber SeveralComparators
                    | None =>
                        findComparator rest (Datatypes.S index) depth (len - 1)
                          (Some {| found_index := index; found_length := len;
                                   found_operator := operator |})
                          lineNumber
                    end
                end
            end
      end
  end.

Record ComparisonSplit := {
  split_left : list ascii;
  split_operator : ComparisonOperator;
  split_right : list ascii
}.

Definition splitConditionComparison (conditionText : list ascii) (lineNumber : nat)
  : Outcome ComparisonSplit :=
  do found <- findComparator conditionText 0 0 0 None lineNumber;
  match found with
  | None => throw lineNumber InvalidCondition
  | Some f =>
      let leftText := trim (slice conditionText 0 (found_index f)) in
      let rightText := trim (sliceFrom conditionText (found_index f + found_length f)) in
      if isEmpty leftText || isEmpty rightText
      then throw lineNumber ComparatorOperands
      else Parsed {| split_left := leftText; split_operator := found_operator f;
                     split_right := rightText |}
  end.

(** [isIdentifierCharacter(char)]; [None] is [undefined]. *)
Definition isIdentifierCharacter (char : option ascii) : bool :=
  match char with
  | None => false
  | Some c => isUpper c || isDigit c || isUnderscore c
  end.

Definition keywordText (keyword : ConditionKeyword) : list ascii :=
  match keyword with
  | KeywordAnd => chars "AND"
  | KeywordOr => chars "OR"
  | KeywordNot => chars "NOT"
  end.

(** [matchesKeywordAt(textUpper, index, keyword)], from the character of
    [textUpper] before [index] and its characters from [index] on. *)
Definition matchesKeywordAt (charBefore : option ascii) (upperFrom : list ascii)
    (keyword : ConditionKeyword) : bool :=
  if negb (startsWith upperFrom (keywordText keyword)) then false
  else
    let charAfter := nth_error upperFrom (List.length (keywordText keyword)) in
    if isIdentifierCharacter charBefore || isIdentifierCharacter charAfter
    then false else true.

(** The loop of [splitTopLevelByKeyword] at the characters [from] of the
    source; [charBefore] is the character of [upper] before them, [segment]
    the characters since [lastIndex], last first.  The result is the parts
    pushed from here on and the characters left after the last of them. *)
Fixpoint splitLoop (from : list ascii) (charBefore : option ascii) (depth skip : nat)
    (segment : list ascii) (keyword : ConditionKeyword) (lineNumber : nat)
  : Outcome (list (list ascii) * list ascii) :=
  match from with
  | [] =>
      match depth with
      | O => Parsed ([], rev segment)
      | _ => throw lineNumber MismatchedParentheses
      end
  | c :: rest =>
      let here := Some (upperChar c) in
      match skip with
      | Datatypes.S skip' =>
          splitLoop rest here depth skip' segment keyword lineNumber
      | O =>
          if isChar "(" c then
            splitLoop rest here (Datatypes.S depth) 0 (c :: segment) keyword lineNumber
          else if isChar ")" c then
            match depth with
            | O => throw lineNumber MismatchedParentheses
            | Datatypes.S depth' =>
                splitLoop rest here depth' 0 (c :: segment) keyword lineNumber
            end
          else
            match depth with
            | Datatypes.S _ =>
                splitLoop rest here depth 0 (c :: segment) keyword lineNumber
            | O =>
                if matchesKeywordAt charBefore (toUpperCase from) keyword then
                  let part := trim (rev segment) in
                  if isEmpty part then throw lineNumber (OperandMissing keyword)
                  else
                    do '(parts, tail) <-
                      splitLoop rest here depth
                        (List.length (keywordText keyword) - 1) [] keyword lineNumber;
                    Parsed (part :: parts, tail)
                else splitLoop rest here depth 0 (c :: segment) keyword lineNumber
            end
      end
  end.

(** [splitTopLevelByKeyword]; [None] is [null]. *)
Definition splitTopLevelByKeyword (conditionText : list ascii)
    (keyword : ConditionKeyword) (lineNumber : nat)
  : Outcome (option (list (list ascii))) :=
  let source := trim conditionText in
  do '(parts, tail) <- splitLoop source None 0 0 [] keyword lineNumber;
  match parts with
  | [] => Parsed None
  | _ =>
      let last := trim tail in
      if isEmpty last then throw lineNumber (OperandMissing keyword)
      else Parsed (Some (parts ++ [last]))
  end.

(** The loop of [isWrappedByOuterParentheses]: the depth at the end, or
    none when the loop returns false. *)
Fixpoint wrappedLoop (from : list ascii) (depth : Z) : option Z :=
  match from with
  | [] => Some depth
  | c :: rest =>
      if isChar "(" c then wrappedLoop rest (depth + 1)
      else if isChar ")" c then
        if ((depth - 1 =? 0)%Z && negb (isEmpty rest))%bool then None
        else wrappedLoop rest (depth - 1)
      else wrappedLoop rest depth
  end.

Definition endsWith (l suffix : list ascii) : bool :=
  startsWith (rev l) (rev suffix).

Definition isWrappedByOuterParentheses (conditionText : list ascii) : bool :=
  let source := trim conditionText in
  if negb (startsWith source (chars "(")) || negb (endsWith source (chars ")"))
  then false
  else
    match wrappedLoop source 0 with
    | Some depth => (depth =? 0)%Z
    | None => false
    end.

(** The loop of [stripOuterParentheses], which runs no more than [rounds]
    times on a text of [rounds] characters. *)
Fixpoint stripLoop (rounds : nat) (value : list ascii) : list ascii :=
  match rounds with
  | O => value
  | Datatypes.S rounds' =>
      if isWrappedByOuterParentheses value
      then stripLoop rounds' (trim (removelast (tl value)))
      else value
  end.

Definition stripOuterParentheses (conditionText : list ascii) : list ascii :=
  let value := trim conditionText in
  stripLoop (List.length value) value.

(** [parts.slice(1).reduce((left, part) => LOGICAL operator left (parse part), first)] *)
Fixpoint reduceLogical (parse : list ascii -> Outcome RuleCondition)
    (operator : LogicalOperator) (parts : list (list ascii)) (acc : RuleCondition)
  : Outcome RuleCondition :=
  match parts with
  | [] => Parsed acc
  | part :: rest =>
      do operand <- parse part;
      reduceLogical parse operator rest (LOGICAL operator acc operand)
  end.

(** [parseConditionNode]; [depth] bounds the depth of its recursion. *)
Fixpoint parseConditionNode (depth : nat) (conditionText : list ascii)
    (lineNumber : nat) {struct depth} : Outcome RuleCondition :=
  match depth with
  | O => Exhausted
  | Datatypes.S depth' =>
      let stripped := stripOuterParentheses conditionText in
      let parts (operator : LogicalOperator) (texts : list (list ascii)) :=
        do first <- parseConditionNode depth' (hd [] texts) lineNumber;
        reduceLogical (fun part => parseConditionNode depth' part lineNumber)
          operator (tl texts) first in
      if isEmpty stripped then throw lineNumber ConditionMissing
      else
        do orParts <- splitTopLevelByKeyword stripped KeywordOr lineNumber;
        match orParts with
        | Some texts => parts OR texts
        | None =>
            do andParts <- splitTopLevelByKeyword stripped KeywordAnd lineNumber;
            match andParts with
            | Some texts => parts AND texts
            | None =>
                let upper := toUpperCase stripped in
                if matchesKeywordAt None upper KeywordNot then
                  let operandText := trim (sliceFrom stripped 3) in
                  if isEmpty operandText
                  then throw lineNumber (OperandMissing KeywordNot)
                  else
                    do operand <- parseConditionNode depth' operandText lineNumber;
                    Parsed (NOT operand)
                else if listEqb upper (chars "ENEMY_VISIBLE")
                then Parsed (VISIBILITY true)
                else
                  do comparison <- splitConditionComparison stripped lineNumber;
                  do leftExpression <-
                    parseNumericExpression (split_left comparison) lineNumber;
                  do rightExpression <-
                    parseNumericExpression (split_right comparison) lineNumber;
                  Parsed (COMPARE leftExpression (split_operator comparison)
                                  rightExpression)
            end
        end
  end.

Definition parseCondition (conditionText : list ascii) (lineNumber : nat)
  : Outcome RuleCondition :=
  if isEmpty (trim conditionText) then throw lineNumber ConditionMissing
  else parseConditionNode (Datatypes.S (List.length conditionText))
         conditionText lineNumber.

(** ** parser.ts: lines and scripts *)

Definition isWordBefore (char : option ascii) : bool :=
  match char with Some c => isWordCharacter c | None => false end.

(** [/^IF\b/i] *)
Definition hasIfPrefix (trimmed : list ascii) : bool :=
  startsWith (toUpperCase trimmed) (chars "IF")
  && negb (isWordBefore (nth_error trimmed 2)).

(** [/\bTHEN\b/i.exec(text)]: the index of the first match in the
    characters [from], which start at [index] after the character
    [charBefore]. *)
Fixpoint findThen (from : list ascii) (charBefore : option ascii) (index : nat)
  : option nat :=
  match from with
  | [] => None
  | c :: rest =>
      if negb (isWordBefore charBefore)
         && startsWith (toUpperCase from) (chars "THEN")
         && negb (isWordBefore (nth_error from 4))
      then Some index
      else findThen rest (Some c) (Datatypes.S index)
  end.

(** [parseSingleLine]; [None] is [null]. *)
Definition parseSingleLine (rawLine : list ascii) (lineNumber : nat)
  : Outcome (option ScriptAction) :=
  let trimmed := trim rawLine in
  if isEmpty trimmed || startsWith trimmed (chars "#") then Parsed None
  else if hasIfPrefix trimmed then
    let afterIf := trim (sliceFrom trimmed 2) in
    match findThen afterIf None 0 with
    | None => throw lineNumber ThenMissing
    | Some thenIndex =>
        let conditionText := trim (slice afterIf 0 thenIndex) in
        let commandText := trim (sliceFrom afterIf (thenIndex + 4)) in
        if isEmpty conditionText then throw lineNumber ConditionMissing
        else
          match nonEmptyTokens (splitTokens commandText) with
          | [] => throw lineNumber ThenCommandMissing
          | commandTokens =>
              do parsedCondition <- parseCondition conditionText lineNumber;
              do parsedCommand <- parseCommand commandTokens lineNumber;
              Parsed (Some {| line := lineNumber;
                              condition := Some parsedCondition;
                              command := parsedCommand |})
          end
    end
  else
    do parsedCommand <- parseCommand (splitTokens trimmed) lineNumber;
    Parsed (Some {| line := lineNumber; condition := None;
                    command := parsedCommand |}).

(** [lines.forEach((line, index) => ...)] from the line numbered
    [lineNumber] on: the rules pushed. *)
Fixpoint parseLines (lines : list (list ascii)) (lineNumber : nat)
  : Outcome (list ScriptAction) :=
  match lines with
  | [] => Parsed []
  | rawLine :: rest =>
      do parsed <- parseSingleLine rawLine lineNumber;
      do rules <- parseLines rest (Datatypes.S lineNumber);
      Parsed (match parsed with Some rule => rule :: rules | None => rules end)
  end.

Definition scriptError {T} (e : ParseError) : Outcome T :=
  Failed {| diag_line := None; diag_error := e |}.

Definition parseRobotScript (scriptText : string) : Outcome (list ScriptAction) :=
  if isEmpty (trim (chars scriptText)) then scriptError ScriptEmpty
  else
    let lines := splitLines (chars scriptText) [] in
    if (MAX_SCRIPT_LINES <? List.length lines)%nat then scriptError ScriptTooLong
    else
      do rules <- parseLines lines 1;
      match rules with
      | [] => scriptError NoExecutableCommands
      | _ => Parsed rules
      end.

(** ** Statements about the parser *)

(** An error of [o], if any, is at the line [n]. *)
Definition atLine {T} (n : nat) (o : Outcome T) : Prop :=
  forall d, o = Failed d -> diag_line d = Some n.

(** A line that [parseSingleLine] skips: blank, or a comment. *)
Definition skippedLine (rawLine : list ascii) : bool :=
  isEmpty (trim rawLine) || startsWith (trim rawLine) (chars "#").

(** The number of line feeds of a text. *)
Definition lineFeeds (l : list ascii) : nat :=
  List.length (filter (fun c => Nat.eqb (nat_of_ascii c) 10) l).

(** What [parseRobotScript] returns is the rules of the lines of the
    script, in the order of the lines. *)
Definition rulesOfLines (s : string) (rules : list ScriptAction) : Prop :=
  let lines := splitLines (chars s) [] in
  rules <> []
  /\ StronglySorted lt (map line rules)
  /\ (forall rule, In rule rules <->
        exists n, (1 <= n <= List.length lines)%nat
                  /\ parseSingleLine (nth (n - 1) lines []) n = Parsed (Some rule))
  /\ (List.length rules <= List.length lines <= MAX_SCRIPT_LINES)%nat.

(** The error of [parseRobotScript] is one of the three errors about the
    script as a whole, or the error of the first line that does not parse,
    with the number of that line. *)
Definition errorOfFirstBadLine (s : string) (d : Diagnostic) : Prop :=
  let lines := splitLines (chars s) [] in
  match diag_line d with
  | None =>
      diag_error d = ScriptEmpty \/ diag_error d = ScriptTooLong
      \/ diag_error d = NoExecutableCommands
  | Some n =>
      (1 <= n <= List.length lines)%nat
      /\ parseSingleLine (nth (n - 1) lines []) n = Failed d
      /\ forall m, (1 <= m < n)%nat ->
           exists parsed, parseSingleLine (nth (m - 1) lines []) m = Parsed parsed
  end.

(** The value of a [SET] command is a number of [-1, 1] with no more than
    4 decimals. *)
Definition normalizedControl (c : RuleCommand) : Prop :=
  match c with
  | SET_CONTROL _ value => -1 <= value <= 1 /\ onGrid 4 value
  | _ => True
  end.

(** A text that does not go on a run of digits as a number: it is empty or
    starts with a character other than a digit, the point and the letter e. *)
Definition endsNumber (junk : list ascii) : bool :=
  match junk with
  | [] => true
  | c :: _ =>
      let n := nat_of_ascii c in
      negb (isDigit c || Nat.eqb n 46 || Nat.eqb n 101 || Nat.eqb n 69)
  end.

(** A property of the value that a parsing function returns, when it
    returns one. *)
Definition whenParsed {T} (P : T -> Prop) (o : Outcome T) : Prop :=
  forall v, o = Parsed v -> P v.

(** Every call in the expressions of a condition has the number of
    arguments of its function. *)
Fixpoint conditionArity (c : RuleCondition) : bool :=
  match c with
  | VISIBILITY _ => true
  | COMPARE l _ r => arityRespected l && arityRespected r
  | LOGICAL _ l r => conditionArity l && conditionArity r
  | NOT operand => conditionArity operand
  end.

Definition ruleArity (rule : ScriptAction) : bool :=
  match condition rule with
  | Some c => conditionArity c
  | None => true
  end.

(** The expression that a method of the parser returns. *)
Definition returnsArity (o : Parser NumericExpression) : Prop :=
  whenParsed (fun r => arityRespected (fst r) = true) o.

(** The function returned a value or threw an error: the bound on its
    recursion was not reached. *)
Definition finishes {T} (o : Outcome T) : Prop := o <> Exhausted.

(** A method of the parser that returns leaves fewer tokens than it got. *)
Definition consumes {T} (tokens : list ExpressionToken) (o : Parser T) : Prop :=
  whenParsed (fun r => (List.length (snd r) < List.length tokens)%nat) o.

(** A loop of the parser that returns leaves no more tokens than it got. *)
Definition keeps {T} (tokens : list ExpressionToken) (o : Parser T) : Prop :=
  whenParsed (fun r => (List.length (snd r) <= List.length tokens)%nat) o.

(** The angle by which a tick turns a robot under the controls [c]: 6
    degrees for a full turn command, half of it while the robot fires. *)
Definition turnOfTick (c : ControlState) : R :=
  turn c * (PI / 30) * (if fire c then / 2 else 1).

(** The heading is a normalized angle: within one turn, the full turn
    not excluded (see [normalizeAngleRad]). *)
Definition headingNormalized (r : RobotState) : Prop :=
  0 <= headingRad r <= PI * 2.

(** A tick with the controls [c] turns the robot [before] into [after]. *)
Definition turnsBy (c : ControlState) (before after : RobotState) : Prop :=
  headingRad after = normalizeAngleRad (headingRad before + turnOfTick c).

(** The robot stands on the board of an arena of size [N], at coordinates
    with no more than 4 decimals. *)
Definition insideArena (N : R) (r : RobotState) : Prop :=
  (0 <= robot_x r <= N - 1 /\ 0 <= robot_y r <= N - 1)
  /\ onGrid 4 (robot_x r) /\ onGrid 4 (robot_y r).

(** The two robots do not overlap: their centres are further apart than
    twice the collision radius. *)
Definition apart (a b : RobotState) : Prop :=
  ROBOT_COLLISION_RADIUS * 2 < hypot (robot_x a - robot_x b) (robot_y a - robot_y b).

(** ** Statements about the memory of the enemy and the projectiles *)

(** The sensor that holds the remembered value of a sensor of the enemy. *)
Definition previousOf (variable : SensorVariable) : option SensorVariable :=
  match variable with
  | ENEMY_X => Some PREV_ENEMY_X
  | ENEMY_Y => Some PREV_ENEMY_Y
  | ENEMY_HEADING => Some PREV_ENEMY_HEADING
  | ENEMY_DX => Some PREV_ENEMY_DX
  | ENEMY_DY => Some PREV_ENEMY_DY
  | ENEMY_DISTANCE => Some PREV_ENEMY_DISTANCE
  | _ => None
  end.

(** The projectile [q] is the projectile [p] further on its way. *)
Definition continues (p q : InFlightProjectile) : Prop :=
  shooterRobotId q = shooterRobotId p
  /\ inflight_targetRobotId q = inflight_targetRobotId p
  /\ inflight_direction q = inflight_direction p
  /\ directionCardinal q = directionCardinal p
  /\ maxRange q = maxRange p.

(** What holds of the result of [advanceProjectiles] once it has gone
    through the projectiles [flown]. *)
Definition projectilesAccounted (a b : RobotState) (flown : list InFlightProjectile)
    (acc : ProjectileAdvanceResult) : Prop :=
  (forall q, In q (nextProjectiles acc) -> exists p, In p flown /\ continues p q)
  /\ (List.length (nextProjectiles acc) + List.length (pendingKills acc)
      <= List.length flown)%nat
  /\ (List.length (traces acc) <= List.length flown)%nat
  /\ NoDup (pendingKills acc)
  /\ (forall k, In k (pendingKills acc) -> k = id a \/ k = id b).

(** ** Statements about the course of a battle *)

Definition bothAlive (s : BattleSnapshot) : bool :=
  snap_alive (robotA s) && snap_alive (robotB s).

(** The numbers [t], [t + 1], ... of [n] ticks in a row. *)
Fixpoint ticksFrom (t : Z) (n : nat) : list Z :=
  match n with
  | O => []
  | Datatypes.S n' => t :: ticksFrom (t + 1) n'
  end.

(** The tick logs of a battle of no more than [limit] ticks, numbered from
    [first]: the ticks are numbered in a row, both robots are alive at the end
    of every tick but the last, and the last tick comes before the limit
    only when a robot is dead at its end. *)
Definition timelineShape (limit : nat) (first : Z) (logs : list TickLog) : Prop :=
  (List.length logs <= limit)%nat
  /\ map tick logs = ticksFrom first (List.length logs)
  /\ (forall i log, nth_error logs i = Some log -> (i + 1 < List.length logs)%nat ->
        bothAlive (endState log) = true)
  /\ ((List.length logs < limit)%nat ->
        exists earlier log,
          logs = earlier ++ [log] /\ bothAlive (endState log) = false).

(** [computeWinner] read on a snapshot of the two robots. *)
Definition winnerOf (s : BattleSnapshot) : option string :=
  if snap_alive (robotA s) && negb (snap_alive (robotB s)) then Some (snap_id (robotA s))
  else if negb (snap_alive (robotA s)) && snap_alive (robotB s)
       then Some (snap_id (robotB s))
       else None.

(** ** Statements about the interpreter *)

(** An expression with an operator or a call at its root. *)
Definition operation (e : NumericExpression) : bool :=
  match e with
  | NUMBER_LITERAL _ | SENSOR _ => false
  | _ => true
  end.

(** The value is [null] or a finite number. *)
Definition finiteOrUnavailable (v : JsValue) : Prop :=
  match v with
  | JNumber x => isFinite x = true
  | JNull => True
  | JUndefined => False
  end.

(** The comparison that holds of two numbers exactly when [operator] does
    not. *)
Definition complement (operator : ComparisonOperator) : ComparisonOperator :=
  match operator with
  | OpGt => OpLe | OpLe => OpGt
  | OpGe => OpLt | OpLt => OpGe
  | OpEq => OpNe | OpNe => OpEq
  end.

(** The three axes of the controls are within [-1, 1]. *)
Definition controlsBounded (c : ControlState) : Prop :=
  -1 <= throttle c <= 1 /\ -1 <= strafe c <= 1 /\ -1 <= turn c <= 1.

(** The battle of two robots whose programs are the scripts [scriptA] and
    [scriptB], parsed. *)
Definition programsParsed (scriptA scriptB : string) (input : SimulateBattleInput)
  : Prop :=
  parseRobotScript scriptA = Parsed (parsedProgram (input_robotA input))
  /\ parseRobotScript scriptB = Parsed (parsedProgram (input_robotB input)).

(** What [resolveControls] reports of a program: the number of its rules
    and the lines of those whose condition matched, in the order of the
    program. *)
Definition decisionReport (prog : list ScriptAction) (sensors : SensorContext)
    (d : ControlDecision) : Prop :=
  totalRules d = List.length prog
  /\ matchedRuleLines d
     = map line (filter (fun rule => conditionMatched (condition rule) sensors) prog).

(** ** Statements about geometry *)

(** The point of the segment from [start] to [finish] at the fraction [u]
    of its length. *)
Definition pointAt (start finish : Position) (u : R) : Position :=
  {| x := x start + (x finish - x start) * u;
     y := y start + (y finish - y start) * u |}.

(** The square of the length of the segment. *)
Definition lengthSquared (start finish : Position) : R :=
  (x finish - x start) * (x finish - x start)
  + (y finish - y start) * (y finish - y start).

(** The projectile [q] is the projectile [p] one tick later: half a tile
    further along its direction, short of its range. *)
Definition fliesOn (p q : InFlightProjectile) : Prop :=
  continues p q
  /\ traveledDistance q = toFixed 4 (traveledDistance p + / 2)
  /\ position q
     = {| x := toFixed 4 (x (position p) + dx (inflight_direction p) * / 2);
          y := toFixed 4 (y (position p) + dy (inflight_direction p) * / 2) |}
  /\ traveledDistance p + / 2 < maxRange p - EPSILON.

(** The distance of the wall perception in a relative direction. *)
Definition wallDistance (w : WallPerception) (d : RelativeWallDirection) : R :=
  match d with
  | AHEAD => aheadDistance w
  | WALL_LEFT => leftDistance w
  | WALL_RIGHT => rightDistance w
  | BACK => backDistance w
  end.

(** ** mcpTools.ts: the command distribution of a program *)

(** [CommandDistribution]; the field [BOOST] is [BOOSTS] here, [BOOST]
    being the command. *)
Record CommandDistribution := {
  RULES : nat;
  CONDITIONAL : nat;
  SET_THROTTLE : nat;
  SET_STRAFE : nat;
  SET_TURN : nat;
  FIRE_ON : nat;
  FIRE_OFF : nat;
  BOOSTS : nat
}.

(** The callback of [parsedProgram.forEach] in [commandCount]. *)
Definition countRule (counts : CommandDistribution) (rule : ScriptAction)
    : CommandDistribution :=
  let counts :=
    match condition rule with
    | Some _ =>
        {| RULES := RULES counts; CONDITIONAL := CONDITIONAL counts + 1;
           SET_THROTTLE := SET_THROTTLE counts; SET_STRAFE := SET_STRAFE counts;
           SET_TURN := SET_TURN counts; FIRE_ON := FIRE_ON counts;
           FIRE_OFF := FIRE_OFF counts; BOOSTS := BOOSTS counts |}
    | None => counts
    end in
  match command rule with
  | SET_CONTROL THROTTLE _ =>
      {| RULES := RULES counts; CONDITIONAL := CONDITIONAL counts;
         SET_THROTTLE := SET_THROTTLE counts + 1; SET_STRAFE := SET_STRAFE counts;
         SET_TURN := SET_TURN counts; FIRE_ON := FIRE_ON counts;
         FIRE_OFF := FIRE_OFF counts; BOOSTS := BOOSTS counts |}
  | SET_CONTROL STRAFE _ =>
      {| RULES := RULES counts; CONDITIONAL := CONDITIONAL counts;
         SET_THROTTLE := SET_THROTTLE counts; SET_STRAFE := SET_STRAFE counts + 1;
         SET_TURN := SET_TURN counts; FIRE_ON := FIRE_ON counts;
         FIRE_OFF := FIRE_OFF counts; BOOSTS := BOOSTS counts |}
  | SET_CONTROL TURN _ =>
      {| RULES := RULES counts; CONDITIONAL := CONDITIONAL counts;
         SET_THROTTLE := SET_THROTTLE counts; SET_STRAFE := SET_STRAFE counts;
         SET_TURN := SET_TURN counts + 1; FIRE_ON := FIRE_ON counts;
         FIRE_OFF := FIRE_OFF counts; BOOSTS := BOOSTS counts |}
  | FIRE true =>
      {| RULES := RULES counts; CONDITIONAL := CONDITIONAL counts;
         SET_THROTTLE := SET_THROTTLE counts; SET_STRAFE := SET_STRAFE counts;
         SET_TURN := SET_TURN counts; FIRE_ON := FIRE_ON counts + 1;
         FIRE_OFF := FIRE_OFF counts; BOOSTS := BOOSTS counts |}
  | FIRE false =>
      {| RULES := RULES counts; CONDITIONAL := CONDITIONAL counts;
         SET_THROTTLE := SET_THROTTLE counts; SET_STRAFE := SET_STRAFE counts;
         SET_TURN := SET_TURN counts; FIRE_ON := FIRE_ON counts;
         FIRE_OFF := FIRE_OFF counts + 1; BOOSTS := BOOSTS counts |}
  | BOOST _ =>
      {| RULES := RULES counts; CONDITIONAL := CONDITIONAL counts;
         SET_THROTTLE := SET_THROTTLE counts; SET_STRAFE := SET_STRAFE counts;
         SET_TURN := SET_TURN counts; FIRE_ON := FIRE_ON counts;
         FIRE_OFF := FIRE_OFF counts; BOOSTS := BOOSTS counts + 1 |}
  end.

Definition commandCount (parsedProgram : list ScriptAction) : CommandDistribution :=
  fold_left countRule parsedProgram
    {| RULES := List.length parsedProgram; CONDITIONAL := 0;
       SET_THROTTLE := 0; SET_STRAFE := 0; SET_TURN := 0;
       FIRE_ON := 0; FIRE_OFF := 0; BOOSTS := 0 |}.

(** ** Statements about the command distribution *)

(** The kinds of command that [commandCount] tells apart. *)
Inductive CommandKind :=
  | SetsThrottle | SetsStrafe | SetsTurn | FiresOn | FiresOff | Boosts.

Definition kindOf (c : RuleCommand) : CommandKind :=
  match c with
  | SET_CONTROL THROTTLE _ => SetsThrottle
  | SET_CONTROL STRAFE _ => SetsStrafe
  | SET_CONTROL TURN _ => SetsTurn
  | FIRE true => FiresOn
  | FIRE false => FiresOff
  | BOOST _ => Boosts
  end.

Definition sameKind (k k' : CommandKind) : bool :=
  match k, k' with
  | SetsThrottle, SetsThrottle | SetsStrafe, SetsStrafe | SetsTurn, SetsTurn
  | FiresOn, FiresOn | FiresOff, FiresOff | Boosts, Boosts => true
  | _, _ => false
  end.

Definition countOf (counts : CommandDistribution) (k : CommandKind) : nat :=
  match k with
  | SetsThrottle => SET_THROTTLE counts
  | SetsStrafe => SET_STRAFE counts
  | SetsTurn => SET_TURN counts
  | FiresOn => FIRE_ON counts
  | FiresOff => FIRE_OFF counts
  | Boosts => BOOSTS counts
  end.

Definition conditional (rule : ScriptAction) : bool :=
  match condition rule with Some _ => true | None => false end.

(** The rules of a program whose command is of the kind [k]. *)
Definition rulesOfKind (k : CommandKind) (program : list ScriptAction)
    : list ScriptAction :=
  filter (fun rule => sameKind (kindOf (command rule)) k) program.

(** ** battleEngine.ts: the replay *)

Definition REPLAY_FRAMES_PER_TICK : nat := 1.

(** [Math.round]: the nearest integer, a half going up. *)
Definition mathRound (v : R) : Z := Zfloor (v + / 2).

Definition lerp (start finish progress : R) : R :=
  start + (finish - start) * progress.

Definition smoothStep (progress : R) : R :=
  if Rleb progress 0 then 0
  else if Rleb 1 progress then 1
  else progress * progress * (3 - 2 * progress).

Definition interpolateAngleDeg (startDeg endDeg progress : R) : R :=
  let normalizedDelta := jsRem (endDeg - startDeg + 540) 360 - 180 in
  let value := startDeg + normalizedDelta * progress in
  jsRem (jsRem value 360 + 360) 360.

Definition sameDirection (a b : Direction) : bool :=
  match a, b with
  | DirN, DirN | DirE, DirE | DirS, DirS | DirW, DirW => true
  | _, _ => false
  end.

Definition directionAtProgress (start finish : Direction) (progress : R) : Direction :=
  if sameDirection start finish then start
  else if Rltb progress (/ 2) then start else finish.

(** [interpolateRobotSnapshot]. A snapshot of the engine always carries
    [angleDeg], [energy] and [boostCooldownTicks], finite numbers, so the
    values that the source falls back on when one is missing do not occur. *)
Definition interpolateRobotSnapshot (start finish : RobotSnapshot) (progress : R)
    : RobotSnapshot :=
  let eased := smoothStep progress in
  let startAngle := snap_angleDeg start in
  let endAngle := snap_angleDeg finish in
  {| snap_id := snap_id start;
     snap_robotName := snap_robotName start;
     snap_x := toFixed 4 (lerp (snap_x start) (snap_x finish) eased);
     snap_y := toFixed 4 (lerp (snap_y start) (snap_y finish) eased);
     snap_direction :=
       directionAtProgress (snap_direction start) (snap_direction finish) eased;
     snap_angleDeg := toFixed 2 (interpolateAngleDeg startAngle endAngle eased);
     snap_alive := if Rltb eased 1 then snap_alive start else snap_alive finish;
     snap_energy := toFixed 2 (lerp (snap_energy start) (snap_energy finish) eased);
     snap_boostCooldownTicks :=
       mathRound (lerp (IZR (snap_boostCooldownTicks start))
                       (IZR (snap_boostCooldownTicks finish)) eased) |}.

Definition interpolateBattleSnapshot (start finish : BattleSnapshot) (progress : R)
    : BattleSnapshot :=
  {| robotA := interpolateRobotSnapshot (robotA start) (robotA finish) progress;
     robotB := interpolateRobotSnapshot (robotB start) (robotB finish) progress |}.

Definition extractTickProjectiles (tickLog : TickLog) : list Projectile :=
  projectiles tickLog.

Record BoostEffect := {
  effect_robotId : string;
  effect_robotName : string;
  effect_direction : BoostDirection;
  effect_from : Position;
  effect_to : Position
}.

(** [extractTickBoostEffects]: the entries with a boost used and a boost
    direction, each mapped to its effect, the coordinates then rounded. *)
Definition extractTickBoostEffects (actions : list SimulationActionLog)
    : list BoostEffect :=
  flat_map
    (fun entry =>
       match boostDirection (movement (result entry)) with
       | Some direction =>
           if boostUsed (movement (result entry)) then
             let startActor :=
               if String.eqb (snap_id (robotA (before entry))) (robotId entry)
               then robotA (before entry) else robotB (before entry) in
             let endActor :=
               if String.eqb (snap_id (robotA (after entry))) (robotId entry)
               then robotA (after entry) else robotB (after entry) in
             let effectFrom :=
               match boostTrail (movement (result entry)) with
               | Some trail => trail_from trail
               | None => {| x := snap_x startActor; y := snap_y startActor |}
               end in
             let effectTo :=
               match boostTrail (movement (result entry)) with
               | Some trail => trail_to trail
               | None => {| x := snap_x endActor; y := snap_y endActor |}
               end in
             [ {| effect_robotId := robotId entry;
                  effect_robotName := action_robotName entry;
                  effect_direction := direction;
                  effect_from := {| x := toFixed 4 (x effectFrom);
                                    y := toFixed 4 (y effectFrom) |};
                  effect_to := {| x := toFixed 4 (x effectTo);
                                  y := toFixed 4 (y effectTo) |} |} ]
           else []
       | None => []
       end)
    actions.

Record ReplayActionHint := {
  hint_robotId : string;
  hint_robotName : string;
  actionType : string;
  hint_event : ActionEvent;
  hint_boostUsed : bool;
  hint_boostDirection : option BoostDirection
}.

(** The hint of an action; the type of a resolved action is CONTROL. *)
Definition actionHint (action : SimulationActionLog) : ReplayActionHint :=
  {| hint_robotId := robotId action;
     hint_robotName := action_robotName action;
     actionType := "CONTROL";
     hint_event := event (result action);
     hint_boostUsed := boostUsed (movement (result action));
     hint_boostDirection := boostDirection (movement (result action)) |}.

Record ReplayFrame := {
  frame_index : Z;
  timestampMs : Z;
  frame_tick : Z;
  frame_state : BattleSnapshot;
  frame_projectiles : list Projectile;
  boostEffects : list BoostEffect;
  frame_actions : list ReplayActionHint
}.

(** The frame that [buildReplayFrames] pushes for the sub-step [sub] of a
    tick. *)
Definition replayFrame (tickLog : TickLog) (index : Z) (sub : nat) : ReplayFrame :=
  let progress := INR sub / INR REPLAY_FRAMES_PER_TICK in
  let timestamp :=
    mathRound ((IZR (tick tickLog) - 1) * TICK_DURATION_MS
               + progress * TICK_DURATION_MS) in
  let last := Nat.eqb sub REPLAY_FRAMES_PER_TICK in
  {| frame_index := index;
     timestampMs := timestamp;
     frame_tick := tick tickLog;
     frame_state :=
       interpolateBattleSnapshot (startState tickLog) (endState tickLog) progress;
     frame_projectiles := if last then extractTickProjectiles tickLog else [];
     boostEffects := if last then extractTickBoostEffects (actions tickLog) else [];
     frame_actions := if last then map actionHint (actions tickLog) else [] |}.

(** The callback of [ticks.forEach] in [buildReplayFrames], on the pair of
    [index] and [frames]. *)
Definition pushFrames (acc : Z * list ReplayFrame) (tickLog : TickLog)
    : Z * list ReplayFrame :=
  fold_left
    (fun '(index, frames) sub =>
       ((index + 1)%Z, frames ++ [replayFrame tickLog index sub]))
    (seq 1 REPLAY_FRAMES_PER_TICK) acc.

Definition buildReplayFrames (initial : BattleSnapshot) (tickLogs : list TickLog)
    : list ReplayFrame :=
  snd (fold_left pushFrames tickLogs
         (1%Z,
          [ {| frame_index := 0;
               timestampMs := 0;
               frame_tick := 0;
               frame_state := interpolateBattleSnapshot initial initial 1;
               frame_projectiles := [];
               boostEffects := [];
               frame_actions := [] |} ])).

(** ** Statements about the replay *)

(** [angle] and [angle'] differ by a whole number of turns. *)
Definition sameAngle (angle angle' : R) : Prop :=
  exists k : Z, angle' = angle + 360 * IZR k.

(** What a frame at the end of a tick shows of a robot: [shown] has the
    identity of the snapshot at the start of the tick and the position,
    direction, life, energy and boost cooldown of the snapshot at the end of
    the tick; its angle is the angle of that snapshot up to whole turns (360
    for 0, or 0 for 360), between 0 and 360 with no more than 2 decimals. *)
Definition showsEnd (start finish shown : RobotSnapshot) : Prop :=
  snap_id shown = snap_id start
  /\ snap_robotName shown = snap_robotName start
  /\ snap_x shown = snap_x finish
  /\ snap_y shown = snap_y finish
  /\ snap_direction shown = snap_direction finish
  /\ snap_alive shown = snap_alive finish
  /\ snap_energy shown = snap_energy finish
  /\ snap_boostCooldownTicks shown = snap_boostCooldownTicks finish
  /\ sameAngle (snap_angleDeg finish) (snap_angleDeg shown)
  /\ 0 <= snap_angleDeg shown <= 360
  /\ onGrid 2 (snap_angleDeg shown).

Definition battleShowsEnd (start finish shown : BattleSnapshot) : Prop :=
  showsEnd (robotA start) (robotA finish) (robotA shown)
  /\ showsEnd (robotB start) (robotB finish) (robotB shown).

(** The frame with the index [k] is the frame of the tick [k] of the logs:
    it shows the end of that tick, with the traces, the boost effects and
    the actions of the tick; the frame 0 shows the initial state. *)
Definition frameOfTick (initial : BattleSnapshot) (tickLogs : list TickLog)
    (k : nat) (frame : ReplayFrame) : Prop :=
  frame_index frame = Z.of_nat k
  /\ frame_tick frame = Z.of_nat k
  /\ timestampMs frame = mathRound (INR k * TICK_DURATION_MS)
  /\ match k with
     | O =>
         battleShowsEnd initial initial (frame_state frame)
         /\ frame_projectiles frame = []
         /\ boostEffects frame = []
         /\ frame_actions frame = []
     | Datatypes.S k' =>
         exists tickLog,
           nth_error tickLogs k' = Some tickLog
           /\ battleShowsEnd (startState tickLog) (endState tickLog)
                (frame_state frame)
           /\ frame_projectiles frame = projectiles tickLog
           /\ boostEffects frame = extractTickBoostEffects (actions tickLog)
           /\ frame_actions frame = map actionHint (actions tickLog)
     end.

(** ** Statements about the side boost over the ticks of a battle *)

(** The two robots of a battle, and the robot of a side in a battle state
    and among the locals of a tick. *)
Inductive Side := SideA | SideB.

Definition robotOf (s : Side) (st : BattleState) : RobotState :=
  match s with SideA => stateA st | SideB => stateB st end.
Definition controlOf (s : Side) (L : TickLocals) : ControlState :=
  match s with SideA => controlA L | SideB => controlB L end.
Definition rotatedOf (s : Side) (L : TickLocals) : RobotState :=
  match s with SideA => rotatedA L | SideB => rotatedB L end.
Definition movedOf (s : Side) (L : TickLocals) : RobotState :=
  match s with SideA => movedA L | SideB => movedB L end.

Definition positionOf (r : RobotState) : Position :=
  {| x := robot_x r; y := robot_y r |}.

(** The position that [applyMovement] proposes for the robot [r] under the
    controls [c]: its position plus the rounded sum of the planned delta and
    of the boost delta, clamped to the arena. *)
Definition proposalOf (N : R) (r : RobotState) (c : ControlState) : Position :=
  let start := positionOf r in
  let plan := plan_delta (plannedDelta r c) in
  let pushed := boost_delta (snd (resolveSideBoost r c start N)) in
  fst (clampToArena {| x := x start + toFixed 4 (x plan + x pushed);
                       y := y start + toFixed 4 (y plan + y pushed) |} N).

(** The distance between the positions that [applyMovement] proposes for
    the two robots of a tick, which it tests against twice the collision
    radius. *)
Definition proposalSeparation (N : R) (L : TickLocals) : R :=
  let proposalA := proposalOf N (rotatedA L) (controlA L) in
  let proposalB := proposalOf N (rotatedB L) (controlB L) in
  hypot (x proposalA - x proposalB) (y proposalA - y proposalB).

(** The movement phase of the tick with the locals [L] applies to the
    robot of the side [s] a burst tick of [k]/12 tiles toward the side [d]
    of its heading: the position proposed for the robot is its position
    plus the rounded sum of the planned delta and of the lateral delta of
    [k]/12 tiles, clamped to the arena; the robot moves there or, the
    proposals of the two robots colliding, stays where it is: it moves when
    the proposals are further apart than twice the collision radius by more
    than EPSILON, and stays when they are closer than that by EPSILON or
    more (in between, the rounding of the computed distance decides); the
    burst is left with [k - 1] ticks, the lock being released with the last
    one. *)
Definition burstApplied (N : R) (L : TickLocals) (s : Side) (d : BoostDirection)
    (k : Z) : Prop :=
  let r := rotatedOf s L in
  let r' := movedOf s L in
  let plan := plan_delta (plannedDelta r (controlOf s L)) in
  let push := lateralDelta (headingRad r) d (IZR k / 12) in
  let target :=
    fst (clampToArena {| x := robot_x r + toFixed 4 (x plan + x push);
                         y := robot_y r + toFixed 4 (y plan + y push) |} N) in
  let moved :=
    positionOf r' = {| x := toFixed 4 (x target); y := toFixed 4 (y target) |} in
  let stayed :=
    positionOf r' = {| x := toFixed 4 (robot_x r); y := toFixed 4 (robot_y r) |} in
  proposalOf N r (controlOf s L) = target
  /\ (moved \/ stayed)
  /\ (ROBOT_COLLISION_RADIUS * 2 + EPSILON < proposalSeparation N L -> moved)
  /\ (proposalSeparation N L <= ROBOT_COLLISION_RADIUS * 2 - EPSILON -> stayed)
  /\ boostBurstTicksRemaining r' = (k - 1)%Z
  /\ boostDirectionLocked r' = (if (k =? 1)%Z then None else Some d).

(** The state of the battle [n] ticks after the state [st] at which the
    tick [t] starts. *)
Fixpoint afterTicks (N : R) (n : nat) (t : Z) (st : BattleState) : BattleState :=
  match n with
  | O => st
  | Datatypes.S n' => afterTicks N n' (t + 1) (fst (simulateTick N t st))
  end.

(** The script [BOOST RIGHT], parsed, and a battle of a robot that runs it
    against an idle one. *)
Definition boostProgram : list ScriptAction :=
  [ {| line := 1; condition := None; command := BOOST RIGHT |} ].

Definition boostBattle : SimulateBattleInput :=
  {| input_robotA := {| input_id := "A"; input_robotName := "Alpha";
                        parsedProgram := boostProgram |};
     input_robotB := {| input_id := "B"; input_robotName := "Beta";
                        parsedProgram := idleProgram |};
     input_arenaSize := 10;
     input_maxTicks := None;
     input_maxTurns := None |}.

(** The boost battle as the tick [t] starts at the state [st]: no
    projectile flies, robot B stands in its corner, and robot A, heading
    East on the west wall at the height [height], is about to ignite
    ([k] = 5: no burst in progress, no cooldown, energy 100), is in a burst
    locked on its right with [k] ticks remaining ([k] = 4, ..., 1), or is
    through with it. *)
Definition boostRun (k : Z) (height : R) (t : Z) (st : BattleState) : Prop :=
  TickStart boostBattle t st
  /\ activeProjectiles st = []
  /\ (robot_x (stateB st) = 9 /\ robot_y (stateB st) = 9
      /\ boostBurstTicksRemaining (stateB st) = 0%Z)
  /\ (robot_x (stateA st) = 0 /\ robot_y (stateA st) = height
      /\ headingRad (stateA st) = 0)
  /\ (if (k =? 5)%Z then
        boostBurstTicksRemaining (stateA st) = 0%Z
        /\ boostCooldownTicks (stateA st) = 0%Z
        /\ energy (stateA st) = 100
      else if (k =? 0)%Z then True
      else boostBurstTicksRemaining (stateA st) = k
           /\ boostDirectionLocked (stateA st) = Some RIGHT).

(** ** Statements about the scripts that are rejected *)



(** * Properties *)

(** ** Comparisons and rounding *)

Lemma Rleb_true a b : Rleb a b = true <-> a <= b.
Proof. unfold Rleb; destruct (Rle_dec a b); split; intros; auto; discriminate. Qed.

Lemma Rleb_false a b : Rleb a b = false <-> b < a.
Proof.
  unfold Rleb; destruct (Rle_dec a b); split; intros; try discriminate; try lra; auto.
Qed.

Lemma Rltb_true a b : Rltb a b = true <-> a < b.
Proof. unfold Rltb; destruct (Rlt_dec a b); split; intros; auto; discriminate. Qed.

Lemma Rltb_false a b : Rltb a b = false <-> b <= a.
Proof.
  unfold Rltb; destruct (Rlt_dec a b); split; intros; try discriminate; try lra; auto.
Qed.

Lemma pow10_pos (d : nat) : 0 < 10 ^ d.
Proof. apply pow_lt; lra. Qed.

Lemma toFixed_nonneg_eq d v :
  0 <= v -> toFixed d v = IZR (Zfloor (v * 10 ^ d + / 2)) / 10 ^ d.
Proof.
  intros Hv; unfold toFixed.
  destruct (Rltb v 0) eqn:Hlt; [apply Rltb_true in Hlt; lra | reflexivity].
Qed.

Lemma toFixed_neg_eq d v :
  v < 0 -> toFixed d v = - (IZR (Zfloor (- v * 10 ^ d + / 2)) / 10 ^ d).
Proof.
  intros Hv; unfold toFixed.
  destruct (Rltb v 0) eqn:Hlt; [reflexivity | apply Rltb_false in Hlt; lra].
Qed.

(** Rounding to [d] decimals moves a value by at most half a unit of the
    last decimal. *)
Lemma toFixed_error d v :
  v - / 2 / 10 ^ d <= toFixed d v <= v + / 2 / 10 ^ d.
Proof.
  pose proof (pow10_pos d) as Hs.
  destruct (Rlt_dec v 0) as [Hneg | Hpos].
  - rewrite toFixed_neg_eq by assumption.
    pose proof (Zfloor_bound (- v * 10 ^ d + / 2)) as [Hlo Hhi].
    set (n := IZR (Zfloor (- v * 10 ^ d + / 2))) in *.
    assert (H1 : n / 10 ^ d <= (- v * 10 ^ d + / 2) / 10 ^ d).
    { apply Rmult_le_compat_r; [left; apply Rinv_0_lt_compat; lra | lra]. }
    assert (H2 : (- v * 10 ^ d + / 2 - 1) / 10 ^ d < n / 10 ^ d).
    { apply Rmult_lt_compat_r; [apply Rinv_0_lt_compat; lra | lra]. }
    replace ((- v * 10 ^ d + / 2) / 10 ^ d) with (- v + / 2 / 10 ^ d) in H1
      by (field; lra).
    replace ((- v * 10 ^ d + / 2 - 1) / 10 ^ d) with (- v - / 2 / 10 ^ d) in H2
      by (field; lra).
    lra.
  - rewrite toFixed_nonneg_eq by lra.
    pose proof (Zfloor_bound (v * 10 ^ d + / 2)) as [Hlo Hhi].
    set (n := IZR (Zfloor (v * 10 ^ d + / 2))) in *.
    assert (H1 : n / 10 ^ d <= (v * 10 ^ d + / 2) / 10 ^ d).
    { apply Rmult_le_compat_r; [left; apply Rinv_0_lt_compat; lra | lra]. }
    assert (H2 : (v * 10 ^ d + / 2 - 1) / 10 ^ d < n / 10 ^ d).
    { apply Rmult_lt_compat_r; [apply Rinv_0_lt_compat; lra | lra]. }
    replace ((v * 10 ^ d + / 2) / 10 ^ d) with (v + / 2 / 10 ^ d) in H1
      by (field; lra).
    replace ((v * 10 ^ d + / 2 - 1) / 10 ^ d) with (v - / 2 / 10 ^ d) in H2
      by (field; lra).
    lra.
Qed.

Lemma toFixed_onGrid d v : onGrid d (toFixed d v).
Proof.
  unfold toFixed; destruct (Rltb v 0).
  - exists (- Zfloor (- v * 10 ^ d + / 2))%Z. rewrite opp_IZR.
    pose proof (pow10_pos d). field; lra.
  - eexists; reflexivity.
Qed.

(** A value that already has [d] decimals is left as it is. *)
Lemma toFixed_grid d v : onGrid d v -> toFixed d v = v.
Proof.
  intros [k ->]. pose proof (pow10_pos d) as Hs.
  destruct (Z_lt_le_dec k 0) as [Hk | Hk].
  - assert (IZR k / 10 ^ d < 0).
    { apply IZR_lt in Hk. unfold Rdiv.
      assert (0 < / 10 ^ d) by (apply Rinv_0_lt_compat; lra). nra. }
    rewrite toFixed_neg_eq by assumption.
    replace (- (IZR k / 10 ^ d) * 10 ^ d + / 2) with (IZR (- k) + / 2)
      by (rewrite opp_IZR; field; lra).
    rewrite (Zfloor_eq (- k)) by lra.
    rewrite opp_IZR; field; lra.
  - assert (0 <= IZR k / 10 ^ d).
    { apply IZR_le in Hk. unfold Rdiv.
      assert (0 < / 10 ^ d) by (apply Rinv_0_lt_compat; lra). nra. }
    rewrite toFixed_nonneg_eq by assumption.
    replace (IZR k / 10 ^ d * 10 ^ d + / 2) with (IZR k + / 2) by (field; lra).
    rewrite (Zfloor_eq k) by lra. reflexivity.
Qed.

Lemma toFixed_idempotent d v : toFixed d (toFixed d v) = toFixed d v.
Proof. apply toFixed_grid, toFixed_onGrid. Qed.

Lemma toFixed_nonneg d v : 0 <= v -> 0 <= toFixed d v.
Proof.
  intros Hv. rewrite toFixed_nonneg_eq by assumption.
  pose proof (pow10_pos d) as Hs.
  assert (0 <= Zfloor (v * 10 ^ d + / 2))%Z.
  { apply Zfloor_lub. simpl. nra. }
  apply IZR_le in H. unfold Rdiv.
  assert (0 < / 10 ^ d) by (apply Rinv_0_lt_compat; lra). nra.
Qed.

Lemma onGrid_IZR d (k : Z) : onGrid d (IZR k).
Proof.
  exists (k * 10 ^ Z.of_nat d)%Z. rewrite mult_IZR.
  rewrite <- pow_IZR. pose proof (pow10_pos d). field; lra.
Qed.

Lemma onGrid_plus d a b : onGrid d a -> onGrid d b -> onGrid d (a + b).
Proof.
  intros [k ->] [l ->]. exists (k + l)%Z. rewrite plus_IZR.
  pose proof (pow10_pos d). field; lra.
Qed.

Lemma onGrid_opp d a : onGrid d a -> onGrid d (- a).
Proof.
  intros [k ->]. exists (- k)%Z. rewrite opp_IZR.
  pose proof (pow10_pos d). field; lra.
Qed.

Lemma onGrid_minus d a b : onGrid d a -> onGrid d b -> onGrid d (a - b).
Proof. intros; unfold Rminus; apply onGrid_plus; [|apply onGrid_opp]; assumption. Qed.

Lemma onGrid_Rmin d a b : onGrid d a -> onGrid d b -> onGrid d (Rmin a b).
Proof. intros; unfold Rmin; destruct (Rle_dec a b); assumption. Qed.

Lemma onGrid_Rmax d a b : onGrid d a -> onGrid d b -> onGrid d (Rmax a b).
Proof. intros; unfold Rmax; destruct (Rle_dec a b); assumption. Qed.

(** ** The locals of a tick, phase by phase *)

Ltac open_locals :=
  unfold tickLocals; cbv zeta;
  repeat match goal with
  | |- context [let '(_, _) := ?e in _] =>
      let E := fresh "E" in destruct e eqn:E
  end;
  cbn [regenA regenB startPerc aliveAtStart decisionA decisionB controlA controlB
       rotatedA rotatedB rotationOutcomes movedA movedB movementOutcomes
       firedA firedB fireResolution projectileAdvance fst snd].

Lemma tickLocals_regen N st :
  regenA (tickLocals N st) = tickSideBoostState (stateA st)
  /\ regenB (tickLocals N st) = tickSideBoostState (stateB st).
Proof. open_locals. split; reflexivity. Qed.

Lemma tickLocals_perception N st :
  let L := tickLocals N st in
  startPerc L = perceptionPair (regenA L) (regenB L) N
  /\ aliveAtStart L =
       setKey (id (regenB L)) (alive (regenB L))
         (setKey (id (regenA L)) (alive (regenA L)) emptyRecord).
Proof. open_locals. split; reflexivity. Qed.

Lemma tickLocals_controls N st :
  let L := tickLocals N st in
  decisionA L = resolveControls (program (regenA L))
                  (sensorsOf (regenA L) (regenB L) (startPerc L) N)
  /\ decisionB L = resolveControls (program (regenB L))
                     (sensorsOf (regenB L) (regenA L) (startPerc L) N)
  /\ controlA L = (if wasAlive (aliveAtStart L) (regenA L)
                   then controls (decisionA L) else neutralControls)
  /\ controlB L = (if wasAlive (aliveAtStart L) (regenB L)
                   then controls (decisionB L) else neutralControls).
Proof. open_locals. repeat split; reflexivity. Qed.

Lemma tickLocals_rotation N st :
  let L := tickLocals N st in
  rotatedA L = fst (if wasAlive (aliveAtStart L) (regenA L)
                    then computeRotation (regenA L) (controlA L)
                    else (regenA L, {| deltaDeg := 0 |}))
  /\ rotatedB L = fst (if wasAlive (aliveAtStart L) (regenB L)
                       then computeRotation (regenB L) (controlB L)
                       else (regenB L, {| deltaDeg := 0 |})).
Proof. open_locals. rewrite E, E0. split; reflexivity. Qed.

Lemma tickLocals_movement N st :
  let L := tickLocals N st in
  applyMovement (rotatedA L) (rotatedB L) (controlA L) (controlB L) N
  = (movedA L, movedB L, movementOutcomes L).
Proof. open_locals. assumption. Qed.

Lemma tickLocals_firing N st :
  let L := tickLocals N st in
  resolveFiring (movedA L) (movedB L) (controlA L) (controlB L)
  = (firedA L, firedB L, fireResolution L).
Proof. open_locals. assumption. Qed.

Lemma tickLocals_projectiles N st :
  let L := tickLocals N st in
  projectileAdvance L =
    advanceProjectiles (activeProjectiles st ++ spawnedProjectiles (fireResolution L))
      (firedA L) (firedB L) N.
Proof. open_locals. reflexivity. Qed.

(** ** What the phases of a tick leave untouched *)

Ltac break_match :=
  repeat match goal with
  | |- context [if ?c then _ else _] => destruct c
  | |- context [match ?c with _ => _ end] => destruct c
  end.

Lemma sameRobot_refl r : sameRobot r r.
Proof. repeat split. Qed.

Lemma sameRobot_trans r1 r2 r3 : sameRobot r1 r2 -> sameRobot r2 r3 -> sameRobot r1 r3.
Proof.
  intros (? & ? & ? & ?) (? & ? & ? & ?); repeat split; congruence.
Qed.

Lemma tickSideBoostState_same r : sameRobot r (tickSideBoostState r).
Proof. unfold tickSideBoostState; break_match; repeat split. Qed.

Lemma computeRotation_same r c : sameRobot r (fst (computeRotation r c)).
Proof. repeat split. Qed.

Lemma igniteSideBoost_same r c : sameRobot r (igniteSideBoost r c).
Proof. unfold igniteSideBoost; break_match; repeat split. Qed.

Lemma resolveSideBoost_same r c start N : sameRobot r (fst (resolveSideBoost r c start N)).
Proof.
  unfold resolveSideBoost.
  destruct (negb (alive r)); [apply sameRobot_refl|].
  pose proof (igniteSideBoost_same r c) as H.
  set (r1 := igniteSideBoost r c) in *.
  eapply sameRobot_trans; [exact H|].
  break_match; repeat split.
Qed.

Lemma applyMovement_same a b cA cB N :
  sameRobot a (fst (fst (applyMovement a b cA cB N)))
  /\ sameRobot b (snd (fst (applyMovement a b cA cB N))).
Proof.
  unfold applyMovement.
  pose proof (resolveSideBoost_same a cA {| x := robot_x a; y := robot_y a |} N) as HA.
  pose proof (resolveSideBoost_same b cB {| x := robot_x b; y := robot_y b |} N) as HB.
  destruct (resolveSideBoost a cA _ N) as [a1 boostA].
  destruct (resolveSideBoost b cB _ N) as [b1 boostB].
  cbn [fst snd] in *.
  split; (eapply sameRobot_trans; [eassumption|]); repeat split.
Qed.

Lemma fireAttempt_same r tid c acc : sameRobot r (fst (fireAttempt r tid c acc)).
Proof. unfold fireAttempt; break_match; repeat split. Qed.

Lemma tickCooldown_same r : sameRobot r (if alive r then tickCooldown r else r).
Proof. destruct (alive r); repeat split. Qed.

Lemma resolveFiring_same a b cA cB :
  sameRobot a (fst (fst (resolveFiring a b cA cB)))
  /\ sameRobot b (snd (fst (resolveFiring a b cA cB))).
Proof.
  unfold resolveFiring.
  pose proof (tickCooldown_same a) as HA. pose proof (tickCooldown_same b) as HB.
  set (a1 := if alive a then tickCooldown a else a) in *.
  set (b1 := if alive b then tickCooldown b else b) in *.
  match goal with |- context [fireAttempt a1 ?t ?c ?i] =>
    pose proof (fireAttempt_same a1 t c i) as HA2;
    destruct (fireAttempt a1 t c i) as [a2 afterA] end.
  match goal with |- context [fireAttempt b1 ?t ?c ?i] =>
    pose proof (fireAttempt_same b1 t c i) as HB2;
    destruct (fireAttempt b1 t c i) as [b2 afterB] end.
  cbn [fst snd] in *.
  split; eapply sameRobot_trans; eassumption.
Qed.

Lemma tickLocals_same N st :
  let L := tickLocals N st in
  sameRobot (stateA st) (regenA L) /\ sameRobot (stateB st) (regenB L)
  /\ sameRobot (stateA st) (firedA L) /\ sameRobot (stateB st) (firedB L).
Proof.
  intros L.
  destruct (tickLocals_regen N st) as [RA RB].
  destruct (tickLocals_rotation N st) as [TA TB].
  pose proof (tickLocals_movement N st) as M.
  pose proof (tickLocals_firing N st) as F.
  fold L in RA, RB, TA, TB, M, F. cbv zeta in *.
  assert (SA : sameRobot (stateA st) (regenA L))
    by (rewrite RA; apply tickSideBoostState_same).
  assert (SB : sameRobot (stateB st) (regenB L))
    by (rewrite RB; apply tickSideBoostState_same).
  assert (SA1 : sameRobot (regenA L) (rotatedA L)).
  { rewrite TA. destruct (wasAlive (aliveAtStart L) (regenA L));
    [apply computeRotation_same | apply sameRobot_refl]. }
  assert (SB1 : sameRobot (regenB L) (rotatedB L)).
  { rewrite TB. destruct (wasAlive (aliveAtStart L) (regenB L));
    [apply computeRotation_same | apply sameRobot_refl]. }
  destruct (applyMovement_same (rotatedA L) (rotatedB L) (controlA L) (controlB L) N)
    as [SA2 SB2].
  rewrite M in SA2, SB2; cbn [fst snd] in SA2, SB2.
  destruct (resolveFiring_same (movedA L) (movedB L) (controlA L) (controlB L))
    as [SA3 SB3].
  rewrite F in SA3, SB3; cbn [fst snd] in SA3, SB3.
  split; [exact SA|]. split; [exact SB|]. split.
  - eapply sameRobot_trans; [exact SA|].
    eapply sameRobot_trans; [exact SA1|].
    eapply sameRobot_trans; [exact SA2|exact SA3].
  - eapply sameRobot_trans; [exact SB|].
    eapply sameRobot_trans; [exact SB1|].
    eapply sameRobot_trans; [exact SB2|exact SB3].
Qed.

(** ** The end of a tick *)

Lemma simulateTick_state N t st :
  let st' := fst (simulateTick N t st) in
  let endPerc := perceptionPair (endA N st) (endB N st) N in
  stateA st' = rememberEnemy (endA N st) (endB N st) endPerc
  /\ stateB st' = rememberEnemy (endB N st) (stateA st') endPerc
  /\ activeProjectiles st' = nextProjectiles (projectileAdvance (tickLocals N st)).
Proof. repeat split. Qed.

Lemma simulateTick_log N t st :
  let log := snd (simulateTick N t st) in
  let L := tickLocals N st in
  tick log = t
  /\ startState log = snapshotBattle (regenA L) (regenB L)
  /\ projectiles log = traces (projectileAdvance L)
  /\ endState log = snapshotBattle (endA N st) (endB N st)
  /\ endPerception log = perceptionPair (endA N st) (endB N st) N.
Proof. repeat split. Qed.

Lemma rememberEnemy_id actor opponent perceptions :
  id (rememberEnemy actor opponent perceptions) = id actor.
Proof.
  unfold rememberEnemy, updateEnemyMemory.
  destruct (perceptions (id actor)); [|reflexivity].
  destruct (currentEnemyOf p); reflexivity.
Qed.

Lemma perceptionPair_lookup a b N k :
  perceptionPair a b N k =
    if String.eqb k (id b) then Some (buildPerception b a N)
    else if String.eqb k (id a) then Some (buildPerception a b N)
    else None.
Proof. reflexivity. Qed.

(** The perception stored under a robot's own id is the one built for it,
    unless the other robot has the same id and overwrote it. *)
Lemma perceptionPair_A a b N :
  exists p, perceptionPair a b N (id a) = Some p
            /\ (p = buildPerception a b N \/ p = buildPerception b a N).
Proof.
  rewrite perceptionPair_lookup, String.eqb_refl.
  destruct (String.eqb (id a) (id b)); eexists; split; eauto.
Qed.

Lemma perceptionPair_B a b N :
  perceptionPair a b N (id b) = Some (buildPerception b a N).
Proof. rewrite perceptionPair_lookup, String.eqb_refl. reflexivity. Qed.

(** A perception built by the engine carries an enemy record exactly when
    it reports the enemy visible. *)
Lemma buildPerception_enemy actor opponent N :
  currentEnemyOf (buildPerception actor opponent N) = None
  <-> enemyVisible (buildPerception actor opponent N) = false.
Proof.
  unfold buildPerception.
  destruct (negb (alive actor)); [cbn; tauto|].
  destruct (negb (alive opponent)); [cbn; tauto|].
  cbv zeta.
  destruct (Rltb VISION_RADIUS _); [cbn; tauto|].
  destruct (Rleb _ 0); [cbn; tauto|].
  destruct (Rltb VISION_HALF_ANGLE_RAD _); [cbn; tauto|].
  cbn; split; discriminate.
Qed.

(** ** Energy, cooldowns and burst through the phases *)

Lemma regen_per_tick :
  SIDE_BOOST_ENERGY_REGEN_PER_SECOND * (TICK_DURATION_MS / 1000) = / 4.
Proof.
  unfold SIDE_BOOST_ENERGY_REGEN_PER_SECOND, TICK_DURATION_MS, TARGET_FPS. field.
Qed.

Lemma onGrid4_quarter : onGrid 4 (/ 4).
Proof. exists 2500%Z. simpl. lra. Qed.

Lemma onGrid4_const (k : Z) : onGrid 4 (IZR k).
Proof. apply onGrid_IZR. Qed.

Lemma tickSideBoostState_energy r :
  onGrid 4 (energy r) ->
  energy (tickSideBoostState r) =
    if alive r then Rmin 100 (energy r + / 4) else energy r.
Proof.
  intros G. unfold tickSideBoostState.
  destruct (alive r); cbn; [|reflexivity].
  rewrite regen_per_tick.
  rewrite toFixed_grid by (apply onGrid_plus; [exact G | exact onGrid4_quarter]).
  reflexivity.
Qed.

Lemma tickSideBoostState_fields r :
  let r' := tickSideBoostState r in
  fireCooldownTicks r' = fireCooldownTicks r
  /\ boostBurstTicksRemaining r' = boostBurstTicksRemaining r
  /\ boostDirectionLocked r' = boostDirectionLocked r
  /\ boostCooldownTicks r' =
       (if alive r then Z.max 0 (boostCooldownTicks r - 1) else boostCooldownTicks r)
  /\ robot_x r' = robot_x r /\ robot_y r' = robot_y r
  /\ headingRad r' = headingRad r.
Proof. unfold tickSideBoostState; destruct (alive r); cbn; repeat split. Qed.

Lemma computeRotation_fields r c :
  let r' := fst (computeRotation r c) in
  energy r' = energy r
  /\ fireCooldownTicks r' = fireCooldownTicks r
  /\ boostBurstTicksRemaining r' = boostBurstTicksRemaining r
  /\ boostDirectionLocked r' = boostDirectionLocked r
  /\ boostCooldownTicks r' = boostCooldownTicks r
  /\ robot_x r' = robot_x r /\ robot_y r' = robot_y r.
Proof. cbn; repeat split. Qed.

(** Ignition: the four assignments, and nothing when the test fails. *)
Lemma igniteSideBoost_fields r c :
  let r' := igniteSideBoost r c in
  (if boostIgnites r c
   then energy r' = Rmax 0 (toFixed 4 (energy r - SIDE_BOOST_ENERGY_COST))
        /\ boostCooldownTicks r' = SIDE_BOOST_COOLDOWN_TICKS
        /\ boostBurstTicksRemaining r' = SIDE_BOOST_BURST_TICKS
        /\ boostDirectionLocked r' = boost c
   else r' = r)
  /\ fireCooldownTicks r' = fireCooldownTicks r
  /\ robot_x r' = robot_x r /\ robot_y r' = robot_y r
  /\ headingRad r' = headingRad r.
Proof.
  unfold igniteSideBoost. destruct (boostIgnites r c); cbn; repeat split.
Qed.

Lemma boostIgnites_true r c :
  boostIgnites r c = true <->
  (exists d, boost c = Some d)
  /\ (boostBurstTicksRemaining r <= 0)%Z
  /\ boostCooldownTicks r = 0%Z
  /\ SIDE_BOOST_ENERGY_COST <= energy r.
Proof.
  unfold boostIgnites. destruct (boost c) as [d|].
  - rewrite !andb_true_iff, Z.leb_le, Z.eqb_eq, Rleb_true.
    split; [intros [[? ?] ?]; eauto | intros (_ & ? & ? & ?); auto].
  - split; [discriminate | intros [[d Hd] _]; discriminate].
Qed.

Lemma ignite_energy_exact e :
  onGrid 4 e -> SIDE_BOOST_ENERGY_COST <= e ->
  Rmax 0 (toFixed 4 (e - SIDE_BOOST_ENERGY_COST)) = e - 35.
Proof.
  unfold SIDE_BOOST_ENERGY_COST. intros G H.
  rewrite toFixed_grid by (apply onGrid_minus; [exact G | apply (onGrid4_const 35)]).
  apply Rmax_right. lra.
Qed.

Lemma fire_energy_exact e :
  onGrid 4 e -> FIRE_ENERGY_COST <= e ->
  Rmax 0 (toFixed 4 (e - FIRE_ENERGY_COST)) = e - 6.
Proof.
  unfold FIRE_ENERGY_COST. intros G H.
  rewrite toFixed_grid by (apply onGrid_minus; [exact G | apply (onGrid4_const 6)]).
  apply Rmax_right. lra.
Qed.

Lemma resolveSideBoost_fields r c start N :
  let r' := fst (resolveSideBoost r c start N) in
  let r1 := if alive r then igniteSideBoost r c else r in
  energy r' = energy r1
  /\ boostCooldownTicks r' = boostCooldownTicks r1
  /\ fireCooldownTicks r' = fireCooldownTicks r
  /\ robot_x r' = robot_x r /\ robot_y r' = robot_y r
  /\ headingRad r' = headingRad r.
Proof.
  unfold resolveSideBoost.
  destruct (alive r); cbn [negb]; [|cbn; repeat split].
  destruct (igniteSideBoost_fields r c) as (_ & F & X & Y & H).
  set (r1 := igniteSideBoost r c) in *. cbv zeta.
  destruct (boostDirectionLocked r1) as [d|] eqn:Lk.
  - rewrite Lk. destruct (0 <? boostBurstTicksRemaining r1)%Z; cbn [fst].
    + destruct (Z.max 0 (boostBurstTicksRemaining r1 - 1) =? 0)%Z; cbn; repeat split; assumption.
    + repeat split; assumption.
  - destruct (0 <? boostBurstTicksRemaining r1)%Z eqn:B; cbn.
    + repeat split; assumption.
    + rewrite B. cbn. repeat split; assumption.
Qed.

(** The burst counter after [resolveSideBoost], from the counter and the
    lock left by the ignition test. *)
Lemma resolveSideBoost_burst r c start N :
  alive r = true ->
  let r1 := igniteSideBoost r c in
  let r' := fst (resolveSideBoost r c start N) in
  boostBurstTicksRemaining r' =
    match boostDirectionLocked r1 with
    | Some _ => if (0 <? boostBurstTicksRemaining r1)%Z
                then Z.max 0 (boostBurstTicksRemaining r1 - 1)
                else boostBurstTicksRemaining r1
    | None => if (0 <? boostBurstTicksRemaining r1)%Z then 0%Z
              else boostBurstTicksRemaining r1
    end.
Proof.
  intros A. unfold resolveSideBoost. rewrite A. cbn [negb]. cbv zeta.
  set (r1 := igniteSideBoost r c).
  destruct (boostDirectionLocked r1) as [d|] eqn:Lk.
  - rewrite Lk. destruct (0 <? boostBurstTicksRemaining r1)%Z; cbn [fst]; [|reflexivity].
    destruct (Z.max 0 (boostBurstTicksRemaining r1 - 1) =? 0)%Z; reflexivity.
  - destruct (0 <? boostBurstTicksRemaining r1)%Z eqn:B; cbn.
    + reflexivity.
    + rewrite B. reflexivity.
Qed.

Lemma applyMovement_fields a b cA cB N :
  let a' := fst (fst (applyMovement a b cA cB N)) in
  let b' := snd (fst (applyMovement a b cA cB N)) in
  let ra := fst (resolveSideBoost a cA {| x := robot_x a; y := robot_y a |} N) in
  let rb := fst (resolveSideBoost b cB {| x := robot_x b; y := robot_y b |} N) in
  (energy a' = energy ra /\ fireCooldownTicks a' = fireCooldownTicks ra
   /\ boostCooldownTicks a' = boostCooldownTicks ra
   /\ boostBurstTicksRemaining a' = boostBurstTicksRemaining ra
   /\ boostDirectionLocked a' = boostDirectionLocked ra
   /\ headingRad a' = headingRad ra
   /\ onGrid 4 (robot_x a') /\ onGrid 4 (robot_y a'))
  /\ (energy b' = energy rb /\ fireCooldownTicks b' = fireCooldownTicks rb
      /\ boostCooldownTicks b' = boostCooldownTicks rb
      /\ boostBurstTicksRemaining b' = boostBurstTicksRemaining rb
      /\ boostDirectionLocked b' = boostDirectionLocked rb
      /\ headingRad b' = headingRad rb
      /\ onGrid 4 (robot_x b') /\ onGrid 4 (robot_y b')).
Proof.
  unfold applyMovement.
  destruct (resolveSideBoost a cA _ N) as [a1 boostA].
  destruct (resolveSideBoost b cB _ N) as [b1 boostB].
  cbn. repeat split; apply toFixed_onGrid.
Qed.

(** ** Firing *)

Lemma shotAllowed_true shooter c :
  shotAllowed shooter c = true <->
  alive shooter = true /\ fire c = true
  /\ (fireCooldownTicks shooter <= 0)%Z /\ FIRE_ENERGY_COST <= energy shooter.
Proof.
  unfold shotAllowed.
  rewrite !andb_true_iff, !negb_true_iff, Z.ltb_ge, Rltb_false. tauto.
Qed.

(** The three outcomes of a spawn attempt. *)
Lemma fireAttempt_fields shooter tid c acc :
  let r' := fst (fireAttempt shooter tid c acc) in
  let res := snd (fireAttempt shooter tid c acc) in
  (if shotAllowed shooter c
   then energy r' = Rmax 0 (toFixed 4 (energy shooter - FIRE_ENERGY_COST))
        /\ fireCooldownTicks r' = FIRE_COOLDOWN_TICKS
        /\ spawnedProjectiles res = spawnedProjectiles acc ++ [spawnedBy shooter tid]
   else r' = shooter /\ spawnedProjectiles res = spawnedProjectiles acc)
  /\ boostCooldownTicks r' = boostCooldownTicks shooter
  /\ boostBurstTicksRemaining r' = boostBurstTicksRemaining shooter
  /\ boostDirectionLocked r' = boostDirectionLocked shooter
  /\ robot_x r' = robot_x shooter /\ robot_y r' = robot_y shooter
  /\ headingRad r' = headingRad shooter.
Proof.
  unfold fireAttempt, shotAllowed.
  destruct (alive shooter); cbn [negb orb andb]; [|cbn; repeat split].
  destruct (fire c); cbn [negb orb andb]; [|cbn; repeat split].
  destruct (0 <? fireCooldownTicks shooter)%Z; cbn [negb orb andb]; [cbn; repeat split|].
  destruct (Rltb (energy shooter) FIRE_ENERGY_COST); cbn; repeat split.
Qed.

Lemma resolveFiring_eq a b cA cB :
  let a1 := if alive a then tickCooldown a else a in
  let b1 := if alive b then tickCooldown b else b in
  let stepA := fireAttempt a1 (id b1) cA (initialFireResolution a1 b1 cA cB) in
  let stepB := fireAttempt b1 (id (fst stepA)) cB (snd stepA) in
  resolveFiring a b cA cB = (fst stepA, fst stepB, snd stepB).
Proof.
  unfold resolveFiring. cbv zeta.
  destruct (fireAttempt _ _ cA _) as [a2 afterA]. cbn [fst snd].
  destruct (fireAttempt _ _ cB _) as [b2 afterB]. reflexivity.
Qed.

(** ** The invariant of the tick loop *)

Lemma energy_step_range e :
  0 <= e <= 100 -> onGrid 4 e -> 0 <= Rmin 100 (e + / 4) <= 100 /\ onGrid 4 (Rmin 100 (e + / 4)).
Proof.
  intros H G. split.
  - unfold Rmin; destruct (Rle_dec 100 (e + / 4)); lra.
  - apply onGrid_Rmin; [apply (onGrid4_const 100)|].
    apply onGrid_plus; [exact G | exact onGrid4_quarter].
Qed.

Lemma tickSideBoostState_invariant r :
  robotInvariant r -> robotInvariant (tickSideBoostState r).
Proof.
  intros [Er Eg Fc Un Bc Bu].
  pose proof (tickSideBoostState_energy r Eg) as HE.
  destruct (tickSideBoostState_fields r) as (HF & HB & _ & HC & _).
  destruct (tickSideBoostState_same r) as (_ & _ & HM & _).
  destruct (energy_step_range _ Er Eg) as [R1 G1].
  constructor; rewrite ?HE, ?HF, ?HB, ?HC, ?HM; try assumption;
    destruct (alive r); try assumption; lia.
Qed.

Lemma computeRotation_invariant r c :
  robotInvariant r -> robotInvariant (fst (computeRotation r c)).
Proof. intros [Er Eg Fc Un Bc Bu]. constructor; assumption. Qed.

Lemma resolveSideBoost_invariant r c start N :
  robotInvariant r -> robotInvariant (fst (resolveSideBoost r c start N)).
Proof.
  intros [Er Eg Fc Un Bc Bu].
  destruct (resolveSideBoost_fields r c start N) as (HE & HC & HF & _).
  destruct (resolveSideBoost_same r c start N) as (_ & _ & HM & _).
  pose proof (resolveSideBoost_burst r c start N) as HB.
  destruct (igniteSideBoost_fields r c) as (HI & _).
  cbv zeta in *.
  destruct (alive r) eqn:A.
  - specialize (HB eq_refl).
    destruct (boostIgnites r c) eqn:I.
    + destruct HI as (IE & IC & IB & IL).
      apply boostIgnites_true in I. destruct I as ([d Hd] & _ & _ & Hen).
      rewrite (ignite_energy_exact _ Eg Hen) in IE.
      unfold SIDE_BOOST_ENERGY_COST in Hen.
      constructor; rewrite ?HE, ?HC, ?HF, ?HM, ?HB, ?IE, ?IC, ?IB, ?IL, ?Hd;
        try assumption.
      * lra.
      * apply onGrid_minus; [exact Eg | apply (onGrid4_const 35)].
      * unfold SIDE_BOOST_COOLDOWN_TICKS; lia.
      * unfold SIDE_BOOST_BURST_TICKS; cbn; lia.
    + rewrite HI in *.
      constructor; rewrite ?HE, ?HC, ?HF, ?HM, ?HB; try assumption.
      destruct (boostDirectionLocked r);
        destruct (0 <? boostBurstTicksRemaining r)%Z; lia.
  - assert (Hr : fst (resolveSideBoost r c start N) = r).
    { unfold resolveSideBoost. rewrite A. reflexivity. }
    rewrite Hr. constructor; assumption.
Qed.

Lemma setPosition_invariant vx vy r :
  robotInvariant r -> robotInvariant (setY vy (setX vx r)).
Proof. intros [Er Eg Fc Un Bc Bu]. constructor; assumption. Qed.

Lemma applyMovement_invariant a b cA cB N :
  robotInvariant a -> robotInvariant b ->
  robotInvariant (fst (fst (applyMovement a b cA cB N)))
  /\ robotInvariant (snd (fst (applyMovement a b cA cB N))).
Proof.
  intros IA IB. unfold applyMovement.
  pose proof (resolveSideBoost_invariant a cA {| x := robot_x a; y := robot_y a |} N IA) as HA.
  pose proof (resolveSideBoost_invariant b cB {| x := robot_x b; y := robot_y b |} N IB) as HB.
  destruct (resolveSideBoost a cA _ N) as [a1 boostA].
  destruct (resolveSideBoost b cB _ N) as [b1 boostB].
  cbn [fst snd] in *. split; apply setPosition_invariant; assumption.
Qed.

Lemma tickCooldown_invariant r :
  robotInvariant r ->
  robotInvariant (if alive r then tickCooldown r else r).
Proof.
  intros [Er Eg Fc Un Bc Bu]. destruct (alive r); constructor; try assumption.
  cbn. lia.
Qed.

Lemma fireAttempt_invariant r tid c acc :
  robotInvariant r -> robotInvariant (fst (fireAttempt r tid c acc)).
Proof.
  intros [Er Eg Fc Un Bc Bu].
  destruct (fireAttempt_fields r tid c acc) as (HS & HC & HB & _).
  destruct (fireAttempt_same r tid c acc) as (_ & _ & HM & _).
  cbv zeta in *.
  destruct (shotAllowed r c) eqn:SA.
  - destruct HS as (HE & HF & _).
    apply shotAllowed_true in SA. destruct SA as (_ & _ & _ & Hen).
    rewrite (fire_energy_exact _ Eg Hen) in HE. unfold FIRE_ENERGY_COST in Hen.
    constructor; rewrite ?HE, ?HF, ?HC, ?HB, ?HM; try assumption.
    + lra.
    + apply onGrid_minus; [exact Eg | apply (onGrid4_const 6)].
    + unfold FIRE_COOLDOWN_TICKS; lia.
  - destruct HS as (-> & _). constructor; assumption.
Qed.

Lemma resolveFiring_invariant a b cA cB :
  robotInvariant a -> robotInvariant b ->
  robotInvariant (fst (fst (resolveFiring a b cA cB)))
  /\ robotInvariant (snd (fst (resolveFiring a b cA cB))).
Proof.
  intros IA IB. rewrite resolveFiring_eq. cbn [fst snd].
  split; apply fireAttempt_invariant, tickCooldown_invariant; assumption.
Qed.

Lemma endOfTick_invariant adv r :
  robotInvariant r -> robotInvariant (refreshDirection (applyPendingKill adv r)).
Proof.
  intros [Er Eg Fc Un Bc Bu]. unfold refreshDirection, applyPendingKill.
  destruct (setHas _ _); constructor; assumption.
Qed.

Lemma updateEnemyMemory_invariant actor opponent p :
  robotInvariant actor -> robotInvariant (updateEnemyMemory actor opponent p).
Proof.
  intros [Er Eg Fc Un Bc Bu]. unfold updateEnemyMemory.
  destruct (currentEnemyOf p); constructor; try assumption; cbn;
    unfold MEMORY_UNSEEN_TICKS_INITIAL; lia.
Qed.

Lemma rememberEnemy_invariant actor opponent perceptions :
  robotInvariant actor -> robotInvariant (rememberEnemy actor opponent perceptions).
Proof.
  intros I. unfold rememberEnemy. destruct (perceptions (id actor)); [|exact I].
  apply updateEnemyMemory_invariant, I.
Qed.

Lemma tickLocals_invariant N st :
  robotInvariant (stateA st) -> robotInvariant (stateB st) ->
  let L := tickLocals N st in
  (robotInvariant (regenA L) /\ robotInvariant (regenB L))
  /\ (robotInvariant (rotatedA L) /\ robotInvariant (rotatedB L))
  /\ (robotInvariant (movedA L) /\ robotInvariant (movedB L))
  /\ (robotInvariant (firedA L) /\ robotInvariant (firedB L)).
Proof.
  intros IA IB L.
  destruct (tickLocals_regen N st) as [RA RB].
  destruct (tickLocals_rotation N st) as [TA TB].
  pose proof (tickLocals_movement N st) as M.
  pose proof (tickLocals_firing N st) as F.
  fold L in RA, RB, TA, TB, M, F. cbv zeta in *.
  assert (I0 : robotInvariant (regenA L) /\ robotInvariant (regenB L)).
  { rewrite RA, RB. split; apply tickSideBoostState_invariant; assumption. }
  assert (I1 : robotInvariant (rotatedA L) /\ robotInvariant (rotatedB L)).
  { rewrite TA, TB. destruct I0. split.
    - destruct (wasAlive (aliveAtStart L) (regenA L));
        [apply computeRotation_invariant|]; assumption.
    - destruct (wasAlive (aliveAtStart L) (regenB L));
        [apply computeRotation_invariant|]; assumption. }
  assert (I2 : robotInvariant (movedA L) /\ robotInvariant (movedB L)).
  { destruct I1 as [X Y].
    pose proof (applyMovement_invariant _ _ (controlA L) (controlB L) N X Y) as H.
    rewrite M in H. exact H. }
  assert (I3 : robotInvariant (firedA L) /\ robotInvariant (firedB L)).
  { destruct I2 as [X Y].
    pose proof (resolveFiring_invariant _ _ (controlA L) (controlB L) X Y) as H.
    rewrite F in H. exact H. }
  tauto.
Qed.

Lemma simulateTick_invariant N t st :
  robotInvariant (stateA st) -> robotInvariant (stateB st) ->
  robotInvariant (stateA (fst (simulateTick N t st)))
  /\ robotInvariant (stateB (fst (simulateTick N t st))).
Proof.
  intros IA IB.
  destruct (tickLocals_invariant N st IA IB) as (_ & _ & _ & FA & FB).
  destruct (simulateTick_state N t st) as (SA & SB & _). cbv zeta in *.
  rewrite SB, SA.
  split; apply rememberEnemy_invariant; unfold endA, endB;
    apply endOfTick_invariant; assumption.
Qed.

Lemma buildRobotState_invariant doc sx sy d :
  robotInvariant (buildRobotState doc sx sy d).
Proof.
  constructor; cbn; unfold SIDE_BOOST_ENERGY_MAX, MEMORY_UNSEEN_TICKS_INITIAL;
    try lra; try lia.
  apply (onGrid4_const 100).
Qed.

Lemma rememberEnemy_alive actor opponent perceptions :
  alive (rememberEnemy actor opponent perceptions) = alive actor.
Proof.
  unfold rememberEnemy, updateEnemyMemory.
  destruct (perceptions (id actor)); [|reflexivity].
  destruct (currentEnemyOf p); reflexivity.
Qed.

Lemma initialBattleState_invariant input : battleInvariant (initialBattleState input).
Proof.
  unfold battleInvariant, initialBattleState. cbn [stateA stateB].
  rewrite !rememberEnemy_alive. cbn [alive buildRobotState].
  split; [|split; [|split; reflexivity]];
    apply rememberEnemy_invariant, buildRobotState_invariant.
Qed.

(** Every tick of a battle starts from a state that satisfies the invariant. *)
Lemma TickStart_invariant input t st :
  TickStart input t st -> battleInvariant st.
Proof.
  induction 1 as [|t st H IH A B].
  - apply initialBattleState_invariant.
  - destruct IH as (IA & IB & _ & _).
    destruct (simulateTick_invariant (input_arenaSize input) t st IA IB).
    unfold battleInvariant; tauto.
Qed.

(** ** The tick log of a battle *)

Lemma runTicks_step N n t st :
  runTicks N (Datatypes.S n) t st =
    if negb (alive (stateA (fst (simulateTick N t st))))
       || negb (alive (stateB (fst (simulateTick N t st))))
    then (fst (simulateTick N t st), [snd (simulateTick N t st)])
    else (fst (runTicks N n (t + 1) (fst (simulateTick N t st))),
          snd (simulateTick N t st)
          :: snd (runTicks N n (t + 1) (fst (simulateTick N t st)))).
Proof.
  cbn [runTicks]. generalize (simulateTick N t st). intros [st1 tickLog].
  cbn [fst snd]. destruct (negb (alive (stateA st1)) || negb (alive (stateB st1)));
    [reflexivity|].
  generalize (runTicks N n (t + 1) st1). intros [final rest]. reflexivity.
Qed.

Lemma runTicks_logs input n : forall t st,
  TickStart input t st ->
  forall log, In log (snd (runTicks (input_arenaSize input) n t st)) ->
  exists t' st', TickStart input t' st'
                 /\ log = snd (simulateTick (input_arenaSize input) t' st').
Proof.
  induction n as [|n IH]; intros t st H log Hin; [contradiction|].
  rewrite runTicks_step in Hin.
  pose proof (start_next input t st H) as Next.
  remember (simulateTick (input_arenaSize input) t st) as r eqn:Er.
  assert (Here : exists t' st', TickStart input t' st'
                   /\ snd r = snd (simulateTick (input_arenaSize input) t' st')).
  { exists t, st. split; [exact H | rewrite Er; reflexivity]. }
  clear Er.
  destruct (alive (stateA (fst r))); destruct (alive (stateB (fst r)));
    cbn [negb orb snd] in Hin.
  - destruct Hin as [<- | Hin]; [exact Here|].
    apply (IH (t + 1)%Z (fst r)); [apply Next; reflexivity | exact Hin].
  - destruct Hin as [<- | []]. exact Here.
  - destruct Hin as [<- | []]. exact Here.
  - destruct Hin as [<- | []]. exact Here.
Qed.

(** Every entry of [ticks] in the result of [simulateBattle] is the log of a
    tick started from a [TickStart] state. *)
Lemma simulateBattle_ticks input log :
  In log (ticks (simulateBattle input)) ->
  exists t st, TickStart input t st
               /\ log = snd (simulateTick (input_arenaSize input) t st).
Proof.
  unfold simulateBattle. cbv zeta.
  destruct (runTicks _ _ 1 (initialBattleState input)) as [final tickLogs] eqn:R.
  cbn [ticks]. intros Hin.
  eapply (runTicks_logs input _ 1%Z (initialBattleState input) (start_first input)).
  rewrite R. exact Hin.
Qed.

(** ** Enemy memory *)

Lemma updateEnemyMemory_counter actor opponent p :
  ticksSinceEnemySeen (enemyMemory (updateEnemyMemory actor opponent p)) =
    match currentEnemyOf p with
    | Some _ => 0%Z
    | None => Z.min MEMORY_UNSEEN_TICKS_INITIAL
                (ticksSinceEnemySeen (enemyMemory actor) + 1)
    end.
Proof. unfold updateEnemyMemory. destruct (currentEnemyOf p); reflexivity. Qed.

Lemma endOfTick_memory N st :
  enemyMemory (endA N st) = enemyMemory (stateA st)
  /\ enemyMemory (endB N st) = enemyMemory (stateB st).
Proof.
  destruct (tickLocals_same N st) as (_ & _ & (_ & _ & MA & _) & (_ & _ & MB & _)).
  unfold endA, endB, refreshDirection, applyPendingKill. cbv zeta.
  split.
  - destruct (setHas _ (id (firedA _))); cbn; exact MA.
  - destruct (setHas _ (id (firedB _))); cbn; exact MB.
Qed.

(** The update of one robot's counter at the end of a tick, from the
    perception [p] that the driver passes to [updateEnemyMemory]. *)
Lemma counter_after_update actor opponent p c :
  (0 <= c)%Z ->
  ticksSinceEnemySeen (enemyMemory actor) = c ->
  (currentEnemyOf p = None <-> enemyVisible p = false) ->
  let c' := ticksSinceEnemySeen (enemyMemory (updateEnemyMemory actor opponent p)) in
  (c' = 0%Z <-> enemyVisible p = true)
  /\ (enemyVisible p = false -> c' = Z.min MEMORY_UNSEEN_TICKS_INITIAL (c + 1)).
Proof.
  intros Hc Hm Hp. cbv zeta. rewrite updateEnemyMemory_counter, Hm.
  unfold MEMORY_UNSEEN_TICKS_INITIAL.
  destruct (currentEnemyOf p) as [e|] eqn:Ce.
  - assert (enemyVisible p = true).
    { destruct (enemyVisible p); [reflexivity|].
      destruct Hp as [_ Hp]. specialize (Hp eq_refl). discriminate. }
    split; [tauto | congruence].
  - assert (V : enemyVisible p = false) by (apply Hp; reflexivity).
    split; [split; [lia | congruence] | reflexivity].
Qed.

(** ** Robots that stay where they are *)

Lemma toFixed_0 d : toFixed d 0 = 0.
Proof.
  apply toFixed_grid. exists 0%Z. unfold Rdiv. rewrite Rmult_0_l. reflexivity.
Qed.

Lemma plannedDelta_idle actor c :
  throttle c = 0 -> strafe c = 0 ->
  plan_delta (plannedDelta actor c) = {| x := 0; y := 0 |}.
Proof.
  intros T S. unfold plannedDelta. destruct (negb (alive actor)); [reflexivity|].
  cbn. rewrite T, S.
  replace (cos (headingRad actor) * (0 * _ * _) * _ + _) with 0 by ring.
  replace (sin (headingRad actor) * (0 * _ * _) * _ + _) with 0 by ring.
  rewrite toFixed_0. reflexivity.
Qed.

Lemma resolveSideBoost_idle actor c start N :
  boost c = None -> boostBurstTicksRemaining actor = 0%Z ->
  boost_delta (snd (resolveSideBoost actor c start N)) = {| x := 0; y := 0 |}.
Proof.
  intros B R. unfold resolveSideBoost. destruct (negb (alive actor)); [reflexivity|].
  unfold igniteSideBoost, boostIgnites. rewrite B. cbv zeta. rewrite R.
  destruct (boostDirectionLocked actor); cbn; rewrite ?R; reflexivity.
Qed.

Lemma clamp_inside N v : 0 <= v <= N - 1 -> Rmax 0 (Rmin (N - 1) v) = v.
Proof. intros H. rewrite Rmin_right by lra. apply Rmax_right. lra. Qed.

Lemma clampToArena_inside N vx vy :
  onGrid 4 vx -> onGrid 4 vy -> 0 <= vx <= N - 1 -> 0 <= vy <= N - 1 ->
  fst (clampToArena {| x := vx; y := vy |} N) = {| x := vx; y := vy |}.
Proof.
  intros GX GY HX HY. unfold clampToArena. cbn.
  rewrite !clamp_inside by assumption.
  rewrite !toFixed_grid by assumption. reflexivity.
Qed.

(** A robot with neutral throttle and strafe and no boost keeps its
    position through [applyMovement], whatever the other robot does. *)
Lemma applyMovement_idle_A a b cA cB N :
  throttle cA = 0 -> strafe cA = 0 -> boost cA = None ->
  boostBurstTicksRemaining a = 0%Z ->
  onGrid 4 (robot_x a) -> onGrid 4 (robot_y a) ->
  0 <= robot_x a <= N - 1 -> 0 <= robot_y a <= N - 1 ->
  let a' := fst (fst (applyMovement a b cA cB N)) in
  robot_x a' = robot_x a /\ robot_y a' = robot_y a.
Proof.
  intros T S B R GX GY HX HY. unfold applyMovement.
  pose proof (plannedDelta_idle a cA T S) as PA.
  pose proof (resolveSideBoost_idle a cA {| x := robot_x a; y := robot_y a |} N B R) as BA.
  destruct (resolveSideBoost a cA _ N) as [a1 boostA].
  destruct (resolveSideBoost b cB _ N) as [b1 boostB].
  cbn [fst snd] in *. rewrite PA, BA. cbn [x y fst snd robot_x robot_y setX setY].
  rewrite !Rplus_0_r, toFixed_0, !Rplus_0_r.
  rewrite (clampToArena_inside N (robot_x a) (robot_y a)) by assumption.
  split; match goal with |- context [if ?c then _ else _] => destruct c end; cbn;
    apply toFixed_grid; assumption.
Qed.

Lemma applyMovement_idle_B a b cA cB N :
  throttle cB = 0 -> strafe cB = 0 -> boost cB = None ->
  boostBurstTicksRemaining b = 0%Z ->
  onGrid 4 (robot_x b) -> onGrid 4 (robot_y b) ->
  0 <= robot_x b <= N - 1 -> 0 <= robot_y b <= N - 1 ->
  let b' := snd (fst (applyMovement a b cA cB N)) in
  robot_x b' = robot_x b /\ robot_y b' = robot_y b.
Proof.
  intros T S B R GX GY HX HY. unfold applyMovement.
  pose proof (plannedDelta_idle b cB T S) as PB.
  pose proof (resolveSideBoost_idle b cB {| x := robot_x b; y := robot_y b |} N B R) as BB.
  destruct (resolveSideBoost a cA _ N) as [a1 boostA].
  destruct (resolveSideBoost b cB _ N) as [b1 boostB].
  cbn [fst snd] in *. rewrite PB, BB. cbn [x y fst snd robot_x robot_y setX setY].
  rewrite !Rplus_0_r, toFixed_0, !Rplus_0_r.
  rewrite (clampToArena_inside N (robot_x b) (robot_y b)) by assumption.
  split; match goal with |- context [if ?c then _ else _] => destruct c end; cbn;
    apply toFixed_grid; assumption.
Qed.

(** Beyond the vision radius nothing is seen. *)
Lemma buildPerception_far actor opponent N :
  VISION_RADIUS * VISION_RADIUS <
    (robot_x opponent - robot_x actor) * (robot_x opponent - robot_x actor)
    + (robot_y opponent - robot_y actor) * (robot_y opponent - robot_y actor) ->
  enemyVisible (buildPerception actor opponent N) = false.
Proof.
  intros H. unfold buildPerception.
  destruct (negb (alive actor)); [reflexivity|].
  destruct (negb (alive opponent)); [reflexivity|].
  cbv zeta.
  assert (F : Rltb VISION_RADIUS
                (sqrt ((robot_x opponent - robot_x actor) * (robot_x opponent - robot_x actor)
                       + (robot_y opponent - robot_y actor) * (robot_y opponent - robot_y actor)))
              = true).
  { apply Rltb_true.
    rewrite <- (sqrt_square VISION_RADIUS) at 1 by (unfold VISION_RADIUS; lra).
    apply sqrt_lt_1_alt. unfold VISION_RADIUS in *. lra. }
  rewrite F. reflexivity.
Qed.

Lemma rememberEnemy_fields actor opponent perceptions :
  let r' := rememberEnemy actor opponent perceptions in
  robot_x r' = robot_x actor /\ robot_y r' = robot_y actor
  /\ headingRad r' = headingRad actor /\ energy r' = energy actor
  /\ fireCooldownTicks r' = fireCooldownTicks actor
  /\ boostCooldownTicks r' = boostCooldownTicks actor
  /\ boostBurstTicksRemaining r' = boostBurstTicksRemaining actor
  /\ boostDirectionLocked r' = boostDirectionLocked actor
  /\ program r' = program actor.
Proof.
  unfold rememberEnemy, updateEnemyMemory.
  destruct (perceptions (id actor)); [|cbn; repeat split].
  destruct (currentEnemyOf p); cbn; repeat split.
Qed.

(** Position through a whole tick: only [applyMovement] assigns it. *)
Lemma tick_position N st :
  let L := tickLocals N st in
  (robot_x (regenA L) = robot_x (stateA st) /\ robot_y (regenA L) = robot_y (stateA st)
   /\ robot_x (rotatedA L) = robot_x (stateA st)
   /\ robot_y (rotatedA L) = robot_y (stateA st)
   /\ robot_x (endA N st) = robot_x (movedA L) /\ robot_y (endA N st) = robot_y (movedA L))
  /\ (robot_x (regenB L) = robot_x (stateB st) /\ robot_y (regenB L) = robot_y (stateB st)
      /\ robot_x (rotatedB L) = robot_x (stateB st)
      /\ robot_y (rotatedB L) = robot_y (stateB st)
      /\ robot_x (endB N st) = robot_x (movedB L)
      /\ robot_y (endB N st) = robot_y (movedB L)).
Proof.
  intros L.
  destruct (tickLocals_regen N st) as [RA RB].
  destruct (tickLocals_rotation N st) as [TA TB].
  pose proof (tickLocals_firing N st) as F.
  fold L in RA, RB, TA, TB, F. cbv zeta in F.
  rewrite resolveFiring_eq in F. cbv zeta in F.
  injection F as FA FB _.
  destruct (tickSideBoostState_fields (stateA st)) as (_ & _ & _ & _ & XA & YA & _).
  destruct (tickSideBoostState_fields (stateB st)) as (_ & _ & _ & _ & XB & YB & _).
  assert (EA : robot_x (endA N st) = robot_x (movedA L)
               /\ robot_y (endA N st) = robot_y (movedA L)).
  { unfold endA, refreshDirection, applyPendingKill. cbv zeta. fold L.
    rewrite <- FA.
    match goal with |- context [fireAttempt ?r ?t ?c ?i] =>
      destruct (fireAttempt_fields r t c i) as (_ & _ & _ & _ & X & Y & _) end.
    cbv zeta in X, Y.
    destruct (setHas _ _); cbn [robot_x robot_y setDirection setAlive];
      rewrite X, Y; destruct (alive (movedA L)); split; reflexivity. }
  assert (EB : robot_x (endB N st) = robot_x (movedB L)
               /\ robot_y (endB N st) = robot_y (movedB L)).
  { unfold endB, refreshDirection, applyPendingKill. cbv zeta. fold L.
    rewrite <- FB.
    match goal with |- context [fireAttempt ?r ?t ?c ?i] =>
      destruct (fireAttempt_fields r t c i) as (_ & _ & _ & _ & X & Y & _) end.
    cbv zeta in X, Y.
    destruct (setHas _ _); cbn [robot_x robot_y setDirection setAlive];
      rewrite X, Y; destruct (alive (movedB L)); split; reflexivity. }
  assert (PA : robot_x (rotatedA L) = robot_x (regenA L)
               /\ robot_y (rotatedA L) = robot_y (regenA L)).
  { rewrite TA. destruct (wasAlive (aliveAtStart L) (regenA L)); split; reflexivity. }
  assert (PB : robot_x (rotatedB L) = robot_x (regenB L)
               /\ robot_y (rotatedB L) = robot_y (regenB L)).
  { rewrite TB. destruct (wasAlive (aliveAtStart L) (regenB L)); split; reflexivity. }
  destruct PA as [PAx PAy]. destruct PB as [PBx PBy].
  rewrite PAx, PAy, PBx, PBy, RA, RB, XA, YA, XB, YB. tauto.
Qed.

(** ** The counter of unseen ticks at the end of a tick *)

Lemma tick_counter N t st :
  (0 <= ticksSinceEnemySeen (enemyMemory (stateA st)))%Z ->
  (0 <= ticksSinceEnemySeen (enemyMemory (stateB st)))%Z ->
  let st' := fst (simulateTick N t st) in
  let log := snd (simulateTick N t st) in
  counterTracksVisibility (stateA st) (stateA st') log
  /\ counterTracksVisibility (stateB st) (stateB st') log.
Proof.
  intros CA CB. cbv zeta.
  destruct (simulateTick_state N t st) as (SA & SB & _).
  destruct (simulateTick_log N t st) as (_ & _ & _ & _ & LP).
  destruct (endOfTick_memory N st) as [MA MB].
  cbv zeta in SA, SB, LP.
  unfold counterTracksVisibility. rewrite LP.
  split.
  - rewrite SA. rewrite rememberEnemy_id.
    destruct (perceptionPair_A (endA N st) (endB N st) N) as (p & Hp & Hb).
    exists p. split; [exact Hp|].
    unfold rememberEnemy. rewrite Hp.
    apply counter_after_update; [exact CA | rewrite MA; reflexivity |].
    destruct Hb as [-> | ->]; apply buildPerception_enemy.
  - rewrite SB. rewrite rememberEnemy_id.
    exists (buildPerception (endB N st) (endA N st) N).
    split; [apply perceptionPair_B|].
    unfold rememberEnemy. rewrite perceptionPair_B.
    apply counter_after_update; [exact CB | rewrite MB; reflexivity |].
    apply buildPerception_enemy.
Qed.

(** C1 (amended).  For every tick of a battle and each of the two robots:
    the counter [ticksSinceEnemySeen] stored at the end of the tick is 0 if
    and only if [enemyVisible] holds in the end-of-tick perception of that
    robot, and when [enemyVisible] is false the counter is the value before
    the tick plus 1, capped at 9999 ([MEMORY_UNSEEN_TICKS_INITIAL]). *)
Theorem C1_unseen_counter input t st :
  TickStart input t st ->
  let st' := fst (simulateTick (input_arenaSize input) t st) in
  let log := snd (simulateTick (input_arenaSize input) t st) in
  counterTracksVisibility (stateA st) (stateA st') log
  /\ counterTracksVisibility (stateB st) (stateB st') log.
Proof.
  intros H. apply TickStart_invariant in H.
  destruct H as ([_ _ _ UA _ _] & [_ _ _ UB _ _] & _).
  apply tick_counter; lia.
Qed.

Lemma C1_unseen_counter_witness :
  TickStart idleBattle 1 (initialBattleState idleBattle)
  /\ counterTracksVisibility
       (stateA (initialBattleState idleBattle))
       (stateA (fst (simulateTick 10 1 (initialBattleState idleBattle))))
       (snd (simulateTick 10 1 (initialBattleState idleBattle))).
Proof.
  split; [apply start_first|].
  apply (C1_unseen_counter idleBattle 1 _ (start_first idleBattle)).
Defined.

(** ** The idle battle *)

Lemma idleProgram_controls sensors :
  controls (resolveControls idleProgram sensors) = neutralControls.
Proof. reflexivity. Qed.

Lemma idle_controls N st :
  let L := tickLocals N st in
  (program (stateA st) = idleProgram -> controlA L = neutralControls)
  /\ (program (stateB st) = idleProgram -> controlB L = neutralControls).
Proof.
  intros L.
  destruct (tickLocals_controls N st) as (DA & DB & CA & CB).
  destruct (tickLocals_same N st) as ((_ & _ & _ & PA) & (_ & _ & _ & PB) & _).
  fold L in DA, DB, CA, CB, PA, PB.
  split; intros P.
  - rewrite CA. destruct (wasAlive (aliveAtStart L) (regenA L)); [|reflexivity].
    rewrite DA, PA, P. apply idleProgram_controls.
  - rewrite CB. destruct (wasAlive (aliveAtStart L) (regenB L)); [|reflexivity].
    rewrite DB, PB, P. apply idleProgram_controls.
Qed.

Lemma rotated_burst N st :
  let L := tickLocals N st in
  boostBurstTicksRemaining (rotatedA L) = boostBurstTicksRemaining (stateA st)
  /\ boostBurstTicksRemaining (rotatedB L) = boostBurstTicksRemaining (stateB st).
Proof.
  intros L.
  destruct (tickLocals_regen N st) as [RA RB].
  destruct (tickLocals_rotation N st) as [TA TB].
  fold L in RA, RB, TA, TB.
  destruct (tickSideBoostState_fields (stateA st)) as (_ & BA & _).
  destruct (tickSideBoostState_fields (stateB st)) as (_ & BB & _).
  rewrite <- RA in BA. rewrite <- RB in BB. rewrite <- BA, <- BB, TA, TB.
  split.
  - destruct (wasAlive (aliveAtStart L) (regenA L)); reflexivity.
  - destruct (wasAlive (aliveAtStart L) (regenB L)); reflexivity.
Qed.

(** A robot that runs [idleProgram] and has no burst in progress ends the
    tick where it started it. *)
Lemma idle_tick_A N st :
  program (stateA st) = idleProgram ->
  boostBurstTicksRemaining (stateA st) = 0%Z ->
  onGrid 4 (robot_x (stateA st)) -> onGrid 4 (robot_y (stateA st)) ->
  0 <= robot_x (stateA st) <= N - 1 -> 0 <= robot_y (stateA st) <= N - 1 ->
  robot_x (endA N st) = robot_x (stateA st)
  /\ robot_y (endA N st) = robot_y (stateA st).
Proof.
  intros P B GX GY HX HY.
  destruct (tick_position N st) as ((_ & _ & X1 & Y1 & X2 & Y2) & _).
  destruct (idle_controls N st) as [C _]. specialize (C P).
  destruct (rotated_burst N st) as [RB _].
  pose proof (tickLocals_movement N st) as M. cbv zeta in *.
  set (L := tickLocals N st) in *.
  destruct (applyMovement_idle_A (rotatedA L) (rotatedB L) (controlA L) (controlB L) N)
    as [MX MY]; rewrite ?C, ?RB, ?X1, ?Y1; try assumption; try reflexivity.
  rewrite M in MX, MY. cbn [fst snd] in MX, MY.
  rewrite X2, Y2, MX, MY, X1, Y1. split; reflexivity.
Qed.

Lemma idle_tick_B N st :
  program (stateB st) = idleProgram ->
  boostBurstTicksRemaining (stateB st) = 0%Z ->
  onGrid 4 (robot_x (stateB st)) -> onGrid 4 (robot_y (stateB st)) ->
  0 <= robot_x (stateB st) <= N - 1 -> 0 <= robot_y (stateB st) <= N - 1 ->
  robot_x (endB N st) = robot_x (stateB st)
  /\ robot_y (endB N st) = robot_y (stateB st).
Proof.
  intros P B GX GY HX HY.
  destruct (tick_position N st) as (_ & (_ & _ & X1 & Y1 & X2 & Y2)).
  destruct (idle_controls N st) as [_ C]. specialize (C P).
  destruct (rotated_burst N st) as [_ RB].
  pose proof (tickLocals_movement N st) as M. cbv zeta in *.
  set (L := tickLocals N st) in *.
  destruct (applyMovement_idle_B (rotatedA L) (rotatedB L) (controlA L) (controlB L) N)
    as [MX MY]; rewrite ?C, ?RB, ?X1, ?Y1; try assumption; try reflexivity.
  rewrite M in MX, MY. cbn [fst snd] in MX, MY.
  rewrite X2, Y2, MX, MY, X1, Y1. split; reflexivity.
Qed.

Lemma idleBattle_start :
  let st := initialBattleState idleBattle in
  (robot_x (stateA st) = 0 /\ robot_y (stateA st) = 0
   /\ robot_x (stateB st) = 9 /\ robot_y (stateB st) = 9)
  /\ (program (stateA st) = idleProgram /\ program (stateB st) = idleProgram)
  /\ (boostBurstTicksRemaining (stateA st) = 0%Z
      /\ boostBurstTicksRemaining (stateB st) = 0%Z)
  /\ ticksSinceEnemySeen (enemyMemory (stateA st)) = 9999%Z
  /\ id (stateA st) = "A"%string /\ id (stateB st) = "B"%string.
Proof.
  cbv zeta. unfold initialBattleState. cbn [stateA stateB].
  rewrite !rememberEnemy_id.
  set (a := buildRobotState (input_robotA idleBattle) 0 0 DirE).
  set (b := buildRobotState (input_robotB idleBattle) _ _ DirW).
  set (P := perceptionPair a b (input_arenaSize idleBattle)).
  destruct (rememberEnemy_fields a b P) as (XA & YA & _ & _ & _ & _ & BA & _ & PA).
  destruct (rememberEnemy_fields b (rememberEnemy a b P) P)
    as (XB & YB & _ & _ & _ & _ & BB & _ & PB).
  cbv zeta in *. rewrite XA, YA, XB, YB, BA, BB, PA, PB.
  split; [|split; [|split; [|split; [|split; reflexivity]]]].
  - cbn. repeat split; lra.
  - split; reflexivity.
  - split; reflexivity.
  - assert (V : enemyVisible (buildPerception a b 10) = false).
    { apply buildPerception_far. cbn. unfold VISION_RADIUS. lra. }
    unfold rememberEnemy.
    replace (P (id a)) with (Some (buildPerception a b 10)) by reflexivity.
    rewrite updateEnemyMemory_counter.
    apply buildPerception_enemy in V. rewrite V. reflexivity.
Qed.

(** At tick 1 of the idle battle robot A does not see robot B, and its
    counter, 9999 before the tick, is 9999 after it: not 9999 + 1. *)
Lemma C1_plus_one_fails :
  ~ counterPlusOne
      (stateA (initialBattleState idleBattle))
      (stateA (fst (simulateTick 10 1 (initialBattleState idleBattle))))
      (snd (simulateTick 10 1 (initialBattleState idleBattle))).
Proof.
  set (st := initialBattleState idleBattle).
  destruct idleBattle_start
    as ((XA & YA & XB & YB) & (PA & PB) & (BA & BB) & C & IdA & IdB).
  fold st in XA, YA, XB, YB, PA, PB, BA, BB, C, IdA, IdB.
  destruct (idle_tick_A 10 st) as [EXA EYA]; rewrite ?XA, ?YA; try assumption;
    try (apply (onGrid4_const 0)); try lra.
  destruct (idle_tick_B 10 st) as [EXB EYB]; rewrite ?XB, ?YB; try assumption;
    try (apply (onGrid4_const 9)); try lra.
  assert (V : enemyVisible (buildPerception (endA 10 st) (endB 10 st) 10) = false).
  { apply buildPerception_far. rewrite EXA, EYA, EXB, EYB, XA, YA, XB, YB.
    unfold VISION_RADIUS. lra. }
  destruct (tick_counter 10 1 st) as [(p & Hp & _ & Hc) _]; rewrite ?C; try lia.
  { destruct (TickStart_invariant idleBattle 1 st (start_first idleBattle))
      as (_ & [_ _ _ U _ _] & _). lia. }
  intros (q & Hq & _ & Hplus).
  rewrite Hp in Hq. injection Hq as <-.
  assert (Vp : enemyVisible p = false).
  { destruct (simulateTick_log 10 1 st) as (_ & _ & _ & _ & LP). cbv zeta in LP.
    destruct (simulateTick_state 10 1 st) as (SA & _). cbv zeta in SA.
    rewrite LP, SA, rememberEnemy_id in Hp.
    assert (IA : id (endA 10 st) = "A"%string).
    { destruct (tickLocals_same 10 st) as (_ & _ & (I & _) & _).
      unfold endA, refreshDirection, applyPendingKill. cbv zeta.
      destruct (setHas _ _); cbn [id setDirection setAlive]; rewrite I; exact IdA. }
    assert (IB : id (endB 10 st) = "B"%string).
    { destruct (tickLocals_same 10 st) as (_ & _ & _ & (I & _)).
      unfold endB, refreshDirection, applyPendingKill. cbv zeta.
      destruct (setHas _ _); cbn [id setDirection setAlive]; rewrite I; exact IdB. }
    rewrite perceptionPair_lookup, IA, IB in Hp. cbn in Hp.
    injection Hp as <-. exact V. }
  specialize (Hc Vp). specialize (Hplus Vp).
  rewrite C in Hc, Hplus. rewrite Hplus in Hc.
  unfold MEMORY_UNSEEN_TICKS_INITIAL in Hc. lia.
Qed.

(** ** The vision cone *)

Lemma atan_nonneg v : 0 <= v -> 0 <= atan v.
Proof.
  intros [H | <-]; [|rewrite atan_0; lra].
  left. rewrite <- atan_0. apply atan_increasing. exact H.
Qed.

Lemma atan2_front y0 x0 : 0 <= y0 -> 0 < x0 -> atan2 y0 x0 = atan (y0 / x0) /\ 0 <= atan2 y0 x0.
Proof.
  intros Hy Hx. unfold atan2.
  assert (E : Rltb 0 x0 = true) by (apply Rltb_true; exact Hx).
  rewrite E. split; [reflexivity|].
  apply atan_nonneg. unfold Rdiv.
  assert (0 < / x0) by (apply Rinv_0_lt_compat; exact Hx). nra.
Qed.

Lemma viewAngle_nonneg lat fwd :
  0 <= atan2 (Rabs lat) (Rmax (/ 10000) fwd).
Proof.
  apply atan2_front; [apply Rabs_pos|].
  pose proof (Rmax_l (/ 10000) fwd). lra.
Qed.

Lemma perception_visible actor opponent N :
  let p := buildPerception actor opponent N in
  (enemyVisible p = true <-> alive actor = true /\ inVisionCone actor opponent)
  /\ (enemyVisible p = false -> enemy p = None)
  /\ (enemyVisible p = true -> enemy p <> None).
Proof.
  cbv zeta. unfold buildPerception, inVisionCone. cbv zeta.
  set (dx0 := robot_x opponent - robot_x actor).
  set (dy0 := robot_y opponent - robot_y actor).
  set (loc := toLocalCoordinates (headingRad actor) dx0 dy0).
  destruct (alive actor); cbn [negb];
    [|cbn [enemyVisible enemy]; repeat split; try discriminate; intros [? _]; discriminate].
  destruct (alive opponent); cbn [negb];
    [|cbn [enemyVisible enemy]; repeat split; try discriminate; intros (_ & ? & _); discriminate].
  destruct (Rltb VISION_RADIUS (sqrt (dx0 * dx0 + dy0 * dy0))) eqn:D.
  { apply Rltb_true in D. cbn [enemyVisible enemy]. repeat split; try discriminate.
    intros (_ & _ & ? & _). lra. }
  apply Rltb_false in D.
  destruct (Rleb (forward loc) 0) eqn:F.
  { apply Rleb_true in F. cbn [enemyVisible enemy]. repeat split; try discriminate.
    intros (_ & _ & _ & ? & _). lra. }
  apply Rleb_false in F.
  pose proof (viewAngle_nonneg (lateral loc) (forward loc)) as A.
  destruct (Rltb VISION_HALF_ANGLE_RAD
              (atan2 (Rabs (lateral loc)) (Rmax (/ 10000) (forward loc)))) eqn:V.
  { apply Rltb_true in V. unfold VISION_HALF_ANGLE_RAD in V. cbn [enemyVisible enemy].
    repeat split; try discriminate.
    intros (_ & _ & _ & _ & H). rewrite Rabs_right in H by lra. lra. }
  apply Rltb_false in V. unfold VISION_HALF_ANGLE_RAD in V. cbn [enemyVisible enemy].
  repeat split; try discriminate; try assumption.
  rewrite Rabs_right by lra. exact V.
Qed.

(** C2 (amended).  For every pair of robot states and arena size,
    [buildPerception] reports [enemyVisible = true] whenever the actor
    itself is alive and the four conditions hold clear of their thresholds
    by the margin EPSILON = 0.000001: (a) the opponent is alive, (b) the
    euclidean distance is at most 8 - EPSILON, (c) the forward component is
    greater than EPSILON and (d) |atan2(|lateral|, max(0.0001, forward))| is
    at most pi / 3 - EPSILON.  It reports [enemyVisible = true] only if the
    actor is alive and the four conditions hold up to that margin: the
    opponent is alive, the distance is at most 8 + EPSILON, the forward
    component is greater than - EPSILON and the angle is at most
    pi / 3 + EPSILON.  (The tests are made on the computed distance, forward
    component and angle; closer than the margin to a threshold the rounding
    of these values decides.)  [enemyVisible] is false exactly when the
    enemy record is null. *)
Theorem C2_vision_cone actor opponent N :
  let p := buildPerception actor opponent N in
  (alive actor = true -> inVisionConeWithin (- EPSILON) actor opponent ->
   enemyVisible p = true)
  /\ (enemyVisible p = true ->
      alive actor = true /\ inVisionConeWithin EPSILON actor opponent)
  /\ (enemyVisible p = false <-> enemy p = None).
Proof.
  destruct (perception_visible actor opponent N) as (Visible & Hidden & Seen).
  cbv zeta in *.
  assert (Eps : 0 < EPSILON) by (unfold EPSILON; lra).
  split; [|split].
  - intros Alive (Opp & Dist & Fwd & Angle). apply Visible.
    split; [exact Alive|]. unfold inVisionCone. cbv zeta.
    split; [exact Opp|]. split; [lra|]. split; lra.
  - intros V. apply Visible in V as [Alive (Opp & Dist & Fwd & Angle)].
    split; [exact Alive|]. unfold inVisionConeWithin. cbv zeta.
    split; [exact Opp|]. split; [lra|]. split; lra.
  - split; [exact Hidden|].
    destruct (enemyVisible (buildPerception actor opponent N)) eqn:V;
      [|reflexivity].
    intros None. now destruct (Seen eq_refl).
Qed.

(** A robot at the origin heading East sees a live robot one tile ahead. *)
Lemma C2_vision_cone_witness :
  let watcher := setAlive true deadWatcher in
  alive watcher = true
  /\ inVisionConeWithin (- EPSILON) watcher liveTarget
  /\ enemyVisible (buildPerception watcher liveTarget 10) = true.
Proof.
  cbv zeta.
  assert (Alive : alive (setAlive true deadWatcher) = true) by reflexivity.
  assert (Cone : inVisionConeWithin (- EPSILON) (setAlive true deadWatcher) liveTarget).
  { unfold inVisionConeWithin. cbn.
    unfold headingByDirection, DIRECTION_ANGLE_DEG.
    replace (0 * PI / 180) with 0 by (unfold Rdiv; ring).
    rewrite cos_0, sin_0.
    replace ((1 - 0) * (1 - 0) + (0 - 0) * (0 - 0)) with 1 by ring.
    replace ((1 - 0) * 1 + (0 - 0) * 0) with 1 by ring.
    replace ((1 - 0) * - 0 + (0 - 0) * 1) with 0 by ring.
    rewrite sqrt_1, Rabs_R0.
    rewrite (Rmax_right (/ 10000) 1) by lra.
    destruct (atan2_front 0 1) as [E _]; try lra.
    rewrite E. replace (0 / 1) with 0 by field. rewrite atan_0, Rabs_R0.
    unfold VISION_RADIUS, EPSILON. pose proof PI_RGT_0 as P.
    pose proof PI2_3_2 as Three.
    repeat split; lra. }
  split; [exact Alive|]. split; [exact Cone|].
  exact (proj1 (C2_vision_cone (setAlive true deadWatcher) liveTarget 10) Alive Cone).
Defined.

Lemma liveTarget_inVisionCone : inVisionCone deadWatcher liveTarget.
Proof.
  unfold inVisionCone. cbn.
  unfold headingByDirection, DIRECTION_ANGLE_DEG.
  replace (0 * PI / 180) with 0 by (unfold Rdiv; ring).
  rewrite cos_0, sin_0.
  replace ((1 - 0) * (1 - 0) + (0 - 0) * (0 - 0)) with 1 by ring.
  replace ((1 - 0) * 1 + (0 - 0) * 0) with 1 by ring.
  replace ((1 - 0) * - 0 + (0 - 0) * 1) with 0 by ring.
  rewrite sqrt_1, Rabs_R0.
  rewrite (Rmax_right (/ 10000) 1) by lra.
  destruct (atan2_front 0 1) as [E _]; try lra.
  rewrite E. replace (0 / 1) with 0 by field. rewrite atan_0, Rabs_R0.
  unfold VISION_RADIUS. pose proof PI_RGT_0.
  repeat split; lra.
Qed.

(** The opponent of a dead actor can satisfy (a)-(d) and still not be seen:
    the equivalence without the actor's own [alive] fails. *)
Lemma C2_dead_actor_sees_nothing :
  ~ (enemyVisible (buildPerception deadWatcher liveTarget 10) = true
     <-> inVisionCone deadWatcher liveTarget).
Proof.
  intros [_ H]. specialize (H liveTarget_inVisionCone).
  unfold buildPerception in H. cbn in H. discriminate.
Qed.

(** ** Rule evaluation: the last match wins, field by field *)

Section LastMatch.
Context {T : Type}.
Variable setBy : RuleCommand -> option T.
Variable get : ControlState -> T.
Hypothesis get_apply :
  forall c cmd, get (applyRuleCommand c cmd) = orNeutral (setBy cmd) (get c).
Variable sensors : SensorContext.

Let step (acc : ControlState * list nat) (rule : ScriptAction) :=
  if conditionMatched (condition rule) sensors
  then (applyRuleCommand (fst acc) (command rule), snd acc ++ [line rule])
  else acc.

Lemma fold_lastSetting prog : forall acc,
  get (fst (fold_left step prog acc)) =
    orNeutral (lastSetting setBy sensors prog) (get (fst acc)).
Proof.
  induction prog as [|rule rest IH]; intros acc; [reflexivity|].
  cbn [fold_left lastSetting]. rewrite IH.
  destruct (lastSetting setBy sensors rest) as [v|]; [reflexivity|].
  unfold step. destruct (conditionMatched (condition rule) sensors); cbn [fst orNeutral].
  - apply get_apply.
  - reflexivity.
Qed.

Lemma resolveControls_field prog :
  get (controls (resolveControls prog sensors)) =
    orNeutral (lastSetting setBy sensors prog) (get neutralControls).
Proof. unfold resolveControls. cbn [controls]. apply fold_lastSetting. Qed.
End LastMatch.

Lemma fold_matchedLines sensors prog : forall acc,
  snd (fold_left
         (fun (acc : ControlState * list nat) (rule : ScriptAction) =>
            if conditionMatched (condition rule) sensors
            then (applyRuleCommand (fst acc) (command rule), snd acc ++ [line rule])
            else acc) prog acc)
  = snd acc ++ map line (filter (fun rule => conditionMatched (condition rule) sensors) prog).
Proof.
  induction prog as [|rule rest IH]; intros acc; cbn [fold_left filter map].
  - rewrite app_nil_r. reflexivity.
  - rewrite IH. destruct (conditionMatched (condition rule) sensors); cbn [snd map].
    + rewrite <- app_assoc. reflexivity.
    + reflexivity.
Qed.

(** C7.  Rule evaluation starts from the neutral controls and walks the
    rules in source order (a rule without condition always matches); each
    field of the result is the value set by the last matched rule that
    targets that field, or the neutral value if no matched rule targets it;
    the matched lines are recorded in source order. *)
Theorem C7_last_match_wins prog sensors :
  let c := controls (resolveControls prog sensors) in
  throttle c = orNeutral (lastSetting throttleSetBy sensors prog) 0
  /\ strafe c = orNeutral (lastSetting strafeSetBy sensors prog) 0
  /\ turn c = orNeutral (lastSetting turnSetBy sensors prog) 0
  /\ fire c = orNeutral (lastSetting fireSetBy sensors prog) false
  /\ boost c = orNeutral (lastSetting boostSetBy sensors prog) None
  /\ matchedRuleLines (resolveControls prog sensors)
     = map line (filter (fun rule => conditionMatched (condition rule) sensors) prog)
  /\ conditionMatched None sensors = true
  /\ controls (resolveControls [] sensors) = neutralControls.
Proof.
  cbv zeta. repeat split.
  - apply (resolveControls_field throttleSetBy throttle).
    intros c [[| |] v|e|d]; reflexivity.
  - apply (resolveControls_field strafeSetBy strafe).
    intros c [[| |] v|e|d]; reflexivity.
  - apply (resolveControls_field turnSetBy turn).
    intros c [[| |] v|e|d]; reflexivity.
  - apply (resolveControls_field fireSetBy fire).
    intros c [[| |] v|e|d]; reflexivity.
  - apply (resolveControls_field boostSetBy boost).
    intros c [[| |] v|e|d]; reflexivity.
  - unfold resolveControls. cbn [matchedRuleLines]. apply fold_matchedLines.
Qed.

(** ** Expressions: unavailable operands and numeric hazards *)

Lemma evaluate_function name args sensors :
  evaluateNumericExpression (FUNCTION name args) sensors =
    match resolveArgs sensors args with
    | None => JNull
    | Some resolved =>
        match applyFunction name resolved with
        | Some v => finiteOrNull v
        | None => JNull
        end
    end.
Proof.
  cbn [evaluateNumericExpression].
  match goal with |- match ?f args with _ => _ end = _ =>
    assert (E : forall l, f l = resolveArgs sensors l) end.
  { induction l as [|a rest IH]; [reflexivity|].
    cbn [resolveArgs]. rewrite <- IH. reflexivity. }
  rewrite E. reflexivity.
Qed.

Lemma resolveArgs_values sensors args : forall resolved,
  resolveArgs sensors args = Some resolved ->
  resolved = map (fun a => evaluateNumericExpression a sensors) args.
Proof.
  induction args as [|a rest IH]; intros resolved H; cbn [resolveArgs] in H.
  - injection H as <-. reflexivity.
  - destruct (evaluateNumericExpression a sensors) eqn:Ea; try discriminate;
      destruct (resolveArgs sensors rest) as [vs|]; try discriminate;
      injection H as <-; cbn [map]; rewrite Ea, (IH vs eq_refl); reflexivity.
Qed.

Lemma resolveArgs_null sensors args a :
  In a args -> evaluateNumericExpression a sensors = JNull ->
  resolveArgs sensors args = None.
Proof.
  induction args as [|b rest IH]; intros Hin Ha; [contradiction|].
  cbn [resolveArgs]. destruct Hin as [-> | Hin].
  - rewrite Ha. reflexivity.
  - rewrite (IH Hin Ha). destruct (evaluateNumericExpression b sensors); reflexivity.
Qed.

(** A call applied to an [undefined] argument among those it reads (all of
    them, when the arity is respected) yields NaN. *)
Lemma applyFunction_undefined name resolved i :
  (i < EXPRESSION_FUNCTIONS name)%nat ->
  nth i resolved JUndefined = JUndefined ->
  applyFunction name resolved = None.
Proof.
  intros Hi Hu. unfold applyFunction, argNumber.
  destruct name; cbn [EXPRESSION_FUNCTIONS] in Hi;
    destruct i as [|[|[|i]]]; try lia; rewrite Hu; cbn [lift1 lift2];
    repeat match goal with
    | |- context [match nth ?k resolved JUndefined with _ => _ end] =>
        destruct (nth k resolved JUndefined)
    end; reflexivity.
Qed.

Lemma arityRespected_call name args :
  arityRespected (FUNCTION name args) = true ->
  List.length args = EXPRESSION_FUNCTIONS name
  /\ forall a, In a args -> arityRespected a = true.
Proof.
  cbn [arityRespected]. rewrite andb_true_iff, Nat.eqb_eq. intros [L A].
  split; [exact L|]. clear L.
  induction args as [|b rest IH]; intros a Hin; [contradiction|].
  apply andb_true_iff in A. destruct A as [Ab Ar].
  destruct Hin as [<- | Hin]; [exact Ab | apply IH; assumption].
Qed.

Lemma hazard_null e sensors :
  numericHazard e sensors -> evaluateNumericExpression e sensors = JNull.
Proof.
  destruct e as [v|v|operator operand|operator l r|name args]; cbn [numericHazard].
  - contradiction.
  - contradiction.
  - intros (v & E & F). cbn [evaluateNumericExpression]. rewrite E.
    unfold finiteOrNull. rewrite F. reflexivity.
  - intros (a & b & El & Er & H). cbn [evaluateNumericExpression]. rewrite El, Er.
    unfold finiteOrNull.
    destruct operator; try (rewrite H; reflexivity).
    destruct (Rleb (Rabs b) EPSILON) eqn:G; [reflexivity|].
    apply Rleb_false in G. destruct H as [H | H]; [lra | rewrite H; reflexivity].
  - intros (resolved & Er & H). rewrite evaluate_function, Er.
    destruct (applyFunction name resolved); [|reflexivity].
    unfold finiteOrNull. rewrite H. reflexivity.
Qed.

Lemma unavailable_propagates sensors sub e :
  subexpression sub e -> arityRespected e = true ->
  unavailable (evaluateNumericExpression sub sensors) ->
  unavailable (evaluateNumericExpression e sensors).
Proof.
  induction 1 as [|operator operand _ IH|operator l r _ IH|operator l r _ IH
                  |name args a Hin _ IH]; intros WF U.
  - exact U.
  - cbn [arityRespected] in WF. specialize (IH WF U).
    left. cbn [evaluateNumericExpression]. destruct IH as [-> | ->]; reflexivity.
  - cbn [arityRespected] in WF. apply andb_true_iff in WF. destruct WF as [WL WR].
    specialize (IH WL U).
    left. cbn [evaluateNumericExpression]. destruct IH as [-> | ->]; [reflexivity|].
    destruct (evaluateNumericExpression r sensors); reflexivity.
  - cbn [arityRespected] in WF. apply andb_true_iff in WF. destruct WF as [WL WR].
    specialize (IH WR U).
    left. cbn [evaluateNumericExpression].
    destruct IH as [-> | ->];
      destruct (evaluateNumericExpression l sensors); reflexivity.
  - destruct (arityRespected_call name args WF) as [Len All].
    specialize (IH (All a Hin) U).
    left. rewrite evaluate_function.
    destruct IH as [Hn | Hu].
    + rewrite (resolveArgs_null sensors args a Hin Hn). reflexivity.
    + destruct (resolveArgs sensors args) as [resolved|] eqn:Er; [|reflexivity].
      apply resolveArgs_values in Er.
      destruct (In_nth args a (NUMBER_LITERAL 0) Hin) as (i & Hi & Hnth).
      rewrite (applyFunction_undefined name resolved i); [reflexivity | lia |].
      rewrite Er.
      rewrite (nth_indep _ JUndefined
                 (evaluateNumericExpression (NUMBER_LITERAL 0) sensors))
        by (rewrite length_map; exact Hi).
      rewrite (map_nth (fun a => evaluateNumericExpression a sensors)).
      rewrite Hnth. exact Hu.
Qed.

Lemma compare_unavailable l operator r sensors :
  unavailable (evaluateNumericExpression l sensors)
  \/ unavailable (evaluateNumericExpression r sensors) ->
  matchCondition (COMPARE l operator r) sensors = false.
Proof.
  cbn [matchCondition].
  intros [[H | H] | [H | H]]; rewrite H;
    try reflexivity;
    destruct (evaluateNumericExpression l sensors);
    try reflexivity;
    destruct (evaluateNumericExpression r sensors); reflexivity.
Qed.

(** C8.  If an expression (with the arities that the parser checks) has a
    subexpression that evaluates to an unavailable value, in particular a
    sensor whose value is unavailable, or whose operator divides by a
    divisor within [EPSILON] of zero or yields a result that is not finite,
    then the whole expression evaluates to unavailable; and a Compare
    condition with a side that evaluates to unavailable is false.
    Evaluation is a total function: no case raises an error. *)
Theorem C8_unavailable_is_quietly_false e sub l operator r sensors :
  (arityRespected e = true -> subexpression sub e ->
   unavailable (evaluateNumericExpression sub sensors) \/ numericHazard sub sensors ->
   unavailable (evaluateNumericExpression e sensors))
  /\ (unavailable (evaluateNumericExpression l sensors)
      \/ unavailable (evaluateNumericExpression r sensors) ->
      matchCondition (COMPARE l operator r) sensors = false).
Proof.
  split.
  - intros WF S [U | H].
    + exact (unavailable_propagates sensors sub e S WF U).
    + apply (unavailable_propagates sensors sub e S WF).
      left. apply hazard_null. exact H.
  - apply compare_unavailable.
Qed.

Lemma C8_unavailable_is_quietly_false_witness :
  unavailable
    (evaluateNumericExpression
       (BINARY BinAdd (NUMBER_LITERAL 1)
          (BINARY BinDiv (SENSOR ARENA_SIZE) (NUMBER_LITERAL 0))) blindSensors)
  /\ matchCondition
       (COMPARE (SENSOR ENEMY_X) OpGt (NUMBER_LITERAL 0)) blindSensors = false.
Proof.
  destruct (C8_unavailable_is_quietly_false
              (BINARY BinAdd (NUMBER_LITERAL 1)
                 (BINARY BinDiv (SENSOR ARENA_SIZE) (NUMBER_LITERAL 0)))
              (BINARY BinDiv (SENSOR ARENA_SIZE) (NUMBER_LITERAL 0))
              (SENSOR ENEMY_X) OpGt (NUMBER_LITERAL 0) blindSensors) as [H1 H2].
  split.
  - apply H1.
    + reflexivity.
    + apply sub_right, sub_self.
    + right. exists 10, 0. repeat split. left.
      rewrite Rabs_R0. unfold EPSILON. lra.
  - apply H2. left. left. reflexivity.
Defined.

(** ** Energy through a tick *)

Lemma energy_account_robot before regen rotated moved fired final c start N tid acc :
  robotInvariant before -> alive before = true ->
  regen = tickSideBoostState before ->
  (energy rotated = energy regen /\ alive rotated = alive regen) ->
  (energy moved = energy (fst (resolveSideBoost rotated c start N))
   /\ alive moved = alive rotated) ->
  fired = fst (fireAttempt (atSpawnCheck moved) tid c acc) ->
  energy final = energy fired ->
  energyAccount before regen rotated moved fired final c.
Proof.
  intros [Er Eg _ _ _ _] A -> [ER AR] [EM AM] -> EF.
  pose proof (tickSideBoostState_energy before Eg) as E0. rewrite A in E0.
  destruct (energy_step_range _ Er Eg) as [R0 G0]. rewrite <- E0 in R0, G0.
  destruct (tickSideBoostState_same before) as (_ & A0 & _).
  set (regen := tickSideBoostState before) in *.
  assert (Arot : alive rotated = true) by congruence.
  (* movement *)
  destruct (resolveSideBoost_fields rotated c start N) as (E1 & _). cbv zeta in E1.
  rewrite Arot in E1. rewrite <- EM in E1.
  destruct (igniteSideBoost_fields rotated c) as (I & _). cbv zeta in I.
  assert (M : energy moved =
              (if alive rotated && boostIgnites rotated c
               then energy rotated - 35 else energy rotated)
              /\ 0 <= energy moved <= 100 /\ onGrid 4 (energy moved)).
  { rewrite Arot. cbn [andb]. destruct (boostIgnites rotated c) eqn:Ig.
    - destruct I as (IE & _). apply boostIgnites_true in Ig.
      destruct Ig as (_ & _ & _ & Hen).
      rewrite ER in Hen, IE. rewrite (ignite_energy_exact _ G0 Hen) in IE.
      unfold SIDE_BOOST_ENERGY_COST in Hen.
      rewrite E1, IE, ER. repeat split; try lra.
      apply onGrid_minus; [exact G0 | apply (onGrid4_const 35)].
    - rewrite I in E1. rewrite E1, ER. repeat split; try lra. exact G0. }
  destruct M as (M1 & M2 & M3).
  (* firing *)
  assert (ES : energy (atSpawnCheck moved) = energy moved).
  { unfold atSpawnCheck. destruct (alive moved); reflexivity. }
  destruct (fireAttempt_fields (atSpawnCheck moved) tid c acc) as (F & _).
  cbv zeta in F.
  assert (Fi : energy (fst (fireAttempt (atSpawnCheck moved) tid c acc)) =
               (if shotAllowed (atSpawnCheck moved) c
                then energy moved - 6 else energy moved)
               /\ 0 <= energy (fst (fireAttempt (atSpawnCheck moved) tid c acc)) <= 100).
  { destruct (shotAllowed (atSpawnCheck moved) c) eqn:Sh.
    - destruct F as (FE & _). apply shotAllowed_true in Sh.
      destruct Sh as (_ & _ & _ & Hen). rewrite ES in Hen, FE.
      rewrite (fire_energy_exact _ M3 Hen) in FE. unfold FIRE_ENERGY_COST in Hen.
      rewrite FE. split; [reflexivity | lra].
    - destruct F as (-> & _). rewrite ES. split; [reflexivity | lra]. }
  destruct Fi as (F1 & F2).
  unfold energyAccount. cbv zeta.
  assert (Up : energy before <= energy regen).
  { rewrite E0. unfold Rmin. destruct (Rle_dec 100 (energy before + / 4)); lra. }
  assert (Cap : energy regen <= energy before + / 4).
  { rewrite E0. apply Rmin_r. }
  repeat split; try assumption; try lra.
  - rewrite EF, F1, M1, ER. intros Lt.
    destruct (alive rotated && boostIgnites rotated c); [left; reflexivity|].
    destruct (shotAllowed (atSpawnCheck moved) c); [right; reflexivity|]. lra.
  - rewrite EF, F1, M1, ER. intros [-> | ->].
    + destruct (shotAllowed (atSpawnCheck moved) c); lra.
    + destruct (alive rotated && boostIgnites rotated c); lra.
Qed.

Lemma endOfTick_fields adv r :
  let r' := refreshDirection (applyPendingKill adv r) in
  energy r' = energy r /\ fireCooldownTicks r' = fireCooldownTicks r
  /\ boostCooldownTicks r' = boostCooldownTicks r
  /\ boostBurstTicksRemaining r' = boostBurstTicksRemaining r
  /\ boostDirectionLocked r' = boostDirectionLocked r
  /\ id r' = id r /\ robot_x r' = robot_x r /\ robot_y r' = robot_y r.
Proof.
  unfold refreshDirection, applyPendingKill.
  destruct (setHas _ _); cbn; repeat split.
Qed.

Lemma tick_firing N st :
  let L := tickLocals N st in
  let stepA :=
    fireAttempt (atSpawnCheck (movedA L)) (id (atSpawnCheck (movedB L))) (controlA L)
      (initialFireResolution (atSpawnCheck (movedA L)) (atSpawnCheck (movedB L))
         (controlA L) (controlB L)) in
  let stepB :=
    fireAttempt (atSpawnCheck (movedB L)) (id (fst stepA)) (controlB L) (snd stepA) in
  firedA L = fst stepA /\ firedB L = fst stepB /\ fireResolution L = snd stepB.
Proof.
  intros L. pose proof (tickLocals_firing N st) as F. fold L in F. cbv zeta in F.
  rewrite resolveFiring_eq in F. cbv zeta in F.
  injection F as FA FB FR. cbv zeta. unfold atSpawnCheck.
  repeat split; symmetry; assumption.
Qed.

Lemma tick_energy_account N t st :
  battleInvariant st ->
  let L := tickLocals N st in
  let st' := fst (simulateTick N t st) in
  energyAccount (stateA st) (regenA L) (rotatedA L) (movedA L) (firedA L) (stateA st')
    (controlA L)
  /\ energyAccount (stateB st) (regenB L) (rotatedB L) (movedB L) (firedB L) (stateB st')
       (controlB L).
Proof.
  intros (IA & IB & AA & AB) L st'.
  destruct (tickLocals_regen N st) as [RA RB].
  destruct (tickLocals_rotation N st) as [TA TB].
  pose proof (tickLocals_movement N st) as M.
  destruct (tick_firing N st) as (FA & FB & _).
  destruct (simulateTick_state N t st) as (SA & SB & _).
  fold L in RA, RB, TA, TB, M, FA, FB.
  cbv zeta in M, FA, FB, SA, SB. fold st' in SA, SB.
  destruct (applyMovement_fields (rotatedA L) (rotatedB L) (controlA L) (controlB L) N)
    as ((EA & _) & (EB & _)).
  destruct (applyMovement_same (rotatedA L) (rotatedB L) (controlA L) (controlB L) N)
    as ((_ & LA & _) & (_ & LB & _)).
  cbv zeta in EA, EB. rewrite M in EA, EB, LA, LB. cbn [fst snd] in EA, EB, LA, LB.
  split.
  - eapply energy_account_robot; try eassumption.
    + rewrite TA. destruct (wasAlive (aliveAtStart L) (regenA L)); split; reflexivity.
    + split; [exact EA | exact LA].
    + rewrite SA.
      destruct (rememberEnemy_fields (endA N st) (endB N st)
                  (perceptionPair (endA N st) (endB N st) N)) as (_ & _ & _ & E & _).
      cbv zeta in E. rewrite E. unfold endA. apply endOfTick_fields.
  - eapply energy_account_robot; try eassumption.
    + rewrite TB. destruct (wasAlive (aliveAtStart L) (regenB L)); split; reflexivity.
    + split; [exact EB | exact LB].
    + rewrite SB.
      destruct (rememberEnemy_fields (endB N st) (stateA st')
                  (perceptionPair (endA N st) (endB N st) N)) as (_ & _ & _ & E & _).
      cbv zeta in E. rewrite E. unfold endB. apply endOfTick_fields.
Qed.

(** C3.  For every tick of a battle and each robot: the energy stays
    within [0, 100] after every phase of the tick; the regeneration never
    lowers it, the rotation leaves it as it is, the side boost lowers it by
    exactly 35 when it ignites and leaves it otherwise (a request that is
    ignored costs nothing), the firing phase lowers it by exactly 6 when a
    shot is spawned and leaves it otherwise (a blocked shot costs nothing),
    the rest of the tick leaves it; over the whole tick the energy is
    strictly lower at the end than at the start exactly when the robot
    ignited a side boost or fired. *)
Theorem C3_energy_account input t st :
  TickStart input t st ->
  let L := tickLocals (input_arenaSize input) st in
  let st' := fst (simulateTick (input_arenaSize input) t st) in
  energyAccount (stateA st) (regenA L) (rotatedA L) (movedA L) (firedA L) (stateA st')
    (controlA L)
  /\ energyAccount (stateB st) (regenB L) (rotatedB L) (movedB L) (firedB L) (stateB st')
       (controlB L).
Proof.
  intros H. apply tick_energy_account. exact (TickStart_invariant input t st H).
Qed.

Lemma C3_energy_account_witness :
  TickStart idleBattle 1 (initialBattleState idleBattle)
  /\ let st := initialBattleState idleBattle in
     let L := tickLocals 10 st in
     energyAccount (stateA st) (regenA L) (rotatedA L) (movedA L) (firedA L)
       (stateA (fst (simulateTick 10 1 st))) (controlA L).
Proof.
  split; [apply start_first|].
  apply (C3_energy_account idleBattle 1 _ (start_first idleBattle)).
Defined.

(** ** The firing phase, case by case *)

Lemma setKey_same {T} k (v : T) r : setKey k v r k = Some v.
Proof. unfold setKey. rewrite String.eqb_refl. reflexivity. Qed.

Lemma updateKey_lookup {T} k (f : T -> T) r k' :
  updateKey k f r k' =
    if String.eqb k' k then match r k with Some v => Some (f v) | None => None end
    else r k'.
Proof.
  unfold updateKey. destruct (r k) as [v|] eqn:E.
  - unfold setKey. reflexivity.
  - destruct (String.eqb k' k) eqn:K; [|reflexivity].
    apply String.eqb_eq in K. subst k'. exact E.
Qed.

Lemma fireAttempt_keeps_key shooter tid c acc k :
  (exists o, outcomes acc k = Some o) ->
  exists o, outcomes (snd (fireAttempt shooter tid c acc)) k = Some o.
Proof.
  intros [o Ho]. unfold fireAttempt.
  destruct (negb (alive shooter) || negb (fire c)); [eauto|].
  destruct (0 <? fireCooldownTicks shooter)%Z;
    [|destruct (Rltb (energy shooter) FIRE_ENERGY_COST)];
    cbn [snd outcomes]; rewrite updateKey_lookup;
    (destruct (String.eqb k (id shooter)) eqn:K; [|eauto]);
    apply String.eqb_eq in K; subst k; rewrite Ho; eauto.
Qed.

Lemma blockedByEnergy_sticky : stickyFlag blockedByEnergy.
Proof.
  intros shooter tid c acc k (o & Ho & Hf). unfold fireAttempt.
  destruct (negb (alive shooter) || negb (fire c)); [eauto|].
  destruct (0 <? fireCooldownTicks shooter)%Z;
    [|destruct (Rltb (energy shooter) FIRE_ENERGY_COST)];
    cbn [snd outcomes]; rewrite updateKey_lookup;
    (destruct (String.eqb k (id shooter)) eqn:K; [|eauto]);
    apply String.eqb_eq in K; subst k; rewrite Ho; eexists; split;
    try reflexivity; cbn; try assumption; reflexivity.
Qed.

Lemma shotFired_sticky : stickyFlag shotFired.
Proof.
  intros shooter tid c acc k (o & Ho & Hf). unfold fireAttempt.
  destruct (negb (alive shooter) || negb (fire c)); [eauto|].
  destruct (0 <? fireCooldownTicks shooter)%Z;
    [|destruct (Rltb (energy shooter) FIRE_ENERGY_COST)];
    cbn [snd outcomes]; rewrite updateKey_lookup;
    (destruct (String.eqb k (id shooter)) eqn:K; [|eauto]);
    apply String.eqb_eq in K; subst k; rewrite Ho; eexists; split;
    try reflexivity; cbn; try assumption; reflexivity.
Qed.

Lemma fireAttempt_spawned shooter tid c acc :
  spawnedProjectiles (snd (fireAttempt shooter tid c acc)) =
    spawnedProjectiles acc ++ shotsOf shooter tid c.
Proof.
  destruct (fireAttempt_fields shooter tid c acc) as (H & _). cbv zeta in H.
  unfold shotsOf. destruct (shotAllowed shooter c).
  - destruct H as (_ & _ & ->). reflexivity.
  - destruct H as (_ & ->). rewrite app_nil_r. reflexivity.
Qed.

(** One spawn attempt, on a robot whose energy and position have four
    decimals, with its entry present in the outcomes. *)
Lemma fireAttempt_case shooter tid c acc :
  onGrid 4 (energy shooter) ->
  onGrid 4 (robot_x shooter) -> onGrid 4 (robot_y shooter) ->
  (exists o, outcomes acc (id shooter) = Some o) ->
  firingCase shooter (fst (fireAttempt shooter tid c acc)) tid c
    (outcomes (snd (fireAttempt shooter tid c acc))).
Proof.
  intros GE GX GY [o Ho]. unfold firingCase, shotsOf, shotAllowed, fireAttempt.
  destruct (alive shooter); cbn [negb orb andb]; [|split; reflexivity].
  destruct (fire c); cbn [negb orb andb]; [|split; reflexivity].
  destruct (0 <? fireCooldownTicks shooter)%Z; cbn [negb orb andb fst snd];
    [split; reflexivity|].
  destruct (Rltb (energy shooter) FIRE_ENERGY_COST) eqn:En; cbn [negb fst snd outcomes].
  - repeat split. rewrite updateKey_lookup, String.eqb_refl, Ho.
    eexists; split; reflexivity.
  - apply Rltb_false in En.
    cbn [energy setEnergy setFireCooldownTicks fireCooldownTicks].
    rewrite (fire_energy_exact _ GE En).
    repeat split.
    + rewrite updateKey_lookup, String.eqb_refl, Ho. eexists; split; reflexivity.
    + eexists. split; [reflexivity|]. cbn.
      rewrite !toFixed_grid by assumption.
      repeat split.
      pose proof (sin2_cos2 (headingRad shooter)) as SC. unfold Rsqr in SC.
      unfold SHOT_RANGE. lra.
Qed.

Lemma firingCase_later shooter fired tid c outs outs' :
  (forall flag, (flag = blockedByEnergy \/ flag = shotFired) ->
     (exists o, outs (id shooter) = Some o /\ flag o = true) ->
     exists o, outs' (id shooter) = Some o /\ flag o = true) ->
  firingCase shooter fired tid c outs -> firingCase shooter fired tid c outs'.
Proof.
  intros K. unfold firingCase.
  destruct (alive shooter && fire c); [|tauto].
  destruct (0 <? fireCooldownTicks shooter)%Z; [tauto|].
  destruct (Rltb (energy shooter) FIRE_ENERGY_COST).
  - intros (H1 & H2 & H3). repeat split; try assumption.
    apply (K blockedByEnergy); [left; reflexivity | exact H3].
  - intros (H1 & H2 & H3 & H4). repeat split; try assumption.
    apply (K shotFired); [right; reflexivity | exact H3].
Qed.

Lemma atSpawnCheck_fields moved :
  let s := atSpawnCheck moved in
  energy s = energy moved /\ robot_x s = robot_x moved /\ robot_y s = robot_y moved
  /\ id s = id moved /\ alive s = alive moved /\ headingRad s = headingRad moved
  /\ fireCooldownTicks s =
       (if alive moved then Z.max 0 (fireCooldownTicks moved - 1)
        else fireCooldownTicks moved).
Proof. unfold atSpawnCheck. destruct (alive moved) eqn:A; cbn; rewrite ?A; repeat split. Qed.

Lemma tick_firing_cases N st :
  robotInvariant (stateA st) -> robotInvariant (stateB st) ->
  let L := tickLocals N st in
  let sA := atSpawnCheck (movedA L) in
  let sB := atSpawnCheck (movedB L) in
  spawnedProjectiles (fireResolution L) =
    shotsOf sA (id sB) (controlA L) ++ shotsOf sB (id sA) (controlB L)
  /\ firingCase sA (firedA L) (id sB) (controlA L) (outcomes (fireResolution L))
  /\ firingCase sB (firedB L) (id sA) (controlB L) (outcomes (fireResolution L)).
Proof.
  intros IA IB L sA sB.
  destruct (tickLocals_invariant N st IA IB) as (_ & _ & (MA & MB) & _).
  pose proof (tickLocals_movement N st) as M.
  destruct (tick_firing N st) as (FA & FB & FR).
  fold L in MA, MB, M, FA, FB, FR. cbv zeta in M, FA, FB, FR.
  fold sA in FA, FB, FR. fold sB in FA, FB, FR.
  destruct (applyMovement_fields (rotatedA L) (rotatedB L) (controlA L) (controlB L) N)
    as ((_ & _ & _ & _ & _ & _ & GXA & GYA) & (_ & _ & _ & _ & _ & _ & GXB & GYB)).
  cbv zeta in GXA, GYA, GXB, GYB.
  rewrite M in GXA, GYA, GXB, GYB. cbn [fst snd] in GXA, GYA, GXB, GYB.
  destruct (atSpawnCheck_fields (movedA L)) as (EA & XA & YA & _).
  destruct (atSpawnCheck_fields (movedB L)) as (EB & XB & YB & _).
  cbv zeta in EA, XA, YA, EB, XB, YB. fold sA in EA, XA, YA. fold sB in EB, XB, YB.
  destruct MA as [_ GEA _ _ _ _]. destruct MB as [_ GEB _ _ _ _].
  set (init := initialFireResolution sA sB (controlA L) (controlB L)) in *.
  set (stepA := fireAttempt sA (id sB) (controlA L) init) in *.
  assert (IdA : id (fst stepA) = id sA) by apply fireAttempt_same.
  rewrite IdA in FB, FR.
  set (stepB := fireAttempt sB (id sA) (controlB L) (snd stepA)) in *.
  assert (KA : exists o, outcomes init (id sA) = Some o).
  { unfold init, initialFireResolution. cbn [outcomes]. unfold setKey.
    destruct (String.eqb (id sA) (id sB)); [eauto|].
    rewrite String.eqb_refl. eauto. }
  assert (KB : exists o, outcomes init (id sB) = Some o).
  { unfold init, initialFireResolution. cbn [outcomes]. rewrite setKey_same. eauto. }
  assert (CA : firingCase sA (fst stepA) (id sB) (controlA L) (outcomes (snd stepA))).
  { apply fireAttempt_case; rewrite ?EA, ?XA, ?YA; assumption. }
  assert (CB : firingCase sB (fst stepB) (id sA) (controlB L) (outcomes (snd stepB))).
  { apply fireAttempt_case; rewrite ?EB, ?XB, ?YB; try assumption.
    apply fireAttempt_keeps_key. exact KB. }
  rewrite FA, FB, FR. split; [|split].
  - unfold stepB. rewrite fireAttempt_spawned. unfold stepA.
    rewrite fireAttempt_spawned. reflexivity.
  - apply (firingCase_later _ _ _ _ (outcomes (snd stepA))); [|exact CA].
    intros flag [-> | ->] H; unfold stepB.
    + apply blockedByEnergy_sticky. exact H.
    + apply shotFired_sticky. exact H.
  - exact CB.
Qed.

(** C5.  In every tick, for each robot after the saturating decrement of
    its fire cooldown at the start of the firing phase: when it is alive and
    its control has fire = true, a cooldown greater than 0 means no shot;
    otherwise an energy below 6 means no shot, the outcome marked
    blocked-by-energy and the robot (its energy included) unchanged;
    otherwise exactly 6 energy is debited, the cooldown is set to 1 and one
    in-flight projectile is spawned at the shooter's position, with the
    unit vector of its heading as direction and maximal range 5.  A dead
    robot or one with fire = false spawns nothing.  The projectiles spawned
    in the tick are those of robot A followed by those of robot B. *)
Theorem C5_firing_cases input t st :
  TickStart input t st ->
  let L := tickLocals (input_arenaSize input) st in
  let sA := atSpawnCheck (movedA L) in
  let sB := atSpawnCheck (movedB L) in
  (fireCooldownTicks sA = (if alive (movedA L)
                           then Z.max 0 (fireCooldownTicks (movedA L) - 1)
                           else fireCooldownTicks (movedA L))
   /\ fireCooldownTicks sB = (if alive (movedB L)
                              then Z.max 0 (fireCooldownTicks (movedB L) - 1)
                              else fireCooldownTicks (movedB L)))
  /\ spawnedProjectiles (fireResolution L) =
       shotsOf sA (id sB) (controlA L) ++ shotsOf sB (id sA) (controlB L)
  /\ firingCase sA (firedA L) (id sB) (controlA L) (outcomes (fireResolution L))
  /\ firingCase sB (firedB L) (id sA) (controlB L) (outcomes (fireResolution L)).
Proof.
  intros H. apply TickStart_invariant in H. destruct H as (IA & IB & _).
  split.
  - split; apply atSpawnCheck_fields.
  - apply tick_firing_cases; assumption.
Qed.

Lemma C5_firing_cases_witness :
  TickStart idleBattle 1 (initialBattleState idleBattle)
  /\ let L := tickLocals 10 (initialBattleState idleBattle) in
     firingCase (atSpawnCheck (movedA L)) (firedA L) (id (atSpawnCheck (movedB L)))
       (controlA L) (outcomes (fireResolution L)).
Proof.
  split; [apply start_first|].
  apply (C5_firing_cases idleBattle 1 _ (start_first idleBattle)).
Defined.

(** ** The cooldown never blocks a live robot *)

Lemma tick_moved_same N st :
  let L := tickLocals N st in
  sameRobot (stateA st) (movedA L) /\ sameRobot (stateB st) (movedB L).
Proof.
  intros L.
  destruct (tickLocals_same N st) as (SA & SB & _).
  destruct (tickLocals_rotation N st) as [TA TB].
  pose proof (tickLocals_movement N st) as M.
  fold L in SA, SB, TA, TB, M. cbv zeta in M.
  destruct (applyMovement_same (rotatedA L) (rotatedB L) (controlA L) (controlB L) N)
    as [MA MB].
  rewrite M in MA, MB. cbn [fst snd] in MA, MB.
  split.
  - eapply sameRobot_trans; [exact SA|]. eapply sameRobot_trans; [|exact MA].
    rewrite TA. destruct (wasAlive (aliveAtStart L) (regenA L));
      [apply computeRotation_same | apply sameRobot_refl].
  - eapply sameRobot_trans; [exact SB|]. eapply sameRobot_trans; [|exact MB].
    rewrite TB. destruct (wasAlive (aliveAtStart L) (regenB L));
      [apply computeRotation_same | apply sameRobot_refl].
Qed.

Lemma shotAllowed_ready shooter c :
  alive shooter = true -> fireCooldownTicks shooter = 0%Z ->
  fire c = true -> FIRE_ENERGY_COST <= energy shooter ->
  shotAllowed shooter c = true.
Proof. intros A C F E. apply shotAllowed_true. repeat split; try assumption. lia. Qed.

Lemma firingCase_ready shooter fired tid c res :
  (0 <= fireCooldownTicks shooter <= 0)%Z ->
  firingCase shooter fired tid c (outcomes res) ->
  incl (shotsOf shooter tid c) (spawnedProjectiles res) ->
  alwaysReady shooter fired tid c res.
Proof.
  intros C H Pushed A. split; [lia|]. intros F E.
  assert (S : shotAllowed shooter c = true) by (apply shotAllowed_ready; auto; lia).
  unfold firingCase in H. rewrite A, F in H. cbn [andb] in H.
  assert (Z0 : (0 <? fireCooldownTicks shooter)%Z = false) by (apply Z.ltb_ge; lia).
  assert (R0 : Rltb (energy shooter) FIRE_ENERGY_COST = false) by (apply Rltb_false; exact E).
  rewrite Z0, R0 in H. destruct H as (He & Hc & Ho & _).
  split; [|split; [exact He | split; [exact Hc | exact Ho]]].
  apply Pushed. unfold shotsOf. rewrite S. now left.
Qed.

Lemma tick_always_ready N st :
  robotInvariant (stateA st) -> robotInvariant (stateB st) ->
  let L := tickLocals N st in
  let sA := atSpawnCheck (movedA L) in
  let sB := atSpawnCheck (movedB L) in
  alwaysReady sA (firedA L) (id sB) (controlA L) (fireResolution L)
  /\ alwaysReady sB (firedB L) (id sA) (controlB L) (fireResolution L).
Proof.
  intros IA IB L sA sB.
  destruct (tick_firing_cases N st IA IB) as (Spawned & CA & CB).
  fold L in Spawned. cbv zeta in Spawned. fold sA in Spawned. fold sB in Spawned.
  destruct (tickLocals_invariant N st IA IB) as (_ & _ & (MA & MB) & _).
  fold L in CA, CB, MA, MB. cbv zeta in CA, CB. fold sA in CA, CB. fold sB in CA, CB.
  destruct MA as [_ _ FA _ _ _]. destruct MB as [_ _ FB _ _ _].
  destruct (atSpawnCheck_fields (movedA L)) as (_ & _ & _ & _ & AA & _ & KA).
  destruct (atSpawnCheck_fields (movedB L)) as (_ & _ & _ & _ & AB & _ & KB).
  cbv zeta in AA, KA, AB, KB. fold sA in AA, KA. fold sB in AB, KB.
  split; intros A.
  - apply (firingCase_ready sA (firedA L)); [|exact CA| |exact A].
    + rewrite KA. rewrite <- AA, A. lia.
    + rewrite Spawned. apply incl_appl, incl_refl.
  - apply (firingCase_ready sB (firedB L)); [|exact CB| |exact A].
    + rewrite KB. rewrite <- AB, A. lia.
    + rewrite Spawned. apply incl_appr, incl_refl.
Qed.

(** C10.  In every tick of a battle, a robot that is alive when the firing
    phase makes its spawn attempt has a fire cooldown of 0 there (the
    cooldown is only ever set to 1 and is decremented, saturating at 0, at
    the start of the phase), so the cooldown-blocked branch is not taken;
    when moreover its resolved control has fire = true and its energy is at
    least 6, a shot is fired: the projectile of the robot is among the
    projectiles that [resolveFiring] spawns in the tick, the robot leaves
    the phase with 6 energy less and a cooldown of 1, and its outcome is
    marked as a shot fired. *)
Theorem C10_cooldown_never_blocks input t st :
  TickStart input t st ->
  let L := tickLocals (input_arenaSize input) st in
  let sA := atSpawnCheck (movedA L) in
  let sB := atSpawnCheck (movedB L) in
  alwaysReady sA (firedA L) (id sB) (controlA L) (fireResolution L)
  /\ alwaysReady sB (firedB L) (id sA) (controlB L) (fireResolution L).
Proof.
  intros H. apply TickStart_invariant in H. destruct H as (IA & IB & _).
  apply tick_always_ready; assumption.
Qed.

Lemma tick_wasAlive N st :
  alive (stateA st) = true -> alive (stateB st) = true ->
  let L := tickLocals N st in
  wasAlive (aliveAtStart L) (regenA L) = true
  /\ wasAlive (aliveAtStart L) (regenB L) = true.
Proof.
  intros AA AB L.
  destruct (tickLocals_perception N st) as [_ HA].
  destruct (tickLocals_same N st) as ((_ & A0 & _) & (_ & B0 & _) & _).
  fold L in HA, A0, B0. rewrite AA in A0. rewrite AB in B0.
  unfold wasAlive. rewrite HA. unfold setKey. rewrite String.eqb_refl.
  destruct (String.eqb (id (regenA L)) (id (regenB L)));
    rewrite ?String.eqb_refl, ?A0, ?B0; split; reflexivity.
Qed.

(** With both robots alive at the start of the tick, the controls of the
    tick are those that the rules resolve to. *)
Lemma tick_controls N st :
  alive (stateA st) = true -> alive (stateB st) = true ->
  let L := tickLocals N st in
  exists sa sb,
    controlA L = controls (resolveControls (program (stateA st)) sa)
    /\ controlB L = controls (resolveControls (program (stateB st)) sb).
Proof.
  intros AA AB L.
  destruct (tick_wasAlive N st AA AB) as [WA WB].
  destruct (tickLocals_controls N st) as (DA & DB & CA & CB).
  destruct (tickLocals_same N st) as ((_ & _ & _ & PA) & (_ & _ & _ & PB) & _).
  fold L in WA, WB, DA, DB, CA, CB, PA, PB.
  rewrite WA in CA. rewrite WB in CB. rewrite DA, PA in CA. rewrite DB, PB in CB.
  eexists. eexists. split; [exact CA | exact CB].
Qed.

Lemma triggerBattle_start :
  let st := initialBattleState triggerBattle in
  program (stateA st) = triggerProgram /\ program (stateB st) = triggerProgram
  /\ energy (stateA st) = 100 /\ energy (stateB st) = 100.
Proof.
  cbv zeta. unfold initialBattleState. cbn [stateA stateB].
  set (a := buildRobotState (input_robotA triggerBattle) 0 0 DirE).
  set (b := buildRobotState (input_robotB triggerBattle) _ _ DirW).
  set (P := perceptionPair a b (input_arenaSize triggerBattle)).
  destruct (rememberEnemy_fields a b P) as (_ & _ & _ & EA & _ & _ & _ & _ & PA).
  destruct (rememberEnemy_fields b (rememberEnemy a b P) P)
    as (_ & _ & _ & EB & _ & _ & _ & _ & PB).
  cbv zeta in *. rewrite EA, EB, PA, PB. repeat split.
Qed.

(** At tick 1 of the trigger battle robot A, alive, trigger held and
    energy 100, spawns its shot. *)
Lemma C10_cooldown_never_blocks_witness :
  TickStart triggerBattle 1 (initialBattleState triggerBattle)
  /\ let L := tickLocals 10 (initialBattleState triggerBattle) in
     let sA := atSpawnCheck (movedA L) in
     let sB := atSpawnCheck (movedB L) in
     fireCooldownTicks sA = 0%Z
     /\ In (spawnedBy sA (id sB)) (spawnedProjectiles (fireResolution L))
     /\ energy (firedA L) = energy sA - 6.
Proof.
  split; [apply start_first|]. cbv zeta.
  set (st := initialBattleState triggerBattle).
  destruct (C10_cooldown_never_blocks triggerBattle 1 st (start_first triggerBattle))
    as [HA _].
  cbv zeta in HA. change (input_arenaSize triggerBattle) with 10 in HA.
  set (L := tickLocals 10 st) in *.
  destruct (initialBattleState_invariant triggerBattle) as (IA & IB & AA & AB).
  fold st in IA, IB, AA, AB.
  destruct triggerBattle_start as (PA & _ & EA & _). fold st in PA, EA.
  destruct (tick_moved_same 10 st) as [(_ & AM & _) _]. fold L in AM.
  destruct (atSpawnCheck_fields (movedA L)) as (ES & _ & _ & _ & AS & _).
  cbv zeta in ES, AS.
  destruct (tick_controls 10 st AA AB) as (sa & sb & CA & _). fold L in CA.
  rewrite PA in CA. cbn in CA.
  assert (Al : alive (atSpawnCheck (movedA L)) = true) by congruence.
  destruct (HA Al) as [C0 Shot]. split; [exact C0|].
  assert (Held : fire (controlA L) = true) by (rewrite CA; reflexivity).
  assert (Energy : FIRE_ENERGY_COST <= energy (atSpawnCheck (movedA L))).
  { rewrite ES.
    destruct (tick_energy_account 10 1 st) as [Acc _].
    { unfold battleInvariant; tauto. }
    fold L in Acc. destruct Acc as (Rg & Up & Rot & Mov & _).
    rewrite CA in Mov. unfold boostIgnites in Mov. cbn [boost] in Mov.
    rewrite andb_false_r in Mov. rewrite Mov, Rot.
    unfold FIRE_ENERGY_COST. lra. }
  destruct (Shot Held Energy) as (Pushed & Debit & _).
  split; [exact Pushed | exact Debit].
Defined.

(** ** Side boost: ignition and burst *)

Lemma boostForce_level k : (1 <= k <= 5)%Z -> boostForce k = k.
Proof.
  intros H. unfold boostForce, SIDE_BOOST_BURST_TICKS, SIDE_BOOST_FORCE_SEQUENCE.
  cbn [List.length Z.of_nat].
  assert (C : (k = 1 \/ k = 2 \/ k = 3 \/ k = 4 \/ k = 5)%Z) by lia.
  destruct C as [-> | [-> | [-> | [-> | ->]]]]; vm_compute; reflexivity.
Qed.

Lemma burst_tick r d k c start N :
  alive r = true -> boostBurstTicksRemaining r = k ->
  boostDirectionLocked r = Some d -> (1 <= k <= 5)%Z ->
  burstTick r d k c start N.
Proof.
  intros A B Lk K.
  destruct r as [rid rn rx ry rd rh ra rf re rbc rbb rbl rm rp].
  cbn in A, B, Lk. subst ra rbb rbl.
  unfold burstTick, resolveSideBoost, igniteSideBoost, boostIgnites.
  cbn [alive negb boostBurstTicksRemaining].
  replace (k <=? 0)%Z with false by (symmetry; apply Z.leb_gt; lia).
  cbn [andb]. replace (match boost c with Some _ | _ => false end) with false
    by (destruct (boost c); reflexivity).
  cbv zeta. cbn [boostDirectionLocked boostBurstTicksRemaining].
  replace (0 <? k)%Z with true by (symmetry; apply Z.ltb_lt; lia).
  rewrite boostForce_level by exact K.
  replace (Z.max 0 (k - 1)) with (k - 1)%Z by lia.
  replace (k - 1 =? 0)%Z with (k =? 1)%Z
    by (destruct (Z.eqb_spec k 1); [subst k; reflexivity
                                   | symmetry; apply Z.eqb_neq; lia]).
  unfold lateralDelta, sideSign, TICKS_PER_TILE_STRAFE.
  destruct (k =? 1)%Z; destruct d; cbn; repeat split.
Qed.

Lemma ignition r c d :
  boost c = Some d ->
  (boostBurstTicksRemaining r <= 0)%Z -> boostCooldownTicks r = 0%Z ->
  SIDE_BOOST_ENERGY_COST <= energy r -> onGrid 4 (energy r) ->
  let r1 := igniteSideBoost r c in
  energy r1 = energy r - 35
  /\ boostCooldownTicks r1 = 10%Z
  /\ boostBurstTicksRemaining r1 = 5%Z
  /\ boostDirectionLocked r1 = Some d
  /\ alive r1 = alive r /\ headingRad r1 = headingRad r.
Proof.
  intros Bc Bu Co En G.
  assert (I : boostIgnites r c = true).
  { apply boostIgnites_true. repeat split; eauto. }
  destruct (igniteSideBoost_fields r c) as (F & _ & _ & _ & H). cbv zeta in F, H.
  rewrite I in F. destruct F as (FE & FC & FB & FL).
  destruct (igniteSideBoost_same r c) as (_ & A & _).
  cbv zeta. rewrite FE, FC, FB, FL, (ignite_energy_exact _ G En).
  repeat split; assumption.
Qed.

(** The call of [resolveSideBoost] in which the boost ignites goes on, in
    the same call, with the first tick of the burst. *)
Lemma ignition_tick r c d start N :
  alive r = true -> boost c = Some d ->
  (boostBurstTicksRemaining r <= 0)%Z -> boostCooldownTicks r = 0%Z ->
  SIDE_BOOST_ENERGY_COST <= energy r -> onGrid 4 (energy r) ->
  let r' := fst (resolveSideBoost r c start N) in
  let res := snd (resolveSideBoost r c start N) in
  energy r' = energy r - 35
  /\ boostCooldownTicks r' = 10%Z
  /\ boostBurstTicksRemaining r' = 4%Z
  /\ boostDirectionLocked r' = Some d
  /\ boost_used res = true
  /\ boost_forceLevel res = 5%Z
  /\ boost_delta res = lateralDelta (headingRad r) d (5 / 12).
Proof.
  intros A Bc Bu Co En G.
  destruct (ignition r c d Bc Bu Co En G) as (E1 & C1 & B1 & L1 & A1 & H1).
  cbv zeta in E1, C1, B1, L1, A1, H1. rewrite A in A1.
  assert (I : boostIgnites r c = true).
  { apply boostIgnites_true. repeat split; eauto. }
  destruct (burst_tick (igniteSideBoost r c) d 5 c start N A1 B1 L1)
    as (U & _ & F & D & B2 & L2 & E2 & C2); [lia|].
  cbv zeta in U, F, D, B2, L2, E2, C2.
  assert (Same : resolveSideBoost r c start N
                 = (fst (resolveSideBoost (igniteSideBoost r c) c start N),
                    snd (resolveSideBoost r c start N))
                 /\ boost_used (snd (resolveSideBoost r c start N))
                    = boost_used (snd (resolveSideBoost (igniteSideBoost r c) c start N))
                 /\ boost_forceLevel (snd (resolveSideBoost r c start N))
                    = boost_forceLevel
                        (snd (resolveSideBoost (igniteSideBoost r c) c start N))
                 /\ boost_delta (snd (resolveSideBoost r c start N))
                    = boost_delta (snd (resolveSideBoost (igniteSideBoost r c) c start N))).
  { assert (NI : igniteSideBoost (igniteSideBoost r c) c = igniteSideBoost r c).
    { unfold igniteSideBoost at 1. unfold boostIgnites at 1.
      rewrite Bc, B1. reflexivity. }
    unfold resolveSideBoost. rewrite A, A1. cbn [negb]. cbv zeta. rewrite NI.
    clear - L1 B1. set (r1 := igniteSideBoost r c) in *. clearbody r1.
    destruct r1. cbn in L1, B1. subst. cbn. repeat split; reflexivity. }
  destruct Same as (S1 & S2 & S3 & S4).
  cbv zeta. rewrite S2, S3, S4, S1. cbn [fst].
  rewrite E2, C2, B2, L2, E1, C1, U, F, D, H1.
  repeat split.
Qed.

Lemma toFixed_value d v (n : Z) :
  0 <= v -> IZR n <= v * 10 ^ d + / 2 < IZR n + 1 -> toFixed d v = IZR n / 10 ^ d.
Proof.
  intros Hv Hn. rewrite toFixed_nonneg_eq by exact Hv.
  rewrite (Zfloor_eq n) by exact Hn. reflexivity.
Qed.

(** Toward the right of a heading due East, [k]/12 tiles rounded to four
    decimals: 0.4167, 0.3333, 0.25, 0.1667, 0.0833, in all 1.25 tiles. *)
Lemma lateralDelta_east :
  lateralDelta 0 RIGHT (5 / 12) = {| x := 0; y := 4167 / 10000 |}
  /\ lateralDelta 0 RIGHT (4 / 12) = {| x := 0; y := 3333 / 10000 |}
  /\ lateralDelta 0 RIGHT (3 / 12) = {| x := 0; y := 2500 / 10000 |}
  /\ lateralDelta 0 RIGHT (2 / 12) = {| x := 0; y := 1667 / 10000 |}
  /\ lateralDelta 0 RIGHT (1 / 12) = {| x := 0; y := 833 / 10000 |}
  /\ 4167 / 10000 + 3333 / 10000 + 2500 / 10000 + 1667 / 10000 + 833 / 10000
     = 125 / 100.
Proof.
  unfold lateralDelta, sideSign. rewrite sin_0, cos_0.
  replace (- 0 * 1 * (5 / 12)) with 0 by ring.
  replace (- 0 * 1 * (4 / 12)) with 0 by ring.
  replace (- 0 * 1 * (3 / 12)) with 0 by ring.
  replace (- 0 * 1 * (2 / 12)) with 0 by ring.
  replace (- 0 * 1 * (1 / 12)) with 0 by ring.
  rewrite !toFixed_0.
  rewrite (toFixed_value 4 (1 * 1 * (5 / 12)) 4167) by (simpl; lra).
  rewrite (toFixed_value 4 (1 * 1 * (4 / 12)) 3333) by (simpl; lra).
  rewrite (toFixed_value 4 (1 * 1 * (3 / 12)) 2500) by (simpl; lra).
  rewrite (toFixed_value 4 (1 * 1 * (2 / 12)) 1667) by (simpl; lra).
  rewrite (toFixed_value 4 (1 * 1 * (1 / 12)) 833) by (simpl; lra).
  simpl. repeat split; try lra; f_equal; lra.
Qed.

(** ** Projectile traces *)

Lemma setHas_app members extra k :
  setHas (members ++ extra) k = setHas members k || setHas extra k.
Proof. unfold setHas. apply existsb_app. Qed.

Lemma findRobotById_either a b k target :
  findRobotById a b k = Some target -> target = a \/ target = b.
Proof.
  unfold findRobotById.
  destruct (String.eqb (id a) k); [intros [= <-]; auto|].
  destruct (String.eqb (id b) k); [intros [= <-]; auto | discriminate].
Qed.

Lemma advanceProjectile_hits a b N acc projectile :
  hitsRecorded a b acc -> hitsRecorded a b (advanceProjectile a b N acc projectile).
Proof.
  intros H. unfold advanceProjectile. cbv zeta.
  destruct (Rleb (maxRange projectile - traveledDistance projectile) EPSILON); [exact H|].
  match goal with |- context [if Rleb ?s EPSILON then acc else _] =>
    destruct (Rleb s EPSILON); [exact H|] end.
  destruct (findRobotById a b (inflight_targetRobotId projectile)) as [target|] eqn:F.
  - match goal with |- context [if ?c then Some target else None] =>
      destruct c end.
    + apply findRobotById_either in F.
      intros trace Hin Hhit. cbn [traces pendingKills] in *.
      apply in_app_or in Hin. destruct Hin as [Hin | [<- | []]].
      * destruct (H trace Hin Hhit) as (tg & Htg & Hid & Hto & Hpk).
        exists tg. repeat split; try assumption.
        rewrite setHas_app, Hpk. reflexivity.
      * exists target. cbn. repeat split; try assumption.
        rewrite setHas_app. cbn. rewrite String.eqb_refl, orb_true_r. reflexivity.
    + intros trace Hin Hhit. cbn [traces pendingKills] in *.
      apply in_app_or in Hin. destruct Hin as [Hin | [<- | []]].
      * exact (H trace Hin Hhit).
      * discriminate.
  - intros trace Hin Hhit. cbn [traces pendingKills] in *.
    apply in_app_or in Hin. destruct Hin as [Hin | [<- | []]].
    + exact (H trace Hin Hhit).
    + discriminate.
Qed.

Lemma advanceProjectiles_hits projectiles a b N :
  hitsRecorded a b (advanceProjectiles projectiles a b N).
Proof.
  unfold advanceProjectiles.
  assert (G : forall l acc, hitsRecorded a b acc ->
                hitsRecorded a b (fold_left (advanceProjectile a b N) l acc)).
  { induction l as [|p l IH]; intros acc H; [exact H|].
    cbn [fold_left]. apply IH, advanceProjectile_hits, H. }
  apply G. intros trace [].
Qed.

Lemma endOfTick_snapshot adv target :
  setHas (pendingKills adv) (id target) = true ->
  let s := snapshotRobot (refreshDirection (applyPendingKill adv target)) in
  snap_id s = id target
  /\ snap_x s = toFixed 4 (robot_x target) /\ snap_y s = toFixed 4 (robot_y target)
  /\ snap_alive s = false.
Proof.
  intros K. unfold applyPendingKill. rewrite K. cbn. repeat split.
Qed.

Lemma tick_hit_trace N t st trace :
  In trace (projectiles (snd (simulateTick N t st))) -> hit trace = true ->
  hitsAndKills trace (robotA (endState (snd (simulateTick N t st))))
  \/ hitsAndKills trace (robotB (endState (snd (simulateTick N t st)))).
Proof.
  intros Hin Hhit.
  destruct (simulateTick_log N t st) as (_ & _ & LP & LE & _). cbv zeta in LP, LE.
  rewrite LP in Hin. rewrite LE. clear LP LE.
  pose proof (tickLocals_projectiles N st) as PA. cbv zeta in PA.
  set (L := tickLocals N st) in *.
  assert (H : hitsRecorded (firedA L) (firedB L) (projectileAdvance L)).
  { rewrite PA. apply advanceProjectiles_hits. }
  destruct (H trace Hin Hhit) as (target & [-> | ->] & Hid & Hto & Hpk).
  - left. destruct (endOfTick_snapshot _ _ Hpk) as (SI & SX & SY & SA).
    cbv zeta in SI, SX, SY, SA.
    unfold hitsAndKills, snapshotBattle, endA. cbn [robotA]. cbv zeta. fold L.
    rewrite SI, SX, SY, SA. repeat split; assumption.
  - right. destruct (endOfTick_snapshot _ _ Hpk) as (SI & SX & SY & SA).
    cbv zeta in SI, SX, SY, SA.
    unfold hitsAndKills, snapshotBattle, endB. cbn [robotB]. cbv zeta. fold L.
    rewrite SI, SX, SY, SA. repeat split; assumption.
Qed.

(** C6.  In every tick, a projectile trace with [hit = true] names as its
    target one of the two robots, its [to] point is the position of that
    robot in the end snapshot of the tick (the position rounded to four
    decimals), and that snapshot shows the robot dead. *)
Theorem C6_hit_trace_kills N t st trace :
  In trace (projectiles (snd (simulateTick N t st))) -> hit trace = true ->
  hitsAndKills trace (robotA (endState (snd (simulateTick N t st))))
  \/ hitsAndKills trace (robotB (endState (snd (simulateTick N t st)))).
Proof. apply tick_hit_trace. Qed.

(** ** A hit, step by step *)

Lemma maxStep_half :
  PROJECTILE_SPEED_TILES_PER_SECOND * (TICK_DURATION_MS / 1000) = / 2.
Proof.
  unfold PROJECTILE_SPEED_TILES_PER_SECOND, PROJECTILE_TICKS_PER_TILE,
    TICK_DURATION_MS, TARGET_FPS. field.
Qed.

Lemma onGrid4_half : onGrid 4 (/ 2).
Proof. exists 5000%Z. simpl. lra. Qed.

Lemma toFixed_half : toFixed 4 (/ 2) = / 2.
Proof. apply toFixed_grid, onGrid4_half. Qed.

Lemma toFixed_1 : toFixed 4 1 = 1.
Proof. apply toFixed_grid, (onGrid4_const 1). Qed.

Lemma Rleb_is_true a b : a <= b -> Rleb a b = true.
Proof. apply Rleb_true. Qed.
Lemma Rleb_is_false a b : b < a -> Rleb a b = false.
Proof. apply Rleb_false. Qed.
Lemma Rltb_is_true a b : a < b -> Rltb a b = true.
Proof. apply Rltb_true. Qed.
Lemma Rltb_is_false a b : b <= a -> Rltb a b = false.
Proof. apply Rltb_false. Qed.

(** The ray of the duel's projectile meets the East wall 8.5 tiles away. *)
Lemma duelShot_wall :
  distance (buildWallRayHit {| x := / 2; y := 0 |} {| dx := 1; dy := 0 |} 10)
  = 85 / 10.
Proof.
  unfold buildWallRayHit. cbv zeta. cbn [x y dx dy].
  rewrite Rabs_R1, Rabs_R0.
  rewrite (Rltb_is_true EPSILON 1) by (unfold EPSILON; lra).
  rewrite (Rltb_is_false EPSILON 0) by (unfold EPSILON; lra).
  rewrite (Rltb_is_false EPSILON ((0 - / 2) / 1)) by (unfold EPSILON; lra).
  rewrite (Rltb_is_true EPSILON ((10 - 1 - / 2) / 1)) by (unfold EPSILON; lra).
  rewrite (Rleb_is_true (- EPSILON) (0 + (10 - 1 - / 2) / 1 * 0)) by (unfold EPSILON; lra).
  rewrite (Rleb_is_true (0 + (10 - 1 - / 2) / 1 * 0) (10 - 1 + EPSILON))
    by (unfold EPSILON; lra).
  cbn [andb app sortByKey fold_right insertByKey distance].
  replace ((10 - 1 - / 2) / 1) with (IZR 85000 / 10 ^ 4) by (simpl; lra).
  rewrite toFixed_grid by (eexists; reflexivity). simpl. lra.
Qed.

Lemma duel_segment_distance :
  pointToSegmentDistance {| x := 1; y := 0 |} {| x := / 2; y := 0 |} {| x := 1; y := 0 |}
  = 0.
Proof.
  unfold pointToSegmentDistance. cbv zeta. cbn [x y].
  rewrite (Rleb_is_false ((1 - / 2) * (1 - / 2) + (0 - 0) * (0 - 0)) EPSILON)
    by (unfold EPSILON; lra).
  rewrite (Rmax_right EPSILON) by (unfold EPSILON; lra).
  replace (((1 - / 2) * (1 - / 2) + (0 - 0) * (0 - 0))
           / ((1 - / 2) * (1 - / 2) + (0 - 0) * (0 - 0))) with 1 by (field; lra).
  rewrite (Rmin_left 1 1) by lra. rewrite (Rmax_right 0 1) by lra.
  unfold hypot.
  replace ((1 - (/ 2 + (1 - / 2) * 1)) * (1 - (/ 2 + (1 - / 2) * 1))
           + (0 - (0 + (0 - 0) * 1)) * (0 - (0 + (0 - 0) * 1))) with 0 by ring.
  apply sqrt_0.
Qed.

(** The projectile of the duel, advanced against a live robot B standing
    at (1, 0): one trace, a hit on B. *)
Lemma duelShot_advance a b :
  id a = "A"%string -> id b = "B"%string -> alive b = true ->
  robot_x b = 1 -> robot_y b = 0 ->
  traces (advanceProjectiles [duelShot] a b 10) = [duelTrace].
Proof.
  intros IA IB AB XB YB.
  unfold advanceProjectiles. cbn [fold_left]. unfold advanceProjectile. cbv zeta.
  cbn [maxRange traveledDistance position inflight_direction duelShot
       inflight_targetRobotId directionCardinal shooterRobotId x y dx dy
       traces pendingKills].
  rewrite maxStep_half, duelShot_wall.
  unfold SHOT_RANGE.
  rewrite (Rleb_is_false (5 - / 2) EPSILON) by (unfold EPSILON; lra).
  rewrite (Rmin_left (/ 2) (5 - / 2)) by lra.
  rewrite (Rmax_right 0 (85 / 10)) by lra.
  rewrite (Rmin_left (/ 2) (85 / 10)) by lra.
  rewrite (Rleb_is_false (/ 2) EPSILON) by (unfold EPSILON; lra).
  unfold findRobotById. rewrite IA, IB. cbn [String.eqb Ascii.eqb Bool.eqb].
  rewrite AB, XB, YB. cbn [setHas existsb negb andb].
  replace (/ 2 + 1 * / 2) with 1 by lra.
  replace (0 + 0 * / 2) with 0 by lra.
  rewrite toFixed_1, toFixed_0, toFixed_half, duel_segment_distance.
  rewrite (Rleb_is_true 0 SHOT_HIT_RADIUS) by (unfold SHOT_HIT_RADIUS; lra).
  cbn [traces app]. rewrite IB, XB, YB, toFixed_1, toFixed_0. reflexivity.
Qed.

Lemma shotsOf_neutral shooter tid : shotsOf shooter tid neutralControls = [].
Proof.
  unfold shotsOf, shotAllowed. cbn [fire neutralControls].
  rewrite andb_false_r. reflexivity.
Qed.

Lemma duel_projectiles :
  projectiles (snd (simulateTick 10 2 duelState)) = [duelTrace].
Proof.
  destruct (simulateTick_log 10 2 duelState) as (_ & _ & LP & _). cbv zeta in LP.
  rewrite LP, tickLocals_projectiles.
  set (L := tickLocals 10 duelState).
  assert (IA : robotInvariant (stateA duelState)) by apply buildRobotState_invariant.
  assert (IB : robotInvariant (stateB duelState)) by apply buildRobotState_invariant.
  destruct (idle_controls 10 duelState) as [CA CB].
  specialize (CA eq_refl). specialize (CB eq_refl). fold L in CA, CB.
  destruct (tick_firing_cases 10 duelState IA IB) as (SP & _). fold L in SP.
  rewrite CA, CB, !shotsOf_neutral in SP. rewrite SP. cbn [app activeProjectiles duelState].
  destruct (tickLocals_same 10 duelState) as (_ & _ & (IdA & _) & (IdB & AB & _)).
  fold L in IdA, IdB, AB.
  destruct (idle_tick_B 10 duelState) as [XB YB]; try reflexivity;
    try (cbn; lra); try (cbn; apply (onGrid4_const 0)); try (cbn; apply (onGrid4_const 1)).
  destruct (endOfTick_fields (projectileAdvance L) (firedB L))
    as (_ & _ & _ & _ & _ & _ & EX & EY).
  cbv zeta in EX, EY. unfold endB in XB, YB. cbv zeta in XB, YB. fold L in XB, YB.
  rewrite EX in XB. rewrite EY in YB.
  apply duelShot_advance; try assumption.
Qed.

Lemma endState_ids N t st :
  snap_id (robotA (endState (snd (simulateTick N t st)))) = id (stateA st)
  /\ snap_id (robotB (endState (snd (simulateTick N t st)))) = id (stateB st).
Proof.
  destruct (simulateTick_log N t st) as (_ & _ & _ & LE & _). cbv zeta in LE.
  rewrite LE. unfold snapshotBattle, snapshotRobot. cbn [robotA robotB snap_id].
  destruct (tickLocals_same N st) as (_ & _ & (IdA & _) & (IdB & _)).
  unfold endA, endB. cbv zeta.
  destruct (endOfTick_fields (projectileAdvance (tickLocals N st))
              (firedA (tickLocals N st))) as (_ & _ & _ & _ & _ & EA & _).
  destruct (endOfTick_fields (projectileAdvance (tickLocals N st))
              (firedB (tickLocals N st))) as (_ & _ & _ & _ & _ & EB & _).
  cbv zeta in EA, EB. rewrite EA, EB, IdA, IdB. split; reflexivity.
Qed.

(** In the tick that follows [duelState] the trace of the projectile hits
    robot B, ends on B's position (1, 0) and the end snapshot has B dead. *)
Lemma C6_hit_trace_kills_witness :
  In duelTrace (projectiles (snd (simulateTick 10 2 duelState)))
  /\ hit duelTrace = true
  /\ hitsAndKills duelTrace (robotB (endState (snd (simulateTick 10 2 duelState)))).
Proof.
  assert (Hin : In duelTrace (projectiles (snd (simulateTick 10 2 duelState)))).
  { rewrite duel_projectiles. left. reflexivity. }
  split; [exact Hin|]. split; [reflexivity|].
  destruct (C6_hit_trace_kills 10 2 duelState duelTrace Hin eq_refl) as [HA | HB];
    [|exact HB].
  exfalso. destruct HA as (Hid & _).
  destruct (endState_ids 10 2 duelState) as [IdA _].
  rewrite IdA in Hid. discriminate Hid.
Defined.

(** * Properties of the parser *)

(** ** The parser: white space *)

Lemma trimStart_blank (l : list ascii) :
  forallb isWhiteSpace l = true -> trimStart l = [].
Proof.
  induction l as [|c l IH]; cbn; [reflexivity|].
  intros H. apply andb_prop in H as [Hc Hl]. rewrite Hc. auto.
Qed.

Lemma trimStart_empty (l : list ascii) :
  trimStart l = [] -> forallb isWhiteSpace l = true.
Proof.
  induction l as [|c l IH]; cbn; [reflexivity|].
  destruct (isWhiteSpace c); [auto | discriminate].
Qed.

Lemma trimStart_head (l : list ascii) c rest :
  trimStart l = c :: rest -> isWhiteSpace c = false.
Proof.
  induction l as [|a l IH]; cbn; [discriminate|].
  destruct (isWhiteSpace a) eqn:E; [auto|].
  intros H. now injection H as <- _.
Qed.

Lemma trimStart_suffix (l : list ascii) :
  exists blank, l = blank ++ trimStart l /\ forallb isWhiteSpace blank = true.
Proof.
  induction l as [|a l [blank [E B]]]; cbn.
  - now exists [].
  - destruct (isWhiteSpace a) eqn:W.
    + exists (a :: blank). cbn. rewrite W, B. now rewrite <- E.
    + now exists [].
Qed.

Lemma forallb_rev {A} (p : A -> bool) (l : list A) :
  forallb p (rev l) = forallb p l.
Proof.
  induction l as [|a l IH]; cbn; [reflexivity|].
  rewrite forallb_app, IH. cbn. rewrite andb_true_r. apply andb_comm.
Qed.

Lemma trim_blank (l : list ascii) :
  isEmpty (trim l) = true <-> forallb isWhiteSpace l = true.
Proof.
  unfold trim, trimEnd. split.
  - intros H. destruct (rev (trimStart (rev (trimStart l)))) eqn:E; [|discriminate].
    apply (f_equal (@rev ascii)) in E. rewrite rev_involutive in E. cbn in E.
    apply trimStart_empty in E. rewrite forallb_rev in E.
    destruct (trimStart_suffix l) as [blank [El B]].
    rewrite El, forallb_app, B, E. reflexivity.
  - intros H. rewrite (trimStart_blank l H). reflexivity.
Qed.

Lemma trim_length (l : list ascii) : (List.length (trim l) <= List.length l)%nat.
Proof.
  assert (S : forall m, (List.length (trimStart m) <= List.length m)%nat).
  { induction m as [|a m IH]; cbn; [lia|]. destruct (isWhiteSpace a); cbn; lia. }
  unfold trim, trimEnd. rewrite length_rev.
  etransitivity; [apply S|]. rewrite length_rev. apply S.
Qed.

(** ** The parser: diagnostics carry the line *)

Lemma atLine_throw {T} n e : atLine n (@throw T n e).
Proof. intros d H. injection H as <-. reflexivity. Qed.

Lemma atLine_Parsed {T} n (v : T) : atLine n (Parsed v).
Proof. intros d H. discriminate. Qed.

Lemma atLine_Exhausted {T} n : atLine n (@Exhausted T).
Proof. intros d H. discriminate. Qed.

Lemma atLine_bind {A B} n (m : Outcome A) (k : A -> Outcome B) :
  atLine n m -> (forall v, atLine n (k v)) -> atLine n (bind m k).
Proof.
  intros Hm Hk. destruct m as [v|d|]; cbn.
  - apply Hk.
  - intros d' H. injection H as <-. now apply Hm.
  - apply atLine_Exhausted.
Qed.

Ltac at_line :=
  repeat first
    [ apply atLine_throw
    | apply atLine_Parsed
    | apply atLine_Exhausted
    | solve [auto]
    | apply atLine_bind; [|intros]
    | match goal with
      | |- atLine _ (match ?x with _ => _ end) => destruct x
      | |- atLine _ (if ?b then _ else _) => destruct b
      | |- atLine _ (let (_, _) := ?p in _) => destruct p
      end ].

Lemma parseNormalizedNumber_line token n label :
  atLine n (parseNormalizedNumber token n label).
Proof. unfold parseNormalizedNumber. at_line. Qed.

Lemma parseControlValue_line token n field :
  atLine n (parseControlValue token n field).
Proof.
  unfold parseControlValue. apply atLine_bind;
    [apply parseNormalizedNumber_line | intros; at_line].
Qed.

Lemma parseCommand_line tokens n : atLine n (parseCommand tokens n).
Proof.
  unfold parseCommand, parseSetControl, parseFire, parseBoost.
  pose proof parseControlValue_line. at_line.
Qed.

Lemma tokenizeFrom_line from skip n : atLine n (tokenizeFrom from skip n).
Proof.
  revert skip. induction from as [|c rest IH]; intros skip; cbn; at_line; auto.
Qed.

Lemma expectSymbol_line symbol tokens n : atLine n (expectSymbol symbol tokens n).
Proof. unfold expectSymbol. at_line. Qed.

Lemma expression_line depth n :
  (forall tokens, atLine n (parseAdditive depth n tokens))
  /\ (forall l tokens, atLine n (additiveLoop depth n l tokens))
  /\ (forall tokens, atLine n (parseMultiplicative depth n tokens))
  /\ (forall l tokens, atLine n (multiplicativeLoop depth n l tokens))
  /\ (forall tokens, atLine n (parseUnary depth n tokens))
  /\ (forall tokens, atLine n (parsePrimary depth n tokens))
  /\ (forall name tokens, atLine n (parseFunctionCall depth n name tokens))
  /\ (forall tokens, atLine n (parseArguments depth n tokens)).
Proof.
  induction depth as [|depth (A & AL & M & ML & U & P & F & G)].
  - repeat split; intros; apply atLine_Exhausted.
  - pose proof parseNormalizedNumber_line. pose proof expectSymbol_line.
    repeat split; intros; cbn -[parseNormalizedNumber]; at_line; auto.
Qed.

Lemma parseNumericExpression_line text n : atLine n (parseNumericExpression text n).
Proof.
  unfold parseNumericExpression, parseTokens, tokenizeExpression.
  pose proof tokenizeFrom_line. pose proof (fun depth => proj1 (expression_line depth n)).
  at_line; auto.
Qed.

Lemma findComparator_line from index depth skip found n :
  atLine n (findComparator from index depth skip found n).
Proof.
  revert index depth skip found.
  induction from as [|c rest IH]; intros; cbn; at_line.
Qed.

Lemma splitConditionComparison_line text n :
  atLine n (splitConditionComparison text n).
Proof.
  unfold splitConditionComparison. pose proof findComparator_line. at_line.
Qed.

Lemma splitLoop_line from before depth skip segment keyword n :
  atLine n (splitLoop from before depth skip segment keyword n).
Proof.
  revert before depth skip segment.
  induction from as [|c rest IH]; intros; cbn; at_line.
Qed.

Lemma splitTopLevelByKeyword_line text keyword n :
  atLine n (splitTopLevelByKeyword text keyword n).
Proof.
  unfold splitTopLevelByKeyword. pose proof splitLoop_line. at_line.
Qed.

Lemma reduceLogical_line parse operator parts acc n :
  (forall part, atLine n (parse part)) ->
  atLine n (reduceLogical parse operator parts acc).
Proof.
  intros H. revert acc. induction parts as [|part rest IH]; intros; cbn; at_line.
Qed.

Lemma parseConditionNode_line depth text n :
  atLine n (parseConditionNode depth text n).
Proof.
  revert text. induction depth as [|depth IH]; intros; cbn; [apply atLine_Exhausted|].
  pose proof splitTopLevelByKeyword_line. pose proof splitConditionComparison_line.
  pose proof parseNumericExpression_line.
  assert (forall operator parts acc,
             atLine n (reduceLogical (fun part => parseConditionNode depth part n)
                         operator parts acc))
    by (intros; apply reduceLogical_line; auto).
  at_line.
Qed.

Lemma parseCondition_line text n : atLine n (parseCondition text n).
Proof. unfold parseCondition. pose proof parseConditionNode_line. at_line. Qed.

Lemma parseSingleLine_line rawLine n : atLine n (parseSingleLine rawLine n).
Proof.
  unfold parseSingleLine. pose proof parseCondition_line. pose proof parseCommand_line.
  at_line.
Qed.

(** ** The parser: the lines of a script *)

Lemma parseSingleLine_skipped rawLine n :
  parseSingleLine rawLine n = Parsed None <-> skippedLine rawLine = true.
Proof.
  unfold parseSingleLine, skippedLine.
  destruct (isEmpty (trim rawLine) || startsWith (trim rawLine) (chars "#"));
    [tauto|].
  split; [|discriminate]. intros H. exfalso.
  destruct (hasIfPrefix (trim rawLine)).
  - destruct (findThen _ None 0); [|discriminate].
    destruct (isEmpty _); [discriminate|].
    destruct (nonEmptyTokens _); [discriminate|].
    destruct (parseCondition _ n); try discriminate.
    cbn [bind] in H. destruct (parseCommand _ n); discriminate.
  - destruct (parseCommand _ n); discriminate.
Qed.

Lemma parseSingleLine_rule rawLine n rule :
  parseSingleLine rawLine n = Parsed (Some rule) -> line rule = n.
Proof.
  unfold parseSingleLine.
  destruct (_ || _); [discriminate|].
  destruct (hasIfPrefix (trim rawLine)).
  - destruct (findThen _ None 0); [|discriminate].
    destruct (isEmpty _); [discriminate|].
    destruct (nonEmptyTokens _); [discriminate|].
    destruct (parseCondition _ n); try discriminate.
    cbn [bind]. destruct (parseCommand _ n); try discriminate.
    cbn [bind]. intros H. injection H as <-. reflexivity.
  - destruct (parseCommand _ n); try discriminate.
    cbn [bind]. intros H. injection H as <-. reflexivity.
Qed.

(** The rules of the lines from [n] on, when each line parses. *)
Lemma parseLines_parsed lines : forall n rules,
  parseLines lines n = Parsed rules ->
  forall rule, In rule rules <->
    exists k, (k < List.length lines)%nat
              /\ parseSingleLine (nth k lines []) (n + k) = Parsed (Some rule).
Proof.
  induction lines as [|rawLine rest IH]; intros n rules H rule.
  - cbn [bind] in H. injection H as <-. split; [intros []|].
    intros (k & Hk & _). cbn in Hk. lia.
  - cbn [parseLines bind] in H. destruct (parseSingleLine rawLine n) as [parsed| |] eqn:E1; try discriminate.
    cbn [bind] in H. destruct (parseLines rest (Datatypes.S n)) as [more| |] eqn:E2;
      try discriminate.
    cbn [bind] in H. injection H as <-. specialize (IH _ _ E2 rule).
    assert (Tail : In rule more <->
              exists k, (Datatypes.S k < List.length (rawLine :: rest))%nat
                /\ parseSingleLine (nth (Datatypes.S k) (rawLine :: rest) [])
                     (n + Datatypes.S k) = Parsed (Some rule)).
    { rewrite IH. split; intros (k & Hk & Hp); exists k; cbn in *;
        (split; [lia|]); now replace (n + Datatypes.S k)%nat
                               with (Datatypes.S n + k)%nat in * by lia. }
    assert (Head : parsed = Some rule <->
              parseSingleLine (nth 0 (rawLine :: rest) []) (n + 0) = Parsed (Some rule)).
    { cbn. rewrite Nat.add_0_r, E1. split; [now intros ->|]. intros H. now injection H. }
    split.
    + intros Hin.
      assert (C : parsed = Some rule \/ In rule more).
      { destruct parsed; [destruct Hin as [->|]|]; auto. }
      destruct C as [C|C].
      * exists 0%nat. split; [cbn; lia|]. now apply Head.
      * apply Tail in C as (k & Hk & Hp). now exists (Datatypes.S k).
    + intros ([|k] & Hk & Hp).
      * apply Head in Hp. subst parsed. now left.
      * assert (In rule more) by (apply Tail; now exists k).
        destruct parsed; [now right|assumption].
Qed.

Lemma parseLines_sorted lines : forall n rules,
  parseLines lines n = Parsed rules ->
  StronglySorted lt (map line rules)
  /\ Forall (fun rule => n <= line rule < n + List.length lines)%nat rules.
Proof.
  induction lines as [|rawLine rest IH]; intros n rules H.
  - cbn [bind] in H. injection H as <-. split; constructor.
  - cbn [parseLines bind] in H. destruct (parseSingleLine rawLine n) as [parsed| |] eqn:E1; try discriminate.
    cbn [bind] in H. destruct (parseLines rest (Datatypes.S n)) as [more| |] eqn:E2;
      try discriminate.
    cbn [bind] in H. injection H as <-. destruct (IH _ _ E2) as [Sorted Range].
    assert (Range' : Forall (fun rule => n <= line rule
                               < n + List.length (rawLine :: rest))%nat more).
    { eapply Forall_impl; [|exact Range]. cbn. intros; lia. }
    destruct parsed as [rule|]; [|now split].
    apply parseSingleLine_rule in E1. split.
    + cbn. constructor; [assumption|]. rewrite Forall_map.
      eapply Forall_impl; [|exact Range]. cbn. intros; lia.
    + constructor; [cbn; lia | assumption].
Qed.

(** The first line that does not parse is the one that the error is of. *)
Lemma parseLines_failed lines : forall n d,
  parseLines lines n = Failed d ->
  exists k, (k < List.length lines)%nat
    /\ diag_line d = Some (n + k)%nat
    /\ parseSingleLine (nth k lines []) (n + k) = Failed d
    /\ forall j, (j < k)%nat ->
         exists parsed, parseSingleLine (nth j lines []) (n + j) = Parsed parsed.
Proof.
  induction lines as [|rawLine rest IH]; intros n d H; [discriminate|].
  cbn [parseLines bind] in H. destruct (parseSingleLine rawLine n) as [parsed| |] eqn:E1; try discriminate.
  - cbn [bind] in H. destruct (parseLines rest (Datatypes.S n)) as [more| |] eqn:E2;
      try discriminate.
    cbn [bind] in H. injection H as <-.
    destruct (IH _ _ E2) as (k & Hk & Hl & Hp & Hj).
    exists (Datatypes.S k). replace (n + Datatypes.S k)%nat with (Datatypes.S n + k)%nat by lia.
    repeat split; [cbn; lia | assumption | assumption |].
    intros [|j] Hlt.
    + exists parsed. cbn. now rewrite Nat.add_0_r.
    + destruct (Hj j ltac:(lia)) as [p Hp']. exists p. cbn.
      now replace (n + Datatypes.S j)%nat with (Datatypes.S n + j)%nat by lia.
  - cbn [bind] in H. injection H as <-. exists 0%nat. rewrite Nat.add_0_r.
    repeat split; [cbn; lia | | assumption | intros; lia].
    now apply (parseSingleLine_line rawLine n).
Qed.

Lemma parseLines_skipped lines n :
  parseLines lines n = Parsed [] <-> forallb skippedLine lines = true.
Proof.
  revert n. induction lines as [|rawLine rest IH]; intros n; cbn; [tauto|].
  rewrite andb_true_iff, <- (IH (Datatypes.S n)), <- (parseSingleLine_skipped rawLine n).
  destruct (parseSingleLine rawLine n) as [[rule|]| |]; cbn;
    destruct (parseLines rest (Datatypes.S n)) as [[|r more]| |]; cbn;
    intuition congruence.
Qed.

Lemma splitLines_length (l : list ascii) : forall current,
  List.length (splitLines l current) = Datatypes.S (lineFeeds l).
Proof.
  unfold lineFeeds.
  induction l as [|c rest IH]; intros current; [reflexivity|].
  cbn [splitLines filter].
  destruct (Nat.eqb (nat_of_ascii c) 10) eqn:LF.
  - cbn. now rewrite IH.
  - destruct (Nat.eqb (nat_of_ascii c) 13); [|apply IH].
    destruct rest as [|d rest']; [apply IH|].
    destruct (Nat.eqb (nat_of_ascii d) 10) eqn:LF'; [|apply IH].
    rewrite <- (IH (c :: current)). cbn [splitLines]. rewrite LF'. reflexivity.
Qed.

Lemma blank_false (l : list ascii) :
  isEmpty (trim l) = false <-> forallb isWhiteSpace l = false.
Proof.
  pose proof (trim_blank l).
  destruct (isEmpty (trim l)), (forallb isWhiteSpace l); intuition congruence.
Qed.

(** The result of [parseRobotScript] on a text that is not blank and has no
    more than 200 lines. *)
Lemma parseRobotScript_lines s :
  forallb isWhiteSpace (chars s) = false ->
  (lineFeeds (chars s) < MAX_SCRIPT_LINES)%nat ->
  parseRobotScript s =
    match parseLines (splitLines (chars s) []) 1 with
    | Parsed [] => scriptError NoExecutableCommands
    | other => other
    end.
Proof.
  intros B L. unfold parseRobotScript.
  apply blank_false in B. rewrite B, splitLines_length.
  destruct (Nat.ltb_spec MAX_SCRIPT_LINES (Datatypes.S (lineFeeds (chars s)))); [lia|].
  destruct (parseLines _ 1) as [[|r rules]| |]; reflexivity.
Qed.

Lemma parseLines_length lines : forall n rules,
  parseLines lines n = Parsed rules -> (List.length rules <= List.length lines)%nat.
Proof.
  induction lines as [|rawLine rest IH]; intros n rules H.
  - cbn in H. injection H as <-. cbn. lia.
  - cbn [parseLines bind] in H.
    destruct (parseSingleLine rawLine n) as [parsed| |]; try discriminate.
    cbn [bind] in H. destruct (parseLines rest (Datatypes.S n)) as [more| |] eqn:E2;
      try discriminate.
    cbn [bind] in H. injection H as <-. apply IH in E2.
    destruct parsed; cbn; lia.
Qed.

(** The three cases of [parseRobotScript]. *)
Lemma parseRobotScript_cases s :
  (forallb isWhiteSpace (chars s) = true
   /\ parseRobotScript s = scriptError ScriptEmpty)
  \/ (forallb isWhiteSpace (chars s) = false
      /\ (MAX_SCRIPT_LINES <= lineFeeds (chars s))%nat
      /\ parseRobotScript s = scriptError ScriptTooLong)
  \/ (forallb isWhiteSpace (chars s) = false
      /\ (lineFeeds (chars s) < MAX_SCRIPT_LINES)%nat
      /\ parseRobotScript s =
           match parseLines (splitLines (chars s) []) 1 with
           | Parsed [] => scriptError NoExecutableCommands
           | other => other
           end).
Proof.
  destruct (forallb isWhiteSpace (chars s)) eqn:B.
  - left. split; [reflexivity|]. unfold parseRobotScript.
    apply trim_blank in B. now rewrite B.
  - right. destruct (Nat.le_gt_cases MAX_SCRIPT_LINES (lineFeeds (chars s))) as [L|L].
    + left. repeat split; try assumption. unfold parseRobotScript.
      apply blank_false in B. rewrite B, splitLines_length.
      destruct (Nat.ltb_spec MAX_SCRIPT_LINES (Datatypes.S (lineFeeds (chars s))));
        [reflexivity | lia].
    + right. repeat split; try assumption. now apply parseRobotScript_lines.
Qed.

(** The errors of the lines are not the errors about the script. *)
Lemma parseLines_not_script_error lines e :
  match parseLines lines 1 with
  | Parsed [] => scriptError NoExecutableCommands
  | other => other
  end = scriptError e ->
  e = NoExecutableCommands /\ parseLines lines 1 = Parsed [].
Proof.
  destruct (parseLines lines 1) as [[|r more]|d|] eqn:E; try discriminate.
  - intros H. injection H as <-. now split.
  - intros H. exfalso. apply parseLines_failed in E as (k & _ & Hl & _).
    injection H as ->. discriminate.
Qed.

(** X1: [parseRobotScript] fails with the error [script is empty] exactly
    on the scripts that hold nothing but white space. *)
Theorem X1_script_empty (s : string) :
  parseRobotScript s = scriptError ScriptEmpty
  <-> forallb isWhiteSpace (chars s) = true.
Proof.
  destruct (parseRobotScript_cases s) as [[B R]|[(B & L & R)|(B & L & R)]];
    rewrite R, B; split; try discriminate; try reflexivity.
  intros H. apply parseLines_not_script_error in H as [H _].
  discriminate.
Qed.

(** X2: [parseRobotScript] fails with the error [script is too long]
    exactly on the scripts that are not blank and have 200 line feeds or
    more, that is more than 200 lines, whatever the lines hold. *)
Theorem X2_script_too_long (s : string) :
  parseRobotScript s = scriptError ScriptTooLong
  <-> forallb isWhiteSpace (chars s) = false
      /\ (MAX_SCRIPT_LINES <= lineFeeds (chars s))%nat.
Proof.
  destruct (parseRobotScript_cases s) as [[B R]|[(B & L & R)|(B & L & R)]];
    rewrite R, B; split; try discriminate; try tauto.
  - intros [H _]. discriminate.
  - intros H. apply parseLines_not_script_error in H as [H _].
    discriminate.
  - intros [_ H]. lia.
Qed.

(** X3: [parseRobotScript] fails with the error [script has no executable
    commands] exactly on the scripts of no more than 200 lines that are not
    blank and whose lines are all blank or comments. *)
Theorem X3_no_executable_commands (s : string) :
  parseRobotScript s = scriptError NoExecutableCommands
  <-> forallb isWhiteSpace (chars s) = false
      /\ (lineFeeds (chars s) < MAX_SCRIPT_LINES)%nat
      /\ forallb skippedLine (splitLines (chars s) []) = true.
Proof.
  destruct (parseRobotScript_cases s) as [[B R]|[(B & L & R)|(B & L & R)]];
    rewrite R, B; split; try discriminate.
  - intros [H _]. discriminate.
  - intros (_ & H & _). lia.
  - intros H. apply parseLines_not_script_error in H as [_ H].
    repeat split; try assumption. now apply (parseLines_skipped _ 1%nat).
  - intros (_ & _ & K). apply (parseLines_skipped _ 1%nat) in K. now rewrite K.
Qed.

(** X4: a program that [parseRobotScript] returns is not empty and holds
    one rule for each line of the script that is neither blank nor a
    comment, in the order of the lines, each rule with the 1-based number
    of its line; so it has no more than 200 rules. *)
Theorem X4_rules_of_lines (s : string) (rules : list ScriptAction) :
  parseRobotScript s = Parsed rules -> rulesOfLines s rules.
Proof.
  intros H.
  destruct (parseRobotScript_cases s) as [[B R]|[(B & L & R)|(B & L & R)]];
    rewrite R in H; try discriminate.
  destruct (parseLines _ 1) as [[|r more]|d|] eqn:E; try discriminate.
  injection H as <-. unfold rulesOfLines. cbv zeta.
  pose proof (splitLines_length (chars s) []) as Len.
  repeat split.
  - discriminate.
  - now apply (parseLines_sorted _ _ _ E).
  - intros Hin. apply (parseLines_parsed _ _ _ E) in Hin as (k & Hk & Hp).
    exists (Datatypes.S k). split; [lia|]. now replace (Datatypes.S k - 1)%nat with k by lia.
  - intros (n & Hn & Hp). apply (parseLines_parsed _ _ _ E).
    exists (n - 1)%nat. split; [lia|]. now replace (1 + (n - 1))%nat with n by lia.
  - now apply (parseLines_length _ _ _ E).
  - rewrite Len. lia.
Qed.

Lemma X4_rules_of_lines_witness :
  rulesOfLines "# opening
fire

IF ENEMY_VISIBLE THEN BOOST left"
    [ {| line := 2; condition := None; command := FIRE true |};
      {| line := 4; condition := Some (VISIBILITY true); command := BOOST LEFT |} ].
Proof. apply X4_rules_of_lines. reflexivity. Defined.

(** X5: an error of [parseRobotScript] that carries a line is the error of
    the first line of the script that does not parse, and the line it
    carries is the 1-based number of that line; an error without a line is
    one of the three errors about the script as a whole. *)
Theorem X5_error_of_first_bad_line (s : string) (d : Diagnostic) :
  parseRobotScript s = Failed d -> errorOfFirstBadLine s d.
Proof.
  intros H. unfold errorOfFirstBadLine. cbv zeta.
  destruct (parseRobotScript_cases s) as [[B R]|[(B & L & R)|(B & L & R)]];
    rewrite R in H; try (injection H as <-; cbn; tauto).
  destruct (parseLines _ 1) as [[|r more]|d'|] eqn:E; try discriminate.
  - injection H as <-. cbn. tauto.
  - injection H as ->.
    apply parseLines_failed in E as (k & Hk & Hl & Hp & Hj).
    rewrite Hl. replace (1 + k - 1)%nat with k by lia.
    repeat split; try assumption; try lia.
    intros m Hm. destruct (Hj (m - 1)%nat ltac:(lia)) as [p Hp'].
    exists p. now replace (1 + (m - 1))%nat with m in Hp' by lia.
Qed.

Lemma X5_error_of_first_bad_line_witness :
  errorOfFirstBadLine "FIRE
BOOST up
SET SPEED 1"
    {| diag_line := Some 2%nat; diag_error := BoostDirectionUnknown |}.
Proof. apply X5_error_of_first_bad_line. reflexivity. Defined.

(** ** The parser: control values *)

Lemma toFixed_between d a b v :
  onGrid d a -> onGrid d b -> a <= v <= b -> a <= toFixed d v <= b.
Proof.
  intros [ka ->] [kb ->] [Ha Hb].
  destruct (toFixed_onGrid d v) as [k Hk]. rewrite Hk.
  pose proof (toFixed_error d v) as [Lo Hi]. rewrite Hk in Lo, Hi.
  pose proof (pow10_pos d) as P.
  assert (Ea : forall z, IZR z / 10 ^ d * 10 ^ d = IZR z) by (intros; field; lra).
  split.
  - apply Rmult_le_reg_r with (10 ^ d); [assumption|]. rewrite !Ea.
    apply IZR_le.
    assert (H : IZR ka < IZR k + 1);
      [|rewrite <- plus_IZR in H; apply lt_IZR in H; lia].
    apply Rmult_le_compat_r with (r := 10 ^ d) in Ha; [|lra].
    apply Rmult_le_compat_r with (r := 10 ^ d) in Lo; [|lra].
    rewrite Ea in Ha, Lo.
    replace ((v - / 2 / 10 ^ d) * 10 ^ d) with (v * 10 ^ d - / 2) in Lo by (field; lra).
    lra.
  - apply Rmult_le_reg_r with (10 ^ d); [assumption|]. rewrite !Ea.
    apply IZR_le.
    assert (H : IZR k < IZR kb + 1);
      [|rewrite <- plus_IZR in H; apply lt_IZR in H; lia].
    apply Rmult_le_compat_r with (r := 10 ^ d) in Hb; [|lra].
    apply Rmult_le_compat_r with (r := 10 ^ d) in Hi; [|lra].
    rewrite Ea in Hb, Hi.
    replace ((v + / 2 / 10 ^ d) * 10 ^ d) with (v * 10 ^ d + / 2) in Hi by (field; lra).
    lra.
Qed.

Lemma parseControlValue_range token n field value :
  parseControlValue token n field = Parsed value ->
  -1 <= value <= 1 /\ onGrid 4 value.
Proof.
  unfold parseControlValue.
  destruct (parseNormalizedNumber token n (ControlValueLabel field)) as [q| |];
    try discriminate.
  cbn [bind].
  destruct (Qle_bool (- (1)) q) eqn:Lo; [|discriminate].
  destruct (Qle_bool q 1) eqn:Hi; [|discriminate].
  cbn. intros H. injection H as <-.
  apply Qle_bool_iff, Qle_Rle in Lo, Hi.
  assert (E1 : Q2R 1 = 1) by (unfold Q2R; cbn; lra).
  rewrite Q2R_opp, E1 in Lo. rewrite E1 in Hi.
  split; [|apply toFixed_onGrid].
  apply toFixed_between; [| |lra].
  - replace (-1) with (IZR (-1)) by reflexivity. apply onGrid_IZR.
  - apply (onGrid_IZR 4 1).
Qed.

Lemma parseCommand_normalized tokens n c :
  parseCommand tokens n = Parsed c -> normalizedControl c.
Proof.
  unfold parseCommand, parseSetControl, parseFire, parseBoost.
  repeat match goal with
         | |- context [match ?x with _ => _ end] =>
             lazymatch x with
             | parseControlValue _ _ _ => fail
             | _ => destruct x
             end
         end;
    try discriminate; try (intros H; injection H as <-; exact I).
  all: destruct (parseControlValue _ n _) as [value| |] eqn:E; try discriminate;
    cbn [bind]; intros H; injection H as <-;
    exact (parseControlValue_range _ _ _ _ E).
Qed.

Lemma parseSingleLine_command rawLine n rule :
  parseSingleLine rawLine n = Parsed (Some rule) ->
  exists tokens, parseCommand tokens n = Parsed (command rule).
Proof.
  unfold parseSingleLine.
  destruct (_ || _); [discriminate|].
  destruct (hasIfPrefix (trim rawLine)).
  - destruct (findThen _ None 0); [|discriminate].
    destruct (isEmpty _); [discriminate|].
    destruct (nonEmptyTokens _) as [|t ts]; [discriminate|].
    destruct (parseCondition _ n); try discriminate.
    cbn [bind]. destruct (parseCommand (t :: ts) n) eqn:E; try discriminate.
    cbn [bind]. intros H. injection H as <-. now exists (t :: ts).
  - destruct (parseCommand _ n) eqn:E; try discriminate.
    cbn [bind]. intros H. injection H as <-. eauto.
Qed.

(** X6: in a program that [parseRobotScript] returns, the value of every
    [SET] command lies in [-1, 1] and has no more than 4 decimals. *)
Theorem X6_control_values_normalized (s : string) (rules : list ScriptAction) :
  parseRobotScript s = Parsed rules ->
  Forall (fun rule => normalizedControl (command rule)) rules.
Proof.
  intros H. apply Forall_forall. intros rule Hin.
  destruct (parseRobotScript_cases s) as [[B R]|[(B & L & R)|(B & L & R)]];
    rewrite R in H; try discriminate.
  destruct (parseLines _ 1) as [[|r more]|d|] eqn:E; try discriminate.
  injection H as <-.
  apply (parseLines_parsed _ _ _ E) in Hin as (k & _ & Hp).
  apply parseSingleLine_command in Hp as [tokens Hp].
  exact (parseCommand_normalized _ _ _ Hp).
Qed.

Lemma X6_control_values_normalized_witness :
  Forall (fun rule => normalizedControl (command rule))
    [ {| line := 1; condition := None;
         command := SET_CONTROL THROTTLE (toFixed 4 (Q2R (-75 # 100))) |};
      {| line := 2; condition := Some (VISIBILITY true); command := FIRE true |} ].
Proof.
  apply (X6_control_values_normalized "set throttle -0.75
IF ENEMY_VISIBLE THEN FIRE").
  reflexivity.
Defined.

(** ** The parser: what [parseFloat] reads *)

Lemma span_digits whole junk :
  forallb isDigit whole = true -> endsNumber junk = true ->
  span isDigit (whole ++ junk) = (whole, junk).
Proof.
  intros W J. induction whole as [|c whole IH]; cbn.
  - destruct junk as [|c junk]; [reflexivity|]. cbn in *.
    destruct (isDigit c); [discriminate|reflexivity].
  - cbn in W. apply andb_prop in W as [Hc W]. rewrite Hc, (IH W). reflexivity.
Qed.

Lemma scanExponent_none junk :
  endsNumber junk = true -> scanExponent junk = (0%Z, junk).
Proof.
  destruct junk as [|c junk]; [reflexivity|]. cbn.
  destruct (Nat.eqb (nat_of_ascii c) 101), (Nat.eqb (nat_of_ascii c) 69);
    rewrite ?orb_true_r; cbn; try discriminate; reflexivity.
Qed.

Lemma scanNumber_digits whole junk :
  whole <> [] -> forallb isDigit whole = true -> endsNumber junk = true ->
  scanNumber (whole ++ junk)
  = Some {| intDigits := whole; fracDigits := []; exponent := 0;
            afterNumber := junk |}.
Proof.
  intros N W J. unfold scanNumber. rewrite (span_digits whole junk W J).
  destruct whole as [|c whole]; [contradiction|].
  destruct junk as [|d junk]; [reflexivity|].
  rewrite (scanExponent_none (d :: junk) J).
  cbn in J. destruct (Nat.eqb (nat_of_ascii d) 46); [|reflexivity].
  rewrite orb_true_r in J. discriminate.
Qed.

Lemma parseFloat_digits whole junk :
  whole <> [] -> forallb isDigit whole = true -> endsNumber junk = true ->
  parseFloat (whole ++ junk) = parseFloat whole.
Proof.
  intros N W J.
  assert (Start : forall rest, exists c tail,
             whole ++ rest = c :: tail /\ isDigit c = true).
  { intros rest. destruct whole as [|c whole]; [contradiction|].
    exists c, (whole ++ rest). cbn in W. apply andb_prop in W as [Hc _]. now split. }
  assert (Same : forall rest, endsNumber rest = true ->
             parseFloat (whole ++ rest)
             = (if Qle_bool (lexemeValue
                               {| intDigits := whole; fracDigits := []; exponent := 0;
                                  afterNumber := rest |}) maxValueQ
                then FloatValue (lexemeValue
                               {| intDigits := whole; fracDigits := []; exponent := 0;
                                  afterNumber := rest |})
                else FloatInfinity)).
  { intros rest R. unfold parseFloat.
    destruct (Start rest) as (c & tail & E & D).
    assert (Code : (48 <= nat_of_ascii c <= 57)%nat).
    { unfold isDigit, charIn in D. apply andb_prop in D as [D1 D2].
      apply Nat.leb_le in D1, D2. lia. }
    assert (T : trimStart (whole ++ rest) = whole ++ rest).
    { rewrite E. cbn. unfold isWhiteSpace, charIn.
      destruct (Nat.leb_spec 9 (nat_of_ascii c)), (Nat.leb_spec (nat_of_ascii c) 13),
        (Nat.eqb_spec (nat_of_ascii c) 32), (Nat.eqb_spec (nat_of_ascii c) 160);
        cbn; try lia; reflexivity. }
    rewrite T. rewrite E at 1.
    destruct (Nat.eqb_spec (nat_of_ascii c) 43); [lia|].
    destruct (Nat.eqb_spec (nat_of_ascii c) 45); [lia|].
    rewrite E at 1.
    assert (I : startsWith (c :: tail) (chars "Infinity") = false).
    { cbn. destruct (Ascii.eqb_spec c "I"); [|reflexivity]. subst c. cbn in Code. lia. }
    rewrite I, (scanNumber_digits whole rest N W R). reflexivity. }
  rewrite (Same junk J). rewrite <- (app_nil_r whole) at 3.
  rewrite (Same [] eq_refl). reflexivity.
Qed.

(** X7: [parseFloat] reads the digits that a token starts with and ignores
    what follows them, so a [SET] command whose value is a run of digits
    followed by other characters is read as if the digits were the whole
    token. *)
Theorem X7_trailing_characters_ignored (n : nat)
    (command field whole junk : list ascii) :
  whole <> [] -> forallb isDigit whole = true -> endsNumber junk = true ->
  parseCommand [command; field; whole ++ junk] n
  = parseCommand [command; field; whole] n.
Proof.
  intros N W J. unfold parseCommand, parseSetControl, parseControlValue,
    parseNormalizedNumber.
  rewrite (parseFloat_digits whole junk N W J). reflexivity.
Qed.

Lemma X7_trailing_characters_ignored_witness :
  parseCommand [chars "SET"; chars "TURN"; chars "1" ++ chars "abc"] 3
  = parseCommand [chars "SET"; chars "TURN"; chars "1"] 3.
Proof.
  apply X7_trailing_characters_ignored; [discriminate | reflexivity | reflexivity].
Defined.

(** ** The parser: the calls of a parsed expression *)

Lemma whenParsed_Parsed {T} (P : T -> Prop) v : P v -> whenParsed P (Parsed v).
Proof. intros H w E. now injection E as <-. Qed.

Lemma whenParsed_throw {T} (P : T -> Prop) n e : whenParsed P (throw n e).
Proof. intros w E. discriminate. Qed.

Lemma whenParsed_Exhausted {T} (P : T -> Prop) : whenParsed P Exhausted.
Proof. intros w E. discriminate. Qed.

Lemma whenParsed_bind {A B} (Q : A -> Prop) (P : B -> Prop) m (k : A -> Outcome B) :
  whenParsed Q m -> (forall v, Q v -> whenParsed P (k v)) -> whenParsed P (bind m k).
Proof.
  intros Hm Hk. destruct m as [v| |]; cbn; try (intros w E; discriminate).
  apply Hk, Hm. reflexivity.
Qed.

Lemma arityRespected_function name args :
  arityRespected (FUNCTION name args)
  = Nat.eqb (List.length args) (EXPRESSION_FUNCTIONS name)
    && forallb arityRespected args.
Proof.
  reflexivity.
Qed.

Lemma expression_arity depth n :
  (forall tokens, returnsArity (parseAdditive depth n tokens))
  /\ (forall l tokens, arityRespected l = true ->
        returnsArity (additiveLoop depth n l tokens))
  /\ (forall tokens, returnsArity (parseMultiplicative depth n tokens))
  /\ (forall l tokens, arityRespected l = true ->
        returnsArity (multiplicativeLoop depth n l tokens))
  /\ (forall tokens, returnsArity (parseUnary depth n tokens))
  /\ (forall tokens, returnsArity (parsePrimary depth n tokens))
  /\ (forall name tokens, returnsArity (parseFunctionCall depth n name tokens))
  /\ (forall tokens,
        whenParsed (fun r => forallb arityRespected (fst r) = true)
          (parseArguments depth n tokens)).
Proof.
  unfold returnsArity.
  induction depth as [|depth (A & AL & M & ML & U & P & F & G)].
  - repeat split; intros; apply whenParsed_Exhausted.
  - repeat split; intros.
    + cbn [parseAdditive]. eapply whenParsed_bind; [apply M|].
      intros [e rest] He. apply AL, He.
    + cbn [additiveLoop].
      destruct (consumeSymbol "+" tokens).
      { eapply whenParsed_bind; [apply M|]. intros [e rest] He.
        apply AL. cbn in *. now rewrite H, He. }
      destruct (consumeSymbol "-" tokens).
      { eapply whenParsed_bind; [apply M|]. intros [e rest] He.
        apply AL. cbn in *. now rewrite H, He. }
      now apply whenParsed_Parsed.
    + cbn [parseMultiplicative]. eapply whenParsed_bind; [apply U|].
      intros [e rest] He. apply ML, He.
    + cbn [multiplicativeLoop].
      destruct (consumeSymbol "*" tokens).
      { eapply whenParsed_bind; [apply U|]. intros [e rest] He.
        apply ML. cbn in *. now rewrite H, He. }
      destruct (consumeSymbol "/" tokens).
      { eapply whenParsed_bind; [apply U|]. intros [e rest] He.
        apply ML. cbn in *. now rewrite H, He. }
      now apply whenParsed_Parsed.
    + cbn [parseUnary].
      destruct (consumeSymbol "+" tokens).
      { eapply whenParsed_bind; [apply U|]. intros [e rest] He.
        now apply whenParsed_Parsed. }
      destruct (consumeSymbol "-" tokens).
      { eapply whenParsed_bind; [apply U|]. intros [e rest] He.
        now apply whenParsed_Parsed. }
      apply P.
    + cbn [parsePrimary].
      destruct tokens as [|[value|value|value|] rest].
      * apply whenParsed_throw.
      * destruct (parseNormalizedNumber value n ExpressionNumberLabel);
          cbn [bind]; try (intros w E; discriminate).
        now apply whenParsed_Parsed.
      * destruct (consumeSymbol "(" rest); [apply F|].
        destruct (sensorVariable _); [now apply whenParsed_Parsed|].
        destruct (listEqb _ (chars "PI")); [now apply whenParsed_Parsed|].
        destruct (listEqb _ (chars "TAU")); [now apply whenParsed_Parsed|].
        apply whenParsed_throw.
      * destruct (consumeSymbol "(" _); [|apply whenParsed_throw].
        eapply whenParsed_bind; [apply A|]. intros [e rest'] He.
        destruct (expectSymbol ")" rest' n); cbn [bind];
          try (intros w E; discriminate).
        now apply whenParsed_Parsed.
      * apply whenParsed_throw.
    + cbn [parseFunctionCall].
      destruct (named EXPRESSION_FUNCTION_NAMES name) as [f|]; [|apply whenParsed_throw].
      eapply whenParsed_bind with (Q := fun r => forallb arityRespected (fst r) = true).
      { destruct (peekSymbol ")" tokens); [now apply whenParsed_Parsed | apply G]. }
      intros [args rest] Hargs.
      destruct (expectSymbol ")" rest n); cbn [bind]; try (intros w E; discriminate).
      destruct (Nat.eqb (List.length args) (EXPRESSION_FUNCTIONS f)) eqn:Ar;
        cbn [negb]; [|apply whenParsed_throw].
      apply whenParsed_Parsed. cbn [fst] in *.
      now rewrite arityRespected_function, Ar, Hargs.
    + cbn [parseArguments]. eapply whenParsed_bind; [apply A|].
      intros [e rest] He. destruct (consumeSymbol "," rest).
      * eapply whenParsed_bind; [apply G|]. intros [more rest'] Hmore.
        apply whenParsed_Parsed. cbn in *. now rewrite He, Hmore.
      * apply whenParsed_Parsed. cbn in *. now rewrite He.
Qed.

Lemma parseNumericExpression_arity text n :
  whenParsed (fun e => arityRespected e = true) (parseNumericExpression text n).
Proof.
  unfold parseNumericExpression. destruct (isEmpty (trim text)); [apply whenParsed_throw|].
  destruct (tokenizeExpression (trim text) n) as [tokens| |]; cbn [bind];
    try (intros w E; discriminate).
  unfold parseTokens. eapply whenParsed_bind;
    [apply (proj1 (expression_arity (parseDepth tokens) n))|].
  intros [e rest] He. destruct (currentToken rest);
    try apply whenParsed_throw. now apply whenParsed_Parsed.
Qed.

Lemma reduceLogical_arity parse operator parts :
  (forall part, whenParsed (fun c => conditionArity c = true) (parse part)) ->
  forall acc, conditionArity acc = true ->
  whenParsed (fun c => conditionArity c = true) (reduceLogical parse operator parts acc).
Proof.
  intros H. induction parts as [|part rest IH]; intros acc Hacc; cbn [reduceLogical].
  - now apply whenParsed_Parsed.
  - eapply whenParsed_bind; [apply H|]. intros c Hc. apply IH. cbn. now rewrite Hacc, Hc.
Qed.

Lemma parseConditionNode_arity depth : forall text n,
  whenParsed (fun c => conditionArity c = true) (parseConditionNode depth text n).
Proof.
  induction depth as [|depth IH]; intros text n; [apply whenParsed_Exhausted|].
  cbn [parseConditionNode].
  assert (Parts : forall operator texts,
            whenParsed (fun c => conditionArity c = true)
              (do first <- parseConditionNode depth (hd [] texts) n;
               reduceLogical (fun part => parseConditionNode depth part n)
                 operator (tl texts) first)).
  { intros. eapply whenParsed_bind; [apply IH|]. intros c Hc.
    apply reduceLogical_arity; [intros; apply IH | assumption]. }
  destruct (isEmpty _); [apply whenParsed_throw|].
  destruct (splitTopLevelByKeyword _ KeywordOr n) as [[texts|]| |]; cbn [bind];
    try (intros w E; discriminate); [apply Parts|].
  destruct (splitTopLevelByKeyword _ KeywordAnd n) as [[texts|]| |]; cbn [bind];
    try (intros w E; discriminate); [apply Parts|].
  destruct (matchesKeywordAt None _ KeywordNot).
  { destruct (isEmpty _); [apply whenParsed_throw|].
    eapply whenParsed_bind; [apply IH|]. intros c Hc. now apply whenParsed_Parsed. }
  destruct (listEqb _ _); [now apply whenParsed_Parsed|].
  destruct (splitConditionComparison _ n) as [comparison| |]; cbn [bind];
    try (intros w E; discriminate).
  eapply whenParsed_bind; [apply parseNumericExpression_arity|]. intros l Hl.
  eapply whenParsed_bind; [apply parseNumericExpression_arity|]. intros r Hr.
  apply whenParsed_Parsed. cbn. now rewrite Hl, Hr.
Qed.

Lemma parseSingleLine_arity rawLine n rule :
  parseSingleLine rawLine n = Parsed (Some rule) -> ruleArity rule = true.
Proof.
  unfold parseSingleLine.
  destruct (_ || _); [discriminate|].
  destruct (hasIfPrefix (trim rawLine)).
  - destruct (findThen _ None 0); [|discriminate].
    destruct (isEmpty _); [discriminate|].
    destruct (nonEmptyTokens _) as [|t ts]; [discriminate|].
    destruct (parseCondition _ n) as [c| |] eqn:E; try discriminate.
    cbn [bind]. destruct (parseCommand (t :: ts) n); try discriminate.
    cbn [bind]. intros H. injection H as <-. unfold ruleArity. cbn.
    unfold parseCondition in E. destruct (isEmpty _); [discriminate|].
    exact (parseConditionNode_arity _ _ _ _ E).
  - destruct (parseCommand _ n); try discriminate.
    cbn [bind]. intros H. injection H as <-. reflexivity.
Qed.

(** X8: in a program that [parseRobotScript] returns, every call of a
    function in the condition of a rule has the number of arguments of the
    function; these are the expressions on which an unavailable operand
    makes the whole expression unavailable. *)
Theorem X8_parsed_calls_respect_arity (s : string) (rules : list ScriptAction) :
  parseRobotScript s = Parsed rules -> forallb ruleArity rules = true.
Proof.
  intros H. apply forallb_forall. intros rule Hin.
  destruct (parseRobotScript_cases s) as [[B R]|[(B & L & R)|(B & L & R)]];
    rewrite R in H; try discriminate.
  destruct (parseLines _ 1) as [[|r more]|d|] eqn:E; try discriminate.
  injection H as <-.
  apply (parseLines_parsed _ _ _ E) in Hin as (k & _ & Hp).
  exact (parseSingleLine_arity _ _ _ Hp).
Qed.

Lemma X8_parsed_calls_respect_arity_witness :
  forallb ruleArity
    [ {| line := 1;
         condition :=
           Some (COMPARE (FUNCTION MIN [SENSOR ENEMY_DISTANCE; SENSOR WALL_AHEAD_DISTANCE])
                         OpLt (FUNCTION ABS [SENSOR ENEMY_DX]));
         command := FIRE true |} ] = true.
Proof.
  apply (X8_parsed_calls_respect_arity
           "IF min(ENEMY_DISTANCE, WALL_AHEAD_DISTANCE) < ABS(enemy_dx) THEN FIRE").
  reflexivity.
Defined.

(** ** The parser: its recursion ends *)

Lemma finishes_bind {A B} (m : Outcome A) (k : A -> Outcome B) :
  finishes m -> (forall v, m = Parsed v -> finishes (k v)) -> finishes (bind m k).
Proof.
  unfold finishes. intros Hm Hk. destruct m as [v| |]; cbn;
    [now apply Hk | discriminate | contradiction].
Qed.

Lemma consumeSymbol_length symbol tokens rest :
  consumeSymbol symbol tokens = Some rest ->
  List.length tokens = Datatypes.S (List.length rest).
Proof.
  unfold consumeSymbol. destruct tokens as [|[v|v|v|] tokens]; try discriminate.
  destruct (listEqb [v] (chars symbol)); [|discriminate].
  intros H. now injection H as <-.
Qed.

Lemma expectSymbol_length symbol tokens n rest :
  expectSymbol symbol tokens n = Parsed rest ->
  List.length tokens = Datatypes.S (List.length rest).
Proof.
  unfold expectSymbol. destruct (consumeSymbol _ tokens) eqn:E; [|discriminate].
  intros H. injection H as <-. exact (consumeSymbol_length _ _ _ E).
Qed.

Ltac parsed_cases :=
  repeat match goal with
         | |- whenParsed _ (throw _ _) => apply whenParsed_throw
         | |- whenParsed _ Exhausted => apply whenParsed_Exhausted
         | |- whenParsed _ (Failed _) => intros ? ?; discriminate
         | |- whenParsed _ (Parsed _) => apply whenParsed_Parsed
         end.

Lemma expression_consumes depth n :
  (forall tokens, consumes tokens (parseAdditive depth n tokens))
  /\ (forall l tokens, keeps tokens (additiveLoop depth n l tokens))
  /\ (forall tokens, consumes tokens (parseMultiplicative depth n tokens))
  /\ (forall l tokens, keeps tokens (multiplicativeLoop depth n l tokens))
  /\ (forall tokens, consumes tokens (parseUnary depth n tokens))
  /\ (forall tokens, consumes tokens (parsePrimary depth n tokens))
  /\ (forall name tokens, consumes tokens (parseFunctionCall depth n name tokens))
  /\ (forall tokens, consumes tokens (parseArguments depth n tokens)).
Proof.
  unfold consumes, keeps.
  induction depth as [|depth (A & AL & M & ML & U & P & F & G)].
  - repeat split; intros; apply whenParsed_Exhausted.
  - repeat split; intros.
    + cbn [parseAdditive]. eapply whenParsed_bind; [apply M|].
      intros [e rest] He. intros w E. apply AL in E. cbn in *. lia.
    + cbn [additiveLoop].
      destruct (consumeSymbol "+" tokens) eqn:C.
      { apply consumeSymbol_length in C.
        eapply whenParsed_bind; [apply M|]. intros [e rest] He.
        intros w E. apply AL in E. cbn in *. lia. }
      destruct (consumeSymbol "-" tokens) eqn:C'.
      { apply consumeSymbol_length in C'.
        eapply whenParsed_bind; [apply M|]. intros [e rest] He.
        intros w E. apply AL in E. cbn in *. lia. }
      apply whenParsed_Parsed. cbn. lia.
    + cbn [parseMultiplicative]. eapply whenParsed_bind; [apply U|].
      intros [e rest] He. intros w E. apply ML in E. cbn in *. lia.
    + cbn [multiplicativeLoop].
      destruct (consumeSymbol "*" tokens) eqn:C.
      { apply consumeSymbol_length in C.
        eapply whenParsed_bind; [apply U|]. intros [e rest] He.
        intros w E. apply ML in E. cbn in *. lia. }
      destruct (consumeSymbol "/" tokens) eqn:C'.
      { apply consumeSymbol_length in C'.
        eapply whenParsed_bind; [apply U|]. intros [e rest] He.
        intros w E. apply ML in E. cbn in *. lia. }
      apply whenParsed_Parsed. cbn. lia.
    + cbn [parseUnary].
      destruct (consumeSymbol "+" tokens) eqn:C.
      { apply consumeSymbol_length in C.
        eapply whenParsed_bind; [apply U|]. intros [e rest] He.
        apply whenParsed_Parsed. cbn in *. lia. }
      destruct (consumeSymbol "-" tokens) eqn:C'.
      { apply consumeSymbol_length in C'.
        eapply whenParsed_bind; [apply U|]. intros [e rest] He.
        apply whenParsed_Parsed. cbn in *. lia. }
      apply P.
    + cbn [parsePrimary].
      destruct tokens as [|[value|value|value|] rest].
      * apply whenParsed_throw.
      * destruct (parseNormalizedNumber value n ExpressionNumberLabel);
          cbn [bind]; parsed_cases. cbn. lia.
      * destruct (consumeSymbol "(" rest) eqn:C.
        { apply consumeSymbol_length in C.
          intros w E. apply F in E. cbn in *. lia. }
        destruct (sensorVariable _); parsed_cases; [cbn; lia|].
        destruct (listEqb _ (chars "PI")); parsed_cases; [cbn; lia|].
        destruct (listEqb _ (chars "TAU")); parsed_cases. cbn; lia.
      * destruct (consumeSymbol "(" _) eqn:C; parsed_cases.
        apply consumeSymbol_length in C.
        eapply whenParsed_bind; [apply A|]. intros [e rest'] He.
        destruct (expectSymbol ")" rest' n) eqn:X; cbn [bind]; parsed_cases.
        apply expectSymbol_length in X. cbn in *. lia.
      * apply whenParsed_throw.
    + cbn [parseFunctionCall].
      destruct (named EXPRESSION_FUNCTION_NAMES name) as [f|]; parsed_cases.
      eapply whenParsed_bind
        with (Q := fun r => (List.length (snd r) <= List.length tokens)%nat).
      { destruct (peekSymbol ")" tokens); parsed_cases; [cbn; lia|].
        intros v E. apply G in E. lia. }
      intros [args rest] Hargs.
      destruct (expectSymbol ")" rest n) eqn:X; cbn [bind]; parsed_cases.
      apply expectSymbol_length in X.
      destruct (negb _); parsed_cases. cbn in *. lia.
    + cbn [parseArguments]. eapply whenParsed_bind; [apply A|].
      intros [e rest] He. destruct (consumeSymbol "," rest) eqn:C.
      * apply consumeSymbol_length in C.
        eapply whenParsed_bind; [apply G|]. intros [more rest'] Hmore.
        apply whenParsed_Parsed. cbn in *. lia.
      * apply whenParsed_Parsed. cbn in *. lia.
Qed.

Lemma finishes_throw {T} n e : finishes (@throw T n e).
Proof. discriminate. Qed.

Lemma finishes_Parsed {T} (v : T) : finishes (Parsed v).
Proof. discriminate. Qed.

Lemma finishes_parseNormalizedNumber token n label :
  finishes (parseNormalizedNumber token n label).
Proof. unfold parseNormalizedNumber. destruct (parseFloat token); discriminate. Qed.

Lemma finishes_expectSymbol symbol tokens n : finishes (expectSymbol symbol tokens n).
Proof. unfold expectSymbol. destruct (consumeSymbol _ tokens); discriminate. Qed.

(** The depth that each method needs on [tokens]. *)
Lemma expression_finishes depth n :
  (forall tokens, (4 * List.length tokens + 4 <= depth)%nat ->
     finishes (parseAdditive depth n tokens))
  /\ (forall l tokens, (4 * List.length tokens + 3 <= depth)%nat ->
        finishes (additiveLoop depth n l tokens))
  /\ (forall tokens, (4 * List.length tokens + 3 <= depth)%nat ->
        finishes (parseMultiplicative depth n tokens))
  /\ (forall l tokens, (4 * List.length tokens + 2 <= depth)%nat ->
        finishes (multiplicativeLoop depth n l tokens))
  /\ (forall tokens, (4 * List.length tokens + 2 <= depth)%nat ->
        finishes (parseUnary depth n tokens))
  /\ (forall tokens, (4 * List.length tokens + 1 <= depth)%nat ->
        finishes (parsePrimary depth n tokens))
  /\ (forall name tokens, (4 * List.length tokens + 6 <= depth)%nat ->
        finishes (parseFunctionCall depth n name tokens))
  /\ (forall tokens, (4 * List.length tokens + 5 <= depth)%nat ->
        finishes (parseArguments depth n tokens)).
Proof.
  induction depth as [|depth (A & AL & M & ML & U & P & F & G)].
  - repeat split; intros; lia.
  - destruct (expression_consumes depth n) as (cA & cAL & cM & cML & cU & cP & cF & cG).
    repeat split; intros.
    + cbn [parseAdditive]. apply finishes_bind; [apply M; lia|].
      intros [e rest] E. apply cM in E. apply AL. cbn in E. lia.
    + cbn [additiveLoop].
      destruct (consumeSymbol "+" tokens) eqn:C.
      { apply consumeSymbol_length in C. apply finishes_bind; [apply M; lia|].
        intros [e rest] E. apply cM in E. apply AL. cbn in E. lia. }
      destruct (consumeSymbol "-" tokens) eqn:C'; [|apply finishes_Parsed].
      apply consumeSymbol_length in C'. apply finishes_bind; [apply M; lia|].
      intros [e rest] E. apply cM in E. apply AL. cbn in E. lia.
    + cbn [parseMultiplicative]. apply finishes_bind; [apply U; lia|].
      intros [e rest] E. apply cU in E. apply ML. cbn in E. lia.
    + cbn [multiplicativeLoop].
      destruct (consumeSymbol "*" tokens) eqn:C.
      { apply consumeSymbol_length in C. apply finishes_bind; [apply U; lia|].
        intros [e rest] E. apply cU in E. apply ML. cbn in E. lia. }
      destruct (consumeSymbol "/" tokens) eqn:C'; [|apply finishes_Parsed].
      apply consumeSymbol_length in C'. apply finishes_bind; [apply U; lia|].
      intros [e rest] E. apply cU in E. apply ML. cbn in E. lia.
    + cbn [parseUnary].
      destruct (consumeSymbol "+" tokens) eqn:C.
      { apply consumeSymbol_length in C. apply finishes_bind; [apply U; lia|].
        intros [e rest] E. apply finishes_Parsed. }
      destruct (consumeSymbol "-" tokens) eqn:C'; [|apply P; lia].
      apply consumeSymbol_length in C'. apply finishes_bind; [apply U; lia|].
      intros [e rest] E. apply finishes_Parsed.
    + cbn [parsePrimary].
      destruct tokens as [|[value|value|value|] rest].
      * apply finishes_throw.
      * apply finishes_bind; [apply finishes_parseNormalizedNumber|].
        intros; apply finishes_Parsed.
      * destruct (consumeSymbol "(" rest) eqn:C.
        { apply consumeSymbol_length in C. apply F. cbn in H. lia. }
        destruct (sensorVariable _); [apply finishes_Parsed|].
        destruct (listEqb _ (chars "PI")); [apply finishes_Parsed|].
        destruct (listEqb _ (chars "TAU")); [apply finishes_Parsed|apply finishes_throw].
      * destruct (consumeSymbol "(" _) eqn:C; [|apply finishes_throw].
        apply consumeSymbol_length in C.
        apply finishes_bind; [apply A; lia|]. intros [e rest'] E.
        apply finishes_bind; [apply finishes_expectSymbol|].
        intros; apply finishes_Parsed.
      * apply finishes_throw.
    + cbn [parseFunctionCall].
      destruct (named EXPRESSION_FUNCTION_NAMES name) as [f|]; [|apply finishes_throw].
      apply finishes_bind.
      { destruct (peekSymbol ")" tokens); [apply finishes_Parsed | apply G; lia]. }
      intros [args rest] E.
      apply finishes_bind; [apply finishes_expectSymbol|]. intros rest' E'.
      destruct (negb _); [apply finishes_throw | apply finishes_Parsed].
    + cbn [parseArguments]. apply finishes_bind; [apply A; lia|].
      intros [e rest] E. apply cA in E.
      destruct (consumeSymbol "," rest) eqn:C; [|apply finishes_Parsed].
      apply consumeSymbol_length in C.
      apply finishes_bind; [apply G; cbn in E; lia|].
      intros [more rest'] _. apply finishes_Parsed.
Qed.

Lemma finishes_tokenizeFrom from : forall skip n, finishes (tokenizeFrom from skip n).
Proof.
  induction from as [|c rest IH]; intros skip n; cbn; [apply finishes_Parsed|].
  destruct skip; [|apply IH].
  destruct (isWhiteSpace c); [apply IH|].
  destruct (tokenAt (c :: rest)) as [[token len]|]; [|apply finishes_throw].
  apply finishes_bind; [apply IH | intros; apply finishes_Parsed].
Qed.

Lemma finishes_parseNumericExpression text n :
  finishes (parseNumericExpression text n).
Proof.
  unfold parseNumericExpression.
  destruct (isEmpty _); [apply finishes_throw|].
  apply finishes_bind; [apply finishes_tokenizeFrom|]. intros tokens _.
  unfold parseTokens. apply finishes_bind.
  - apply (proj1 (expression_finishes (parseDepth tokens) n)). unfold parseDepth. lia.
  - intros [e rest] _. destruct (currentToken rest);
      (apply finishes_Parsed || apply finishes_throw).
Qed.

Lemma finishes_findComparator from : forall index depth skip found n,
  finishes (findComparator from index depth skip found n).
Proof.
  induction from as [|c rest IH]; intros; cbn [findComparator].
  - destruct depth; [apply finishes_Parsed | apply finishes_throw].
  - destruct skip; [|apply IH].
    destruct (isChar "(" c); [apply IH|].
    destruct (isChar ")" c).
    { destruct depth; [apply finishes_throw | apply IH]. }
    destruct depth; [|apply IH].
    destruct (operatorAt (c :: rest)) as [[operator len]|]; [|apply IH].
    destruct found; [apply finishes_throw | apply IH].
Qed.

Lemma finishes_splitConditionComparison text n :
  finishes (splitConditionComparison text n).
Proof.
  unfold splitConditionComparison.
  apply finishes_bind; [apply finishes_findComparator|]. intros [f|] _.
  - destruct (_ || _); [apply finishes_throw | apply finishes_Parsed].
  - apply finishes_throw.
Qed.

(** The parts that [splitLoop] pushes are shorter than the text it reads,
    and so is what it leaves after a part. *)
Lemma splitLoop_lengths keyword n from : forall before depth skip segment parts tail,
  splitLoop from before depth skip segment keyword n = Parsed (parts, tail) ->
  Forall (fun part => (List.length part < List.length segment + List.length from)%nat)
    parts
  /\ (List.length tail <= List.length segment + List.length from)%nat
  /\ (parts <> [] ->
      (List.length tail < List.length segment + List.length from)%nat).
Proof.
  induction from as [|c rest IH]; intros before depth skip segment parts tail H.
  - cbn in H. destruct depth; [|discriminate]. injection H as <- <-.
    rewrite length_rev. repeat split; [constructor | lia | congruence].
  - cbn [splitLoop] in H.
    assert (Step : forall before' depth' skip',
              splitLoop rest before' depth' skip' (c :: segment) keyword n
              = Parsed (parts, tail) ->
              Forall (fun part => (List.length part
                         < List.length segment + List.length (c :: rest))%nat) parts
              /\ (List.length tail <= List.length segment + List.length (c :: rest))%nat
              /\ (parts <> [] -> (List.length tail
                         < List.length segment + List.length (c :: rest))%nat)).
    { intros b d k E. apply IH in E as (E1 & E2 & E3). cbn [List.length] in *.
      repeat split; [eapply Forall_impl; [|exact E1]; cbn; intros; lia | lia |].
      intros N. specialize (E3 N). lia. }
    destruct skip.
    2:{ apply IH in H as (E1 & E2 & E3). cbn [List.length].
        repeat split; [eapply Forall_impl; [|exact E1]; cbn; intros; lia | lia |].
        intros N. specialize (E3 N). lia. }
    destruct (isChar "(" c); [now apply Step in H|].
    destruct (isChar ")" c).
    { destruct depth; [discriminate | now apply Step in H]. }
    destruct depth; [|now apply Step in H].
    destruct (matchesKeywordAt _ _ _); [|now apply Step in H].
    destruct (isEmpty _); [discriminate|].
    destruct (splitLoop rest _ 0 _ [] keyword n) as [[parts' tail']| |] eqn:E;
      try discriminate.
    cbn [bind] in H. injection H as <- <-.
    apply IH in E as (E1 & E2 & E3). cbn [List.length] in *.
    pose proof (trim_length (rev segment)) as T. rewrite length_rev in T.
    repeat split.
    + constructor; [lia|]. eapply Forall_impl; [|exact E1]. cbn; intros; lia.
    + lia.
    + intros _. lia.
Qed.

Lemma finishes_splitLoop keyword n from : forall before depth skip segment,
  finishes (splitLoop from before depth skip segment keyword n).
Proof.
  induction from as [|c rest IH]; intros; cbn [splitLoop].
  - destruct depth; [apply finishes_Parsed | apply finishes_throw].
  - destruct skip; [|apply IH].
    destruct (isChar "(" c); [apply IH|].
    destruct (isChar ")" c).
    { destruct depth; [apply finishes_throw | apply IH]. }
    destruct depth; [|apply IH].
    destruct (matchesKeywordAt _ _ _); [|apply IH].
    destruct (isEmpty _); [apply finishes_throw|].
    apply finishes_bind; [apply IH|]. intros [parts tail] _. apply finishes_Parsed.
Qed.

Lemma finishes_splitTopLevelByKeyword text keyword n :
  finishes (splitTopLevelByKeyword text keyword n).
Proof.
  unfold splitTopLevelByKeyword.
  apply finishes_bind; [apply finishes_splitLoop|]. intros [[|part parts] tail] _.
  - apply finishes_Parsed.
  - destruct (isEmpty _); [apply finishes_throw | apply finishes_Parsed].
Qed.

Lemma splitTopLevelByKeyword_shorter text keyword n texts :
  splitTopLevelByKeyword text keyword n = Parsed (Some texts) ->
  Forall (fun part => (List.length part < List.length text)%nat) texts.
Proof.
  unfold splitTopLevelByKeyword.
  destruct (splitLoop (trim text) None 0 0 [] keyword n) as [[parts tail]| |] eqn:E;
    try discriminate.
  cbn [bind]. destruct parts as [|part parts]; [discriminate|].
  destruct (isEmpty _); [discriminate|]. intros H. injection H as <-.
  apply splitLoop_lengths in E as (E1 & E2 & E3). cbn [List.length] in *.
  pose proof (trim_length text). pose proof (trim_length tail).
  specialize (E3 ltac:(discriminate)).
  change (part :: parts ++ [trim tail]) with ((part :: parts) ++ [trim tail]).
  apply Forall_app. split.
  - eapply Forall_impl; [|exact E1]. cbn; intros; lia.
  - constructor; [lia | constructor].
Qed.

Lemma stripLoop_length rounds : forall value,
  (List.length (stripLoop rounds value) <= List.length value)%nat.
Proof.
  induction rounds as [|rounds IH]; intros value; cbn [stripLoop]; [lia|].
  destruct (isWrappedByOuterParentheses value); [|lia].
  etransitivity; [apply IH|]. etransitivity; [apply trim_length|].
  destruct value as [|c value]; cbn [tl]; [cbn; lia|].
  destruct value as [|d value] using rev_ind; [cbn; lia|].
  rewrite removelast_last. cbn [List.length]. rewrite length_app. cbn. lia.
Qed.

Lemma stripOuterParentheses_length text :
  (List.length (stripOuterParentheses text) <= List.length text)%nat.
Proof.
  unfold stripOuterParentheses.
  etransitivity; [apply stripLoop_length | apply trim_length].
Qed.

Lemma finishes_reduceLogical parse operator parts :
  Forall (fun part => finishes (parse part)) parts ->
  forall acc, finishes (reduceLogical parse operator parts acc).
Proof.
  induction 1 as [|part rest Hp _ IH]; intros acc; cbn [reduceLogical].
  - apply finishes_Parsed.
  - apply finishes_bind; [assumption | intros; apply IH].
Qed.

Lemma finishes_parseConditionNode depth : forall text n,
  (List.length text < depth)%nat -> finishes (parseConditionNode depth text n).
Proof.
  induction depth as [|depth IH]; intros text n Len; [lia|].
  cbn [parseConditionNode].
  pose proof (stripOuterParentheses_length text) as Strip.
  destruct (isEmpty (stripOuterParentheses text)) eqn:Empty; [apply finishes_throw|].
  assert (Positive : (0 < List.length (stripOuterParentheses text))%nat).
  { destruct (stripOuterParentheses text); [discriminate | cbn; lia]. }
  assert (Parts : forall operator keyword texts,
            splitTopLevelByKeyword (stripOuterParentheses text) keyword n
            = Parsed (Some texts) ->
            finishes
              (do first <- parseConditionNode depth (hd [] texts) n;
               reduceLogical (fun part => parseConditionNode depth part n)
                 operator (tl texts) first)).
  { intros operator keyword texts E. apply splitTopLevelByKeyword_shorter in E.
    apply finishes_bind.
    - apply IH. destruct E as [|part rest Hp _]; cbn; lia.
    - intros first _. apply finishes_reduceLogical.
      destruct E as [|part rest Hp Hrest]; cbn [tl]; [constructor|].
      eapply Forall_impl; [|exact Hrest]. cbn. intros; apply IH; lia. }
  apply finishes_bind; [apply finishes_splitTopLevelByKeyword|].
  intros [texts|] E; [now apply (Parts OR KeywordOr)|].
  apply finishes_bind; [apply finishes_splitTopLevelByKeyword|].
  intros [texts|] E'; [now apply (Parts AND KeywordAnd)|].
  destruct (matchesKeywordAt None _ KeywordNot).
  { destruct (isEmpty (trim (sliceFrom (stripOuterParentheses text) 3)));
      [apply finishes_throw|].
    apply finishes_bind; [|intros; apply finishes_Parsed].
    apply IH. pose proof (trim_length (sliceFrom (stripOuterParentheses text) 3)) as T.
    unfold sliceFrom in *. rewrite length_skipn in T. lia. }
  destruct (listEqb _ _); [apply finishes_Parsed|].
  apply finishes_bind; [apply finishes_splitConditionComparison|]. intros comparison _.
  apply finishes_bind; [apply finishes_parseNumericExpression|]. intros l _.
  apply finishes_bind; [apply finishes_parseNumericExpression|]. intros r _.
  apply finishes_Parsed.
Qed.

Lemma finishes_parseCommand tokens n : finishes (parseCommand tokens n).
Proof.
  unfold parseCommand, parseSetControl, parseFire, parseBoost, parseControlValue.
  repeat match goal with
         | |- finishes (match ?x with _ => _ end) => destruct x
         | |- finishes (if ?b then _ else _) => destruct b
         | |- finishes (bind _ _) =>
             apply finishes_bind; [try apply finishes_parseNormalizedNumber | intros]
         | |- finishes (Parsed _) => apply finishes_Parsed
         | |- finishes (throw _ _) => apply finishes_throw
         end.
Qed.

Lemma finishes_parseSingleLine rawLine n : finishes (parseSingleLine rawLine n).
Proof.
  unfold parseSingleLine.
  destruct (_ || _); [apply finishes_Parsed|].
  destruct (hasIfPrefix _).
  - destruct (findThen _ None 0); [|apply finishes_throw].
    destruct (isEmpty _); [apply finishes_throw|].
    destruct (nonEmptyTokens _); [apply finishes_throw|].
    apply finishes_bind.
    { unfold parseCondition. destruct (isEmpty _); [apply finishes_throw|].
      apply finishes_parseConditionNode. lia. }
    intros c _. apply finishes_bind; [apply finishes_parseCommand|].
    intros; apply finishes_Parsed.
  - apply finishes_bind; [apply finishes_parseCommand|].
    intros; apply finishes_Parsed.
Qed.

Lemma finishes_parseLines lines : forall n, finishes (parseLines lines n).
Proof.
  induction lines as [|rawLine rest IH]; intros n; cbn [parseLines].
  - apply finishes_Parsed.
  - apply finishes_bind; [apply finishes_parseSingleLine|]. intros parsed _.
    apply finishes_bind; [apply IH|]. intros; apply finishes_Parsed.
Qed.

(** X9: the recursive descent of the parser ends on every script:
    [parseRobotScript] returns a program or throws an error, the bounds
    that the model puts on the depth of the recursion of the expression
    and condition parsers are never reached. *)
Theorem X9_parser_terminates (s : string) :
  (exists rules, parseRobotScript s = Parsed rules)
  \/ (exists d, parseRobotScript s = Failed d).
Proof.
  assert (F : finishes (parseRobotScript s)).
  { unfold parseRobotScript. destruct (isEmpty _); [discriminate|].
    destruct (_ <? _)%nat; [discriminate|].
    apply finishes_bind; [apply finishes_parseLines|].
    intros [|rule rules] _; discriminate. }
  destruct (parseRobotScript s) as [rules|d|]; [eauto | eauto | contradiction].
Qed.

(** * Properties of the engine: angles *)

Lemma Ztrunc_nonneg v : 0 <= v -> Ztrunc v = Zfloor v.
Proof. intros H. unfold Ztrunc. rewrite Rltb_is_false; [reflexivity | lra]. Qed.

Lemma Ztrunc_neg v : v < 0 -> Ztrunc v = Zceil v.
Proof. intros H. unfold Ztrunc. rewrite Rltb_is_true; [reflexivity | lra]. Qed.

Lemma jsRem_nonneg a n : 0 < n -> 0 <= a -> 0 <= jsRem a n < n.
Proof.
  intros Hn Ha. unfold jsRem.
  assert (Q : 0 <= a / n) by (apply Rmult_le_pos; [lra | left; now apply Rinv_0_lt_compat]).
  rewrite (Ztrunc_nonneg _ Q).
  pose proof (Zfloor_bound (a / n)) as [Lo Hi].
  apply (Rmult_le_compat_l n) in Lo; [|lra].
  apply (Rmult_lt_compat_l n) in Hi; [|lra].
  replace (n * (a / n)) with a in Lo, Hi by (field; lra). lra.
Qed.

Lemma jsRem_neg a n : 0 < n -> a < 0 -> - n < jsRem a n <= 0.
Proof.
  intros Hn Ha. unfold jsRem.
  assert (Q : a / n < 0).
  { apply Rmult_lt_reg_r with n; [lra|].
    replace (a / n * n) with a by (field; lra). lra. }
  rewrite (Ztrunc_neg _ Q).
  pose proof (Zceil_bound (a / n)) as [Lo Hi].
  apply (Rmult_lt_compat_l n) in Lo; [|lra].
  apply (Rmult_le_compat_l n) in Hi; [|lra].
  replace (n * (a / n)) with a in Lo, Hi by (field; lra). lra.
Qed.

Lemma jsRem_small a n : 0 <= a < n -> jsRem a n = a.
Proof.
  intros [Ha Hn]. unfold jsRem.
  assert (Q : 0 <= a / n < 1).
  { split.
    - apply Rmult_le_pos; [lra | left; apply Rinv_0_lt_compat; lra].
    - apply Rmult_lt_reg_r with n; [lra|]. replace (a / n * n) with a by (field; lra). lra. }
  rewrite (Ztrunc_nonneg _ (proj1 Q)), (Zfloor_eq 0); [lra | cbn; lra].
Qed.

(** The representative in [0, turn) of [angle] modulo [turn]. *)
Lemma normalized_turn turn angle :
  0 < turn ->
  let normalized := jsRem angle turn in
  let result := if Rltb normalized 0 then normalized + turn else normalized in
  0 <= result < turn /\ exists k : Z, result = angle + turn * IZR k.
Proof.
  intros Ht normalized result. subst result normalized. split.
  - destruct (Rle_or_lt 0 angle) as [Ha|Ha].
    + pose proof (jsRem_nonneg angle turn Ht Ha). rewrite Rltb_is_false; lra.
    + pose proof (jsRem_neg angle turn Ht Ha).
      unfold Rltb. destruct (Rlt_dec (jsRem angle turn) 0); lra.
  - unfold Rltb. destruct (Rlt_dec (jsRem angle turn) 0); unfold jsRem.
    + exists (1 - Ztrunc (angle / turn))%Z. rewrite minus_IZR. lra.
    + exists (- Ztrunc (angle / turn))%Z. rewrite opp_IZR. lra.
Qed.

Lemma normalizeAngleRad_range angle : 0 <= normalizeAngleRad angle < PI * 2.
Proof.
  pose proof PI_RGT_0.
  exact (proj1 (normalized_turn (PI * 2) angle ltac:(lra))).
Qed.

Lemma normalizeHeadingDeg_range value : 0 <= normalizeHeadingDeg value < 360.
Proof. exact (proj1 (normalized_turn 360 value ltac:(lra))). Qed.

Lemma normalizeAngleRad_small angle :
  0 <= angle < PI * 2 -> normalizeAngleRad angle = angle.
Proof.
  intros H. unfold normalizeAngleRad. cbv zeta.
  rewrite (jsRem_small _ _ H), Rltb_is_false; [reflexivity | lra].
Qed.

Lemma normalizeHeadingDeg_small value :
  0 <= value < 360 -> normalizeHeadingDeg value = value.
Proof.
  intros H. unfold normalizeHeadingDeg. cbv zeta.
  rewrite (jsRem_small _ _ H), Rltb_is_false; [reflexivity | lra].
Qed.

(** X10: [normalizeAngleRad] and [normalizeHeadingDeg] bring an angle
    into one turn: the result lies between 0 and a full turn (the full turn
    itself is not excluded: the sum of a tiny negative remainder and a full
    turn can be the full turn).  The result of [normalizeHeadingDeg] differs
    from the angle by a whole number of turns, and so does the result of
    [normalizeAngleRad] for an angle between - 2 pi and 4 pi, such as a
    heading plus the turn of a tick; [normalizeHeadingDeg] leaves an angle
    of [0, 360) as it is. *)
Theorem X10_angles_normalized (angle : R) :
  (0 <= normalizeAngleRad angle <= PI * 2
   /\ (- (PI * 2) <= angle <= PI * 4 ->
       exists k : Z, normalizeAngleRad angle = angle + PI * 2 * IZR k))
  /\ (0 <= normalizeHeadingDeg angle <= 360
      /\ exists k : Z, normalizeHeadingDeg angle = angle + 360 * IZR k)
  /\ (0 <= angle < 360 -> normalizeHeadingDeg angle = angle).
Proof.
  pose proof PI_RGT_0.
  destruct (normalized_turn (PI * 2) angle ltac:(lra)) as [R1 K1].
  destruct (normalized_turn 360 angle ltac:(lra)) as [R2 K2].
  fold (normalizeAngleRad angle) in R1, K1.
  fold (normalizeHeadingDeg angle) in R2, K2.
  split; [split; [lra | intros _; exact K1]|].
  split; [split; [lra | exact K2]|].
  apply normalizeHeadingDeg_small.
Qed.

(** X11: the heading of a direction reads back as the direction:
    [directionFromHeading (headingByDirection d) = d]. *)
Theorem X11_direction_round_trip (d : Direction) :
  directionFromHeading (headingByDirection d) = d.
Proof.
  pose proof PI_RGT_0 as P.
  unfold directionFromHeading, headingByDirection.
  assert (Small : 0 <= DIRECTION_ANGLE_DEG d * PI / 180 < PI * 2)
    by (destruct d; cbn; lra).
  rewrite (normalizeAngleRad_small _ Small).
  replace (DIRECTION_ANGLE_DEG d * PI / 180 * 180 / PI) with (DIRECTION_ANGLE_DEG d)
    by (field; lra).
  destruct d; cbn [DIRECTION_ANGLE_DEG];
    repeat first
      [ rewrite Rleb_is_true by lra | rewrite Rleb_is_false by lra
      | rewrite Rltb_is_true by lra | rewrite Rltb_is_false by lra ];
    reflexivity.
Qed.

(** X12: [shortestAngleDiffDeg] returns the difference of the two angles
    modulo a full turn that lies in (-180, 180]. *)
Theorem X12_shortest_angle_diff (targetDeg currentDeg : R) :
  -180 < shortestAngleDiffDeg targetDeg currentDeg <= 180
  /\ exists k : Z,
       shortestAngleDiffDeg targetDeg currentDeg = targetDeg - currentDeg + 360 * IZR k.
Proof.
  unfold shortestAngleDiffDeg. cbv zeta.
  destruct (normalized_turn 360 targetDeg ltac:(lra)) as [Rt [kt Kt]].
  destruct (normalized_turn 360 currentDeg ltac:(lra)) as [Rc [kc Kc]].
  fold (normalizeHeadingDeg targetDeg) in Rt, Kt.
  fold (normalizeHeadingDeg currentDeg) in Rc, Kc.
  unfold Rltb, Rleb.
  destruct (Rlt_dec 180 _).
  { split; [lra|]. exists (kt - kc - 1)%Z. rewrite !minus_IZR, Kt, Kc. lra. }
  destruct (Rle_dec _ (-180)).
  { split; [lra|]. exists (kt - kc + 1)%Z. rewrite plus_IZR, minus_IZR, Kt, Kc. lra. }
  split; [lra|]. exists (kt - kc)%Z. rewrite minus_IZR, Kt, Kc. lra.
Qed.

(** ** The heading over a battle *)

Lemma computeRotation_heading r c :
  headingRad (fst (computeRotation r c))
  = normalizeAngleRad (headingRad r + turnOfTick c).
Proof.
  pose proof PI_RGT_0.
  unfold computeRotation, turnOfTick. cbn [fst headingRad setHeadingRad].
  f_equal. f_equal.
  unfold TURN_RATE_RAD_PER_SECOND, TURN_RATE_DEG_PER_SECOND, TICK_DURATION_MS,
    TARGET_FPS, FIRE_TURN_MULTIPLIER.
  destruct (fire c); field.
Qed.

Lemma resolveFiring_heading a b cA cB :
  headingRad (fst (fst (resolveFiring a b cA cB))) = headingRad a
  /\ headingRad (snd (fst (resolveFiring a b cA cB))) = headingRad b.
Proof.
  rewrite resolveFiring_eq. cbv zeta. cbn [fst snd].
  split.
  - destruct (fireAttempt_fields (if alive a then tickCooldown a else a)
                (id (if alive b then tickCooldown b else b)) cA
                (initialFireResolution (if alive a then tickCooldown a else a)
                   (if alive b then tickCooldown b else b) cA cB))
      as (_ & _ & _ & _ & _ & _ & ->).
    now destruct (alive a).
  - match goal with
    | |- headingRad (fst (fireAttempt ?s ?t ?c ?acc)) = _ =>
        destruct (fireAttempt_fields s t c acc) as (_ & _ & _ & _ & _ & _ & ->)
    end.
    now destruct (alive b).
Qed.

Lemma endOfTick_heading adv r :
  headingRad (refreshDirection (applyPendingKill adv r)) = headingRad r.
Proof.
  unfold refreshDirection, applyPendingKill.
  now destruct (setHas (pendingKills adv) (id r)).
Qed.

(** The heading that a tick leaves is the one that its rotation phase
    computed. *)
Lemma tick_heading N t st :
  let L := tickLocals N st in
  headingRad (stateA (fst (simulateTick N t st))) = headingRad (rotatedA L)
  /\ headingRad (stateB (fst (simulateTick N t st))) = headingRad (rotatedB L).
Proof.
  cbv zeta.
  destruct (simulateTick_state N t st) as (EA & EB & _). cbv zeta in EA, EB.
  rewrite EB, EA.
  destruct (rememberEnemy_fields (endA N st) (endB N st)
              (perceptionPair (endA N st) (endB N st) N)) as (_ & _ & -> & _).
  destruct (rememberEnemy_fields (endB N st)
              (rememberEnemy (endA N st) (endB N st)
                 (perceptionPair (endA N st) (endB N st) N))
              (perceptionPair (endA N st) (endB N st) N)) as (_ & _ & -> & _).
  unfold endA, endB. cbv zeta. rewrite !endOfTick_heading.
  pose proof (tickLocals_firing N st) as F. cbv zeta in F.
  pose proof (resolveFiring_heading (movedA (tickLocals N st)) (movedB (tickLocals N st))
                (controlA (tickLocals N st)) (controlB (tickLocals N st))) as [HA HB].
  rewrite F in HA, HB. cbn [fst snd] in HA, HB. rewrite HA, HB.
  pose proof (tickLocals_movement N st) as M. cbv zeta in M.
  pose proof (applyMovement_fields (rotatedA (tickLocals N st))
                (rotatedB (tickLocals N st)) (controlA (tickLocals N st))
                (controlB (tickLocals N st)) N) as Fields.
  cbv zeta in Fields. rewrite M in Fields. cbn [fst snd] in Fields.
  destruct Fields as ((_ & _ & _ & _ & _ & -> & _) & (_ & _ & _ & _ & _ & -> & _)).
  split.
  - now destruct (resolveSideBoost_fields (rotatedA (tickLocals N st))
                    (controlA (tickLocals N st))
                    {| x := robot_x (rotatedA (tickLocals N st));
                       y := robot_y (rotatedA (tickLocals N st)) |} N)
      as (_ & _ & _ & _ & _ & ->).
  - now destruct (resolveSideBoost_fields (rotatedB (tickLocals N st))
                    (controlB (tickLocals N st))
                    {| x := robot_x (rotatedB (tickLocals N st));
                       y := robot_y (rotatedB (tickLocals N st)) |} N)
      as (_ & _ & _ & _ & _ & ->).
Qed.

Lemma tick_turn input t st :
  TickStart input t st ->
  let N := input_arenaSize input in
  let L := tickLocals N st in
  headingRad (stateA (fst (simulateTick N t st)))
  = normalizeAngleRad (headingRad (stateA st) + turnOfTick (controlA L))
  /\ headingRad (stateB (fst (simulateTick N t st)))
     = normalizeAngleRad (headingRad (stateB st) + turnOfTick (controlB L)).
Proof.
  intros Start. cbv zeta.
  destruct (TickStart_invariant _ _ _ Start) as (_ & _ & AliveA & AliveB).
  destruct (tick_heading (input_arenaSize input) t st) as [-> ->].
  destruct (tickLocals_rotation (input_arenaSize input) st) as [-> ->].
  destruct (tick_wasAlive (input_arenaSize input) st AliveA AliveB) as [-> ->].
  rewrite !computeRotation_heading.
  destruct (tickLocals_regen (input_arenaSize input) st) as [-> ->].
  destruct (tickSideBoostState_fields (stateA st)) as (_ & _ & _ & _ & _ & _ & ->).
  destruct (tickSideBoostState_fields (stateB st)) as (_ & _ & _ & _ & _ & _ & ->).
  split; reflexivity.
Qed.

Lemma TickStart_heading input t st :
  TickStart input t st ->
  headingNormalized (stateA st) /\ headingNormalized (stateB st).
Proof.
  pose proof PI_RGT_0 as P. unfold headingNormalized.
  induction 1 as [|t st Start IH AliveA AliveB].
  - unfold initialBattleState. cbv zeta. cbn [stateA stateB].
    match goal with
    | |- context [rememberEnemy ?a ?b ?p] =>
        destruct (rememberEnemy_fields a b p) as (_ & _ & -> & _)
    end.
    match goal with
    | |- context [headingRad (rememberEnemy ?a ?b ?p)] =>
        destruct (rememberEnemy_fields a b p) as (_ & _ & -> & _)
    end.
    cbn [headingRad buildRobotState]. unfold headingByDirection. cbn. lra.
  - destruct (tick_turn input t st Start) as [-> ->].
    split; match goal with
           | |- context [normalizeAngleRad ?v] =>
               pose proof (normalizeAngleRad_range v); lra
           end.
Qed.

(** X13: in a battle the heading of each robot lies within one turn, from
    0 to 2 pi, at the start of every tick, and a tick turns each robot by its
    turn control times 6 degrees, half of it while the robot fires, the
    result brought into one turn by [normalizeAngleRad]: no later phase of
    the tick changes the heading. *)
Theorem X13_heading_over_a_battle (input : SimulateBattleInput) (t : Z)
    (st : BattleState) :
  TickStart input t st ->
  let N := input_arenaSize input in
  let L := tickLocals N st in
  let st' := fst (simulateTick N t st) in
  headingNormalized (stateA st) /\ headingNormalized (stateB st)
  /\ turnsBy (controlA L) (stateA st) (stateA st')
  /\ turnsBy (controlB L) (stateB st) (stateB st').
Proof.
  intros Start. cbv zeta.
  destruct (TickStart_heading input t st Start) as [HA HB].
  destruct (tick_turn input t st Start) as [TA TB].
  split; [exact HA|]. split; [exact HB|]. split; [exact TA | exact TB].
Qed.

Lemma X13_heading_over_a_battle_witness :
  let st := initialBattleState idleBattle in
  let L := tickLocals (input_arenaSize idleBattle) st in
  let st' := fst (simulateTick (input_arenaSize idleBattle) 1 st) in
  TickStart idleBattle 1 st
  /\ headingNormalized (stateA st) /\ headingNormalized (stateB st)
  /\ turnsBy (controlA L) (stateA st) (stateA st')
  /\ turnsBy (controlB L) (stateB st) (stateB st').
Proof.
  split; [apply start_first|].
  exact (X13_heading_over_a_battle idleBattle 1 _ (start_first idleBattle)).
Defined.

(** * Properties of the engine: positions *)

Lemma clamped_inside N v :
  0 <= N - 1 -> onGrid 4 (N - 1) ->
  0 <= toFixed 4 (Rmax 0 (Rmin (N - 1) v)) <= N - 1.
Proof.
  intros Size Grid. apply toFixed_between; [apply (onGrid_IZR 4 0) | assumption |].
  unfold Rmax, Rmin. destruct (Rle_dec (N - 1) v); destruct (Rle_dec 0 _); lra.
Qed.

Lemma applyMovement_inside a b cA cB N :
  0 <= N - 1 -> onGrid 4 (N - 1) ->
  insideArena N a -> insideArena N b ->
  insideArena N (fst (fst (applyMovement a b cA cB N)))
  /\ insideArena N (snd (fst (applyMovement a b cA cB N))).
Proof.
  intros Size Grid ((XA & YA) & GXA & GYA) ((XB & YB) & GXB & GYB).
  pose proof (onGrid_IZR 4 0) as Zero.
  unfold applyMovement, insideArena.
  destruct (resolveSideBoost a cA _ N) as [a1 boostA].
  destruct (resolveSideBoost b cB _ N) as [b1 boostB].
  cbn [fst snd robot_x robot_y setX setY x y clampToArena].
  split; (split; [|split; apply toFixed_onGrid]).
  - match goal with |- context [if ?blocked then _ else _] => destruct blocked end;
      cbn [x y]; split; apply toFixed_between; auto; now apply clamped_inside.
  - match goal with |- context [if ?blocked then _ else _] => destruct blocked end;
      cbn [x y]; split; apply toFixed_between; auto; now apply clamped_inside.
Qed.

Lemma rememberEnemy_inside N actor opponent perceptions :
  insideArena N actor -> insideArena N (rememberEnemy actor opponent perceptions).
Proof.
  unfold insideArena.
  destruct (rememberEnemy_fields actor opponent perceptions) as (-> & -> & _).
  tauto.
Qed.

Lemma TickStart_inside input t st :
  0 <= input_arenaSize input - 1 -> onGrid 4 (input_arenaSize input - 1) ->
  TickStart input t st ->
  insideArena (input_arenaSize input) (stateA st)
  /\ insideArena (input_arenaSize input) (stateB st).
Proof.
  intros Size Grid. pose proof (onGrid_IZR 4 0) as Zero.
  induction 1 as [|t st Start [IA IB] AliveA AliveB].
  - unfold initialBattleState. cbv zeta. cbn [stateA stateB].
    split; apply rememberEnemy_inside; unfold insideArena;
      cbn [robot_x robot_y buildRobotState]; repeat split; auto; lra.
  - destruct (simulateTick_state (input_arenaSize input) t st) as (EA & EB & _).
    cbv zeta in EA, EB. rewrite EB, EA.
    destruct (tick_position (input_arenaSize input) st)
      as ((_ & _ & RXA & RYA & EXA & EYA) & (_ & _ & RXB & RYB & EXB & EYB)).
    pose proof (tickLocals_movement (input_arenaSize input) st) as M. cbv zeta in M.
    assert (RA : insideArena (input_arenaSize input)
                   (rotatedA (tickLocals (input_arenaSize input) st)))
      by (unfold insideArena in *; rewrite RXA, RYA; exact IA).
    assert (RB : insideArena (input_arenaSize input)
                   (rotatedB (tickLocals (input_arenaSize input) st)))
      by (unfold insideArena in *; rewrite RXB, RYB; exact IB).
    destruct (applyMovement_inside _ _
                (controlA (tickLocals (input_arenaSize input) st))
                (controlB (tickLocals (input_arenaSize input) st))
                (input_arenaSize input) Size Grid RA RB) as [MA MB].
    rewrite M in MA, MB. cbn [fst snd] in MA, MB.
    split; apply rememberEnemy_inside; unfold insideArena in *.
    + rewrite EXA, EYA. exact MA.
    + rewrite EXB, EYB. exact MB.
Qed.

(** X14: in an arena whose size is at least 1 and has no more than 4
    decimals (a whole number of tiles, say), both robots stand on the board
    at the start of every tick: their coordinates lie in [0, size - 1] and
    have no more than 4 decimals. *)
Theorem X14_robots_stay_inside_arena (input : SimulateBattleInput) (t : Z)
    (st : BattleState) :
  1 <= input_arenaSize input -> onGrid 4 (input_arenaSize input) ->
  TickStart input t st ->
  insideArena (input_arenaSize input) (stateA st)
  /\ insideArena (input_arenaSize input) (stateB st).
Proof.
  intros Size Grid Start. apply (TickStart_inside input t); [lra | | assumption].
  apply onGrid_minus; [assumption | apply (onGrid_IZR 4 1)].
Qed.

Lemma X14_robots_stay_inside_arena_witness :
  (1 <= input_arenaSize idleBattle /\ onGrid 4 (input_arenaSize idleBattle)
   /\ TickStart idleBattle 1 (initialBattleState idleBattle))
  /\ insideArena (input_arenaSize idleBattle) (stateA (initialBattleState idleBattle))
  /\ insideArena (input_arenaSize idleBattle) (stateB (initialBattleState idleBattle)).
Proof.
  assert (Size : 1 <= input_arenaSize idleBattle) by (cbn; lra).
  assert (Grid : onGrid 4 (input_arenaSize idleBattle)) by apply (onGrid_IZR 4 10).
  split; [repeat split; [exact Size | exact Grid | apply start_first]|].
  exact (X14_robots_stay_inside_arena idleBattle 1 _ Size Grid (start_first idleBattle)).
Defined.

(** ** Robots do not overlap *)

Lemma toFixed_tiny v : Rabs v < / 20000 -> toFixed 4 v = 0.
Proof.
  intros H. apply Rabs_def2 in H as [Hi Lo].
  destruct (Rle_or_lt 0 v) as [P|Neg].
  - rewrite (toFixed_value 4 v 0 P); [lra|]. cbn. lra.
  - rewrite (toFixed_neg_eq 4 v Neg), (Zfloor_eq 0); [lra|]. cbn. lra.
Qed.

Lemma hypot_ge_abs a b : Rabs a <= hypot a b /\ Rabs b <= hypot a b.
Proof.
  unfold hypot. split.
  - rewrite <- sqrt_Rsqr_abs. apply sqrt_le_1_alt. unfold Rsqr. nra.
  - rewrite <- sqrt_Rsqr_abs. apply sqrt_le_1_alt. unfold Rsqr. nra.
Qed.

Lemma plannedDelta_unattempted actor c :
  plan_attempted (plannedDelta actor c) = false ->
  plan_delta (plannedDelta actor c) = {| x := 0; y := 0 |}.
Proof.
  unfold plannedDelta. destruct (negb (alive actor)); [reflexivity|].
  cbn [plan_attempted plan_delta]. intros H. apply Rltb_false in H.
  match type of H with hypot ?dx ?dy <= _ =>
    pose proof (hypot_ge_abs dx dy) as [X Y]; set (deltaX := dx) in *;
    set (deltaY := dy) in * end.
  unfold EPSILON in H.
  rewrite (toFixed_tiny deltaX), (toFixed_tiny deltaY); [reflexivity | lra | lra].
Qed.

Lemma resolveSideBoost_unused actor c start N :
  boost_used (snd (resolveSideBoost actor c start N)) = false ->
  boost_delta (snd (resolveSideBoost actor c start N)) = {| x := 0; y := 0 |}.
Proof.
  unfold resolveSideBoost. cbv zeta.
  destruct (negb (alive actor)); [reflexivity|].
  match goal with
  | |- context [match ?active with Some _ => _ | None => _ end] => destruct active
  end; cbn [snd boost_used boost_delta]; [discriminate | reflexivity].
Qed.

Lemma clampToArena_grid p N :
  onGrid 4 (x (fst (clampToArena p N))) /\ onGrid 4 (y (fst (clampToArena p N))).
Proof. unfold clampToArena. cbn. split; apply toFixed_onGrid. Qed.

Lemma unmoved_proposal N r (planDelta boostDelta : Position) :
  insideArena N r ->
  planDelta = {| x := 0; y := 0 |} -> boostDelta = {| x := 0; y := 0 |} ->
  fst (clampToArena
         {| x := robot_x r + toFixed 4 (x planDelta + x boostDelta);
            y := robot_y r + toFixed 4 (y planDelta + y boostDelta) |} N)
  = {| x := robot_x r; y := robot_y r |}.
Proof.
  intros ((X & Y) & GX & GY) -> ->. cbn [x y].
  rewrite Rplus_0_r, toFixed_0, !Rplus_0_r.
  now apply clampToArena_inside.
Qed.

(** The positions that [applyMovement] settles on. *)
Lemma settled_apart (startA startB proposalA proposalB : Position)
    (attemptedA attemptedB : bool) :
  onGrid 4 (x startA) -> onGrid 4 (y startA) ->
  onGrid 4 (x startB) -> onGrid 4 (y startB) ->
  onGrid 4 (x proposalA) -> onGrid 4 (y proposalA) ->
  onGrid 4 (x proposalB) -> onGrid 4 (y proposalB) ->
  (attemptedA = false -> proposalA = startA) ->
  (attemptedB = false -> proposalB = startB) ->
  ROBOT_COLLISION_RADIUS * 2 < hypot (x startA - x startB) (y startA - y startB) ->
  let collide :=
    Rleb (hypot (x proposalA - x proposalB) (y proposalA - y proposalB))
         (ROBOT_COLLISION_RADIUS * 2) in
  let finalA := if collide && attemptedA then startA else proposalA in
  let finalB := if collide && attemptedB then startB else proposalB in
  ROBOT_COLLISION_RADIUS * 2
  < hypot (toFixed 4 (x finalA) - toFixed 4 (x finalB))
          (toFixed 4 (y finalA) - toFixed 4 (y finalB)).
Proof.
  intros GAx GAy GBx GBy PAx PAy PBx PBy SA SB Apart. cbv zeta.
  destruct (Rleb _ (ROBOT_COLLISION_RADIUS * 2)) eqn:C.
  - assert (FA : (if true && attemptedA then startA else proposalA) = startA)
      by (destruct attemptedA; [reflexivity | now apply SA]).
    assert (FB : (if true && attemptedB then startB else proposalB) = startB)
      by (destruct attemptedB; [reflexivity | now apply SB]).
    rewrite FA, FB, !toFixed_grid by assumption. exact Apart.
  - cbn [andb]. rewrite !toFixed_grid by assumption. now apply Rleb_false in C.
Qed.

Lemma applyMovement_apart a b cA cB N :
  0 <= N - 1 -> onGrid 4 (N - 1) ->
  insideArena N a -> insideArena N b ->
  alive a = true -> alive b = true ->
  apart a b ->
  apart (fst (fst (applyMovement a b cA cB N))) (snd (fst (applyMovement a b cA cB N))).
Proof.
  intros Size Grid IA IB AliveA AliveB Apart.
  pose proof (plannedDelta_unattempted a cA) as PlanA.
  pose proof (plannedDelta_unattempted b cB) as PlanB.
  pose proof (resolveSideBoost_unused a cA {| x := robot_x a; y := robot_y a |} N) as UA.
  pose proof (resolveSideBoost_unused b cB {| x := robot_x b; y := robot_y b |} N) as UB.
  destruct (resolveSideBoost_same a cA {| x := robot_x a; y := robot_y a |} N)
    as (_ & LiveA & _).
  destruct (resolveSideBoost_same b cB {| x := robot_x b; y := robot_y b |} N)
    as (_ & LiveB & _).
  unfold applyMovement, apart.
  destruct (resolveSideBoost a cA _ N) as [a1 boostA].
  destruct (resolveSideBoost b cB _ N) as [b1 boostB].
  cbn [fst snd] in *. cbn [robot_x robot_y setX setY x y].
  rewrite LiveA, LiveB, AliveA, AliveB. cbn [andb].
  destruct IA as (InA & GAx & GAy). destruct IB as (InB & GBx & GBy).
  apply settled_apart; cbn [x y]; try assumption;
    try apply clampToArena_grid.
  - intros H. apply orb_false_elim in H as [H1 H2].
    apply unmoved_proposal; [repeat split; tauto | auto | auto].
  - intros H. apply orb_false_elim in H as [H1 H2].
    apply unmoved_proposal; [repeat split; tauto | auto | auto].
Qed.

Lemma tick_rotated_alive N st :
  let L := tickLocals N st in
  alive (rotatedA L) = alive (stateA st) /\ alive (rotatedB L) = alive (stateB st).
Proof.
  cbv zeta.
  destruct (tickLocals_same N st) as ((_ & LA & _) & (_ & LB & _) & _).
  cbv zeta in LA, LB.
  destruct (tickLocals_rotation N st) as [-> ->].
  split.
  - destruct (wasAlive _ (regenA (tickLocals N st))); cbn [fst]; [|exact LA].
    destruct (computeRotation_same (regenA (tickLocals N st))
                (controlA (tickLocals N st))) as (_ & -> & _). exact LA.
  - destruct (wasAlive _ (regenB (tickLocals N st))); cbn [fst]; [|exact LB].
    destruct (computeRotation_same (regenB (tickLocals N st))
                (controlB (tickLocals N st))) as (_ & -> & _). exact LB.
Qed.

(** X15: in an arena whose size is at least 2 and has no more than 4
    decimals, the robots never overlap: at the start of every tick their
    centres are further apart than twice the collision radius. *)
Theorem X15_robots_never_overlap (input : SimulateBattleInput) (t : Z)
    (st : BattleState) :
  2 <= input_arenaSize input -> onGrid 4 (input_arenaSize input) ->
  TickStart input t st -> apart (stateA st) (stateB st).
Proof.
  intros Size Grid Start.
  assert (Size' : 0 <= input_arenaSize input - 1) by lra.
  assert (Grid' : onGrid 4 (input_arenaSize input - 1))
    by (apply onGrid_minus; [assumption | apply (onGrid_IZR 4 1)]).
  induction Start as [|t st Start IH AliveA AliveB].
  - unfold initialBattleState, apart. cbv zeta. cbn [stateA stateB].
    repeat match goal with
    | |- context [robot_x (rememberEnemy ?a ?b ?p)] =>
        destruct (rememberEnemy_fields a b p) as (-> & -> & _)
    end.
    cbn [robot_x robot_y buildRobotState].
    pose proof (hypot_ge_abs (0 - (input_arenaSize input - 1))
                  (0 - (input_arenaSize input - 1))) as [H _].
    rewrite Rabs_left in H by lra. unfold ROBOT_COLLISION_RADIUS. lra.
  - destruct (TickStart_invariant _ _ _ Start) as (_ & _ & LiveA & LiveB).
    destruct (TickStart_inside input t st Size' Grid' Start) as [IA IB].
    destruct (simulateTick_state (input_arenaSize input) t st) as (EA & EB & _).
    cbv zeta in EA, EB.
    destruct (tick_position (input_arenaSize input) st)
      as ((_ & _ & RXA & RYA & EXA & EYA) & (_ & _ & RXB & RYB & EXB & EYB)).
    destruct (tick_rotated_alive (input_arenaSize input) st) as [RLA RLB].
    pose proof (tickLocals_movement (input_arenaSize input) st) as M. cbv zeta in M.
    assert (Moved : apart (movedA (tickLocals (input_arenaSize input) st))
                      (movedB (tickLocals (input_arenaSize input) st))).
    { pose proof (applyMovement_apart
                    (rotatedA (tickLocals (input_arenaSize input) st))
                    (rotatedB (tickLocals (input_arenaSize input) st))
                    (controlA (tickLocals (input_arenaSize input) st))
                    (controlB (tickLocals (input_arenaSize input) st))
                    (input_arenaSize input) Size' Grid') as Step.
      rewrite M in Step. cbn [fst snd] in Step. apply Step.
      - unfold insideArena in *. rewrite RXA, RYA. exact IA.
      - unfold insideArena in *. rewrite RXB, RYB. exact IB.
      - congruence.
      - congruence.
      - unfold apart in *. rewrite RXA, RYA, RXB, RYB. exact IH. }
    unfold apart in *. rewrite EB, EA.
    repeat match goal with
    | |- context [robot_x (rememberEnemy ?a ?b ?p)] =>
        destruct (rememberEnemy_fields a b p) as (-> & -> & _)
    end.
    rewrite EXA, EYA, EXB, EYB. exact Moved.
Qed.

Lemma X15_robots_never_overlap_witness :
  (2 <= input_arenaSize idleBattle /\ onGrid 4 (input_arenaSize idleBattle)
   /\ TickStart idleBattle 1 (initialBattleState idleBattle))
  /\ apart (stateA (initialBattleState idleBattle))
           (stateB (initialBattleState idleBattle)).
Proof.
  assert (Size : 2 <= input_arenaSize idleBattle) by (cbn; lra).
  assert (Grid : onGrid 4 (input_arenaSize idleBattle)) by apply (onGrid_IZR 4 10).
  split; [split; [exact Size | split; [exact Grid | apply start_first]]|].
  exact (X15_robots_never_overlap idleBattle 1 _ Size Grid (start_first idleBattle)).
Defined.

(** * Properties of the engine: memory and projectiles *)

(** X16: the memory of the enemy holds what the sensors showed when the
    enemy was last seen: after [updateEnemyMemory] on a perception with a
    visible enemy, each [PREV_ENEMY_*] sensor reads, whatever the robot
    perceives later, the value that the matching [ENEMY_*] sensor had on
    that perception; on a perception without a visible enemy the
    [PREV_ENEMY_*] sensors keep their values. *)
Theorem X16_memory_holds_last_sighting (actor opponent laterOpponent : RobotState)
    (perception laterPerception : Perception) (N laterN : R)
    (current previous : SensorVariable) :
  previousOf current = Some previous ->
  let seen := buildSensorContext actor opponent perception N in
  let remembered :=
    buildSensorContext (updateEnemyMemory actor opponent perception)
      laterOpponent laterPerception laterN in
  values remembered previous
  = match currentEnemyOf perception with
    | Some _ => values seen current
    | None => values seen previous
    end.
Proof.
  intros P. cbv zeta. unfold updateEnemyMemory, buildSensorContext.
  destruct (currentEnemyOf perception) as [e|];
    destruct current; try discriminate; injection P as <-; reflexivity.
Qed.

Lemma X16_memory_holds_last_sighting_witness :
  let actor := stateA (initialBattleState idleBattle) in
  let opponent := stateB (initialBattleState idleBattle) in
  let perception := buildPerception actor opponent 10 in
  previousOf ENEMY_DISTANCE = Some PREV_ENEMY_DISTANCE
  /\ values (buildSensorContext (updateEnemyMemory actor opponent perception)
               opponent perception 10) PREV_ENEMY_DISTANCE
     = match currentEnemyOf perception with
       | Some _ => values (buildSensorContext actor opponent perception 10) ENEMY_DISTANCE
       | None => values (buildSensorContext actor opponent perception 10)
                   PREV_ENEMY_DISTANCE
       end.
Proof.
  cbv zeta. split; [reflexivity|].
  exact (X16_memory_holds_last_sighting _ _ _ _ _ 10 10 ENEMY_DISTANCE
           PREV_ENEMY_DISTANCE eq_refl).
Defined.

Lemma continues_refl p : continues p p.
Proof. repeat split. Qed.

Lemma advanceProjectile_accounted a b N flown acc projectile :
  projectilesAccounted a b flown acc ->
  projectilesAccounted a b (flown ++ [projectile])
    (advanceProjectile a b N acc projectile).
Proof.
  intros (Next & Count & Traces & Kills & Ids).
  assert (Skip : projectilesAccounted a b (flown ++ [projectile]) acc).
  { repeat split; try assumption.
    - intros q Hq. destruct (Next q Hq) as (p & Hp & C). exists p.
      split; [apply in_or_app; now left | exact C].
    - rewrite length_app. cbn. lia.
    - rewrite length_app. cbn. lia. }
  unfold advanceProjectile. cbv zeta.
  destruct (Rleb (maxRange projectile - traveledDistance projectile) EPSILON);
    [exact Skip|].
  match goal with |- context [if Rleb ?s EPSILON then acc else _] =>
    destruct (Rleb s EPSILON); [exact Skip|] end.
  assert (Miss : forall next,
            (next = nextProjectiles acc
             \/ exists q, next = nextProjectiles acc ++ [q] /\ continues projectile q) ->
            forall trace byShooter,
            projectilesAccounted a b (flown ++ [projectile])
              {| traces := traces acc ++ [trace]; traceByShooter := byShooter;
                 hitByShooter := hitByShooter acc; pendingKills := pendingKills acc;
                 nextProjectiles := next |}).
  { intros next Hnext trace byShooter. unfold projectilesAccounted.
    cbn [traces pendingKills nextProjectiles]. rewrite !length_app. cbn [List.length].
    repeat split; try assumption; try lia.
    - intros q Hq. destruct Hnext as [-> | (q' & -> & C)].
      + destruct (Next q Hq) as (p & Hp & C). exists p.
        split; [apply in_or_app; now left | exact C].
      + apply in_app_or in Hq as [Hq | [<- | []]].
        * destruct (Next q Hq) as (p & Hp & C'). exists p.
          split; [apply in_or_app; now left | exact C'].
        * exists projectile. split; [apply in_or_app; right; now left | exact C].
    - destruct Hnext as [-> | (q' & -> & C)]; [lia|].
      rewrite length_app. cbn. lia. }
  destruct (findRobotById a b (inflight_targetRobotId projectile)) as [target|] eqn:F.
  - match goal with |- context [if ?c then Some target else None] =>
      destruct c eqn:Struck end.
    + apply findRobotById_either in F.
      apply andb_prop in Struck as [Struck _]. apply andb_prop in Struck as [_ Fresh].
      apply negb_true_iff in Fresh.
      unfold projectilesAccounted. cbn [traces pendingKills nextProjectiles].
      rewrite !length_app. cbn [List.length].
      repeat split; try lia.
      * intros q Hq. destruct (Next q Hq) as (p & Hp & C). exists p.
        split; [apply in_or_app; now left | exact C].
      * apply NoDup_app; [assumption | repeat constructor; intros [] |].
        intros k Hk [<- | []]. unfold setHas in Fresh.
        assert (E : existsb (String.eqb (id target)) (pendingKills acc) = true).
        { apply existsb_exists. exists (id target). split; [assumption|].
          apply String.eqb_refl. }
        congruence.
      * intros k Hk. apply in_app_or in Hk as [Hk | [<- | []]]; [now apply Ids|].
        destruct F as [-> | ->]; auto.
    + match goal with |- context [if ?gone then nextProjectiles acc else _] =>
        destruct gone end.
      * apply Miss. now left.
      * apply Miss. right. eexists. split; [reflexivity|]. repeat split.
  - match goal with |- context [if ?gone then nextProjectiles acc else _] =>
        destruct gone end.
    + apply Miss. now left.
    + apply Miss. right. eexists. split; [reflexivity|]. repeat split.
Qed.

(** X17: [advanceProjectiles] creates no projectile and kills no robot
    twice: every projectile that it keeps for the next tick is one of the
    projectiles it was given, with the same shooter, target, direction and
    range; each projectile given counts for no more than one kill or one
    projectile kept, and for no more than one trace; the pending kills hold
    no robot twice and only the ids of the two robots. *)
Theorem X17_projectiles_accounted (projectiles : list InFlightProjectile)
    (a b : RobotState) (N : R) :
  projectilesAccounted a b projectiles (advanceProjectiles projectiles a b N).
Proof.
  unfold advanceProjectiles.
  assert (G : forall l flown acc, projectilesAccounted a b flown acc ->
                projectilesAccounted a b (flown ++ l)
                  (fold_left (advanceProjectile a b N) l acc)).
  { induction l as [|p l IH]; intros flown acc H; cbn [fold_left].
    - now rewrite app_nil_r.
    - replace (flown ++ p :: l) with ((flown ++ [p]) ++ l)
        by (rewrite <- app_assoc; reflexivity).
      apply IH, advanceProjectile_accounted, H. }
  apply (G projectiles []). unfold projectilesAccounted. cbn.
  repeat split; try lia; try constructor; intros ? [].
Qed.

(** * Properties of the engine: the course of a battle *)

Lemma snapshotRobot_rememberEnemy actor opponent perceptions :
  snapshotRobot (rememberEnemy actor opponent perceptions) = snapshotRobot actor.
Proof.
  unfold rememberEnemy, updateEnemyMemory.
  destruct (perceptions (id actor)); [|reflexivity].
  destruct (currentEnemyOf p); reflexivity.
Qed.

(** The end snapshot of a tick is the snapshot of the state it leaves. *)
Lemma tick_endState N t st :
  endState (snd (simulateTick N t st))
  = snapshotBattle (stateA (fst (simulateTick N t st)))
                   (stateB (fst (simulateTick N t st))).
Proof.
  destruct (simulateTick_state N t st) as (EA & EB & _). cbv zeta in EA, EB.
  destruct (simulateTick_log N t st) as (_ & _ & _ & LE & _). cbv zeta in LE.
  rewrite LE, EB, EA. unfold snapshotBattle.
  now rewrite !snapshotRobot_rememberEnemy.
Qed.

Lemma tick_bothAlive N t st :
  bothAlive (endState (snd (simulateTick N t st)))
  = alive (stateA (fst (simulateTick N t st)))
    && alive (stateB (fst (simulateTick N t st))).
Proof. rewrite tick_endState. reflexivity. Qed.

Lemma last_after {T} (l : list T) : forall a d, last (a :: l) d = last l a.
Proof.
  induction l as [|b l IH]; intros a d; [reflexivity|].
  change (last (a :: b :: l) d) with (last (b :: l) d).
  rewrite (IH b d), (IH b a). reflexivity.
Qed.

Lemma runTicks_shape N n : forall t st,
  timelineShape n t (snd (runTicks N n t st))
  /\ snapshotBattle (stateA (fst (runTicks N n t st))) (stateB (fst (runTicks N n t st)))
     = last (map endState (snd (runTicks N n t st)))
            (snapshotBattle (stateA st) (stateB st)).
Proof.
  induction n as [|n IH]; intros t st.
  - cbn. split; [|reflexivity]. unfold timelineShape. cbn.
    repeat split; try lia; try (intros [|i] log H; discriminate).
  - rewrite runTicks_step.
    pose proof (tick_bothAlive N t st) as Alive.
    pose proof (tick_endState N t st) as End.
    pose proof (simulateTick_log N t st) as (Tick & _). cbv zeta in Tick.
    destruct (negb (alive (stateA (fst (simulateTick N t st))))
              || negb (alive (stateB (fst (simulateTick N t st))))) eqn:Dead.
    + cbn [fst snd map last List.length]. split; [|now rewrite End].
      unfold timelineShape. cbn [List.length map ticksFrom].
      split; [lia|]. split; [now rewrite Tick|]. split.
      * intros [|i] log H Hi; cbn in Hi; lia.
      * intros _. exists [], (snd (simulateTick N t st)). split; [reflexivity|].
        rewrite Alive. destruct (alive (stateA _)), (alive (stateB _));
          cbn in *; congruence.
    + cbn [fst snd].
      destruct (IH (t + 1)%Z (fst (simulateTick N t st))) as ((Len & Num & Mid & Early) & Fin).
      split.
      * unfold timelineShape. cbn [List.length map ticksFrom].
        split; [lia|]. split; [now rewrite Tick, Num|]. split.
        -- intros [|i] log H Hi.
           ++ cbn [nth_error] in H.
              replace log with (snd (simulateTick N t st)) by congruence.
              rewrite Alive.
              destruct (alive (stateA _)), (alive (stateB _)); cbn in *; congruence.
           ++ cbn [nth_error] in H. apply (Mid i log H). lia.
        -- intros Short. destruct Early as (earlier & log & E & D); [lia|].
           exists (snd (simulateTick N t st) :: earlier), log.
           split; [now rewrite E | exact D].
      * rewrite Fin. cbn [map]. rewrite <- End. symmetry. apply last_after.
Qed.

(** X18: the tick logs of [simulateBattle] are no more than the tick
    limit; they are numbered 1, 2, 3, ... in a row; both robots are alive at
    the end of every tick but the last; and the battle stops before the
    limit only at a tick that leaves a robot dead. *)
Theorem X18_course_of_a_battle (input : SimulateBattleInput) :
  timelineShape (Z.to_nat (sim_maxTicks (simulateBattle input))) 1
    (ticks (simulateBattle input)).
Proof.
  unfold simulateBattle. cbv zeta.
  pose proof (runTicks_shape (input_arenaSize input)
                (Z.to_nat (resolveMaxTicks (input_maxTicks input) (input_maxTurns input)))
                1 (initialBattleState input)) as [Shape _].
  destruct (runTicks _ _ 1 (initialBattleState input)) as [final logs].
  exact Shape.
Qed.

(** X19: the final state of [simulateBattle] is the end state of its last
    tick, or the initial state when no tick was run, and the winner is read
    from it: the robot that is alive when the other is dead, none when both
    are alive or both are dead. *)
Theorem X19_final_state_and_winner (input : SimulateBattleInput) :
  let sim := simulateBattle input in
  finalState sim = last (map endState (ticks sim)) (initialState sim)
  /\ winnerRobotId sim = winnerOf (finalState sim).
Proof.
  unfold simulateBattle. cbv zeta.
  pose proof (runTicks_shape (input_arenaSize input)
                (Z.to_nat (resolveMaxTicks (input_maxTicks input) (input_maxTurns input)))
                1 (initialBattleState input)) as [_ Fin].
  destruct (runTicks _ _ 1 (initialBattleState input)) as [final logs].
  cbn [fst snd finalState ticks initialState winnerRobotId] in *.
  split; [|reflexivity].
  rewrite Fin. f_equal. unfold initialBattleState. cbv zeta. cbn [stateA stateB].
  unfold snapshotBattle. now rewrite !snapshotRobot_rememberEnemy.
Qed.

(** * Properties of the interpreter *)

(** X20: an expression with an operator or a function call at its root
    never evaluates to [undefined] nor to a number that is not finite: its
    value is [null] or a finite number. *)
Theorem X20_operations_finite_or_null (e : NumericExpression)
    (sensors : SensorContext) :
  operation e = true ->
  finiteOrUnavailable (evaluateNumericExpression e sensors).
Proof.
  assert (F : forall v, finiteOrUnavailable (finiteOrNull v)).
  { intros v. unfold finiteOrNull. destruct (isFinite v) eqn:E; cbn; auto. }
  destruct e as [value|variable|operator operand|operator l r|name args];
    try discriminate; intros _.
  - cbn [evaluateNumericExpression].
    destruct (evaluateNumericExpression operand sensors); cbn; auto.
  - cbn [evaluateNumericExpression].
    destruct (evaluateNumericExpression l sensors);
      destruct (evaluateNumericExpression r sensors); cbn; auto.
    destruct operator; auto.
    destruct (Rleb (Rabs v0) EPSILON); cbn; auto.
  - cbn [evaluateNumericExpression].
    match goal with |- finiteOrUnavailable (match ?resolved with _ => _ end) =>
      destruct resolved as [values|] end; cbn; auto.
    destruct (applyFunction name values); cbn; auto.
Qed.

Lemma X20_operations_finite_or_null_witness :
  operation (BINARY BinDiv (SENSOR SENSOR_SHOT_RANGE) (NUMBER_LITERAL 2)) = true
  /\ finiteOrUnavailable
       (evaluateNumericExpression
          (BINARY BinDiv (SENSOR SENSOR_SHOT_RANGE) (NUMBER_LITERAL 2)) blindSensors).
Proof.
  split; [reflexivity|].
  now apply X20_operations_finite_or_null.
Defined.

Lemma compareNumbers_complement a operator b :
  compareNumbers a (complement operator) b = negb (compareNumbers a operator b).
Proof.
  destruct operator; cbn [compareNumbers complement]; unfold Rleb, Rltb;
    repeat match goal with
           | |- context [Rle_dec ?u ?v] => destruct (Rle_dec u v)
           | |- context [Rlt_dec ?u ?v] => destruct (Rlt_dec u v)
           end; cbn; try reflexivity; lra.
Qed.

(** X21: the negation of a comparison.  When both sides evaluate to
    numbers, [NOT (l op r)] matches exactly when the complement comparison
    of [l] and [r] does ([<=] for [>], [!=] for [==], ...); when a side is
    unavailable the comparison does not match, so its negation does. *)
Theorem X21_negated_comparison (l r : NumericExpression)
    (operator : ComparisonOperator) (sensors : SensorContext) :
  (forall a b,
     evaluateNumericExpression l sensors = JNumber a ->
     evaluateNumericExpression r sensors = JNumber b ->
     matchCondition (NOT (COMPARE l operator r)) sensors
     = matchCondition (COMPARE l (complement operator) r) sensors)
  /\ (unavailable (evaluateNumericExpression l sensors)
      \/ unavailable (evaluateNumericExpression r sensors) ->
      matchCondition (NOT (COMPARE l operator r)) sensors = true
      /\ matchCondition (COMPARE l (complement operator) r) sensors = false).
Proof.
  split.
  - intros a b L R. cbn [matchCondition]. rewrite L, R.
    now rewrite compareNumbers_complement.
  - intros U. split; [|now apply compare_unavailable].
    change (negb (matchCondition (COMPARE l operator r) sensors) = true).
    now rewrite (compare_unavailable l operator r sensors U).
Qed.

Lemma X21_negated_comparison_witness :
  unavailable (evaluateNumericExpression (SENSOR ENEMY_DISTANCE) blindSensors)
  /\ matchCondition (NOT (COMPARE (SENSOR ENEMY_DISTANCE) OpLt (NUMBER_LITERAL 3)))
       blindSensors = true.
Proof.
  assert (U : unavailable (evaluateNumericExpression (SENSOR ENEMY_DISTANCE) blindSensors))
    by (left; reflexivity).
  split; [exact U|].
  apply (X21_negated_comparison (SENSOR ENEMY_DISTANCE) (NUMBER_LITERAL 3) OpLt
           blindSensors). now left.
Defined.

(** ** Parsed programs in a battle *)

Lemma applyRuleCommand_bounded c cmd :
  controlsBounded c -> normalizedControl cmd -> controlsBounded (applyRuleCommand c cmd).
Proof.
  unfold controlsBounded. intros (T & S & U) N.
  destruct cmd as [[] value| |]; cbn in *; tauto.
Qed.

Lemma resolveControls_bounded prog sensors :
  Forall (fun rule => normalizedControl (command rule)) prog ->
  controlsBounded (controls (resolveControls prog sensors)).
Proof.
  intros H. unfold resolveControls. cbn [controls].
  assert (G : forall acc : ControlState * list nat,
            controlsBounded (fst acc) ->
            controlsBounded
              (fst (fold_left
                      (fun (acc : ControlState * list nat) (rule : ScriptAction) =>
                         if conditionMatched (condition rule) sensors
                         then (applyRuleCommand (fst acc) (command rule),
                               snd acc ++ [line rule])
                         else acc) prog acc))).
  { induction H as [|rule rest Hr _ IH]; intros acc B; cbn [fold_left]; [exact B|].
    apply IH. destruct (conditionMatched (condition rule) sensors); [|exact B].
    cbn [fst]. now apply applyRuleCommand_bounded. }
  apply G. unfold controlsBounded, neutralControls. cbn. lra.
Qed.

Lemma parsed_commands_normalized s rules :
  parseRobotScript s = Parsed rules ->
  Forall (fun rule => normalizedControl (command rule)) rules.
Proof.
  intros H. apply Forall_forall. intros rule Hin.
  destruct (parseRobotScript_cases s) as [[B R]|[(B & L & R)|(B & L & R)]];
    rewrite R in H; try discriminate.
  destruct (parseLines _ 1) as [[|r more]|d|] eqn:E; try discriminate.
  injection H as <-.
  apply (parseLines_parsed _ _ _ E) in Hin as (k & _ & Hp).
  apply parseSingleLine_command in Hp as [tokens Hp].
  exact (parseCommand_normalized _ _ _ Hp).
Qed.

Lemma TickStart_program input t st :
  TickStart input t st ->
  program (stateA st) = parsedProgram (input_robotA input)
  /\ program (stateB st) = parsedProgram (input_robotB input).
Proof.
  induction 1 as [|t st Start [PA PB] AliveA AliveB].
  - unfold initialBattleState. cbv zeta. cbn [stateA stateB].
    repeat match goal with
    | |- context [program (rememberEnemy ?a ?b ?p)] =>
        destruct (rememberEnemy_fields a b p) as (_ & _ & _ & _ & _ & _ & _ & _ & ->)
    end.
    split; reflexivity.
  - destruct (simulateTick_state (input_arenaSize input) t st) as (EA & EB & _).
    cbv zeta in EA, EB. rewrite EB, EA.
    repeat match goal with
    | |- context [program (rememberEnemy ?a ?b ?p)] =>
        destruct (rememberEnemy_fields a b p) as (_ & _ & _ & _ & _ & _ & _ & _ & ->)
    end.
    destruct (tickLocals_same (input_arenaSize input) st)
      as (_ & _ & (_ & _ & _ & FA) & (_ & _ & _ & FB)).
    cbv zeta in FA, FB. unfold endA, endB, refreshDirection, applyPendingKill. cbv zeta.
    split.
    + destruct (setHas _ _); cbn [program setDirection setAlive]; congruence.
    + destruct (setHas _ _); cbn [program setDirection setAlive]; congruence.
Qed.

(** X22: in a battle of two robots whose programs [parseRobotScript]
    returned, the controls that each tick resolves have their three axes
    within [-1, 1], so that a tick turns a robot by no more than 6 degrees. *)
Theorem X22_parsed_programs_bounded_controls (scriptA scriptB : string)
    (input : SimulateBattleInput) (t : Z) (st : BattleState) :
  programsParsed scriptA scriptB input ->
  TickStart input t st ->
  let L := tickLocals (input_arenaSize input) st in
  (controlsBounded (controlA L) /\ controlsBounded (controlB L))
  /\ Rabs (turnOfTick (controlA L)) <= PI / 30
  /\ Rabs (turnOfTick (controlB L)) <= PI / 30.
Proof.
  intros [ParsedA ParsedB] Start. cbv zeta.
  destruct (TickStart_invariant _ _ _ Start) as (_ & _ & AliveA & AliveB).
  destruct (TickStart_program input t st Start) as [PA PB].
  destruct (tick_controls (input_arenaSize input) st AliveA AliveB)
    as (sa & sb & -> & ->).
  assert (BA : controlsBounded (controls (resolveControls (program (stateA st)) sa))).
  { apply resolveControls_bounded. rewrite PA.
    exact (parsed_commands_normalized _ _ ParsedA). }
  assert (BB : controlsBounded (controls (resolveControls (program (stateB st)) sb))).
  { apply resolveControls_bounded. rewrite PB.
    exact (parsed_commands_normalized _ _ ParsedB). }
  pose proof PI_RGT_0 as P.
  assert (Turn : forall c, controlsBounded c -> Rabs (turnOfTick c) <= PI / 30).
  { intros c (_ & _ & U). unfold turnOfTick. apply Rabs_le.
    destruct (fire c); nra. }
  repeat split; try apply BA; try apply BB; now apply Turn.
Qed.

Lemma X22_parsed_programs_bounded_controls_witness :
  let L := tickLocals (input_arenaSize triggerBattle) (initialBattleState triggerBattle) in
  (programsParsed "FIRE" "shoot on" triggerBattle
   /\ TickStart triggerBattle 1 (initialBattleState triggerBattle))
  /\ (controlsBounded (controlA L) /\ controlsBounded (controlB L))
  /\ Rabs (turnOfTick (controlA L)) <= PI / 30
  /\ Rabs (turnOfTick (controlB L)) <= PI / 30.
Proof.
  assert (P : programsParsed "FIRE" "shoot on" triggerBattle) by (split; reflexivity).
  split; [split; [exact P | apply start_first]|].
  exact (X22_parsed_programs_bounded_controls "FIRE" "shoot on" triggerBattle 1 _ P
           (start_first triggerBattle)).
Defined.

Lemma sorted_filter (p : ScriptAction -> bool) (prog : list ScriptAction) :
  StronglySorted lt (map line prog) -> StronglySorted lt (map line (filter p prog)).
Proof.
  induction prog as [|rule rest IH]; cbn [map filter]; [auto|].
  intros S. apply StronglySorted_inv in S as [S H].
  destruct (p rule); [|now apply IH].
  cbn [map]. constructor; [now apply IH|].
  rewrite Forall_map in *. rewrite Forall_forall in *.
  intros r Hr. apply filter_In in Hr as [Hr _]. now apply H.
Qed.

(** X23: [resolveControls] reports the number of rules of the program and
    the lines of the rules whose condition matched, in the order of the
    program; for a program that [parseRobotScript] returned these lines are
    strictly increasing numbers of lines of the script, between 1 and 200,
    and the rules are no more than 200. *)
Theorem X23_decision_report (s : string) (prog : list ScriptAction)
    (sensors : SensorContext) :
  parseRobotScript s = Parsed prog ->
  let decision := resolveControls prog sensors in
  decisionReport prog sensors decision
  /\ StronglySorted lt (matchedRuleLines decision)
  /\ Forall (fun n => 1 <= n <= MAX_SCRIPT_LINES)%nat (matchedRuleLines decision)
  /\ (totalRules decision <= MAX_SCRIPT_LINES)%nat.
Proof.
  intros H. cbv zeta.
  assert (Report : decisionReport prog sensors (resolveControls prog sensors)).
  { split; [reflexivity|]. unfold resolveControls. cbn [matchedRuleLines].
    now rewrite fold_matchedLines. }
  destruct Report as [Total Lines]. rewrite Lines, Total.
  destruct (parseRobotScript_cases s) as [[B R]|[(B & L & R)|(B & L & R)]];
    rewrite R in H; try discriminate.
  destruct (parseLines _ 1) as [[|r more]|d|] eqn:E; try discriminate.
  injection H as <-.
  destruct (parseLines_sorted _ _ _ E) as [Sorted Range].
  pose proof (parseLines_length _ _ _ E) as Len.
  rewrite splitLines_length in Len, Range.
  split; [split; [reflexivity | exact Lines]|].
  split; [now apply sorted_filter|]. split; [|lia].
  rewrite Forall_map, Forall_forall in *. intros rule Hr.
  apply filter_In in Hr as [Hr _]. specialize (Range rule Hr). cbn beta in Range. lia.
Qed.

Lemma X23_decision_report_witness :
  let decision := resolveControls triggerProgram blindSensors in
  parseRobotScript "FIRE" = Parsed triggerProgram
  /\ decisionReport triggerProgram blindSensors decision
  /\ StronglySorted lt (matchedRuleLines decision)
  /\ Forall (fun n => 1 <= n <= MAX_SCRIPT_LINES)%nat (matchedRuleLines decision)
  /\ (totalRules decision <= MAX_SCRIPT_LINES)%nat.
Proof.
  split; [reflexivity|].
  exact (X23_decision_report "FIRE" triggerProgram blindSensors eq_refl).
Defined.

(** * Properties of the engine: the hit test *)

(** X24: [pointToSegmentDistance] is the distance from the point to the
    segment: on a segment that is not degenerate (the square of its length
    exceeds EPSILON) it is the distance from the point to some point of the
    segment, and no point of the segment is nearer. *)
Theorem X24_distance_to_segment (p start finish : Position) :
  EPSILON < lengthSquared start finish ->
  (exists c, 0 <= c <= 1
     /\ pointToSegmentDistance p start finish
        = hypot (x p - x (pointAt start finish c)) (y p - y (pointAt start finish c)))
  /\ forall u, 0 <= u <= 1 ->
       pointToSegmentDistance p start finish
       <= hypot (x p - x (pointAt start finish u)) (y p - y (pointAt start finish u)).
Proof.
  unfold lengthSquared, pointToSegmentDistance, pointAt. cbv zeta. cbn [x y].
  set (dx := x finish - x start). set (dy := y finish - y start).
  set (wx := x p - x start). set (wy := y p - y start).
  intros Long. assert (Eps : 0 < EPSILON) by (unfold EPSILON; lra).
  rewrite Rleb_is_false by lra.
  replace (Rmax EPSILON (dx * dx + dy * dy)) with (dx * dx + dy * dy)
    by (symmetry; apply Rmax_right; lra).
  set (L := dx * dx + dy * dy) in *.
  set (proj := (wx * dx + wy * dy) / L).
  assert (Proj : proj * L = wx * dx + wy * dy) by (unfold proj; field; lra).
  set (c := Rmax 0 (Rmin 1 proj)).
  assert (Range : 0 <= c <= 1).
  { unfold c, Rmax, Rmin. destruct (Rle_dec 1 proj); destruct (Rle_dec 0 _); lra. }
  split; [exists c; split; [exact Range | reflexivity]|].
  intros u Hu. unfold hypot. apply sqrt_le_1_alt.
  assert (Gap : forall v,
            (x p - (x start + dx * v)) * (x p - (x start + dx * v))
            + (y p - (y start + dy * v)) * (y p - (y start + dy * v))
            = (wx * wx + wy * wy) - 2 * v * (proj * L) + v * v * L).
  { intros v. rewrite Proj. unfold L, wx, wy. ring. }
  rewrite (Gap c), (Gap u).
  assert (Factor : (wx * wx + wy * wy - 2 * u * (proj * L) + u * u * L)
                   - (wx * wx + wy * wy - 2 * c * (proj * L) + c * c * L)
                   = L * ((u - c) * (u + c - 2 * proj))) by ring.
  assert (Sign : 0 <= (u - c) * (u + c - 2 * proj)).
  { clear Gap Factor Range. unfold c, Rmax, Rmin.
    destruct (Rle_dec 1 proj) as [Far|Near].
    - destruct (Rle_dec 0 1); [|lra].
      replace ((u - 1) * (u + 1 - 2 * proj)) with ((1 - u) * (2 * proj - u - 1)) by ring.
      apply Rmult_le_pos; lra.
    - destruct (Rle_dec 0 proj).
      + replace ((u - proj) * (u + proj - 2 * proj)) with ((u - proj) * (u - proj))
          by ring.
        apply Rle_0_sqr.
      + replace ((u - 0) * (u + 0 - 2 * proj)) with (u * (u - 2 * proj)) by ring.
        apply Rmult_le_pos; lra. }
  assert (0 <= L * ((u - c) * (u + c - 2 * proj))) by (apply Rmult_le_pos; lra).
  lra.
Qed.

Lemma X24_distance_to_segment_witness :
  let p := {| x := 1; y := 1 |} in
  let start := {| x := 0; y := 0 |} in
  let finish := {| x := 2; y := 0 |} in
  EPSILON < lengthSquared start finish
  /\ pointToSegmentDistance p start finish
     <= hypot (x p - x (pointAt start finish 1)) (y p - y (pointAt start finish 1)).
Proof.
  cbv zeta.
  assert (Long : EPSILON < lengthSquared {| x := 0; y := 0 |} {| x := 2; y := 0 |})
    by (unfold lengthSquared, EPSILON; cbn; lra).
  split; [exact Long|].
  apply (proj2 (X24_distance_to_segment {| x := 1; y := 1 |} _ _ Long)). lra.
Defined.

(** ** The flight of a projectile *)

Lemma full_step fullStep remaining wall traveled range :
  remaining = range - traveled ->
  let step := Rmin (Rmin fullStep remaining) (Rmax 0 wall) in
  EPSILON < step ->
  traveled + step < range - EPSILON ->
  step + EPSILON < wall ->
  step = fullStep.
Proof.
  intros -> step Pos Short Free. subst step.
  assert (Eps : 0 < EPSILON) by (unfold EPSILON; lra).
  unfold Rmin, Rmax in *.
  repeat match goal with
         | H : context [Rle_dec ?u ?v] |- _ => destruct (Rle_dec u v)
         | |- context [Rle_dec ?u ?v] => destruct (Rle_dec u v)
         end; lra.
Qed.

Lemma advanceProjectile_flight a b N acc projectile q :
  In q (nextProjectiles (advanceProjectile a b N acc projectile)) ->
  In q (nextProjectiles acc) \/ fliesOn projectile q.
Proof.
  unfold advanceProjectile. cbv zeta.
  destruct (Rleb (maxRange projectile - traveledDistance projectile) EPSILON);
    [now left|].
  match goal with |- context [if Rleb ?s EPSILON then acc else _] =>
    set (step := s); destruct (Rleb step EPSILON) eqn:Pos; [now left|] end.
  apply Rleb_false in Pos.
  assert (Flight :
            In q (if Rleb (maxRange projectile - EPSILON)
                       (traveledDistance projectile + step)
                     || Rleb (distance (buildWallRayHit (position projectile)
                                          (inflight_direction projectile) N))
                             (step + EPSILON)
                  then nextProjectiles acc
                  else nextProjectiles acc ++
                       [ {| shooterRobotId := shooterRobotId projectile;
                            inflight_targetRobotId := inflight_targetRobotId projectile;
                            position :=
                              {| x := toFixed 4
                                        (x (position projectile)
                                         + dx (inflight_direction projectile) * step);
                                 y := toFixed 4
                                        (y (position projectile)
                                         + dy (inflight_direction projectile) * step) |};
                            inflight_direction := inflight_direction projectile;
                            directionCardinal := directionCardinal projectile;
                            traveledDistance :=
                              toFixed 4 (traveledDistance projectile + step);
                            maxRange := maxRange projectile |} ]) ->
            In q (nextProjectiles acc) \/ fliesOn projectile q).
  { destruct (Rleb (maxRange projectile - EPSILON) _) eqn:Range; [now left|].
    destruct (Rleb (distance _) (step + EPSILON)) eqn:Wall; [now left|].
    cbn [orb]. intros Hq. apply in_app_or in Hq as [Hq | [<- | []]]; [now left|].
    right. apply Rleb_false in Range, Wall.
    assert (Half : step = / 2).
    { rewrite <- maxStep_half. unfold step.
      apply (full_step _ _ _ (traveledDistance projectile) (maxRange projectile));
        [reflexivity | exact Pos | exact Range | exact Wall]. }
    unfold fliesOn, continues. cbn. rewrite Half in *. repeat split. exact Range. }
  destruct (findRobotById a b (inflight_targetRobotId projectile)) as [target|].
  - match goal with |- context [if ?c then Some target else None] => destruct c end.
    + cbn [nextProjectiles]. now left.
    + cbn [nextProjectiles]. exact Flight.
  - cbn [nextProjectiles]. exact Flight.
Qed.

(** X25: a projectile that [advanceProjectiles] keeps for the next tick
    has flown this tick exactly half a tile along its direction, from a
    projectile it was given, and is still short of its range: a projectile
    whose step is cut by its range or by a wall is not kept. *)
Theorem X25_projectile_flight (projectiles : list InFlightProjectile)
    (a b : RobotState) (N : R) (q : InFlightProjectile) :
  In q (nextProjectiles (advanceProjectiles projectiles a b N)) ->
  exists p, In p projectiles /\ fliesOn p q.
Proof.
  unfold advanceProjectiles.
  assert (G : forall l acc,
            In q (nextProjectiles (fold_left (advanceProjectile a b N) l acc)) ->
            In q (nextProjectiles acc) \/ exists p, In p l /\ fliesOn p q).
  { induction l as [|p l IH]; intros acc H; cbn [fold_left] in H; [now left|].
    apply IH in H as [H | (p' & Hp' & F)].
    - apply advanceProjectile_flight in H as [H | F]; [now left|].
      right. exists p. split; [now left | exact F].
    - right. exists p'. split; [now right | exact F]. }
  intros H. apply G in H as [[] | H]. exact H.
Qed.

(** The projectile of the duel when its target is not in the arena: it
    flies on. *)
Lemma duelShot_kept a :
  id a = "A"%string ->
  nextProjectiles (advanceProjectiles [duelShot] a a 10)
  = [ {| shooterRobotId := "A"; inflight_targetRobotId := "B";
         position := {| x := toFixed 4 (/ 2 + 1 * / 2); y := toFixed 4 (0 + 0 * / 2) |};
         inflight_direction := {| dx := 1; dy := 0 |};
         directionCardinal := DirE;
         traveledDistance := toFixed 4 (/ 2 + / 2);
         maxRange := SHOT_RANGE |} ].
Proof.
  intros IA.
  unfold advanceProjectiles. cbn [fold_left]. unfold advanceProjectile. cbv zeta.
  cbn [maxRange traveledDistance position inflight_direction duelShot
       inflight_targetRobotId directionCardinal shooterRobotId x y dx dy
       traces pendingKills nextProjectiles].
  rewrite maxStep_half, duelShot_wall.
  unfold SHOT_RANGE.
  rewrite (Rleb_is_false (5 - / 2) EPSILON) by (unfold EPSILON; lra).
  rewrite (Rmin_left (/ 2) (5 - / 2)) by lra.
  rewrite (Rmax_right 0 (85 / 10)) by lra.
  rewrite (Rmin_left (/ 2) (85 / 10)) by lra.
  rewrite (Rleb_is_false (/ 2) EPSILON) by (unfold EPSILON; lra).
  unfold findRobotById. rewrite IA. cbn [String.eqb Ascii.eqb Bool.eqb].
  cbn [nextProjectiles].
  rewrite (Rleb_is_false (5 - EPSILON) (/ 2 + / 2)) by (unfold EPSILON; lra).
  rewrite (Rleb_is_false (85 / 10) (/ 2 + EPSILON)) by (unfold EPSILON; lra).
  reflexivity.
Qed.

Lemma X25_projectile_flight_witness :
  let a := stateA duelState in
  let q := {| shooterRobotId := "A"; inflight_targetRobotId := "B";
              position := {| x := toFixed 4 (/ 2 + 1 * / 2);
                             y := toFixed 4 (0 + 0 * / 2) |};
              inflight_direction := {| dx := 1; dy := 0 |};
              directionCardinal := DirE;
              traveledDistance := toFixed 4 (/ 2 + / 2);
              maxRange := SHOT_RANGE |} in
  In q (nextProjectiles (advanceProjectiles [duelShot] a a 10))
  /\ exists p, In p [duelShot] /\ fliesOn p q.
Proof.
  cbv zeta.
  assert (Kept : In {| shooterRobotId := "A"; inflight_targetRobotId := "B";
                       position := {| x := toFixed 4 (/ 2 + 1 * / 2);
                                      y := toFixed 4 (0 + 0 * / 2) |};
                       inflight_direction := {| dx := 1; dy := 0 |};
                       directionCardinal := DirE;
                       traveledDistance := toFixed 4 (/ 2 + / 2);
                       maxRange := SHOT_RANGE |}
                  (nextProjectiles
                     (advanceProjectiles [duelShot] (stateA duelState)
                        (stateA duelState) 10))).
  { rewrite (duelShot_kept (stateA duelState) eq_refl). now left. }
  split; [exact Kept|].
  exact (X25_projectile_flight [duelShot] (stateA duelState) (stateA duelState) 10 _ Kept).
Defined.

(** * Properties of the engine: walls *)

Section Sorting.
Context {T : Type}.
Variable key : T -> R.

Lemma In_insertByKey e l e' : In e' (insertByKey key e l) <-> e' = e \/ In e' l.
Proof.
  induction l as [|c rest IH]; cbn [insertByKey].
  - cbn. intuition.
  - destruct (Rleb (key e) (key c)); cbn [In]; [intuition|].
    rewrite IH. cbn [In]. intuition.
Qed.

Lemma In_sortByKey l e : In e (sortByKey key l) <-> In e l.
Proof.
  unfold sortByKey. induction l as [|c rest IH]; cbn [fold_right]; [tauto|].
  rewrite In_insertByKey, IH. cbn [In]. intuition.
Qed.

Lemma insertByKey_sorted e l :
  StronglySorted (fun a b => key a <= key b) l ->
  StronglySorted (fun a b => key a <= key b) (insertByKey key e l).
Proof.
  induction 1 as [|c rest S IH H]; cbn [insertByKey].
  - repeat constructor.
  - destruct (Rleb (key e) (key c)) eqn:E.
    + apply Rleb_true in E. constructor; [now constructor|].
      constructor; [assumption|].
      rewrite Forall_forall in *. intros b Hb. specialize (H b Hb). lra.
    + apply Rleb_false in E. constructor; [assumption|].
      rewrite Forall_forall in *. intros b Hb.
      apply In_insertByKey in Hb as [-> | Hb]; [lra | now apply H].
Qed.

Lemma sortByKey_sorted l :
  StronglySorted (fun a b => key a <= key b) (sortByKey key l).
Proof.
  unfold sortByKey. induction l as [|c rest IH]; cbn [fold_right]; [constructor|].
  now apply insertByKey_sorted.
Qed.

(** The head of the sorted list is an element with the least key. *)
Lemma sortByKey_head l d :
  l <> [] ->
  In (hd d (sortByKey key l)) l
  /\ forall e, In e l -> key (hd d (sortByKey key l)) <= key e.
Proof.
  intros N. pose proof (sortByKey_sorted l) as S.
  pose proof (In_sortByKey l) as M.
  destruct (sortByKey key l) as [|c rest].
  - destruct l as [|e l]; [contradiction|]. destruct (proj2 (M e) (or_introl eq_refl)).
  - cbn [hd]. split; [apply M; now left|].
    intros e He. apply M in He as [<- | He]; [lra|].
    apply StronglySorted_inv in S as [_ H]. rewrite Forall_forall in H. now apply H.
Qed.
End Sorting.

Lemma buildWallRayHit_distance origin dir N :
  0 <= distance (buildWallRayHit origin dir N)
  /\ onGrid 4 (distance (buildWallRayHit origin dir N)).
Proof.
  unfold buildWallRayHit. cbv zeta.
  match goal with
  | |- context [sortByKey distance ?candidates] =>
      assert (Far : forall c, In c candidates -> EPSILON < distance c);
      [|pose proof (In_sortByKey distance candidates) as M;
        destruct (sortByKey distance candidates) as [|nearest rest]]
  end.
  - intros c Hc.
    repeat (apply in_app_or in Hc as [Hc | Hc]);
      match type of Hc with
      | In _ (if ?test then _ else _) =>
          destruct test eqn:E; [|destruct Hc];
          destruct Hc as [<- | []]; cbn [distance];
          apply andb_prop in E as [E _]; apply andb_prop in E as [_ E];
          now apply Rltb_true in E
      end.
  - cbn [distance]. split; [lra | apply (onGrid_IZR 4 0)].
  - cbn [distance]. split; [|apply toFixed_onGrid].
    apply toFixed_nonneg. assert (EPSILON < distance nearest)
      by (apply Far, M; now left).
    unfold EPSILON in *. lra.
Qed.

Lemma nearest_of_four (a l r b : R) :
  onGrid 4 a -> onGrid 4 l -> onGrid 4 r -> onGrid 4 b ->
  let nearest :=
    hd (AHEAD, a)
       (sortByKey snd [(AHEAD, a); (WALL_LEFT, l); (WALL_RIGHT, r); (BACK, b)]) in
  toFixed 4 (snd nearest) = Rmin (Rmin a l) (Rmin r b)
  /\ toFixed 4 (snd nearest)
     = match fst nearest with
       | AHEAD => a | WALL_LEFT => l | WALL_RIGHT => r | BACK => b
       end.
Proof.
  intros GA GL GR GB nearest.
  destruct (sortByKey_head snd
              [(AHEAD, a); (WALL_LEFT, l); (WALL_RIGHT, r); (BACK, b)] (AHEAD, a)
              ltac:(discriminate)) as [Member Least].
  fold nearest in Member, Least.
  pose proof (Least _ (or_introl eq_refl)) as LA.
  pose proof (Least _ (or_intror (or_introl eq_refl))) as LL.
  pose proof (Least _ (or_intror (or_intror (or_introl eq_refl)))) as LR.
  pose proof (Least _ (or_intror (or_intror (or_intror (or_introl eq_refl))))) as LB.
  cbn [snd] in LA, LL, LR, LB. clear Least.
  assert (Min : forall v, v <= a -> v <= l -> v <= r -> v <= b ->
                  v = a \/ v = l \/ v = r \/ v = b ->
                  v = Rmin (Rmin a l) (Rmin r b)).
  { intros v Va Vl Vr Vb Which.
    pose proof (Rmin_l a l). pose proof (Rmin_r a l).
    pose proof (Rmin_l r b). pose proof (Rmin_r r b).
    pose proof (Rmin_l (Rmin a l) (Rmin r b)).
    pose proof (Rmin_r (Rmin a l) (Rmin r b)).
    assert (v <= Rmin (Rmin a l) (Rmin r b))
      by (repeat apply Rmin_glb; assumption).
    lra. }
  destruct Member as [E | [E | [E | [E | []]]]]; rewrite <- E in *;
    cbn [fst snd] in *; rewrite toFixed_grid by assumption;
    (split; [apply Min; auto; lra | reflexivity]).
Qed.

(** X26: the wall distances of a perception are not negative and have no
    more than 4 decimals, and [nearestDistance] is the least of the four
    distances ahead, left, right and back, the one in [nearestDirection]. *)
Theorem X26_nearest_wall (actor : RobotState) (N : R) :
  let w := buildWallPerception actor N in
  (forall d, 0 <= wallDistance w d /\ onGrid 4 (wallDistance w d))
  /\ nearestDistance w
     = Rmin (Rmin (aheadDistance w) (leftDistance w))
            (Rmin (rightDistance w) (backDistance w))
  /\ nearestDistance w = wallDistance w (nearestDirection w).
Proof.
  cbv zeta. split.
  - intros []; cbn [wallDistance buildWallPerception aheadDistance leftDistance
                    rightDistance backDistance]; apply buildWallRayHit_distance.
  - unfold buildWallPerception. cbv zeta.
    cbn [wallDistance aheadDistance leftDistance rightDistance backDistance
         nearestDistance nearestDirection].
    match goal with
    | |- context [sortByKey snd [(AHEAD, ?a); (WALL_LEFT, ?l); (WALL_RIGHT, ?r);
                                  (BACK, ?b)]] =>
        destruct (nearest_of_four a l r b) as [Least Which];
        try apply buildWallRayHit_distance
    end.
    cbv zeta in Least, Which. split; [exact Least|].
    rewrite Which. unfold wallDistance.
    match goal with |- context [fst ?nearest] => destruct (fst nearest) end;
      reflexivity.
Qed.

(** * Properties of the tools: the command distribution *)

Lemma countRule_counts (counts : CommandDistribution) (rule : ScriptAction) :
  RULES (countRule counts rule) = RULES counts
  /\ CONDITIONAL (countRule counts rule)
     = (CONDITIONAL counts + if conditional rule then 1 else 0)%nat
  /\ forall k, countOf (countRule counts rule) k
               = (countOf counts k
                  + if sameKind (kindOf (command rule)) k then 1 else 0)%nat.
Proof.
  unfold countRule, conditional.
  destruct (condition rule), (command rule) as [[] ?|[]|?];
    (split; [reflexivity|]); (split; [cbn; lia|]); intros []; cbn; lia.
Qed.

Lemma fold_countRule (program : list ScriptAction) (counts : CommandDistribution) :
  let final := fold_left countRule program counts in
  RULES final = RULES counts
  /\ CONDITIONAL final
     = (CONDITIONAL counts + List.length (filter conditional program))%nat
  /\ forall k, countOf final k
               = (countOf counts k + List.length (rulesOfKind k program))%nat.
Proof.
  cbv zeta. revert counts.
  induction program as [|rule program IH]; intros counts; cbn [fold_left].
  - cbn. repeat split; intros; lia.
  - destruct (IH (countRule counts rule)) as (R & C & K).
    destruct (countRule_counts counts rule) as (R' & C' & K').
    split; [congruence|]. split.
    + rewrite C, C'. cbn [filter]. destruct (conditional rule); cbn [List.length]; lia.
    + intros k. rewrite K, K'. unfold rulesOfKind. cbn [filter].
      destruct (sameKind _ k); cbn [List.length]; lia.
Qed.

Lemma kinds_partition (program : list ScriptAction) :
  (List.length (rulesOfKind SetsThrottle program)
   + List.length (rulesOfKind SetsStrafe program)
   + List.length (rulesOfKind SetsTurn program)
   + List.length (rulesOfKind FiresOn program)
   + List.length (rulesOfKind FiresOff program)
   + List.length (rulesOfKind Boosts program))%nat = List.length program.
Proof.
  unfold rulesOfKind.
  induction program as [|rule program IH]; [reflexivity|]. cbn [filter].
  destruct (kindOf (command rule)); cbn [sameKind List.length]; lia.
Qed.

(** X27: the command distribution that [commandCount] gives for a program
    returned by [parseRobotScript]: RULES is the number of rules, between 1
    and 200; each of the six command counts is the number of rules with a
    command of that kind, and the six add up to RULES; CONDITIONAL is the
    number of rules with a condition, no more than RULES. *)
Theorem X27_command_distribution (s : string) (program : list ScriptAction) :
  parseRobotScript s = Parsed program ->
  let counts := commandCount program in
  RULES counts = List.length program
  /\ (1 <= RULES counts <= MAX_SCRIPT_LINES)%nat
  /\ (forall k, countOf counts k = List.length (rulesOfKind k program))
  /\ (SET_THROTTLE counts + SET_STRAFE counts + SET_TURN counts
      + FIRE_ON counts + FIRE_OFF counts + BOOSTS counts)%nat = RULES counts
  /\ CONDITIONAL counts = List.length (filter conditional program)
  /\ (CONDITIONAL counts <= RULES counts)%nat.
Proof.
  intros H. cbv zeta. unfold commandCount.
  match goal with
  | |- context [fold_left countRule program ?init] =>
      destruct (fold_countRule program init) as (R & C & K)
  end.
  cbn [RULES CONDITIONAL] in R, C.
  assert (Kinds : forall k,
            countOf (fold_left countRule program
                       {| RULES := List.length program; CONDITIONAL := 0;
                          SET_THROTTLE := 0; SET_STRAFE := 0; SET_TURN := 0;
                          FIRE_ON := 0; FIRE_OFF := 0; BOOSTS := 0 |}) k
            = List.length (rulesOfKind k program)).
  { intros k. rewrite K. destruct k; reflexivity. }
  split; [exact R|]. split.
  - rewrite R.
    destruct (parseRobotScript_cases s) as [[B E]|[(B & L & E)|(B & L & E)]];
      rewrite E in H; try discriminate.
    destruct (parseLines _ 1) as [[|r more]|d|] eqn:P; try discriminate.
    injection H as <-.
    pose proof (parseLines_length _ _ _ P) as Len.
    rewrite splitLines_length in Len. cbn [List.length] in *. lia.
  - split; [exact Kinds|]. split.
    + pose proof (Kinds SetsThrottle). pose proof (Kinds SetsStrafe).
      pose proof (Kinds SetsTurn). pose proof (Kinds FiresOn).
      pose proof (Kinds FiresOff). pose proof (Kinds Boosts).
      cbn [countOf] in *. pose proof (kinds_partition program). lia.
    + split; [exact C|]. rewrite C, R. apply filter_length_le.
Qed.

Lemma X27_command_distribution_witness :
  let counts := commandCount triggerProgram in
  parseRobotScript "FIRE" = Parsed triggerProgram
  /\ RULES counts = List.length triggerProgram
  /\ (1 <= RULES counts <= MAX_SCRIPT_LINES)%nat
  /\ (forall k, countOf counts k = List.length (rulesOfKind k triggerProgram))
  /\ (SET_THROTTLE counts + SET_STRAFE counts + SET_TURN counts
      + FIRE_ON counts + FIRE_OFF counts + BOOSTS counts)%nat = RULES counts
  /\ CONDITIONAL counts = List.length (filter conditional triggerProgram)
  /\ (CONDITIONAL counts <= RULES counts)%nat.
Proof.
  split; [reflexivity|].
  exact (X27_command_distribution "FIRE" triggerProgram eq_refl).
Defined.

(** * Properties of the engine: the replay *)

Lemma smoothStep_range progress : 0 <= smoothStep progress <= 1.
Proof.
  unfold smoothStep.
  destruct (Rleb progress 0) eqn:Low; [lra|].
  destruct (Rleb 1 progress) eqn:High; [lra|].
  apply Rleb_false in Low. apply Rleb_false in High.
  assert (0 <= progress * progress * (3 - 2 * progress))
    by (apply Rmult_le_pos; nra).
  assert (0 <= (1 - progress) * (1 - progress) * (1 + 2 * progress))
    by (apply Rmult_le_pos; nra).
  lra.
Qed.

Lemma smoothStep_low progress : progress <= 0 -> smoothStep progress = 0.
Proof. intros H. unfold smoothStep. now rewrite Rleb_is_true. Qed.

Lemma smoothStep_high progress : 1 <= progress -> smoothStep progress = 1.
Proof.
  intros H. unfold smoothStep.
  rewrite Rleb_is_false by lra. now rewrite Rleb_is_true.
Qed.

Lemma smoothStep_inside progress :
  0 < progress < 1 -> smoothStep progress = progress * progress * (3 - 2 * progress).
Proof.
  intros H. unfold smoothStep. now rewrite !Rleb_is_false by lra.
Qed.

Lemma smoothStep_monotone progress later :
  progress <= later -> smoothStep progress <= smoothStep later.
Proof.
  intros H.
  destruct (Rle_dec progress 0) as [Low|Low].
  { rewrite (smoothStep_low progress Low). apply smoothStep_range. }
  destruct (Rle_dec 1 later) as [High|High].
  { rewrite (smoothStep_high later High). apply smoothStep_range. }
  rewrite !smoothStep_inside by lra.
  assert (0 <= (later - progress)
               * (3 * (later + progress)
                  - 2 * (later * later + later * progress + progress * progress)))
    by (apply Rmult_le_pos; nra).
  nra.
Qed.

(** X28: the easing of the replay. [smoothStep] maps every progress into
    [0, 1], is 0 up to progress 0 and 1 from progress 1 on, never decreases,
    and is symmetric about the middle; so a value interpolated with it lies
    between the start and the end value, and is the start value up to progress
    0 and the end value from progress 1 on. *)
Theorem X28_easing (start finish progress : R) :
  0 <= smoothStep progress <= 1
  /\ (forall later, progress <= later -> smoothStep progress <= smoothStep later)
  /\ smoothStep (1 - progress) = 1 - smoothStep progress
  /\ Rmin start finish <= lerp start finish (smoothStep progress) <= Rmax start finish
  /\ (progress <= 0 -> lerp start finish (smoothStep progress) = start)
  /\ (1 <= progress -> lerp start finish (smoothStep progress) = finish).
Proof.
  pose proof (smoothStep_range progress) as Range.
  split; [exact Range|]. split; [intros later; apply smoothStep_monotone|]. split.
  - destruct (Rle_dec progress 0) as [Low|Low].
    { rewrite (smoothStep_low progress Low), smoothStep_high by lra. lra. }
    destruct (Rle_dec 1 progress) as [High|High].
    { rewrite (smoothStep_high progress High), smoothStep_low by lra. lra. }
    rewrite !smoothStep_inside by lra. ring.
  - unfold lerp. split; [|split].
    + unfold Rmin, Rmax. destruct (Rle_dec start finish); nra.
    + intros Low. rewrite smoothStep_low by assumption. ring.
    + intros High. rewrite smoothStep_high by assumption. ring.
Qed.

Lemma jsRem_turns a n : exists k : Z, jsRem a n = a + n * IZR k.
Proof.
  exists (- Ztrunc (a / n))%Z. unfold jsRem. rewrite opp_IZR. ring.
Qed.

Lemma sameAngle_refl a : sameAngle a a.
Proof. exists 0%Z. cbn. ring. Qed.

Lemma sameAngle_trans a b c : sameAngle a b -> sameAngle b c -> sameAngle a c.
Proof.
  intros [k ->] [l ->]. exists (k + l)%Z. rewrite plus_IZR. ring.
Qed.

Lemma sameAngle_jsRem a : sameAngle a (jsRem a 360).
Proof. destruct (jsRem_turns a 360) as [k K]. now exists k. Qed.

Lemma sameAngle_representative a b :
  0 <= a < 360 -> 0 <= b < 360 -> sameAngle a b -> a = b.
Proof.
  intros Ha Hb [k ->].
  assert (Lo : IZR (-1) < IZR k) by (cbn; lra).
  assert (Hi : IZR k < IZR 1) by (cbn; lra).
  apply lt_IZR in Lo, Hi. replace k with 0%Z by lia. cbn. ring.
Qed.

(** [((value % 360) + 360) % 360] is the heading of [value] in [0, 360). *)
Lemma wrapped_heading value :
  jsRem (jsRem value 360 + 360) 360 = normalizeHeadingDeg value.
Proof.
  assert (Range : 0 <= jsRem (jsRem value 360 + 360) 360 < 360).
  { apply jsRem_nonneg; [lra|].
    destruct (Rlt_dec value 0) as [Neg|Pos].
    - pose proof (jsRem_neg value 360 ltac:(lra) Neg). lra.
    - pose proof (jsRem_nonneg value 360 ltac:(lra) ltac:(lra)). lra. }
  apply sameAngle_representative;
    [exact Range | apply normalizeHeadingDeg_range|].
  destruct (jsRem_turns (jsRem value 360 + 360) 360) as [k K].
  destruct (jsRem_turns value 360) as [l L].
  destruct (normalized_turn 360 value ltac:(lra)) as [_ [m M]].
  fold (normalizeHeadingDeg value) in M.
  exists (m - k - l - 1)%Z. rewrite K, L, M, !minus_IZR. ring.
Qed.

Lemma normalizedDelta_range startDeg endDeg :
  -540 <= endDeg - startDeg ->
  let delta := jsRem (endDeg - startDeg + 540) 360 - 180 in
  -180 <= delta < 180 /\ sameAngle (endDeg - startDeg) delta.
Proof.
  intros H. cbv zeta.
  pose proof (jsRem_nonneg (endDeg - startDeg + 540) 360 ltac:(lra) ltac:(lra)).
  split; [lra|].
  destruct (jsRem_turns (endDeg - startDeg + 540) 360) as [k K].
  exists (k + 1)%Z. rewrite K, plus_IZR. ring.
Qed.

Lemma sameAngle_heading a b :
  sameAngle a b -> normalizeHeadingDeg a = normalizeHeadingDeg b.
Proof.
  intros S.
  apply sameAngle_representative; try apply normalizeHeadingDeg_range.
  destruct (normalized_turn 360 a ltac:(lra)) as [_ [k K]].
  destruct (normalized_turn 360 b ltac:(lra)) as [_ [l L]].
  fold (normalizeHeadingDeg a) in K. fold (normalizeHeadingDeg b) in L.
  destruct S as [m M]. exists (l + m - k)%Z.
  rewrite K, L, M, minus_IZR, plus_IZR. ring.
Qed.

Lemma interpolateAngleDeg_end startDeg endDeg :
  -540 <= endDeg - startDeg ->
  interpolateAngleDeg startDeg endDeg 1 = normalizeHeadingDeg endDeg.
Proof.
  intros H. unfold interpolateAngleDeg. cbv zeta. rewrite wrapped_heading.
  apply sameAngle_heading.
  destruct (normalizedDelta_range startDeg endDeg H) as [_ [k K]].
  cbv zeta in K. exists (- k)%Z. rewrite K, opp_IZR. ring.
Qed.

(** X29: [interpolateAngleDeg] turns the short way round. For angles with
    endDeg - startDeg no less than -540 (so for any two angles of [0, 360]),
    the result lies in [0, 360) and is, up to whole turns, startDeg + delta *
    progress, where delta is the difference endDeg - startDeg taken in
    [-180, 180); so it is startDeg at progress 0 and endDeg at progress 1,
    up to whole turns. *)
Theorem X29_angle_interpolation (startDeg endDeg progress : R) :
  -540 <= endDeg - startDeg ->
  exists delta,
    -180 <= delta < 180
    /\ sameAngle (endDeg - startDeg) delta
    /\ 0 <= interpolateAngleDeg startDeg endDeg progress < 360
    /\ sameAngle (startDeg + delta * progress)
                 (interpolateAngleDeg startDeg endDeg progress)
    /\ sameAngle startDeg (interpolateAngleDeg startDeg endDeg 0)
    /\ sameAngle endDeg (interpolateAngleDeg startDeg endDeg 1).
Proof.
  intros H.
  destruct (normalizedDelta_range startDeg endDeg H) as [Range Same].
  cbv zeta in Range, Same.
  exists (jsRem (endDeg - startDeg + 540) 360 - 180).
  split; [exact Range|]. split; [exact Same|].
  assert (Value : forall p, interpolateAngleDeg startDeg endDeg p
                            = normalizeHeadingDeg
                                (startDeg + (jsRem (endDeg - startDeg + 540) 360 - 180) * p)).
  { intros p. unfold interpolateAngleDeg. cbv zeta. apply wrapped_heading. }
  assert (Turns : forall v, sameAngle v (normalizeHeadingDeg v)).
  { intros v. destruct (normalized_turn 360 v ltac:(lra)) as [_ K]. exact K. }
  split; [rewrite Value; apply normalizeHeadingDeg_range|].
  split; [rewrite Value; apply Turns|]. split.
  - rewrite Value.
    replace (startDeg + (jsRem (endDeg - startDeg + 540) 360 - 180) * 0)
      with startDeg by ring.
    apply Turns.
  - rewrite interpolateAngleDeg_end by exact H. apply Turns.
Qed.

Lemma X29_angle_interpolation_witness :
  -540 <= 10 - 350
  /\ exists delta,
       -180 <= delta < 180
       /\ sameAngle (10 - 350) delta
       /\ 0 <= interpolateAngleDeg 350 10 (/ 2) < 360
       /\ sameAngle (350 + delta * / 2) (interpolateAngleDeg 350 10 (/ 2))
       /\ sameAngle 350 (interpolateAngleDeg 350 10 0)
       /\ sameAngle 10 (interpolateAngleDeg 350 10 1).
Proof.
  assert (H : -540 <= 10 - 350) by lra.
  split; [exact H|]. exact (X29_angle_interpolation 350 10 (/ 2) H).
Defined.

Lemma lerp_end start finish : lerp start finish 1 = finish.
Proof. unfold lerp. ring. Qed.

Lemma mathRound_integer (k : Z) : mathRound (IZR k) = k.
Proof. unfold mathRound. apply Zfloor_eq. lra. Qed.

Lemma directionAtProgress_end start finish :
  directionAtProgress start finish 1 = finish.
Proof.
  unfold directionAtProgress. rewrite Rltb_is_false by lra.
  destruct start, finish; reflexivity.
Qed.

Lemma snapshot_angle (r : RobotState) :
  0 <= snap_angleDeg (snapshotRobot r) <= 360
  /\ onGrid 2 (snap_angleDeg (snapshotRobot r)).
Proof.
  unfold snapshotRobot. cbv zeta. cbn [snap_angleDeg].
  split; [|apply toFixed_onGrid].
  pose proof (normalizeAngleRad_range (headingRad r)) as [Lo Hi].
  pose proof PI_RGT_0 as Pi.
  apply toFixed_between.
  - replace 0 with (IZR 0) by reflexivity. apply onGrid_IZR.
  - apply onGrid_IZR.
  - assert (Inv : 0 < / PI) by now apply Rinv_0_lt_compat.
    split.
    + unfold Rdiv. apply Rmult_le_pos; [nra | lra].
    + apply Rmult_le_reg_r with PI; [exact Pi|].
      replace (normalizeAngleRad (headingRad r) * 180 / PI * PI)
        with (normalizeAngleRad (headingRad r) * 180) by (field; lra).
      nra.
Qed.

Lemma heading_onGrid (angle : R) :
  0 <= angle <= 360 -> onGrid 2 angle -> onGrid 2 (normalizeHeadingDeg angle).
Proof.
  intros [Lo Hi] Grid. destruct (Rlt_dec angle 360) as [Less|Full].
  - replace (normalizeHeadingDeg angle) with angle; [exact Grid|].
    apply sameAngle_representative;
      [lra | apply normalizeHeadingDeg_range|].
    destruct (normalized_turn 360 angle ltac:(lra)) as [_ K]. exact K.
  - replace (normalizeHeadingDeg angle) with (IZR 0); [apply onGrid_IZR|].
    apply sameAngle_representative;
      [cbn; lra | apply normalizeHeadingDeg_range|].
    destruct (normalized_turn 360 angle ltac:(lra)) as [_ [k K]].
    fold (normalizeHeadingDeg angle) in K.
    exists (k + 1)%Z. rewrite K, plus_IZR. cbn. lra.
Qed.

(** From progress 1 on, an interpolated snapshot shows the end. *)
Lemma interpolateRobotSnapshot_end (r1 r2 : RobotState) (progress : R) :
  1 <= progress ->
  showsEnd (snapshotRobot r1) (snapshotRobot r2)
    (interpolateRobotSnapshot (snapshotRobot r1) (snapshotRobot r2) progress).
Proof.
  intros H.
  destruct (snapshot_angle r1) as [Range1 _].
  destruct (snapshot_angle r2) as [Range2 Grid2].
  unfold interpolateRobotSnapshot, showsEnd. cbv zeta.
  cbn [snap_x snap_y snap_energy snap_id snap_robotName snap_direction
       snap_alive snap_boostCooldownTicks snap_angleDeg].
  rewrite (smoothStep_high progress H), !lerp_end, directionAtProgress_end,
    mathRound_integer, interpolateAngleDeg_end by lra.
  rewrite (toFixed_grid 2 (normalizeHeadingDeg _))
    by (apply heading_onGrid; assumption).
  rewrite (Rltb_is_false 1 1) by lra.
  pose proof (normalizeHeadingDeg_range (snap_angleDeg (snapshotRobot r2))) as Range.
  destruct (normalized_turn 360 (snap_angleDeg (snapshotRobot r2)) ltac:(lra))
    as [_ Turns].
  fold (normalizeHeadingDeg (snap_angleDeg (snapshotRobot r2))) in Turns.
  split; [reflexivity|]. split; [reflexivity|].
  split; [unfold snapshotRobot; cbn [snap_x]; apply toFixed_idempotent|].
  split; [unfold snapshotRobot; cbn [snap_y]; apply toFixed_idempotent|].
  split; [reflexivity|]. split; [reflexivity|].
  split; [unfold snapshotRobot; cbn [snap_energy]; apply toFixed_idempotent|].
  split; [reflexivity|]. split; [exact Turns|]. split; [lra|].
  apply heading_onGrid; assumption.
Qed.

Lemma interpolateBattleSnapshot_end (a b a' b' : RobotState) (progress : R) :
  1 <= progress ->
  battleShowsEnd (snapshotBattle a b) (snapshotBattle a' b')
    (interpolateBattleSnapshot (snapshotBattle a b) (snapshotBattle a' b') progress).
Proof.
  intros H. unfold interpolateBattleSnapshot, battleShowsEnd, snapshotBattle.
  cbn [robotA robotB]. split; now apply interpolateRobotSnapshot_end.
Qed.

Lemma pushFrames_step (acc : Z * list ReplayFrame) (tickLog : TickLog) :
  pushFrames acc tickLog
  = ((fst acc + 1)%Z, snd acc ++ [replayFrame tickLog (fst acc) 1]).
Proof. destruct acc. reflexivity. Qed.

Lemma frames_fold (tickLogs : list TickLog) : forall index frames,
  let pushed := snd (fold_left pushFrames tickLogs (index, frames)) in
  List.length pushed = (List.length frames + List.length tickLogs)%nat
  /\ (forall k frame, nth_error frames k = Some frame ->
        nth_error pushed k = Some frame)
  /\ (forall k tickLog, nth_error tickLogs k = Some tickLog ->
        nth_error pushed (List.length frames + k)
        = Some (replayFrame tickLog (index + Z.of_nat k) 1)).
Proof.
  induction tickLogs as [|first others IH]; intros index frames; cbv zeta.
  - cbn [fold_left snd List.length]. split; [lia|]. split; [auto|].
    intros [|k] tickLog E; discriminate.
  - cbn [fold_left]. rewrite pushFrames_step. cbn [fst snd].
    destruct (IH (index + 1)%Z (frames ++ [replayFrame first index 1]))
      as (Len & Old & New).
    cbv zeta in Len, Old, New. rewrite length_app in Len, New.
    cbn [List.length] in *. split; [lia|]. split.
    + intros k frame E. apply Old. rewrite nth_error_app1; [exact E|].
      apply nth_error_Some. congruence.
    + intros [|k] tickLog E; cbn [nth_error] in E.
      * injection E as <-. rewrite Nat.add_0_r. apply Old.
        rewrite nth_error_app2, Nat.sub_diag by lia. cbn [nth_error].
        do 2 f_equal. cbn. lia.
      * replace (index + Z.of_nat (Datatypes.S k))%Z
          with (index + 1 + Z.of_nat k)%Z by lia.
        replace (List.length frames + Datatypes.S k)%nat
          with (List.length frames + 1 + k)%nat by lia.
        now apply New.
Qed.

Lemma ticksFrom_nth (n : nat) : forall first k number,
  nth_error (ticksFrom first n) k = Some number -> number = (first + Z.of_nat k)%Z.
Proof.
  induction n as [|n IH]; intros first [|k] number E; cbn in E; try discriminate.
  - injection E as <-. lia.
  - apply IH in E. lia.
Qed.

(** The frame of a tick whose log holds snapshots of the engine. *)
Lemma replayFrame_end (tickLog : TickLog) (index : Z) (a b a' b' : RobotState) :
  startState tickLog = snapshotBattle a b ->
  endState tickLog = snapshotBattle a' b' ->
  let frame := replayFrame tickLog index 1 in
  frame_index frame = index
  /\ frame_tick frame = tick tickLog
  /\ timestampMs frame = mathRound (IZR (tick tickLog) * TICK_DURATION_MS)
  /\ battleShowsEnd (startState tickLog) (endState tickLog) (frame_state frame)
  /\ frame_projectiles frame = projectiles tickLog
  /\ boostEffects frame = extractTickBoostEffects (actions tickLog)
  /\ frame_actions frame = map actionHint (actions tickLog).
Proof.
  intros Start End. cbv zeta. unfold replayFrame. cbv zeta.
  cbn [frame_index frame_tick timestampMs frame_state frame_projectiles
       boostEffects frame_actions].
  assert (One : INR 1 / INR REPLAY_FRAMES_PER_TICK = 1)
    by (unfold REPLAY_FRAMES_PER_TICK; cbn; field).
  rewrite One. split; [reflexivity|]. split; [reflexivity|]. split.
  - f_equal. ring.
  - split; [|repeat split].
    rewrite Start, End. apply interpolateBattleSnapshot_end. lra.
Qed.

(** X30: the replay of a battle has one frame for the initial state and one
    for every tick. The frame with the index k carries the tick number k
    and the time stamp of k ticks, rounded to the millisecond, and shows the
    state at the end of the tick k (the angle up to whole turns: 0 and
    360.00 stand for each other), with the traces, the boost effects and
    the actions of that tick; the frame 0 shows the initial state. *)
Theorem X30_replay_of_a_battle (input : SimulateBattleInput) :
  let sim := simulateBattle input in
  let frames := buildReplayFrames (initialState sim) (ticks sim) in
  List.length frames = Datatypes.S (List.length (ticks sim))
  /\ forall k frame, nth_error frames k = Some frame ->
       frameOfTick (initialState sim) (ticks sim) k frame.
Proof.
  cbv zeta.
  pose proof (simulateBattle_ticks input) as Logs.
  assert (Numbers : map tick (ticks (simulateBattle input))
                    = ticksFrom 1 (List.length (ticks (simulateBattle input)))).
  { unfold simulateBattle. cbv zeta.
    pose proof (runTicks_shape (input_arenaSize input)
                  (Z.to_nat (resolveMaxTicks (input_maxTicks input)
                                             (input_maxTurns input)))
                  1 (initialBattleState input)) as [(_ & Shape & _) _].
    destruct (runTicks _ _ 1 (initialBattleState input)) as [final logs].
    exact Shape. }
  assert (Initial : exists a b, initialState (simulateBattle input) = snapshotBattle a b).
  { unfold simulateBattle. cbv zeta.
    destruct (runTicks _ _ 1 (initialBattleState input)) as [final logs].
    cbn [initialState]. eauto. }
  destruct Initial as (a0 & b0 & Initial).
  set (sim := simulateBattle input) in *.
  unfold buildReplayFrames.
  match goal with
  | |- context [fold_left pushFrames (ticks sim) (?index, ?frames)] =>
      destruct (frames_fold (ticks sim) index frames) as (Len & Old & New)
  end.
  cbv zeta in Len, Old, New. cbn [List.length Nat.add] in Len, New.
  split; [exact Len|].
  intros [|k] frame E.
  - rewrite (Old 0%nat _ eq_refl) in E. injection E as <-.
    unfold frameOfTick.
    cbn [frame_index frame_tick timestampMs frame_state frame_projectiles
         boostEffects frame_actions].
    split; [reflexivity|]. split; [reflexivity|]. split.
    + unfold mathRound. symmetry. apply Zfloor_eq. cbn. lra.
    + split; [|repeat split]. rewrite Initial.
      apply interpolateBattleSnapshot_end. lra.
  - assert (Inside : (k < List.length (ticks sim))%nat).
    { assert (Datatypes.S k < List.length
                (snd (fold_left pushFrames (ticks sim)
                        (1%Z,
                         [ {| frame_index := 0; timestampMs := 0; frame_tick := 0;
                              frame_state :=
                                interpolateBattleSnapshot (initialState sim)
                                  (initialState sim) 1;
                              frame_projectiles := []; boostEffects := [];
                              frame_actions := [] |} ]))))%nat
        by (apply nth_error_Some; congruence).
      lia. }
    destruct (nth_error (ticks sim) k) as [tickLog|] eqn:Nth;
      [|apply nth_error_None in Nth; lia].
    assert (Frame : frame = replayFrame tickLog (1 + Z.of_nat k) 1)
      by (rewrite (New k tickLog Nth) in E; congruence).
    rewrite Frame. clear E Frame.
    assert (Number : tick tickLog = Z.of_nat (Datatypes.S k)).
    { assert (N : nth_error (map tick (ticks sim)) k = Some (tick tickLog))
        by (rewrite nth_error_map, Nth; reflexivity).
      rewrite Numbers in N. apply ticksFrom_nth in N. lia. }
    destruct (Logs tickLog (nth_error_In _ _ Nth)) as (t & st & _ & Log).
    destruct (simulateTick_log (input_arenaSize input) t st)
      as (_ & Start & _ & End & _).
    cbv zeta in Start, End. rewrite <- Log in Start, End.
    destruct (replayFrame_end tickLog (1 + Z.of_nat k) _ _ _ _ Start End)
      as (Index & Tick & Stamp & State & Traces & Effects & Hints).
    cbv zeta in Index, Tick, Stamp, State, Traces, Effects, Hints.
    unfold frameOfTick. split; [rewrite Index; lia|].
    split; [rewrite Tick; exact Number|]. split.
    + rewrite Stamp, Number, <- INR_IZR_INZ. reflexivity.
    + exists tickLog. split; [exact Nth|]. split; [exact State|].
      split; [exact Traces|]. split; [exact Effects | exact Hints].
Qed.

(** * Side boost: the burst over the ticks of a battle *)

Lemma applyMovement_positions a b cA cB N :
  let a' := fst (fst (applyMovement a b cA cB N)) in
  let b' := snd (fst (applyMovement a b cA cB N)) in
  let usedA := boost_used (snd (resolveSideBoost a cA (positionOf a) N)) in
  let usedB := boost_used (snd (resolveSideBoost b cB (positionOf b) N)) in
  let pA := proposalOf N a cA in
  let pB := proposalOf N b cB in
  let collide :=
    alive a && alive b
    && Rleb (hypot (x pA - x pB) (y pA - y pB)) (ROBOT_COLLISION_RADIUS * 2) in
  let finalA :=
    if collide && (plan_attempted (plannedDelta a cA) || usedA)
    then positionOf a else pA in
  let finalB :=
    if collide && (plan_attempted (plannedDelta b cB) || usedB)
    then positionOf b else pB in
  (robot_x a' = toFixed 4 (x finalA) /\ robot_y a' = toFixed 4 (y finalA))
  /\ (robot_x b' = toFixed 4 (x finalB) /\ robot_y b' = toFixed 4 (y finalB)).
Proof.
  cbv zeta. unfold proposalOf, positionOf, applyMovement. cbv zeta.
  destruct (resolveSideBoost_same a cA {| x := robot_x a; y := robot_y a |} N)
    as (_ & AA & _).
  destruct (resolveSideBoost_same b cB {| x := robot_x b; y := robot_y b |} N)
    as (_ & AB & _).
  destruct (resolveSideBoost a cA {| x := robot_x a; y := robot_y a |} N)
    as [a1 boostA].
  destruct (resolveSideBoost b cB {| x := robot_x b; y := robot_y b |} N)
    as [b1 boostB].
  cbn [fst snd] in *. cbn [x y]. rewrite AA, AB.
  split; split; reflexivity.
Qed.

(** The burst counter and the lock pass from the movement phase of a tick
    to the movement phase of the next one. *)
Lemma burst_after_movement N st :
  let L := tickLocals N st in
  (boostBurstTicksRemaining (endA N st) = boostBurstTicksRemaining (movedA L)
   /\ boostDirectionLocked (endA N st) = boostDirectionLocked (movedA L))
  /\ (boostBurstTicksRemaining (endB N st) = boostBurstTicksRemaining (movedB L)
      /\ boostDirectionLocked (endB N st) = boostDirectionLocked (movedB L)).
Proof.
  intros L.
  destruct (tick_firing N st) as (FA & FB & _). fold L in FA, FB. cbv zeta in FA, FB.
  unfold endA, endB. cbv zeta. fold L.
  destruct (endOfTick_fields (projectileAdvance L) (firedA L))
    as (_ & _ & _ & BA & LA & _).
  destruct (endOfTick_fields (projectileAdvance L) (firedB L))
    as (_ & _ & _ & BB & LB & _).
  cbv zeta in BA, LA, BB, LB. rewrite BA, LA, BB, LB, FA, FB.
  split.
  - match goal with
    | |- context [fireAttempt ?sh ?tid ?c ?acc] =>
        destruct (fireAttempt_fields sh tid c acc) as (_ & _ & B & Lk & _)
    end.
    cbv zeta in B, Lk. rewrite B, Lk. unfold atSpawnCheck.
    destruct (alive (movedA L)); split; reflexivity.
  - match goal with
    | |- context [fireAttempt (atSpawnCheck (movedB L)) ?tid ?c ?acc] =>
        destruct (fireAttempt_fields (atSpawnCheck (movedB L)) tid c acc)
          as (_ & _ & B & Lk & _)
    end.
    cbv zeta in B, Lk. rewrite B, Lk. unfold atSpawnCheck.
    destruct (alive (movedB L)); split; reflexivity.
Qed.

Lemma rotated_lock N st :
  let L := tickLocals N st in
  boostDirectionLocked (rotatedA L) = boostDirectionLocked (stateA st)
  /\ boostDirectionLocked (rotatedB L) = boostDirectionLocked (stateB st).
Proof.
  intros L.
  destruct (tickLocals_regen N st) as [RA RB].
  destruct (tickLocals_rotation N st) as [TA TB].
  fold L in RA, RB, TA, TB.
  destruct (tickSideBoostState_fields (stateA st)) as (_ & _ & BA & _).
  destruct (tickSideBoostState_fields (stateB st)) as (_ & _ & BB & _).
  rewrite <- RA in BA. rewrite <- RB in BB. rewrite <- BA, <- BB, TA, TB.
  split.
  - destruct (wasAlive (aliveAtStart L) (regenA L)); reflexivity.
  - destruct (wasAlive (aliveAtStart L) (regenB L)); reflexivity.
Qed.

Lemma burst_carried N t st s :
  let L := tickLocals N st in
  let L' := tickLocals N (fst (simulateTick N t st)) in
  boostBurstTicksRemaining (rotatedOf s L') = boostBurstTicksRemaining (movedOf s L)
  /\ boostDirectionLocked (rotatedOf s L') = boostDirectionLocked (movedOf s L).
Proof.
  intros L L'.
  destruct (rotated_burst N (fst (simulateTick N t st))) as [RA RB].
  destruct (rotated_lock N (fst (simulateTick N t st))) as [KA KB].
  fold L' in RA, RB, KA, KB.
  destruct (simulateTick_state N t st) as (SA & SB & _). cbv zeta in SA, SB.
  destruct (burst_after_movement N st) as [[BA LA] [BB LB]]. fold L in BA, LA, BB, LB.
  destruct s; cbn [rotatedOf movedOf].
  - rewrite RA, KA, SA.
    match goal with
    | |- context [rememberEnemy ?a ?b ?p] =>
        destruct (rememberEnemy_fields a b p) as (_ & _ & _ & _ & _ & _ & B & Lk & _)
    end.
    cbv zeta in B, Lk. rewrite B, Lk, BA, LA. split; reflexivity.
  - rewrite RB, KB, SB.
    match goal with
    | |- context [rememberEnemy (endB N st) ?b ?p] =>
        destruct (rememberEnemy_fields (endB N st) b p)
          as (_ & _ & _ & _ & _ & _ & B & Lk & _)
    end.
    cbv zeta in B, Lk. rewrite B, Lk, BB, LB. split; reflexivity.
Qed.

Lemma moved_or_stayed (separation : R) (r' : RobotState) (start target : Position) :
  robot_x r'
  = toFixed 4 (x (if Rleb separation (ROBOT_COLLISION_RADIUS * 2)
                  then start else target)) ->
  robot_y r'
  = toFixed 4 (y (if Rleb separation (ROBOT_COLLISION_RADIUS * 2)
                  then start else target)) ->
  let moved :=
    positionOf r' = {| x := toFixed 4 (x target); y := toFixed 4 (y target) |} in
  let stayed :=
    positionOf r' = {| x := toFixed 4 (x start); y := toFixed 4 (y start) |} in
  (moved \/ stayed)
  /\ (ROBOT_COLLISION_RADIUS * 2 + EPSILON < separation -> moved)
  /\ (separation <= ROBOT_COLLISION_RADIUS * 2 - EPSILON -> stayed).
Proof.
  intros X Y. cbv zeta. unfold positionOf.
  assert (Eps : 0 < EPSILON) by (unfold EPSILON; lra).
  destruct (Rleb separation (ROBOT_COLLISION_RADIUS * 2)) eqn:Test.
  - apply Rleb_true in Test. rewrite X, Y.
    split; [right; reflexivity|]. split; [intros Far; lra | reflexivity].
  - apply Rleb_false in Test. rewrite X, Y.
    split; [left; reflexivity|]. split; [reflexivity | intros Near; lra].
Qed.

(** What a call of [resolveSideBoost] that applies a burst tick gives in
    the movement phase of a tick. *)
Lemma tick_burst_applied N st s d k :
  alive (stateA st) = true -> alive (stateB st) = true ->
  let L := tickLocals N st in
  let r := rotatedOf s L in
  let call := resolveSideBoost r (controlOf s L) (positionOf r) N in
  boost_used (snd call) = true ->
  boost_delta (snd call) = lateralDelta (headingRad r) d (IZR k / 12) ->
  boostBurstTicksRemaining (fst call) = (k - 1)%Z ->
  boostDirectionLocked (fst call) = (if (k =? 1)%Z then None else Some d) ->
  burstApplied N L s d k.
Proof.
  intros AliveA AliveB L r call Used Delta Left Lock.
  destruct (tick_rotated_alive N st) as [RA RB]. fold L in RA, RB.
  rewrite AliveA in RA. rewrite AliveB in RB.
  pose proof (tickLocals_movement N st) as M. fold L in M. cbv zeta in M.
  destruct (applyMovement_positions (rotatedA L) (rotatedB L) (controlA L) (controlB L) N)
    as [[XA YA] [XB YB]].
  destruct (applyMovement_fields (rotatedA L) (rotatedB L) (controlA L) (controlB L) N)
    as [(_ & _ & _ & BA & LA & _) (_ & _ & _ & BB & LB & _)].
  cbv zeta in XA, YA, XB, YB, BA, LA, BB, LB.
  rewrite M in XA, YA, XB, YB, BA, LA, BB, LB.
  cbn [fst snd] in XA, YA, XB, YB, BA, LA, BB, LB.
  rewrite RA, RB in XA, YA, XB, YB. cbn [andb] in XA, YA, XB, YB.
  fold (proposalSeparation N L) in XA, YA, XB, YB.
  unfold burstApplied. cbv zeta.
  assert (Target : proposalOf N r (controlOf s L)
                   = fst (clampToArena
                            {| x := robot_x r
                                    + toFixed 4 (x (plan_delta (plannedDelta r (controlOf s L)))
                                                 + x (lateralDelta (headingRad r) d (IZR k / 12)));
                               y := robot_y r
                                    + toFixed 4 (y (plan_delta (plannedDelta r (controlOf s L)))
                                                 + y (lateralDelta (headingRad r) d (IZR k / 12))) |}
                            N)).
  { unfold proposalOf. cbv zeta. fold call. rewrite Delta. reflexivity. }
  split; [exact Target|].
  subst call r. destruct s; cbn [rotatedOf movedOf controlOf] in *.
  - rewrite Used, orb_true_r, andb_true_r, Target in XA, YA.
    unfold positionOf in Left, Lock. rewrite BA, LA, Left, Lock.
    destruct (moved_or_stayed _ _ _ _ XA YA) as (Either & Far & Near).
    cbv zeta in Either, Far, Near. cbn [x y positionOf] in Either, Far, Near.
    split; [exact Either|]. split; [exact Far|]. split; [exact Near|].
    split; reflexivity.
  - rewrite Used, orb_true_r, andb_true_r, Target in XB, YB.
    unfold positionOf in Left, Lock. rewrite BB, LB, Left, Lock.
    destruct (moved_or_stayed _ _ _ _ XB YB) as (Either & Far & Near).
    cbv zeta in Either, Far, Near. cbn [x y positionOf] in Either, Far, Near.
    split; [exact Either|]. split; [exact Far|]. split; [exact Near|].
    split; reflexivity.
Qed.

Lemma tick_ignition N st s d :
  robotInvariant (stateA st) -> robotInvariant (stateB st) ->
  alive (stateA st) = true -> alive (stateB st) = true ->
  let L := tickLocals N st in
  let r := rotatedOf s L in
  boost (controlOf s L) = Some d ->
  (boostBurstTicksRemaining r <= 0)%Z ->
  boostCooldownTicks r = 0%Z ->
  SIDE_BOOST_ENERGY_COST <= energy r ->
  (let r1 := igniteSideBoost r (controlOf s L) in
   energy r1 = energy r - 35 /\ boostCooldownTicks r1 = 10%Z
   /\ boostBurstTicksRemaining r1 = 5%Z /\ boostDirectionLocked r1 = Some d)
  /\ (energy (movedOf s L) = energy r - 35
      /\ boostCooldownTicks (movedOf s L) = 10%Z)
  /\ burstApplied N L s d 5.
Proof.
  intros IA IB AliveA AliveB L r Bc Bu Co En.
  destruct (tickLocals_invariant N st IA IB) as (_ & (RA & RB) & _).
  fold L in RA, RB.
  destruct (tick_rotated_alive N st) as [LA LB]. fold L in LA, LB.
  rewrite AliveA in LA. rewrite AliveB in LB.
  assert (Alive : alive r = true) by (subst r; destruct s; assumption).
  assert (Grid : onGrid 4 (energy r))
    by (subst r; destruct s; [destruct RA | destruct RB]; assumption).
  destruct (ignition r (controlOf s L) d Bc Bu Co En Grid) as (E1 & C1 & B1 & L1 & _).
  destruct (ignition_tick r (controlOf s L) d (positionOf r) N Alive Bc Bu Co En Grid)
    as (E2 & C2 & B2 & L2 & U2 & _ & D2).
  cbv zeta in E1, C1, B1, L1, E2, C2, B2, L2, U2, D2.
  split; [cbv zeta; tauto|]. split.
  - pose proof (tickLocals_movement N st) as M. fold L in M. cbv zeta in M.
    destruct (applyMovement_fields (rotatedA L) (rotatedB L) (controlA L) (controlB L) N)
      as [(EA & _ & CA & _) (EB & _ & CB & _)].
    cbv zeta in EA, CA, EB, CB. rewrite M in EA, CA, EB, CB.
    cbn [fst snd] in EA, CA, EB, CB.
    subst r. unfold positionOf in E2, C2.
    destruct s; cbn [rotatedOf movedOf controlOf] in *.
    + rewrite EA, CA, E2, C2. split; reflexivity.
    + rewrite EB, CB, E2, C2. split; reflexivity.
  - apply (tick_burst_applied N st s d 5 AliveA AliveB); fold L; fold r.
    + exact U2.
    + exact D2.
    + rewrite B2. reflexivity.
    + rewrite L2. reflexivity.
Qed.

Lemma tick_burst N st s d k :
  alive (stateA st) = true -> alive (stateB st) = true ->
  let L := tickLocals N st in
  boostBurstTicksRemaining (rotatedOf s L) = k ->
  boostDirectionLocked (rotatedOf s L) = Some d ->
  (1 <= k <= 5)%Z ->
  burstApplied N L s d k.
Proof.
  intros AliveA AliveB L B Lk K.
  destruct (tick_rotated_alive N st) as [LA LB]. fold L in LA, LB.
  rewrite AliveA in LA. rewrite AliveB in LB.
  assert (Alive : alive (rotatedOf s L) = true) by (destruct s; assumption).
  destruct (burst_tick (rotatedOf s L) d k (controlOf s L)
              (positionOf (rotatedOf s L)) N Alive B Lk K)
    as (U & _ & _ & D & B' & L' & _).
  cbv zeta in U, D, B', L'.
  apply (tick_burst_applied N st s d k AliveA AliveB); fold L; assumption.
Qed.

Lemma afterTicks_last N n : forall t st,
  afterTicks N (Datatypes.S n) t st
  = fst (simulateTick N (t + Z.of_nat n) (afterTicks N n t st)).
Proof.
  induction n as [|n IH]; intros t st.
  - cbn [afterTicks Z.of_nat]. now rewrite Z.add_0_r.
  - change (afterTicks N (Datatypes.S (Datatypes.S n)) t st)
      with (afterTicks N (Datatypes.S n) (t + 1) (fst (simulateTick N t st))).
    rewrite IH. cbn [afterTicks]. do 2 f_equal. lia.
Qed.

(** A robot that is alive after a tick was alive before it. *)
Lemma alive_before N t st :
  (alive (stateA (fst (simulateTick N t st))) = true -> alive (stateA st) = true)
  /\ (alive (stateB (fst (simulateTick N t st))) = true -> alive (stateB st) = true).
Proof.
  destruct (simulateTick_state N t st) as (SA & SB & _). cbv zeta in SA, SB.
  destruct (tickLocals_same N st) as (_ & _ & (_ & FA & _) & (_ & FB & _)).
  rewrite SB, SA, !rememberEnemy_alive. unfold endA, endB. cbv zeta.
  unfold refreshDirection, applyPendingKill.
  split.
  - destruct (setHas _ (id (firedA (tickLocals N st)))); cbn; [discriminate|].
    now rewrite FA.
  - destruct (setHas _ (id (firedB (tickLocals N st)))); cbn; [discriminate|].
    now rewrite FB.
Qed.

Lemma afterTicks_invariant N n : forall t st,
  robotInvariant (stateA st) -> robotInvariant (stateB st) ->
  robotInvariant (stateA (afterTicks N n t st))
  /\ robotInvariant (stateB (afterTicks N n t st)).
Proof.
  induction n as [|n IH]; intros t st IA IB; [split; assumption|].
  cbn [afterTicks]. destruct (simulateTick_invariant N t st IA IB). now apply IH.
Qed.

Lemma afterTicks_alive N n : forall t st,
  alive (stateA (afterTicks N n t st)) = true ->
  alive (stateB (afterTicks N n t st)) = true ->
  forall m, (m <= n)%nat ->
    alive (stateA (afterTicks N m t st)) = true
    /\ alive (stateB (afterTicks N m t st)) = true.
Proof.
  induction n as [|n IH]; intros t st AA AB m Hm.
  - replace m with 0%nat by lia. split; assumption.
  - destruct (Nat.eq_dec m (Datatypes.S n)) as [->|Ne]; [split; assumption|].
    rewrite afterTicks_last in AA, AB.
    destruct (alive_before N (t + Z.of_nat n) (afterTicks N n t st)) as [BA BB].
    apply (IH t st (BA AA) (BB AB)). lia.
Qed.

(** The burst of a robot that ignites at a tick goes on over the four
    ticks that follow, as long as both robots live. *)
Lemma burst_progress N t st s d :
  alive (stateA st) = true -> alive (stateB st) = true ->
  burstApplied N (tickLocals N st) s d 5 ->
  forall i : nat, (i < 5)%nat ->
    alive (stateA (afterTicks N i t st)) = true ->
    alive (stateB (afterTicks N i t st)) = true ->
    burstApplied N (tickLocals N (afterTicks N i t st)) s d (5 - Z.of_nat i).
Proof.
  intros AliveA AliveB First.
  induction i as [|i IH]; intros Hi AA AB; [exact First|].
  destruct (afterTicks_alive N (Datatypes.S i) t st AA AB i ltac:(lia)) as [PA PB].
  specialize (IH ltac:(lia) PA PB).
  destruct IH as (_ & _ & _ & _ & Left & Lock).
  rewrite afterTicks_last in *.
  destruct (burst_carried N (t + Z.of_nat i) (afterTicks N i t st) s) as [B Lk].
  cbv zeta in B, Lk.
  apply tick_burst; try assumption.
  - rewrite B, Left. lia.
  - rewrite Lk, Lock.
    replace (5 - Z.of_nat i =? 1)%Z with false
      by (symmetry; apply Z.eqb_neq; lia).
    reflexivity.
  - lia.
Qed.

(** C4.  In a battle, for each of the two robots: when at a tick the
    robot requests a boost with no burst in progress, a boost cooldown of 0
    and at least 35 energy as the movement phase begins, the ignition debits
    exactly 35 energy, sets the cooldown to 10 and the burst counter to 5 and
    locks the requested direction, and the robot leaves the movement phase
    of that tick with 35 energy less and a cooldown of 10.  That tick and
    the four that follow, as far as the battle reaches them, are the five
    burst ticks: the movement phase of the i-th of them (i = 0, ..., 4)
    applies a lateral delta of (5 - i)/12 tiles toward the locked side of
    the heading, that is 5/12, 4/12, 3/12, 2/12 and 1/12 tiles: the robot
    moves to its position plus the rounded sum of the planned delta and of
    that lateral delta, clamped to the arena, or stays where the proposals
    of the two robots collide, and the burst is left with 4 - i ticks. *)
Theorem C4_boost_ignition_and_burst (input : SimulateBattleInput) (t : Z)
    (st : BattleState) (s : Side) (d : BoostDirection) :
  TickStart input t st ->
  let N := input_arenaSize input in
  let L := tickLocals N st in
  let r := rotatedOf s L in
  boost (controlOf s L) = Some d ->
  (boostBurstTicksRemaining r <= 0)%Z ->
  boostCooldownTicks r = 0%Z ->
  SIDE_BOOST_ENERGY_COST <= energy r ->
  (let r1 := igniteSideBoost r (controlOf s L) in
   energy r1 = energy r - 35 /\ boostCooldownTicks r1 = 10%Z
   /\ boostBurstTicksRemaining r1 = 5%Z /\ boostDirectionLocked r1 = Some d)
  /\ (energy (movedOf s L) = energy r - 35
      /\ boostCooldownTicks (movedOf s L) = 10%Z)
  /\ forall i : nat, (i < 5)%nat ->
       TickStart input (t + Z.of_nat i) (afterTicks N i t st) ->
       burstApplied N (tickLocals N (afterTicks N i t st)) s d (5 - Z.of_nat i).
Proof.
  intros Start N L r Bc Bu Co En.
  destruct (TickStart_invariant input t st Start) as (IA & IB & AliveA & AliveB).
  destruct (tick_ignition N st s d IA IB AliveA AliveB Bc Bu Co En)
    as (Ignition & Movement & First).
  split; [exact Ignition|]. split; [exact Movement|].
  intros i Hi Reached.
  destruct (TickStart_invariant input _ _ Reached) as (_ & _ & AA & AB).
  now apply burst_progress.
Qed.

(** ** The boost battle *)

Lemma shotsOf_idle shooter tid c : fire c = false -> shotsOf shooter tid c = [].
Proof.
  intros F. unfold shotsOf, shotAllowed. rewrite F, andb_false_r. reflexivity.
Qed.

(** A tick in which no projectile flies and no trigger is held kills no
    robot, leaves no projectile and costs no energy after the movement. *)
Lemma quiet_tick N t st :
  battleInvariant st ->
  activeProjectiles st = [] ->
  let L := tickLocals N st in
  fire (controlA L) = false -> fire (controlB L) = false ->
  let st' := fst (simulateTick N t st) in
  (alive (stateA st') = true /\ alive (stateB st') = true)
  /\ activeProjectiles st' = []
  /\ energy (stateA st') = energy (movedA L)
  /\ energy (stateB st') = energy (movedB L).
Proof.
  intros Inv Empty L FA FB st'.
  pose proof Inv as (IA & IB & AliveA & AliveB).
  destruct (tick_firing_cases N st IA IB) as (Spawned & _).
  fold L in Spawned. cbv zeta in Spawned.
  rewrite !shotsOf_idle in Spawned by assumption. cbn [app] in Spawned.
  pose proof (tickLocals_projectiles N st) as Adv. fold L in Adv. cbv zeta in Adv.
  rewrite Empty, Spawned in Adv. cbn [app] in Adv.
  unfold advanceProjectiles in Adv. cbn [fold_left] in Adv.
  destruct (simulateTick_state N t st) as (SA & SB & SP). cbv zeta in SA, SB, SP.
  fold st' in SA, SB, SP. fold L in SP.
  destruct (tickLocals_same N st) as (_ & _ & (_ & KA & _) & (_ & KB & _)).
  fold L in KA, KB.
  destruct (tick_energy_account N t st Inv) as [AccA AccB].
  fold L in AccA, AccB. fold st' in AccA, AccB.
  destruct AccA as (_ & _ & _ & _ & FiredA & FinalA & _).
  destruct AccB as (_ & _ & _ & _ & FiredB & FinalB & _).
  assert (NoShot : forall r c, fire c = false -> shotAllowed r c = false).
  { intros r c F. unfold shotAllowed. rewrite F, andb_false_r. reflexivity. }
  rewrite NoShot in FiredA, FiredB by assumption.
  split; [|split; [|split]].
  - rewrite SB, SA, !rememberEnemy_alive. unfold endA, endB. cbv zeta. fold L.
    unfold refreshDirection, applyPendingKill. rewrite Adv. cbn [pendingKills setHas existsb].
    cbn. rewrite KA, KB. split; assumption.
  - rewrite SP, Adv. reflexivity.
  - congruence.
  - congruence.
Qed.

Lemma boostProgram_controls sensors :
  controls (resolveControls boostProgram sensors) = boostRightControls.
Proof. reflexivity. Qed.

Lemma boostBattle_controls t st :
  TickStart boostBattle t st ->
  let L := tickLocals 10 st in
  controlA L = boostRightControls /\ controlB L = neutralControls.
Proof.
  intros Start L.
  destruct (TickStart_program boostBattle t st Start) as [PA PB].
  destruct (TickStart_invariant boostBattle t st Start) as (_ & _ & AA & AB).
  destruct (tick_controls 10 st AA AB) as (sa & sb & CA & CB). fold L in CA, CB.
  rewrite PA in CA. rewrite PB in CB. split; [exact CA | exact CB].
Qed.

Lemma idle_burst_stays N st :
  let L := tickLocals N st in
  boost (controlB L) = None ->
  boostBurstTicksRemaining (stateB st) = 0%Z ->
  boostBurstTicksRemaining (movedB L) = 0%Z.
Proof.
  intros L None Zero.
  destruct (rotated_burst N st) as [_ RB]. fold L in RB. rewrite Zero in RB.
  pose proof (tickLocals_movement N st) as M. fold L in M. cbv zeta in M.
  destruct (applyMovement_fields (rotatedA L) (rotatedB L) (controlA L) (controlB L) N)
    as [_ (_ & _ & _ & BB & _)].
  cbv zeta in BB. rewrite M in BB. cbn [fst snd] in BB. rewrite BB.
  destruct (alive (rotatedB L)) eqn:Alive.
  - rewrite (resolveSideBoost_burst _ _ _ _ Alive).
    unfold igniteSideBoost, boostIgnites. rewrite None, RB.
    destruct (boostDirectionLocked (rotatedB L)); reflexivity.
  - unfold resolveSideBoost. rewrite Alive. cbn [negb fst]. exact RB.
Qed.

(** As the boost battle starts, robot A enters the movement phase ready
    to ignite: it requests a boost to its right, with no burst in progress,
    no cooldown and an energy of 100. *)
Lemma boostBattle_ready height t st :
  boostRun 5 height t st ->
  let L := tickLocals 10 st in
  boost (controlA L) = Some RIGHT
  /\ boostBurstTicksRemaining (rotatedA L) = 0%Z
  /\ boostCooldownTicks (rotatedA L) = 0%Z
  /\ energy (rotatedA L) = 100.
Proof.
  intros (Start & _ & _ & _ & Phase) L. cbn [Z.eqb Pos.eqb] in Phase.
  destruct Phase as (B0 & C0 & E0).
  destruct (TickStart_invariant boostBattle t st Start) as (IA & _ & AliveA & AliveB).
  destruct (boostBattle_controls t st Start) as [CA _]. fold L in CA.
  destruct (rotated_burst 10 st) as [RBA _]. fold L in RBA.
  destruct (tickLocals_regen 10 st) as [RegA _]. fold L in RegA.
  destruct (tickLocals_rotation 10 st) as [RotA _]. fold L in RotA.
  destruct (tick_wasAlive 10 st AliveA AliveB) as [WA _]. fold L in WA.
  rewrite WA in RotA.
  destruct (computeRotation_fields (regenA L) (controlA L))
    as (ER & _ & _ & _ & CR & _).
  cbv zeta in ER, CR. rewrite <- RotA in ER, CR.
  destruct (tickSideBoostState_fields (stateA st)) as (_ & _ & _ & CT & _).
  cbv zeta in CT. rewrite <- RegA, AliveA, C0 in CT. cbn in CT.
  split; [rewrite CA; reflexivity|]. split; [rewrite RBA; exact B0|].
  split; [rewrite CR; exact CT|].
  rewrite ER, RegA, tickSideBoostState_energy by (destruct IA; assumption).
  rewrite AliveA, E0. apply Rmin_left. lra.
Qed.

(** One tick of the boost battle with the burst of robot A at the level
    [k]: robot A moves by the lateral delta of [k]/12 tiles, to its right. *)
Lemma boostBattle_tick k height step t st :
  boostRun k height t st ->
  (1 <= k <= 5)%Z ->
  0 <= height <= 2 -> onGrid 4 height ->
  lateralDelta 0 RIGHT (IZR k / 12) = {| x := 0; y := step |} ->
  0 <= step <= 1 -> onGrid 4 step ->
  boostRun (k - 1) (height + step) (t + 1) (fst (simulateTick 10 t st))
  /\ (k = 5%Z -> energy (stateA (fst (simulateTick 10 t st))) = 65).
Proof.
  intros (Start & Empty & (XB & YB & BurstB) & (XA & YA & HA) & Phase)
         K Height GridH Push Step GridS.
  pose proof (TickStart_invariant boostBattle t st Start) as Inv.
  pose proof Inv as (IA & IB & AliveA & AliveB).
  destruct (boostBattle_controls t st Start) as [CA CB].
  set (L := tickLocals 10 st) in *.
  destruct (quiet_tick 10 t st Inv Empty) as ((AA' & AB') & Empty' & EnA & _);
    fold L; rewrite ?CA, ?CB; try reflexivity.
  fold L in EnA.
  set (st' := fst (simulateTick 10 t st)) in *.
  destruct (simulateTick_state 10 t st) as (SA & SB & _). cbv zeta in SA, SB.
  fold st' in SA, SB.
  destruct (tick_position 10 st) as ((_ & _ & RXA & RYA & EXA & EYA) & _).
  fold L in RXA, RYA, EXA, EYA.
  (* robot B stays in its corner *)
  assert (Nine : onGrid 4 9) by apply (onGrid4_const 9).
  destruct (TickStart_program boostBattle t st Start) as [_ PB].
  destruct (idle_tick_B 10 st PB BurstB) as [EXB EYB];
    rewrite ?XB, ?YB; try assumption; try lra.
  pose proof (idle_burst_stays 10 st) as StayB. cbv zeta in StayB. fold L in StayB.
  rewrite CB in StayB. specialize (StayB eq_refl BurstB).
  destruct (burst_after_movement 10 st) as [[BA LA] [BB _]].
  fold L in BA, LA, BB.
  (* the heading of robot A *)
  destruct (tick_turn boostBattle t st Start) as [TurnA _].
  cbv zeta in TurnA. change (input_arenaSize boostBattle) with 10 in TurnA.
  fold L in TurnA. fold st' in TurnA.
  rewrite HA, CA in TurnA. unfold turnOfTick, boostRightControls in TurnA.
  cbn [turn fire] in TurnA.
  replace (0 + 0 * (PI / 30) * 1) with 0 in TurnA by ring.
  rewrite normalizeAngleRad_small in TurnA by (pose proof PI_RGT_0; lra).
  destruct (tick_heading 10 t st) as [HeadA _]. fold L in HeadA. fold st' in HeadA.
  rewrite TurnA in HeadA. symmetry in HeadA.
  (* the burst tick of robot A *)
  assert (Applied : burstApplied 10 L SideA RIGHT k
                    /\ (k = 5%Z -> energy (movedA L) = 65)).
  { destruct (rotated_burst 10 st) as [RBA _]. fold L in RBA.
    destruct (rotated_lock 10 st) as [RLA _]. fold L in RLA.
    destruct (Z.eqb_spec k 5) as [->|NotFive].
    - pose proof (boostBattle_ready height t st) as Ready.
      cbv zeta in Ready. fold L in Ready.
      destruct Ready as (Bc & B0 & C0 & E0).
      { unfold boostRun. cbn [Z.eqb Pos.eqb]. tauto. }
      pose proof (tick_ignition 10 st SideA RIGHT IA IB AliveA AliveB) as Ignite.
      cbv zeta in Ignite. fold L in Ignite.
      cbn [rotatedOf controlOf movedOf] in Ignite.
      destruct Ignite as (_ & (Debit & _) & First).
      + exact Bc.
      + rewrite B0. lia.
      + exact C0.
      + rewrite E0. unfold SIDE_BOOST_ENERGY_COST. lra.
      + split; [exact First|]. intros _. rewrite Debit, E0. lra.
    - assert (NotZero : (k =? 0)%Z = false) by (apply Z.eqb_neq; lia).
      rewrite NotZero in Phase. destruct Phase as [Bk Lk].
      split; [|intros ->; contradiction].
      pose proof (tick_burst 10 st SideA RIGHT k AliveA AliveB) as Burst.
      cbv zeta in Burst. fold L in Burst. cbn [rotatedOf] in Burst.
      apply Burst; [rewrite RBA; exact Bk | rewrite RLA; exact Lk | exact K].
  }
  destruct Applied as [(Proposal & _ & Far & _ & Left & Lock) Energy].
  cbv zeta in Proposal, Far, Left, Lock.
  cbn [rotatedOf movedOf controlOf] in Proposal, Far, Left, Lock.
  rewrite RXA, RYA, XA, YA, HeadA, CA, Push in Proposal, Far.
  rewrite (plannedDelta_idle (rotatedA L) boostRightControls eq_refl eq_refl)
    in Proposal, Far.
  cbn [x y] in Proposal, Far.
  rewrite !Rplus_0_l, toFixed_0, (toFixed_grid 4 step GridS) in Proposal, Far.
  assert (GridT : onGrid 4 (height + step)) by now apply onGrid_plus.
  rewrite (clampToArena_inside 10 0 (height + step)) in Proposal, Far;
    try assumption; try lra; try apply (onGrid4_const 0).
  cbn [x y] in Far. rewrite toFixed_0, (toFixed_grid 4 _ GridT) in Far.
  (* the proposals are far apart *)
  assert (Free : ROBOT_COLLISION_RADIUS * 2 + EPSILON < proposalSeparation 10 L).
  { unfold proposalSeparation. cbv zeta. rewrite CA, CB, Proposal.
    unfold proposalOf. cbv zeta.
    destruct (tick_position 10 st) as (_ & (_ & _ & RXB & RYB & _)).
    fold L in RXB, RYB.
    destruct (rotated_burst 10 st) as [_ RBB]. fold L in RBB.
    rewrite (plannedDelta_idle (rotatedB L) neutralControls eq_refl eq_refl).
    rewrite resolveSideBoost_idle by (try reflexivity; rewrite RBB; exact BurstB).
    unfold positionOf. cbn [x y]. rewrite RXB, RYB, XB, YB.
    replace (0 + 0) with 0 by ring. rewrite toFixed_0.
    replace (9 + 0) with 9 by ring.
    rewrite (clampToArena_inside 10 9 9) by (try assumption; lra).
    cbn [x y].
    destruct (hypot_ge_abs (0 - 9) (height + step - 9)) as [Wide _].
    unfold ROBOT_COLLISION_RADIUS, EPSILON.
    replace (0 - 9) with (- 9) in * by ring.
    rewrite Rabs_left in Wide by lra. lra. }
  specialize (Far Free). unfold positionOf in Far.
  assert (MX : robot_x (movedA L) = 0) by congruence.
  assert (MY : robot_y (movedA L) = height + step) by congruence.
  (* the state after the tick *)
  assert (Start' : TickStart boostBattle (t + 1) st')
    by (apply (start_next boostBattle t st Start); assumption).
  split; [|intros Five; rewrite EnA; now apply Energy].
  unfold boostRun. split; [exact Start'|]. split; [exact Empty'|].
  split; [|split].
  - rewrite SB.
    match goal with
    | |- context [rememberEnemy (endB 10 st) ?b ?p] =>
        destruct (rememberEnemy_fields (endB 10 st) b p)
          as (X & Y & _ & _ & _ & _ & B & _)
    end.
    cbv zeta in X, Y, B. rewrite X, Y, B, EXB, EYB, XB, YB, BB, StayB.
    repeat split.
  - rewrite SA.
    match goal with
    | |- context [rememberEnemy ?a ?b ?p] =>
        destruct (rememberEnemy_fields a b p) as (X & Y & _)
    end.
    cbv zeta in X, Y. rewrite X, Y, EXA, EYA, MX, MY.
    split; [reflexivity|]. split; [reflexivity|].
    rewrite <- SA. exact TurnA.
  - replace (k - 1 =? 5)%Z with false by (symmetry; apply Z.eqb_neq; lia).
    destruct (Z.eqb_spec (k - 1) 0) as [_|More]; [exact I|].
    rewrite SA.
    match goal with
    | |- context [rememberEnemy ?a ?b ?p] =>
        destruct (rememberEnemy_fields a b p)
          as (_ & _ & _ & _ & _ & _ & B & Lk & _)
    end.
    cbv zeta in B, Lk. rewrite B, Lk, BA, LA, Left, Lock.
    replace (k =? 1)%Z with false by (symmetry; apply Z.eqb_neq; lia).
    split; reflexivity.
Qed.

Lemma boostBattle_start : boostRun 5 0 1 (initialBattleState boostBattle).
Proof.
  unfold boostRun. split; [apply start_first|]. split; [reflexivity|].
  unfold initialBattleState. cbv zeta. cbn [stateA stateB].
  set (a := buildRobotState (input_robotA boostBattle) 0 0 DirE).
  set (b := buildRobotState (input_robotB boostBattle) _ _ DirW).
  set (P := perceptionPair a b (input_arenaSize boostBattle)).
  destruct (rememberEnemy_fields a b P)
    as (XA & YA & HA & EA & _ & CA & BA & _).
  destruct (rememberEnemy_fields b (rememberEnemy a b P) P)
    as (XB & YB & _ & _ & _ & _ & BB & _).
  cbv zeta in *. rewrite XA, YA, HA, EA, CA, BA, XB, YB, BB.
  subst a b. cbn [robot_x robot_y headingRad energy boostCooldownTicks
                  boostBurstTicksRemaining buildRobotState input_arenaSize boostBattle].
  unfold headingByDirection, DIRECTION_ANGLE_DEG, SIDE_BOOST_ENERGY_MAX.
  cbn [Z.eqb Pos.eqb]. repeat split; try reflexivity; lra.
Qed.

(** The five ticks of the burst in the boost battle: robot A is carried
    0.4167, 0.3333, 0.25, 0.1667 and 0.0833 tiles to its right, 1.25 tiles
    in all, and its energy is 65 after the first of them. *)
Lemma boostBattle_run :
  let st := initialBattleState boostBattle in
  (boostRun 5 0 1 st
   /\ boostRun 4 (4167 / 10000) 2 (afterTicks 10 1 1 st)
   /\ boostRun 3 (7500 / 10000) 3 (afterTicks 10 2 1 st)
   /\ boostRun 2 1 4 (afterTicks 10 3 1 st)
   /\ boostRun 1 (11667 / 10000) 5 (afterTicks 10 4 1 st)
   /\ boostRun 0 (125 / 100) 6 (afterTicks 10 5 1 st))
  /\ energy (stateA (afterTicks 10 1 1 st)) = 65.
Proof.
  intros st.
  destruct lateralDelta_east as (D5 & D4 & D3 & D2 & D1 & _).
  pose proof boostBattle_start as R0. fold st in R0.
  assert (G : forall k : Z, onGrid 4 (IZR k / 10000))
    by (intros k; exists k; simpl; lra).
  destruct (boostBattle_tick 5 0 (4167 / 10000) 1 st R0) as [R1 E1];
    try assumption; try lia; try lra; try apply G; try apply (onGrid4_const 0).
  replace (0 + 4167 / 10000) with (4167 / 10000) in R1 by lra.
  change (boostRun 4 (4167 / 10000) 2 (afterTicks 10 1 1 st)) in R1.
  destruct (boostBattle_tick 4 (4167 / 10000) (3333 / 10000) 2 _ R1) as [R2 _];
    try assumption; try lia; try lra; try apply G.
  replace (4167 / 10000 + 3333 / 10000) with (7500 / 10000) in R2 by lra.
  change (boostRun 3 (7500 / 10000) 3 (afterTicks 10 2 1 st)) in R2.
  destruct (boostBattle_tick 3 (7500 / 10000) (2500 / 10000) 3 _ R2) as [R3 _];
    try assumption; try lia; try lra; try apply G.
  replace (7500 / 10000 + 2500 / 10000) with 1 in R3 by lra.
  change (boostRun 2 1 4 (afterTicks 10 3 1 st)) in R3.
  destruct (boostBattle_tick 2 1 (1667 / 10000) 4 _ R3) as [R4 _];
    try assumption; try lia; try lra; try apply G; try apply (onGrid4_const 1).
  replace (1 + 1667 / 10000) with (11667 / 10000) in R4 by lra.
  change (boostRun 1 (11667 / 10000) 5 (afterTicks 10 4 1 st)) in R4.
  destruct (boostBattle_tick 1 (11667 / 10000) (833 / 10000) 5 _ R4) as [R5 _];
    try assumption; try lia; try lra; try apply G.
  replace (11667 / 10000 + 833 / 10000) with (125 / 100) in R5 by lra.
  change (boostRun 0 (125 / 100) 6 (afterTicks 10 5 1 st)) in R5.
  split; [tauto|]. apply E1. reflexivity.
Qed.

(** The boost battle: robot A ignites at the tick 1, leaves the movement
    phase of that tick with 35 energy less and ends the tick with 65; the
    five ticks of the burst carry it from the height 0 to the heights
    0.4167, 0.75, 1, 1.1667 and 1.25 along the west wall, 1.25 tiles to the
    right of its heading due East. *)
Lemma C4_boost_ignition_and_burst_witness :
  let st := initialBattleState boostBattle in
  let L := tickLocals 10 st in
  (TickStart boostBattle 1 st
   /\ boost (controlA L) = Some RIGHT
   /\ (boostBurstTicksRemaining (rotatedA L) <= 0)%Z
   /\ boostCooldownTicks (rotatedA L) = 0%Z
   /\ SIDE_BOOST_ENERGY_COST <= energy (rotatedA L))
  /\ (energy (movedA L) = energy (rotatedA L) - 35
      /\ boostCooldownTicks (movedA L) = 10%Z)
  /\ (burstApplied 10 L SideA RIGHT 5
      /\ burstApplied 10 (tickLocals 10 (afterTicks 10 1 1 st)) SideA RIGHT 4
      /\ burstApplied 10 (tickLocals 10 (afterTicks 10 2 1 st)) SideA RIGHT 3
      /\ burstApplied 10 (tickLocals 10 (afterTicks 10 3 1 st)) SideA RIGHT 2
      /\ burstApplied 10 (tickLocals 10 (afterTicks 10 4 1 st)) SideA RIGHT 1)
  /\ energy (stateA (afterTicks 10 1 1 st)) = 65
  /\ (positionOf (stateA (afterTicks 10 1 1 st)) = {| x := 0; y := 4167 / 10000 |}
      /\ positionOf (stateA (afterTicks 10 2 1 st)) = {| x := 0; y := 7500 / 10000 |}
      /\ positionOf (stateA (afterTicks 10 3 1 st)) = {| x := 0; y := 1 |}
      /\ positionOf (stateA (afterTicks 10 4 1 st)) = {| x := 0; y := 11667 / 10000 |}
      /\ positionOf (stateA (afterTicks 10 5 1 st)) = {| x := 0; y := 125 / 100 |}).
Proof.
  intros st L.
  destruct boostBattle_run as ((R0 & R1 & R2 & R3 & R4 & R5) & E1).
  fold st in R0, R1, R2, R3, R4, R5, E1.
  pose proof (boostBattle_ready 0 1 st R0) as Ready. cbv zeta in Ready.
  fold L in Ready. destruct Ready as (Bc & B0 & C0 & E0).
  assert (Start : TickStart boostBattle 1 st) by apply R0.
  assert (Bu : (boostBurstTicksRemaining (rotatedA L) <= 0)%Z) by (rewrite B0; lia).
  assert (En : SIDE_BOOST_ENERGY_COST <= energy (rotatedA L))
    by (rewrite E0; unfold SIDE_BOOST_ENERGY_COST; lra).
  destruct (C4_boost_ignition_and_burst boostBattle 1 st SideA RIGHT Start Bc Bu C0 En)
    as (_ & Movement & Burst).
  assert (Position : forall k h t s, boostRun k h t s ->
                       positionOf (stateA s) = {| x := 0; y := h |}).
  { intros k h t s (_ & _ & _ & (X & Y & _) & _). unfold positionOf. now rewrite X, Y. }
  split; [tauto|]. split; [exact Movement|]. split.
  - split; [exact (Burst 0%nat ltac:(lia) Start)|].
    split; [exact (Burst 1%nat ltac:(lia) (proj1 R1))|].
    split; [exact (Burst 2%nat ltac:(lia) (proj1 R2))|].
    split; [exact (Burst 3%nat ltac:(lia) (proj1 R3))|].
    exact (Burst 4%nat ltac:(lia) (proj1 R4)).
  - split; [exact E1|].
    split; [exact (Position _ _ _ _ R1)|]. split; [exact (Position _ _ _ _ R2)|].
    split; [exact (Position _ _ _ _ R3)|]. split; [exact (Position _ _ _ _ R4)|].
    exact (Position _ _ _ _ R5).
Defined.

(** * Properties of the parser: the scripts that are rejected *)





